(* ===== verification/_CoqProject ===== *)
-Q . S2P
Prelude.v
Decimal.v
Entity.v
FlexCodec.v
Msgpack.v
MsgpackProofs.v
ServerState.v
Client.v
ServerInv.v
ClientService.v
PeerService.v
ServerCore.v
ClientProofs.v
Instances.v
HandlersProofs.v
SendersProofs.v
CoreProofs.v
MergeProofs.v
Frames.v
System.v
Holding.v
Network.v
NetworkProofs.v
SystemProofs.v
WorldProofs.v
Ledger.v
Liveness.v
VoteArrival.v
Scenario.v
EntityProps.v
HashProps.v
ServiceProps.v
ClientProps.v
CoreProps.v
SystemProps.v
ProgressProps.v
