(* ===== verification/Prelude.v ===== *)
(** * A verification development of dchain (TomChain)

    The program is a committee blockchain in C++. [n] servers keep blocks, [c] clients vote
    for them. The last server packs transactions into blocks and relays them to the other
    servers; once a block has been relayed it is signalled, and clients that pull see its
    header, fetch the block, sign it and send the vote to a server. A block is assigned to
    two servers, a primary and its shadow: votes go to those, through relay queues when a
    client sends them elsewhere. With a vote of every client a block leaves the pending map
    for the merge queue, its signature shares are merged, and it is committed, stored and
    broadcast to the other servers.

    ** The files

    - [Prelude.v]: machine integers, outcomes (value, exception, crash), the state monad
      with its weakest preconditions ([wp], [wp_simpl]), the function of a thread
      ([in_thread_of]), frames ([Keeps], [keeps_tac], [Moves]) and list and map lemmas.
    - [Decimal.v]: [std::to_string] and [std::stoi] on [uint64_t].
    - [Entity.v]: [Block], [BlockHeader], [BlockVote] ([entity/block.hpp], [block.cpp]) and
      [Transaction] ([transaction.hpp], [transaction.cpp]). libBLS, libff, ecdsa_cxx and
      PicoSHA2 are the class [Crypto]; [CryptoLaws] is what the code relies on.
    - [FlexCodec.v]: [flexbuffers_adapter<T>] ([entity/flexbuffers_adapter.hpp], [.cpp]) as
      the class [FlexAdapter] with its instances; FlexBuffers is the class [FlexBuffers]
      with [FlexBuffersLaws], and [FlexRoundTrip] is what an adapter promises to the
      handlers that read and write bytes.
    - [Msgpack.v]: the MessagePack adapters ([entity/msgpack_adapter.hpp]) and
      [Block::get_sha256] ([block.cpp]), whose preimage they write; MessagePack is the class
      [Msgpack] with [MsgpackLaws]. [MsgpackProofs.v]: what each adapter reads back.
    - [ServerState.v]: [TcServer] and [ClientProfile] ([server/tc-server.hpp]) as records.
      Blocks are shared between maps and queues, so they live in a heap and the maps and
      queues hold pointers. The heap names every block that was made, freed ones included.
      The environment ([Env]) is, for each server, its clock, its random draws, the status
      of its remote calls and whether its database opens, and the traversal order of a
      concurrent hash map.
    - [ServerInv.v]: the invariant [server_wf] of a server, the order [evolves] in which its
      state moves, and how every primitive operation keeps both.
    - [ClientService.v]: the handlers of [TcConsensusImpl] ([server/tc-server-grpc.hpp]).
    - [PeerService.v]: the handlers of [TcPeerConsensusImpl] and the sending operations of
      [TcServer] ([server/tc-server-peer-grpc.hpp]).
    - [ServerCore.v]: [src/server/tc-server.cpp]: initialization, generation and packing,
      merging, dead blocks, the sending rounds and the scheduler's tasks.
    - [Client.v]: [TcClient] ([client/tc-client.hpp], [client/tc-client-grpc.hpp],
      [src/client/tc-client.cpp]) with the choice of servers of its [main], over the class
      [ConsensusStub], the service as a client sees it. [ClientProofs.v]: its invariant
      [client_wf], and what its operations do whatever the servers answer.
    - [HandlersProofs.v], [SendersProofs.v], [CoreProofs.v], [MergeProofs.v]: what the
      operations of the three files before do, and that they keep the invariant.
    - [Frames.v]: what operations leave alone.
    - [System.v]: several servers and the network between them, as a step relation; a
      client is any source of requests.
    - [Network.v]: clients and servers together. [world_stub] implements [ConsensusStub] by
      the handlers of the servers of [System.v], with requests and responses that may be
      lost. [NetworkProofs.v]: what the clients do to the servers is a run of [System.v].
    - [Holding.v]: which blocks a server holds a pointer to. The code frees a block with its
      last pointer; no operation reaches a block again that nothing holds, so the heap need
      not free it.
    - [SystemProofs.v], [WorldProofs.v]: the invariant of the system and the ledger behind
      agreement.
    - [Ledger.v]: the abstract chain, and the relation between it and the servers.
    - [Liveness.v], [VoteArrival.v]: how a vote reaches a block, and a block its commit.
    - [Instances.v], [Scenario.v]: concrete libraries that satisfy the interfaces, and a run
      of two servers and two clients on them; the theorems' witnesses evaluate it.
    - [EntityProps.v], [HashProps.v], [ServiceProps.v], [ClientProps.v], [CoreProps.v],
      [SystemProps.v], [ProgressProps.v]: the theorems.

    ** How state and operations correspond

    A handler is a computation of the monad [M server]. A loop over the elements of a
    request is [mfor] or [mfold] of a definition per element ([VoteBlocks_item],
    [RelayVote_item], [RelayBlock_item], [SPBcastCommit_item], [GetBlocks_item],
    [PullPendingBlocks_entry]): between two elements a handler holds no accessor, so these
    are the steps that interleave in [System.v]. What the code does under the accessor of a
    pending block is one step there. The merging of one block, a sending operation and a
    round of a task are one step each as well: the system does not interleave inside them,
    so data races on the fields of one block (the merging thread writes timestamps while a
    sender serializes) and the two seconds in which handlers run before [init_peer_stubs]
    are outside the model. [continue] is a body that returns, an exception keeps
    the state it was thrown in, and a null dereference, a failed assertion or [exit] is a
    [Crash]. So is an exception that leaves the function of a thread: a callback of a timer
    is [timer_tick], which turns it into [Crash (Uncaught e)], and in [System.v] a server is
    not alive after it ([survives]). An exception in a handler is gRPC's to catch. Integers are [Z] with the wrap-around of their width written out ([wrap64],
    [add64], [sub64], [wrap32]). Logging, profiling blocks and locks have no counterpart.

    A remote call is the request it puts in the sender's [outbox] and a status chosen by the
    environment. In the system a request can be handled at any time after it was sent, in
    any order and more than once, which covers losses, delays and retries. In [System.v]
    clients are not trusted: their requests are any bytes under any id. The clients of
    [Network.v] are the program's: a round of one of their three threads is one step, so
    the system does not interleave inside a round, nor two threads of one client; what such
    a round does to the servers is still a run of single steps of [System.v]. The condition
    variable on which a client waits for a call is the sequence of the call and the rest.

    ** The theorems

    - [SystemProps.v]: every committed block carries a quorum of distinct voters; servers
      agree on the content of a block committed under an id; a committed block was packed by
      the packing server; committed, dead and signalled ids stay so, the blocks a server
      holds only grow and those it has let go of are not held again; no step that does not
      come from a client ends a server, but for the merging of votes when the signature
      library refuses a block; a block is merged at most once. Agreement and validity are about runs in
      which the 64-bit block counter does not wrap around, the others about all runs.
    - [ProgressProps.v]: the servers refine the abstract chain (an id is entered once, only
      entered ids are committed); a pending block for which the votes exist can be committed
      everywhere; clients and servers keep their invariants together; the vote of an honest
      client is counted at the server it calls.
    - [EntityProps.v]: round trips and injectivity of the serializer, the voter ids it
      cannot read, the assignment of blocks to servers, the merging of votes.
    - [HashProps.v]: the round trip of the MessagePack adapters, and that the message a
      client signs depends on the time stamps and votes of the copy it was given, up to a
      collision of the hash.
    - [ClientProps.v]: voting, pulling and fetching, construction and the choice of servers,
      with the failures of each: the check of transactions that never names an account, the
      blocks it cannot hold, the configurations it rejects.
    - [ServiceProps.v]: the answer and the effect of each handler, errors included.
    - [CoreProps.v]: delivery by the sending rounds, initialization, conservation and
      numbering by packing, committing and its failures, dead blocks, termination of the
      scheduler's tasks.

    ** Bounds and fuel

    The loops that pop a queue run [while_pop] with one round more than the queue has
    elements; nothing is pushed into the popped queue meanwhile, and [wp_while_pop] shows
    the loop ends with the queue empty. [pack_block] runs with one round more than the size
    of the pool, since each round takes a transaction (or than [num_block], when blocks may
    be empty); [pack_loop_spec] shows it is enough. [to_string] has twenty digits, enough
    for every [uint64_t].

    ** What is not modelled, and what comes next

    Parsing the options, reading the configuration file, logging, the profiler and the
    creation of threads in the two [main] functions are input and output; of the client's
    [main] the choice of servers is modelled ([client_main]), of the server's nothing but
    the calls of [TcServer] ([start], from [TcServer_new], on a configuration whose id is
    the one given). The members of [TcClient] that nothing touches ([accounts],
    [voted_blks], [committed_blks]) are left out. The FlatBuffers service
    ([tc-server-grpc-fb.hpp]) is not registered and does nothing. The tests exercise
    libraries.

    Progress is about what some run reaches: nothing in the code bounds how long a vote
    waits for its sending round, so no theorem says that every run commits. Next: the
    interleaving of the two halves of a merge with the handlers, and of the calls inside a
    client's round. *)
From Stdlib Require Import ZArith Lia.
From stdpp Require Import base tactics list gmap strings sorting.

Declare Scope dchain_scope.
Delimit Scope dchain_scope with dchain.
Open Scope dchain_scope.
Open Scope Z_scope.

(** ** Machine integers *)

(** [uint64_t] and [uint32_t] values are integers with the wrap-around written out. *)
Definition wrap64 (z : Z) : Z := z mod 2 ^ 64.
Definition wrap32 (z : Z) : Z := z mod 2 ^ 32.
Definition add64 (a b : Z) : Z := wrap64 (a + b).
Definition sub64 (a b : Z) : Z := wrap64 (a - b).
Definition u64 (z : Z) : Prop := 0 ≤ z < 2 ^ 64.
Definition u32 (z : Z) : Prop := 0 ≤ z < 2 ^ 32.
Definition INT_MAX : Z := 2147483647.

(** ** Outcomes *)

(** The exceptions the modelled code can raise. *)
Inductive exn :=
| OutOfRange
| InvalidArgument
| TypeError
| LibraryError.

(** What ends the process: a null or dangling dereference, a failed [assert]
    (the build type is Debug), a call of [exit], a division by zero, an exception that
    leaves the function of a thread ([std::terminate]). [OutOfFuel] is the model's own: a loop whose bound was too small. *)
Inductive fault :=
| NullDeref
| AssertFail
| ProcessExit (code : Z)
| DivByZero
| Uncaught (e : exn)
| OutOfFuel.

Inductive outcome (A : Type) :=
| Ret (a : A)
| Throw (e : exn)
| Crash (f : fault).
Arguments Ret {A} a.
Arguments Throw {A} e.
Arguments Crash {A} f.

Definition is_crash {A} (r : outcome A) : Prop :=
  match r with Crash _ => True | _ => False end.

Definition obind {A B} (r : outcome A) (k : A → outcome B) : outcome B :=
  match r with Ret a => k a | Throw e => Throw e | Crash f => Crash f end.

(** The value of an outcome that is one, for goals that only need that there is one. *)
Definition ret_of {A} (d : A) (r : outcome A) : A := match r with Ret a => a | _ => d end.
Definition returns {A} (r : outcome A) : bool := match r with Ret _ => true | _ => false end.

Lemma ret_of_eq {A} (d : A) r : returns r = true → r = Ret (ret_of d r).
Proof. by destruct r. Qed.

(** ** The state monad of a process *)

(** A computation over the state [St]. An exception leaves the state as it was
    when it was thrown, as C++ does. *)
Definition M (St A : Type) : Type := St → outcome A * St.

Definition mret {St A} (a : A) : M St A := λ s, (Ret a, s).
Definition mbind {St A B} (m : M St A) (k : A → M St B) : M St B :=
  λ s, match m s with
       | (Ret a, s') => k a s'
       | (Throw e, s') => (Throw e, s')
       | (Crash f, s') => (Crash f, s')
       end.
Definition mthrow {St A} (e : exn) : M St A := λ s, (Throw e, s).
Definition mcrash {St A} (f : fault) : M St A := λ s, (Crash f, s).
Definition gets {St A} (f : St → A) : M St A := λ s, (Ret (f s), s).
Definition modify {St} (f : St → St) : M St unit := λ s, (Ret tt, f s).
Definition lift {St A} (r : outcome A) : M St A := λ s, (r, s).

(** [try { m } catch (std::exception &) { h }]: a crash is not caught. *)
Definition try_catch {St A} (m : M St A) (h : exn → M St A) : M St A :=
  λ s, match m s with
       | (Throw e, s') => h e s'
       | r => r
       end.

(** The function of a thread: an exception that leaves it ends the process. *)
Definition in_thread_of {St A} (m : M St A) : M St A := try_catch m (λ e, mcrash (Uncaught e)).

Notation "x <- m ;; k" := (mbind m (λ x, k))
  (at level 100, m at next level, right associativity) : dchain_scope.
Notation "m ;; k" := (mbind m (λ _ : unit, k))
  (at level 100, right associativity) : dchain_scope.

(** [for (x : xs) body]; [continue] is a body that returns. *)
Fixpoint mfor {St A} (xs : list A) (body : A → M St unit) : M St unit :=
  match xs with
  | [] => mret tt
  | x :: xs' => body x ;; mfor xs' body
  end.

(** The same loop with a local variable the body updates. *)
Fixpoint mfold {St A B} (xs : list A) (body : B → A → M St B) (b : B) : M St B :=
  match xs with
  | [] => mret b
  | x :: xs' => b' <- body b x ;; mfold xs' body b'
  end.

(** [while (q.try_pop(x)) body], with a bound on the number of rounds. *)
Fixpoint while_pop {St A B} (fuel : nat) (pop : M St (option A))
    (body : B → A → M St B) (b : B) : M St B :=
  match fuel with
  | O => mcrash OutOfFuel
  | S n =>
      o <- pop ;;
      match o with
      | None => mret b
      | Some x => b' <- body b x ;; while_pop n pop body b'
      end
  end.

(** ** Weakest preconditions *)

(** [wp m Q s]: running [m] from [s] ends in an outcome and a state that satisfy [Q].
    The monad is total, so this is total correctness. *)
Definition wp {St A} (m : M St A) (Q : outcome A → St → Prop) (s : St) : Prop :=
  Q (fst (m s)) (snd (m s)).

(** ** Ordered iteration of [std::map] and [std::set] *)

Definition key_le {A} (p q : Z * A) : Prop := p.1 ≤ q.1.
#[export] Instance key_le_dec {A} : RelDecision (@key_le A).
Proof. intros p q. unfold key_le. apply _. Defined.

Definition map_iter {A} (m : gmap Z A) : list (Z * A) := merge_sort key_le (map_to_list m).
Definition set_iter (s : gset Z) : list Z := merge_sort Z.le (elements s).

(** [std::map::insert]: an existing key keeps its value. *)
Definition map_insert_new {A} (k : Z) (v : A) (m : gmap Z A) : gmap Z A :=
  match m !! k with Some _ => m | None => <[k := v]> m end.

(** ** Lemmas: integers *)

Create HintDb dchain.
Create Rewrite HintDb wp.

Lemma wrap64_id z : u64 z → wrap64 z = z.
Proof. intros. apply Z.mod_small. done. Qed.

Lemma wrap32_id z : u32 z → wrap32 z = z.
Proof. intros. apply Z.mod_small. done. Qed.

Lemma wrap64_u64 z : u64 (wrap64 z).
Proof. unfold u64, wrap64. apply Z.mod_pos_bound. lia. Qed.

Lemma wrap32_u32 z : u32 (wrap32 z).
Proof. unfold u32, wrap32. apply Z.mod_pos_bound. lia. Qed.

Lemma u32_u64 z : u32 z → u64 z.
Proof. unfold u32, u64. lia. Qed.

Lemma ret_no_crash {A} (a : A) : ¬ is_crash (Ret a).
Proof. exact (λ H, H). Qed.

Lemma throw_no_crash {A} e : ¬ is_crash (@Throw A e).
Proof. exact (λ H, H). Qed.

(** Two offsets smaller than the modulus that meet are equal. *)
Lemma wrap64_shift_inj a i j :
  0 ≤ i < 2 ^ 64 → 0 ≤ j < 2 ^ 64 → wrap64 (a + i) = wrap64 (a + j) → i = j.
Proof.
  unfold wrap64. intros Hi Hj Heq.
  assert ((i - j) mod 2 ^ 64 = 0) as Hz.
  { replace (i - j) with ((a + i) - (a + j)) by lia. by rewrite Zminus_mod, Heq, Z.sub_diag. }
  apply Z.mod_divide in Hz as [k Hk]; [|done]. nia.
Qed.

#[export] Hint Resolve wrap64_u64 wrap32_u32 u32_u64 ret_no_crash throw_no_crash : dchain.

(** ** Lemmas: weakest preconditions *)

Section wp.
Context {St : Type}.

Lemma wp_ret {A} (a : A) (Q : outcome A → St → Prop) s : wp (mret a) Q s ↔ Q (Ret a) s.
Proof. done. Qed.

Lemma wp_throw {A} e (Q : outcome A → St → Prop) s : wp (mthrow e) Q s ↔ Q (Throw e) s.
Proof. done. Qed.

Lemma wp_crash {A} f (Q : outcome A → St → Prop) s : wp (mcrash f) Q s ↔ Q (Crash f) s.
Proof. done. Qed.

Lemma wp_gets {A} (f : St → A) Q s : wp (gets f) Q s ↔ Q (Ret (f s)) s.
Proof. done. Qed.

Lemma wp_modify (f : St → St) Q s : wp (modify f) Q s ↔ Q (Ret tt) (f s).
Proof. done. Qed.

Lemma wp_lift {A} (r : outcome A) (Q : outcome A → St → Prop) s : wp (lift r) Q s ↔ Q r s.
Proof. done. Qed.

Lemma wp_bind {A B} (m : M St A) (k : A → M St B) Q s :
  wp (mbind m k) Q s ↔
  wp m (λ r s', match r with
                | Ret a => wp (k a) Q s'
                | Throw e => Q (Throw e) s'
                | Crash f => Q (Crash f) s'
                end) s.
Proof. unfold wp, mbind. by destruct (m s) as [[a|e|f] s']. Qed.

Lemma wp_try_catch {A} (m : M St A) h Q s :
  wp (try_catch m h) Q s ↔
  wp m (λ r s', match r with
                | Ret a => Q (Ret a) s'
                | Throw e => wp (h e) Q s'
                | Crash f => Q (Crash f) s'
                end) s.
Proof. unfold wp, try_catch. by destruct (m s) as [[a|e|f] s']. Qed.

Lemma wp_mono {A} (m : M St A) (Q Q' : outcome A → St → Prop) s :
  wp m Q s → (∀ r s', Q r s' → Q' r s') → wp m Q' s.
Proof. unfold wp. auto. Qed.

Lemma wp_and {A} (m : M St A) (Q Q' : outcome A → St → Prop) s :
  wp m Q s → wp m Q' s → wp m (λ r s', Q r s' ∧ Q' r s') s.
Proof. unfold wp. auto. Qed.

(** The loop rule: [I] holds after each element that returned, and whatever stops
    the loop early already satisfies [Q]. *)
Lemma wp_mfor {A} (I : St → Prop) (xs : list A) body (Q : outcome unit → St → Prop) s :
  I s →
  (∀ s', I s' → Q (Ret tt) s') →
  (∀ x s', x ∈ xs → I s' →
     wp (body x) (λ r s'', match r with Ret _ => I s'' | _ => Q r s'' end) s') →
  wp (mfor xs body) Q s.
Proof.
  revert s. induction xs as [|x xs IH]; intros s HI HQ Hb; simpl.
  { by apply HQ. }
  apply wp_bind. eapply wp_mono; [apply Hb; [by left|done]|].
  intros [[]|e|f] s' H; [|done..].
  apply IH; [done..|]. intros y s'' Hy. apply Hb. by right.
Qed.

(** The same rule with an invariant that tells which elements are done. *)
Lemma wp_mfor_seq {A} (I : list A → St → Prop) (xs : list A) body
    (Q : outcome unit → St → Prop) s :
  I [] s →
  (∀ s', I xs s' → Q (Ret tt) s') →
  (∀ pre x post s', xs = pre ++ x :: post → I pre s' →
     wp (body x) (λ r s'', match r with Ret _ => I (pre ++ [x]) s'' | _ => Q r s'' end) s') →
  wp (mfor xs body) Q s.
Proof.
  intros HI HQ Hb.
  assert (∀ post pre s, xs = pre ++ post → I pre s → wp (mfor post body) Q s) as H.
  { clear HI s. induction post as [|x post IH]; intros pre s E HI; simpl.
    { rewrite app_nil_r in E. subst. by apply HQ. }
    apply wp_bind. eapply wp_mono; [by eapply Hb|].
    intros [[]|e|f] s' H; [|done..]. eapply (IH (pre ++ [x])); [|done].
    by rewrite <- (assoc_L (++)). }
  by apply (H xs []).
Qed.

Lemma wp_mfold {A B} (I : B → St → Prop) (xs : list A) body b (Q : outcome B → St → Prop) s :
  I b s →
  (∀ b' s', I b' s' → Q (Ret b') s') →
  (∀ x b' s', x ∈ xs → I b' s' →
     wp (body b' x) (λ r s'', match r with Ret b'' => I b'' s'' | _ => Q r s'' end) s') →
  wp (mfold xs body b) Q s.
Proof.
  revert b s. induction xs as [|x xs IH]; intros b s HI HQ Hb; simpl.
  { by apply HQ. }
  apply wp_bind. eapply wp_mono; [apply Hb; [by left|done]|].
  intros [b'|e|f] s' H; [|done..].
  apply IH; [done..|]. intros y b'' s'' Hy. apply Hb. by right.
Qed.

(** The rule of the popping loop: [J pre rest b s] holds when the elements [pre] have
    been processed and [rest] are left, and tells what a pop does; the bound is larger
    than the number of elements. So the loop ends with the queue empty. *)
Lemma wp_while_pop {A B} (pop : M St (option A)) (drop : list A → St → St)
    (body : B → A → M St B) (J : list A → list A → B → St → Prop)
    (Q : outcome B → St → Prop) fuel pre rest b s :
  (∀ pre rest b s, J pre rest b s →
     pop s = match rest with
             | [] => (Ret None, s)
             | x :: rest' => (Ret (Some x), drop rest' s)
             end) →
  (∀ pre x rest b s, J pre (x :: rest) b s →
     wp (body b x) (λ r s', match r with
                            | Ret b' => J (pre ++ [x]) rest b' s'
                            | _ => Q r s'
                            end) (drop rest s)) →
  (∀ b s, J (pre ++ rest) [] b s → Q (Ret b) s) →
  J pre rest b s → (length rest < fuel)%nat →
  wp (while_pop fuel pop body b) Q s.
Proof.
  intros Hpop Hbody. revert fuel pre b s.
  induction rest as [|x rest IH]; intros [|n] pre b s HQ HJ Hlen; simpl in *; [lia| |lia|];
    apply wp_bind; unfold wp at 1; rewrite (Hpop _ _ _ _ HJ); simpl.
  { apply HQ. by rewrite app_nil_r. }
  apply wp_bind. eapply wp_mono; [by apply (Hbody pre)|].
  intros [b'|e|f] s' H; [|done..].
  apply (IH n (pre ++ [x])); [|done|lia].
  intros b2 s2. rewrite <- (assoc_L (++)). apply HQ.
Qed.

End wp.

#[export] Hint Rewrite @wp_ret @wp_throw @wp_crash @wp_gets @wp_modify @wp_lift @wp_bind
  @wp_try_catch
  : wp.

(** Symbolic execution of the primitive operations of the monad. *)
Ltac wp_simpl := autorewrite with wp; cbn beta iota.

(** A loop that skips one element is the loop over the others. *)
Lemma mfor_skip {St} (self : Z) (body : Z → M St unit) xs s :
  mfor xs (λ t, if t =? self then mret tt else body t) s =
  mfor (filter (λ t, t ≠ self) xs) body s.
Proof.
  revert s. induction xs as [|t xs IH]; intros s; [done|]. cbn [mfor]. rewrite filter_cons.
  destruct (Z.eqb_spec t self) as [->|Hne].
  - rewrite decide_False by (intros Hn; by apply Hn). unfold mbind at 1, mret at 1. apply IH.
  - rewrite decide_True by done. cbn [mfor]. unfold mbind.
    destruct (body t s) as [[a|e|f] s1]; [apply IH|done..].
Qed.

(** ** Frames *)

(** [Keeps f m]: whatever [m] does, it leaves the part [f] of the state alone. *)
Class Keeps {St X A : Type} (f : St → X) (m : M St A) : Prop :=
  keeps s : f (snd (m s)) = f s.

Section keeps.
Context {St X : Type} (f : St → X).

#[export] Instance keeps_ret {A} (a : A) : Keeps f (mret a).
Proof. done. Qed.

#[export] Instance keeps_throw {A} e : Keeps f (@mthrow St A e).
Proof. done. Qed.

#[export] Instance keeps_crash {A} g : Keeps f (@mcrash St A g).
Proof. done. Qed.

#[export] Instance keeps_gets {A} (g : St → A) : Keeps f (gets g).
Proof. done. Qed.

#[export] Instance keeps_lift {A} (r : outcome A) : Keeps f (lift r).
Proof. done. Qed.

Lemma keeps_bind {A B} (m : M St A) (k : A → M St B) :
  Keeps f m → (∀ a, Keeps f (k a)) → Keeps f (mbind m k).
Proof.
  intros Hm Hk s. unfold mbind. specialize (Hm s).
  destruct (m s) as [[a|e|g] s']; [|done..]. simpl in *. by rewrite (Hk a s').
Qed.

Lemma keeps_try_catch {A} (m : M St A) h :
  Keeps f m → (∀ e, Keeps f (h e)) → Keeps f (try_catch m h).
Proof.
  intros Hm Hh s. unfold try_catch. specialize (Hm s).
  destruct (m s) as [[a|e|g] s']; [done| |done]. simpl in *. by rewrite (Hh e s').
Qed.

Lemma keeps_mfor {A} (xs : list A) body : (∀ x, Keeps f (body x)) → Keeps f (mfor xs body).
Proof. intros H. induction xs as [|x xs IH]; simpl; [apply _|]. by apply keeps_bind. Qed.

Lemma keeps_mfold {A B} (xs : list A) (body : B → A → M St B) b :
  (∀ b x, Keeps f (body b x)) → Keeps f (mfold xs body b).
Proof.
  intros H. revert b. induction xs as [|x xs IH]; intros b; simpl; [apply _|].
  by apply keeps_bind.
Qed.

Lemma keeps_while_pop {A B} fuel pop (body : B → A → M St B) b :
  Keeps f pop → (∀ b x, Keeps f (body b x)) → Keeps f (while_pop fuel pop body b).
Proof.
  intros Hp H. revert b. induction fuel as [|n IH]; intros b; simpl; [apply _|].
  apply keeps_bind; [done|]. intros [x|]; [|apply _]. apply keeps_bind; [done|]. intros b'.
  apply IH.
Qed.

Lemma wp_keeps {A} (m : M St A) (Q : outcome A → St → Prop) s :
  Keeps f m → wp m Q s → wp m (λ r s', Q r s' ∧ f s' = f s) s.
Proof. intros Hk H. split; [done|apply Hk]. Qed.

End keeps.

(** [Moves f R m]: whatever [m] does, the part [f] of the state before and after it is
    related by [R]. *)
Class Moves {St X A : Type} (f : St → X) (R : relation X) (m : M St A) : Prop :=
  moves s : R (f s) (f (snd (m s))).

Section moves.
Context {St X : Type} (f : St → X) (R : relation X) `{!PreOrder R}.

Lemma moves_keeps {A} (m : M St A) : Keeps f m → Moves f R m.
Proof. intros H s. rewrite (H s). done. Qed.

Lemma moves_bind {A B} (m : M St A) (k : A → M St B) :
  Moves f R m → (∀ a, Moves f R (k a)) → Moves f R (mbind m k).
Proof.
  intros Hm Hk s. unfold mbind. specialize (Hm s).
  destruct (m s) as [[a|e|g] s']; [|done..]. simpl in *. etrans; [done|apply Hk].
Qed.

Lemma moves_mfor {A} (xs : list A) body : (∀ x, Moves f R (body x)) → Moves f R (mfor xs body).
Proof.
  intros H. induction xs as [|x xs IH]; simpl; [apply moves_keeps, _|]. by apply moves_bind.
Qed.

Lemma moves_try_catch {A} (m : M St A) h :
  Moves f R m → (∀ e, Moves f R (h e)) → Moves f R (try_catch m h).
Proof.
  intros Hm Hh s. unfold try_catch. specialize (Hm s).
  destruct (m s) as [[a|e|g] s']; [done| |done]. simpl in *. etrans; [done|apply Hh].
Qed.

Lemma moves_while_pop {A B} fuel pop (body : B → A → M St B) b :
  Moves f R pop → (∀ b x, Moves f R (body b x)) → Moves f R (while_pop fuel pop body b).
Proof.
  intros Hp H. revert b. induction fuel as [|n IH]; intros b; simpl; [apply moves_keeps, _|].
  apply moves_bind; [done|]. intros [x|]; [|apply moves_keeps, _]. apply moves_bind; [done|].
  apply IH.
Qed.

End moves.

(** Proves [Keeps f m] by the structure of [m]. The leaves are the primitive operations,
    which the components declare with [keeps_prim]. *)
Create HintDb keeps.
Ltac keeps_step :=
  first
    [ progress intros
    | apply _
    | solve [auto with keeps]
    | apply keeps_bind | apply keeps_try_catch | apply keeps_mfor | apply keeps_mfold
    | apply keeps_while_pop
    | match goal with
      | |- Keeps _ (match ?x with _ => _ end) => destruct x
      | |- Keeps _ (modify _) => intros ?; reflexivity
      end ].
Ltac keeps_tac := repeat keeps_step.

(** ** Lemmas: lists, maps and sets *)

Lemma filter_all {A} (P : A → Prop) `{!∀ x, Decision (P x)} (l : list A) :
  (∀ x, x ∈ l → P x) → filter P l = l.
Proof.
  induction l as [|x l IH]; intros Hl; [done|]. rewrite filter_cons_True by (apply Hl; by left).
  f_equal. apply IH. intros y Hy. apply Hl. by right.
Qed.

Lemma omap_nil {A B} (f : A → option B) l : (∀ x, x ∈ l → f x = None) → omap f l = [].
Proof.
  induction l as [|x l IH]; intros Hl; [done|]. cbn [omap list_omap].
  rewrite Hl by by left. apply IH. intros y Hy. apply Hl. by right.
Qed.

Lemma elem_of_concat {A} (x : A) ls : x ∈ concat ls ↔ ∃ l, x ∈ l ∧ l ∈ ls.
Proof.
  induction ls as [|l ls IH]; simpl.
  - split; [intros H; by apply not_elem_of_nil in H|].
    intros (l & _ & H). by apply not_elem_of_nil in H.
  - rewrite elem_of_app, IH. split.
    + intros [H|(l' & H & H')]; [exists l|exists l']; (split; [done|]); [by left|by right].
    + intros (l' & H & [->|H']%elem_of_cons); eauto.
Qed.

Lemma concat_nil {A} (ls : list (list A)) : Forall (λ l, l = []) ls → concat ls = [].
Proof. induction 1 as [|l ls -> _ IH]; done. Qed.

(** The first element of a list that satisfies a property splits it in one way. *)
Lemma first_split {A} (P : A → Prop) pre x rest pre' x' rest' :
  pre ++ x :: rest = pre' ++ x' :: rest' →
  (∀ y, y ∈ pre → ¬ P y) → (∀ y, y ∈ pre' → ¬ P y) → P x → P x' →
  pre = pre' ∧ x = x' ∧ rest = rest'.
Proof.
  revert pre'. induction pre as [|y pre IH]; intros [|y' pre'] Heq H H' Hx Hx'; simpl in Heq;
    injection Heq as Hy Hr; subst.
  - done.
  - destruct (H' y'); [by left|done].
  - destruct (H x'); [by left|done].
  - destruct (IH pre' Hr) as (-> & -> & ->); try done;
      intros z Hz; [apply H|apply H']; by right.
Qed.

Lemma map_iter_perm {A} (m : gmap Z A) : map_iter m ≡ₚ map_to_list m.
Proof. apply merge_sort_Permutation. Qed.

Lemma elem_of_map_iter {A} (m : gmap Z A) k v : (k, v) ∈ map_iter m ↔ m !! k = Some v.
Proof. by rewrite map_iter_perm, elem_of_map_to_list. Qed.

Lemma NoDup_fst_map_iter {A} (m : gmap Z A) : NoDup (map_iter m).*1.
Proof. rewrite map_iter_perm. apply NoDup_fst_map_to_list. Qed.

Lemma elem_of_set_iter (X : gset Z) x : x ∈ set_iter X ↔ x ∈ X.
Proof. unfold set_iter. by rewrite merge_sort_Permutation, elem_of_elements. Qed.

Lemma NoDup_set_iter (X : gset Z) : NoDup (set_iter X).
Proof. unfold set_iter. rewrite merge_sort_Permutation. apply NoDup_elements. Qed.

Lemma map_iter_sorted {A} (m : gmap Z A) : StronglySorted key_le (map_iter m).
Proof.
  apply StronglySorted_merge_sort.
  - intros p q r. unfold key_le. lia.
  - intros p q. unfold key_le. lia.
Qed.

Lemma lookup_map_insert_new {A} (k i : Z) (v : A) m :
  map_insert_new k v m !! i =
  if decide (i = k) then Some (default v (m !! k)) else m !! i.
Proof.
  unfold map_insert_new. case_decide; subst.
  - destruct (m !! k) eqn:E; simpl; [done|by rewrite lookup_insert_eq].
  - destruct (m !! k); [done|by rewrite lookup_insert_ne].
Qed.

Lemma map_insert_new_subseteq {A} (k : Z) (v : A) m : m ⊆ map_insert_new k v m.
Proof.
  unfold map_insert_new. destruct (m !! k) eqn:E; [done|by apply insert_subseteq].
Qed.

Lemma dom_map_insert_new {A} (k : Z) (v : A) m : dom (map_insert_new k v m) = {[k]} ∪ dom m.
Proof.
  unfold map_insert_new. destruct (m !! k) eqn:E; [|apply dom_insert_L].
  apply elem_of_dom_2 in E. set_solver.
Qed.

#[export] Hint Resolve map_insert_new_subseteq : dchain.
