(* ===== verification/Decimal.v ===== *)
(** [std::to_string] on unsigned integers and [std::stoi] on strings: the conversions
    the block serializer uses for the keys of its map of votes. *)
From Stdlib Require Import ZArith Lia Ascii String.
From stdpp Require Import base tactics list strings.
From S2P Require Import Prelude.

(** ** Definitions *)

Definition digit (d : Z) : ascii := ascii_of_nat (Z.to_nat (48 + d)).

(** The value of a decimal digit. *)
Definition digit_val (c : ascii) : option Z :=
  let n := Z.of_nat (nat_of_ascii c) in
  if bool_decide (48 ≤ n ≤ 57) then Some (n - 48) else None.

(** The digits of [n], most significant first, put before [acc]. Twenty digits hold
    every value below [10 ^ 20], hence every [uint64_t]. *)
Fixpoint to_dec (fuel : nat) (n : Z) (acc : string) : string :=
  match fuel with
  | O => acc
  | S f =>
      if n <? 10 then String (digit n) acc
      else to_dec f (n / 10) (String (digit (n mod 10)) acc)
  end.

Definition to_string (n : Z) : string := to_dec 20 n EmptyString.

(** The value of the longest prefix of digits, and whether it has one. *)
Fixpoint parse_dec (acc : Z) (any : bool) (s : string) : Z * bool :=
  match s with
  | EmptyString => (acc, any)
  | String c s' =>
      match digit_val c with
      | Some d => parse_dec (acc * 10 + d) true s'
      | None => (acc, any)
      end
  end.

Definition is_space (c : ascii) : bool :=
  let n := nat_of_ascii c in
  bool_decide (n = 32%nat ∨ (9 ≤ n ≤ 13)%nat).

Fixpoint skip_space (s : string) : string :=
  match s with
  | String c s' => if is_space c then skip_space s' else s
  | EmptyString => s
  end.

Definition parse_sign (s : string) : Z * string :=
  match s with
  | String "-"%char s' => (-1, s')
  | String "+"%char s' => (1, s')
  | _ => (1, s)
  end.

(** [std::stoi(s)]: leading white space, an optional sign, digits; the value is an
    [int], so anything outside 32 bits signed is [std::out_of_range]. *)
Definition stoi (s : string) : outcome Z :=
  let '(sg, s') := parse_sign (skip_space s) in
  let '(v, any) := parse_dec 0 false s' in
  if negb any then Throw InvalidArgument
  else if bool_decide (- 2 ^ 31 ≤ sg * v < 2 ^ 31) then Ret (sg * v)
  else Throw OutOfRange.

(** ** Lemmas *)

Lemma digit_val_digit d : 0 ≤ d < 10 → digit_val (digit d) = Some d.
Proof.
  intros H. unfold digit_val, digit.
  rewrite nat_ascii_embedding by lia. rewrite Z2Nat.id by lia.
  rewrite bool_decide_true by lia. f_equal. lia.
Qed.

Lemma parse_to_dec fuel n acc any :
  0 ≤ n < 10 ^ Z.of_nat fuel → (0 < fuel)%nat →
  parse_dec 0 any (to_dec fuel n acc) = parse_dec n true acc.
Proof.
  revert n acc any. induction fuel as [|f IH]; intros n acc any Hn Hf; [lia|].
  cbn [to_dec]. destruct (Z.ltb_spec n 10) as [Hlt|Hge].
  { cbn [parse_dec]. rewrite digit_val_digit by lia. f_equal. }
  assert (0 < f)%nat as Hf'.
  { destruct f; [|lia]. change (10 ^ Z.of_nat 1) with 10 in Hn. lia. }
  rewrite Nat2Z.inj_succ, Z.pow_succ_r in Hn by lia.
  rewrite IH; [|split; [apply Z.div_pos; lia|apply Z.div_lt_upper_bound; lia]|done].
  cbn [parse_dec]. rewrite digit_val_digit by (apply Z.mod_pos_bound; lia).
  f_equal. pose proof (Z.div_mod n 10). lia.
Qed.

Lemma parse_to_string n any : u64 n → parse_dec 0 any (to_string n) = (n, true).
Proof.
  intros [H1 H2]. unfold to_string. rewrite parse_to_dec; [done| |lia].
  split; [done|]. change (10 ^ Z.of_nat 20) with 100000000000000000000. lia.
Qed.

(** Distinct keys are printed to distinct strings. *)
Lemma to_string_inj a b : u64 a → u64 b → to_string a = to_string b → a = b.
Proof.
  intros Ha Hb E. pose proof (parse_to_string a false Ha) as Pa.
  rewrite E, parse_to_string in Pa by done. congruence.
Qed.

Lemma to_dec_head fuel n acc :
  0 ≤ n → (0 < fuel)%nat → ∃ d s, 0 ≤ d < 10 ∧ to_dec fuel n acc = String (digit d) s.
Proof.
  revert n acc. induction fuel as [|f IH]; intros n acc Hn Hf; [lia|]. cbn [to_dec].
  destruct (Z.ltb_spec n 10); [eauto with lia|].
  destruct f as [|f]; [|apply IH; [apply Z.div_pos; lia|lia]].
  exists (n mod 10), acc. split; [apply Z.mod_pos_bound; lia|done].
Qed.

Lemma sign_digit d s : 0 ≤ d < 10 →
  parse_sign (skip_space (String (digit d) s)) = (1, String (digit d) s).
Proof.
  intros H.
  assert (d = 0 ∨ d = 1 ∨ d = 2 ∨ d = 3 ∨ d = 4 ∨ d = 5 ∨ d = 6 ∨ d = 7 ∨ d = 8 ∨ d = 9)
    as Hd by lia.
  by destruct_or! Hd; subst.
Qed.

(** [stoi] inverts [to_string] exactly below [2 ^ 31]; above, it throws. *)
Lemma stoi_to_string n : u64 n →
  stoi (to_string n) = if bool_decide (n < 2 ^ 31) then Ret n else Throw OutOfRange.
Proof.
  intros Hn. unfold stoi.
  destruct (to_dec_head 20 n EmptyString) as (d & s & Hd & E); [by destruct Hn|lia|].
  unfold to_string in *. rewrite E, sign_digit, <- E by done.
  fold (to_string n). rewrite parse_to_string by done. simpl negb. cbv iota.
  rewrite Z.mul_1_l. destruct Hn. repeat case_bool_decide; [done|lia|lia|done].
Qed.
