(* ===== verification/Entity.v ===== *)
(** The chain's entities: [include/entity/transaction.hpp], [include/entity/block.hpp],
    [src/entity/transaction.cpp] and [src/entity/block.cpp], over an interface for the
    threshold-signature library the votes carry shares of. *)
From Stdlib Require Import ZArith Lia.
From stdpp Require Import base tactics list gmap strings sorting.
From S2P Require Import Prelude.

(** ** The cryptographic libraries *)

Abbreviation bytes := (list Byte.byte).

(** libBLS, libff, ecdsa_cxx and PicoSHA2 as the code calls them. The sources are not
    part of the repository, so every operation is a parameter; one that can raise an
    exception returns an [outcome]. [createDKGSecretShares] and [newEccKey] take the
    randomness of the call as their first arguments: the process and the moment.
    [G1_image] is the 96-byte memory image of a [libff::alt_bn128_G1] that the adapters
    copy through a [uint8_t] pointer. *)
Class Crypto := {
  G1 : Type;
  G1_image : G1 → bytes;
  G1_of_image : bytes → G1;
  BLSSigShare : Type;
  mkBLSSigShare : G1 → string → Z → Z → Z → outcome BLSSigShare;
  getSigShare : BLSSigShare → G1;
  getHint : BLSSigShare → string;
  getSignerIndex : BLSSigShare → Z;
  getRequiredSigners : BLSSigShare → Z;
  getTotalSigners : BLSSigShare → Z;
  BLSSignature : Type;
  mkBLSSignature : G1 → string → Z → Z → outcome BLSSignature;
  sig_getSig : BLSSignature → G1;
  sig_getHint : BLSSignature → string;
  sig_getRequiredSigners : BLSSignature → Z;
  sig_getTotalSigners : BLSSignature → Z;
  sig_toString : BLSSignature → string;
  BLSSignature_of_string : string → Z → Z → outcome BLSSignature;
  BLSSigShareSet : Type;
  newBLSSigShareSet : Z → Z → BLSSigShareSet;
  addSigShare : BLSSigShareSet → option BLSSigShare → outcome BLSSigShareSet;
  isEnough : BLSSigShareSet → bool;
  merge : BLSSigShareSet → Z → outcome BLSSignature;
  BLSPrivateKeyShare : Type;
  BLSPublicKeyShare : Type;
  Fr : Type;
  createDKGSecretShares : Z → nat → Z → Z → list Fr;
  skey_of_Fr : Fr → Z → Z → outcome BLSPrivateKeyShare;
  pkey_of_Fr : Fr → Z → Z → outcome BLSPublicKeyShare;
  skey_to_string : BLSPrivateKeyShare → bytes;
  skey_of_string : bytes → Z → Z → outcome BLSPrivateKeyShare;
  getPrivateKey : BLSPrivateKeyShare → Fr;
  sign : BLSPrivateKeyShare → bytes → Z → outcome BLSSigShare;
  PubKey : Type;
  mkPubKey : bytes → outcome PubKey;
  get_pub_key_data : PubKey → bytes;
  EccKey : Type;
  newEccKey : Z → nat → EccKey;
  CreatePubKey : EccKey → PubKey;
  hash256 : bytes → bytes;
}.

(** What the code relies on: the image of a group element has the size the adapters
    assert and determines it; a share rebuilt from its own components is the share; a
    signature rebuilt from its string has that string (the string holds affine
    coordinates, so the representation may change); the set of shares reports its errors
    with exceptions. *)
Class CryptoLaws (C : Crypto) : Prop := {
  G1_image_length g : length (G1_image g) = 96%nat;
  G1_of_image_image g : G1_of_image (G1_image g) = g;
  mkBLSSigShare_components s :
    mkBLSSigShare (getSigShare s) (getHint s) (getSignerIndex s)
      (getRequiredSigners s) (getTotalSigners s) = Ret s;
  getSignerIndex_u64 s : u64 (getSignerIndex s);
  getRequiredSigners_u64 s : u64 (getRequiredSigners s);
  getTotalSigners_u64 s : u64 (getTotalSigners s);
  mkBLSSignature_components s :
    mkBLSSignature (sig_getSig s) (sig_getHint s)
      (sig_getRequiredSigners s) (sig_getTotalSigners s) = Ret s;
  sig_getRequiredSigners_u64 s : u64 (sig_getRequiredSigners s);
  sig_getTotalSigners_u64 s : u64 (sig_getTotalSigners s);
  BLSSignature_of_toString s : ∃ s',
    BLSSignature_of_string (sig_toString s) (sig_getRequiredSigners s)
      (sig_getTotalSigners s) = Ret s' ∧
    sig_toString s' = sig_toString s ∧
    sig_getRequiredSigners s' = sig_getRequiredSigners s ∧
    sig_getTotalSigners s' = sig_getTotalSigners s;
  addSigShare_no_crash set o : ¬ is_crash (addSigShare set o);
  merge_no_crash set n : ¬ is_crash (merge set n);
}.

#[export] Hint Resolve getSignerIndex_u64 getRequiredSigners_u64 getTotalSigners_u64
  sig_getRequiredSigners_u64 sig_getTotalSigners_u64 : dchain.

(** ** Data *)

Record Transaction := MkTransaction {
  tx_id_ : Z;
  tx_sender_ : Z;
  tx_receiver_ : Z;
  tx_value_ : Z;
  tx_fee_ : Z;
}.

Record BlockHeader := MkBlockHeader {
  id_ : Z;
  base_id_ : Z;
  proposal_ts_ : Z;
  dist_ts_ : Z;
  commit_ts_ : Z;
  recv_ts_ : Z;
}.

Section entity.
Context {C : Crypto}.

Record BlockVote := MkBlockVote {
  block_id_ : Z;
  voter_id_ : Z;
  sig_share_ : option BLSSigShare;
}.

Record Block := MkBlock {
  header_ : BlockHeader;
  tx_vec_ : list Transaction;
  votes_ : gmap Z BlockVote;
  tss_sig_ : option BLSSignature;
}.

(** ** Constructors *)

Definition Transaction_new (id sender receiver value fee : Z) : Transaction :=
  MkTransaction id sender receiver value fee.

Definition Transaction_copy (tx : Transaction) : Transaction :=
  MkTransaction (tx_id_ tx) (tx_sender_ tx) (tx_receiver_ tx) (tx_value_ tx) (tx_fee_ tx).

Definition BlockHeader_default : BlockHeader := MkBlockHeader 0 0 0 0 0 0.

Definition BlockHeader_new (id base_id proposal_timestamp : Z) : BlockHeader :=
  MkBlockHeader id base_id proposal_timestamp 0 0 0.

Definition BlockHeader_copy (bh : BlockHeader) : BlockHeader :=
  MkBlockHeader (id_ bh) (base_id_ bh) (proposal_ts_ bh) (dist_ts_ bh) (commit_ts_ bh)
    (recv_ts_ bh).

Definition BlockVote_default : BlockVote := MkBlockVote 0 0 None.

Definition BlockVote_copy (bv : BlockVote) : BlockVote :=
  MkBlockVote (block_id_ bv) (voter_id_ bv) (sig_share_ bv).

Definition Block_default : Block := MkBlock BlockHeader_default [] ∅ None.

Definition Block_new (id base_id proposal_ts : Z) : Block :=
  MkBlock (BlockHeader_new id base_id proposal_ts) [] ∅ None.

Definition Block_copy (b : Block) : Block :=
  MkBlock (BlockHeader_copy (header_ b)) (tx_vec_ b) (votes_ b) (tss_sig_ b).

(** ** Field assignments *)

Definition set_dist_ts (t : Z) (h : BlockHeader) : BlockHeader :=
  MkBlockHeader (id_ h) (base_id_ h) (proposal_ts_ h) t (commit_ts_ h) (recv_ts_ h).
Definition set_commit_ts (t : Z) (h : BlockHeader) : BlockHeader :=
  MkBlockHeader (id_ h) (base_id_ h) (proposal_ts_ h) (dist_ts_ h) t (recv_ts_ h).
Definition set_recv_ts (t : Z) (h : BlockHeader) : BlockHeader :=
  MkBlockHeader (id_ h) (base_id_ h) (proposal_ts_ h) (dist_ts_ h) (commit_ts_ h) t.
Definition upd_header (f : BlockHeader → BlockHeader) (b : Block) : Block :=
  MkBlock (f (header_ b)) (tx_vec_ b) (votes_ b) (tss_sig_ b).
Definition upd_votes (f : gmap Z BlockVote → gmap Z BlockVote) (b : Block) : Block :=
  MkBlock (header_ b) (tx_vec_ b) (f (votes_ b)) (tss_sig_ b).
Definition set_tx_vec (txs : list Transaction) (b : Block) : Block :=
  MkBlock (header_ b) txs (votes_ b) (tss_sig_ b).
Definition set_tss_sig (sg : option BLSSignature) (b : Block) : Block :=
  MkBlock (header_ b) (tx_vec_ b) (votes_ b) sg.

(** ** Operations *)

Definition Block_insert (tx : Transaction) (b : Block) : Block :=
  set_tx_vec (tx_vec_ b ++ [tx]) b.

(** [Block::get_server_id]: the primary server of a block and the shadow after it,
    server ids counting from one. *)
Definition get_server_id (b : Block) (server_count : Z) : outcome (gset Z) :=
  if server_count =? 0 then Crash DivByZero
  else
    let primary_id := add64 (id_ (header_ b) mod server_count) 1 in
    let shadow_id := add64 primary_id 1 in
    let shadow_id := if server_count <? shadow_id then 1 else shadow_id in
    Ret ({[primary_id]} ∪ {[shadow_id]}).

Definition is_vote_enough (b : Block) (target_num : Z) : bool :=
  target_num <=? Z.of_nat (size (votes_ b)).

(** The loop of [Block::merge_votes] that feeds the shares in the order of the map. *)
Fixpoint add_sig_shares (set : BLSSigShareSet) (votes : list (Z * BlockVote))
    : outcome BLSSigShareSet :=
  match votes with
  | [] => Ret set
  | (_, vote) :: votes' =>
      obind (addSigShare set (sig_share_ vote)) (λ set', add_sig_shares set' votes')
  end.

(** [Block::merge_votes]: the block after the call. *)
Definition Block_merge_votes (b : Block) (target_num : Z) : outcome Block :=
  obind (add_sig_shares (newBLSSigShareSet target_num target_num) (map_iter (votes_ b)))
    (λ set,
      if isEnough set then obind (merge set 16) (λ sg, Ret (set_tss_sig (Some sg) b))
      else Ret b).

(** ** Well-formedness: every integer field fits the machine type it has *)

Definition tx_wf (tx : Transaction) : Prop :=
  u64 (tx_id_ tx) ∧ u64 (tx_sender_ tx) ∧ u64 (tx_receiver_ tx) ∧
  u64 (tx_value_ tx) ∧ u64 (tx_fee_ tx).

Definition header_wf (h : BlockHeader) : Prop :=
  u64 (id_ h) ∧ u64 (base_id_ h) ∧ u64 (proposal_ts_ h) ∧
  u64 (dist_ts_ h) ∧ u64 (commit_ts_ h) ∧ u64 (recv_ts_ h).

Definition vote_wf (v : BlockVote) : Prop := u64 (block_id_ v) ∧ u64 (voter_id_ v).

Definition block_wf (b : Block) : Prop :=
  header_wf (header_ b) ∧ Forall tx_wf (tx_vec_ b) ∧
  map_Forall (λ k v, u64 k ∧ vote_wf v) (votes_ b).

(** The ids of blocks, in order. *)
Definition block_ids (bs : list Block) : list Z := (λ b, id_ (header_ b)) <$> bs.

(** ** The assignment of blocks to servers *)

(** The server after [i] on the ring of [n] servers. *)
Definition next_server (n i : Z) : Z := if i =? n then 1 else i + 1.

Lemma get_server_id_unfold b n : 0 < n < 2 ^ 64 - 1 → u64 (id_ (header_ b)) →
  get_server_id b n =
  Ret {[ id_ (header_ b) mod n + 1; next_server n (id_ (header_ b) mod n + 1) ]}.
Proof.
  intros Hn Hid. unfold get_server_id, next_server, add64.
  pose proof (Z.mod_pos_bound (id_ (header_ b)) n).
  destruct (Z.eqb_spec n 0); [lia|].
  rewrite !wrap64_id by (unfold u64; rewrite ?wrap64_id; unfold u64; lia).
  destruct (Z.ltb_spec n (id_ (header_ b) mod n + 1 + 1)),
    (Z.eqb_spec (id_ (header_ b) mod n + 1) n); try lia; done.
Qed.

Lemma get_server_id_ret b n S : get_server_id b n = Ret S → S ≠ ∅.
Proof.
  unfold get_server_id. destruct (n =? 0); [done|]. intros [= <-]. set_solver.
Qed.

Lemma get_server_id_mem b n S x : 0 < n < 2 ^ 64 - 1 → u64 (id_ (header_ b)) →
  get_server_id b n = Ret S → x ∈ S → 1 ≤ x ≤ n.
Proof.
  intros Hn Hid. rewrite get_server_id_unfold by done. intros [= <-].
  pose proof (Z.mod_pos_bound (id_ (header_ b)) n). unfold next_server.
  destruct (Z.eqb_spec (id_ (header_ b) mod n + 1) n);
    rewrite elem_of_union, !elem_of_singleton; lia.
Qed.

Lemma is_vote_enough_spec b n :
  is_vote_enough b n = true ↔ n ≤ Z.of_nat (size (votes_ b)).
Proof. unfold is_vote_enough. apply Z.leb_le. Qed.

Lemma Block_merge_votes_fields b n b' : Block_merge_votes b n = Ret b' →
  header_ b' = header_ b ∧ tx_vec_ b' = tx_vec_ b ∧ votes_ b' = votes_ b.
Proof.
  unfold Block_merge_votes. destruct (add_sig_shares _ _) as [set| |]; [|done..].
  simpl. destruct (isEnough set); [|by intros [= <-]].
  destruct (merge set 16); [|done..]. by intros [= <-].
Qed.

Lemma add_sig_shares_no_crash {CL : CryptoLaws C} votes set :
  ¬ is_crash (add_sig_shares set votes).
Proof.
  revert set. induction votes as [|[k v] votes IH]; intros set; simpl; [tauto|].
  pose proof (addSigShare_no_crash set (sig_share_ v)) as H.
  destruct (addSigShare _ _); simpl in *; [apply IH|tauto..].
Qed.

(** [collects set shares set']: the library accepts the shares, every one of them and in
    this order, on top of [set]. *)
Inductive collects : BLSSigShareSet → list (option BLSSigShare) → BLSSigShareSet → Prop :=
| collects_nil set : collects set [] set
| collects_cons set share shares set1 set2 :
    addSigShare set share = Ret set1 → collects set1 shares set2 →
    collects set (share :: shares) set2.

(** The shares the votes of a block carry, in the order of the map. *)
Definition shares_of (b : Block) : list (option BLSSigShare) :=
  sig_share_ <$> (map_iter (votes_ b)).*2.

(** The loop of [Block::merge_votes] collects every share, or stops at the first one the
    library does not accept. *)
Lemma add_sig_shares_collects {CL : CryptoLaws C} votes set :
  match add_sig_shares set votes with
  | Ret set' => collects set (sig_share_ <$> votes.*2) set'
  | Throw e => ∃ pre share rest set', sig_share_ <$> votes.*2 = pre ++ share :: rest ∧
      collects set pre set' ∧ addSigShare set' share = Throw e
  | Crash _ => False
  end.
Proof.
  revert set. induction votes as [|[k v] votes IH]; intros set; simpl; [constructor|].
  pose proof (addSigShare_no_crash set (sig_share_ v)) as H.
  destruct (addSigShare set _) as [set1|e|f] eqn:Ea; simpl in *; [|by exists [], (sig_share_ v), (sig_share_ <$> votes.*2), set; split_and!; try constructor|tauto].
  specialize (IH set1). destruct (add_sig_shares set1 votes) as [set2|e|f]; [|..|done].
  - by econstructor.
  - destruct IH as (pre & share & rest & set' & Heq & Hc & Hs).
    exists (sig_share_ v :: pre), share, rest, set'. split_and!; [simpl in *; by f_equal| |done].
    by econstructor.
Qed.

Lemma Block_merge_votes_no_crash {CL : CryptoLaws C} b n : ¬ is_crash (Block_merge_votes b n).
Proof.
  unfold Block_merge_votes.
  pose proof (add_sig_shares_no_crash (map_iter (votes_ b)) (newBLSSigShareSet n n)) as H.
  destruct (add_sig_shares _ _) as [set| |]; simpl in *; [|tauto..].
  destruct (isEnough set); [|simpl; tauto].
  pose proof (merge_no_crash set 16) as Hm. destruct (merge set 16); simpl in *; tauto.
Qed.

End entity.
