(* ===== verification/FlexCodec.v ===== *)
(** The block serializer: [include/entity/flexbuffers_adapter.hpp] and
    [src/entity/flexbuffers_adapter.cpp], over an interface for FlexBuffers.

    The template [flexbuffers_adapter<T>] is the class [FlexAdapter], its
    specializations are instances. A sequence of builder calls is a value of [fx]; the
    buffer it gives and the accessors of a parsed buffer are parameters. *)
From Stdlib Require Import ZArith Lia.
From stdpp Require Import base tactics list gmap strings sorting.
From S2P Require Import Prelude Decimal Entity.

(** ** FlexBuffers *)

(** The calls made on a [flexbuffers::Builder], as a tree. *)
Inductive fx :=
| FxNull
| FxUInt (u : Z)
| FxString (s : string)
| FxBlob (b : bytes)
| FxVector (l : list fx)
| FxMap (kvs : list (string * fx)).

(** The library: the finished buffer of a builder, and the accessors of a reference. *)
Class FlexBuffers := {
  Reference : Type;
  GetBuffer : fx → bytes;
  GetRoot : bytes → Reference;
  AsUInt64 : Reference → Z;
  AsString : Reference → string;
  AsBlob : Reference → bytes;
  IsNull : Reference → bool;
  vec_size : Reference → nat;
  vec_at : Reference → nat → Reference;
  Keys : Reference → list string;
  map_at : Reference → string → Reference;
}.

(** A builder call tree the library documents: integers that fit, distinct keys. *)
Fixpoint fx_wf (v : fx) : Prop :=
  match v with
  | FxUInt u => u64 u
  | FxVector l => (fix all l := match l with [] => True | v :: l' => fx_wf v ∧ all l' end) l
  | FxMap kvs =>
      NoDup kvs.*1 ∧
      (fix all l := match l with [] => True | (_, v) :: l' => fx_wf v ∧ all l' end) kvs
  | _ => True
  end.

(** [refers r v]: the reference [r] was reached inside the buffer of a builder at the
    place where [v] was added. *)
Inductive refers {F : FlexBuffers} : Reference → fx → Prop :=
| refers_root v : fx_wf v → refers (GetRoot (GetBuffer v)) v
| refers_vec r l i v : refers r (FxVector l) → l !! i = Some v → refers (vec_at r i) v
| refers_map r kvs k v : refers r (FxMap kvs) → (k, v) ∈ kvs → refers (map_at r k) v.

(** Reading back what was written; [AsUInt64] returns a [uint64_t] on any input. *)
Class FlexBuffersLaws (F : FlexBuffers) : Prop := {
  AsUInt64_law r u : refers r (FxUInt u) → AsUInt64 r = u;
  AsString_law r s : refers r (FxString s) → AsString r = s;
  AsBlob_law r b : refers r (FxBlob b) → AsBlob r = b;
  IsNull_law r v : refers r v → IsNull r = match v with FxNull => true | _ => false end;
  vec_size_law r l : refers r (FxVector l) → vec_size r = length l;
  Keys_law r kvs : refers r (FxMap kvs) → Keys r ≡ₚ kvs.*1;
  AsUInt64_u64 r : u64 (AsUInt64 r);
}.

(** ** The adapters *)

(** [flexbuffers_adapter<T>]. *)
Class FlexAdapter (T : Type) := {
  to_bytes : T → bytes;
  from_bytes : bytes → outcome T;
}.

Arguments to_bytes {T _} _ : simpl never.
Arguments from_bytes {T _} _ : simpl never.

(** What an adapter promises: on the values in [ok], reading the written bytes gives the
    value up to [canon], the part of it that is written at all. *)
Class FlexRoundTrip (T : Type) (A : FlexAdapter T) (ok : T → Prop) (canon : T → T) : Prop :=
  from_to x : ok x → from_bytes (to_bytes x) = Ret (canon x).

Section adapters.
Context {C : Crypto} {F : FlexBuffers}.

Definition BLSSigShare_to_bytes (s : BLSSigShare) : bytes :=
  GetBuffer (FxMap [("g1", FxBlob (G1_image (getSigShare s)));
                    ("hint", FxString (getHint s));
                    ("signer_index", FxUInt (getSignerIndex s));
                    ("t", FxUInt (getRequiredSigners s));
                    ("n", FxUInt (getTotalSigners s))]).

Definition BLSSigShare_from_bytes (b : bytes) : outcome BLSSigShare :=
  let map := GetRoot b in
  let g1_blob := AsBlob (map_at map "g1") in
  if negb (length g1_blob =? 96)%nat then Crash AssertFail
  else
    mkBLSSigShare (G1_of_image g1_blob) (AsString (map_at map "hint"))
      (AsUInt64 (map_at map "signer_index")) (AsUInt64 (map_at map "t"))
      (AsUInt64 (map_at map "n")).

Definition BLSSignature_to_bytes (s : BLSSignature) : bytes :=
  GetBuffer (FxMap [("sig", FxBlob (G1_image (sig_getSig s)));
                    ("hint", FxString (sig_getHint s));
                    ("t", FxUInt (sig_getRequiredSigners s));
                    ("n", FxUInt (sig_getTotalSigners s))]).

Definition BLSSignature_from_bytes (b : bytes) : outcome BLSSignature :=
  let map := GetRoot b in
  let g1_blob := AsBlob (map_at map "sig") in
  if negb (length g1_blob =? 96)%nat then Crash AssertFail
  else
    mkBLSSignature (G1_of_image g1_blob) (AsString (map_at map "hint"))
      (AsUInt64 (map_at map "t")) (AsUInt64 (map_at map "n")).

#[export] Instance BLSSigShare_adapter : FlexAdapter BLSSigShare :=
  {| to_bytes := BLSSigShare_to_bytes; from_bytes := BLSSigShare_from_bytes |}.
#[export] Instance BLSSignature_adapter : FlexAdapter BLSSignature :=
  {| to_bytes := BLSSignature_to_bytes; from_bytes := BLSSignature_from_bytes |}.

Definition BlockVote_to_bytes (v : BlockVote) : bytes :=
  GetBuffer (FxMap [("block_id", FxUInt (block_id_ v));
                    ("voter_id", FxUInt (voter_id_ v));
                    ("sig_share", match sig_share_ v with
                                  | None => FxNull
                                  | Some s => FxBlob (to_bytes s)
                                  end)]).

Definition BlockVote_from_bytes (b : bytes) : outcome BlockVote :=
  let map := GetRoot b in
  let block_id := AsUInt64 (map_at map "block_id") in
  let voter_id := AsUInt64 (map_at map "voter_id") in
  let ss_ref := map_at map "sig_share" in
  if negb (IsNull ss_ref)
  then obind (from_bytes (AsBlob ss_ref))
         (λ sig_share, Ret (MkBlockVote block_id voter_id (Some sig_share)))
  else Ret (MkBlockVote block_id voter_id None).

Definition BlockHeader_to_bytes (bh : BlockHeader) : bytes :=
  GetBuffer (FxMap [("id", FxUInt (id_ bh));
                    ("base_id", FxUInt (base_id_ bh));
                    ("proposal_ts", FxUInt (proposal_ts_ bh));
                    ("dist_ts", FxUInt (dist_ts_ bh));
                    ("commit_ts", FxUInt (commit_ts_ bh));
                    ("recv_ts", FxUInt (recv_ts_ bh))]).

Definition BlockHeader_from_bytes (b : bytes) : outcome BlockHeader :=
  let map := GetRoot b in
  Ret (MkBlockHeader (AsUInt64 (map_at map "id")) (AsUInt64 (map_at map "base_id"))
         (AsUInt64 (map_at map "proposal_ts")) (AsUInt64 (map_at map "dist_ts"))
         (AsUInt64 (map_at map "commit_ts")) (AsUInt64 (map_at map "recv_ts"))).

Definition Transaction_to_bytes (tx : Transaction) : bytes :=
  GetBuffer (FxMap [("id", FxUInt (tx_id_ tx));
                    ("sender", FxUInt (tx_sender_ tx));
                    ("receiver", FxUInt (tx_receiver_ tx));
                    ("value", FxUInt (tx_value_ tx));
                    ("fee", FxUInt (tx_fee_ tx))]).

Definition Transaction_from_bytes (b : bytes) : outcome Transaction :=
  let map := GetRoot b in
  Ret (MkTransaction (AsUInt64 (map_at map "id")) (AsUInt64 (map_at map "sender"))
         (AsUInt64 (map_at map "receiver")) (AsUInt64 (map_at map "value"))
         (AsUInt64 (map_at map "fee"))).

#[export] Instance BlockVote_adapter : FlexAdapter BlockVote :=
  {| to_bytes := BlockVote_to_bytes; from_bytes := BlockVote_from_bytes |}.
#[export] Instance BlockHeader_adapter : FlexAdapter BlockHeader :=
  {| to_bytes := BlockHeader_to_bytes; from_bytes := BlockHeader_from_bytes |}.
#[export] Instance Transaction_adapter : FlexAdapter Transaction :=
  {| to_bytes := Transaction_to_bytes; from_bytes := Transaction_from_bytes |}.

(** The inner vector of a transaction in a block. *)
Definition tx_fields (tx : Transaction) : fx :=
  FxVector [FxUInt (tx_id_ tx); FxUInt (tx_sender_ tx); FxUInt (tx_receiver_ tx);
            FxUInt (tx_value_ tx); FxUInt (tx_fee_ tx)].

Definition tx_of_fields (r : Reference) : Transaction :=
  MkTransaction (AsUInt64 (vec_at r 0)) (AsUInt64 (vec_at r 1)) (AsUInt64 (vec_at r 2))
    (AsUInt64 (vec_at r 3)) (AsUInt64 (vec_at r 4)).

(** One entry of the map of votes. *)
Definition vote_entry (kv : Z * BlockVote) : string * fx :=
  (to_string kv.1, FxBlob (to_bytes kv.2)).

(** The merged signature is not written: its lines are commented out in the source. *)
Definition Block_to_bytes (block : Block) : bytes :=
  GetBuffer (FxMap [("header", FxBlob (to_bytes (header_ block)));
                    ("tx_vec", FxVector (tx_fields <$> tx_vec_ block));
                    ("votes", FxMap (vote_entry <$> map_iter (votes_ block)))]).

(** The loop over the keys: a key is read with [std::stoi], whose [int] is converted to
    the [uint64_t] key of the map, and [std::map::insert] keeps an existing entry. *)
Fixpoint votes_from (votes_fb : Reference) (keys : list string) (votes : gmap Z BlockVote)
    : outcome (gmap Z BlockVote) :=
  match keys with
  | [] => Ret votes
  | key :: keys' =>
      obind (from_bytes (AsBlob (map_at votes_fb key))) (λ vote,
      obind (stoi key) (λ k,
      votes_from votes_fb keys' (map_insert_new (wrap64 k) vote votes)))
  end.

Definition Block_from_bytes (b : bytes) : outcome Block :=
  let map := GetRoot b in
  obind (from_bytes (AsBlob (map_at map "header"))) (λ bh,
  let tx_vec_fb := map_at map "tx_vec" in
  let tx_vec := (λ i, tx_of_fields (vec_at tx_vec_fb i)) <$> seq 0 (vec_size tx_vec_fb) in
  let votes_fb := map_at map "votes" in
  obind (votes_from votes_fb (Keys votes_fb) ∅) (λ votes,
  Ret (MkBlock bh tx_vec votes (tss_sig_ Block_default)))).

#[export] Instance Block_adapter : FlexAdapter Block :=
  {| to_bytes := Block_to_bytes; from_bytes := Block_from_bytes |}.

End adapters.

(** ** Well-formed builder trees *)

Lemma fx_wf_vector l : fx_wf (FxVector l) ↔ Forall fx_wf l.
Proof.
  induction l as [|v l IH]; [done|].
  change (fx_wf (FxVector (v :: l))) with (fx_wf v ∧ fx_wf (FxVector l)).
  by rewrite Forall_cons, IH.
Qed.

Lemma fx_wf_map kvs : fx_wf (FxMap kvs) ↔ NoDup kvs.*1 ∧ Forall (λ kv, fx_wf kv.2) kvs.
Proof.
  cbn [fx_wf]. apply and_iff_compat_l.
  induction kvs as [|[k v] kvs IH]; [done|]. by rewrite Forall_cons, IH.
Qed.

(** Reading an entry of a map. *)
Section reading.
Context {F : FlexBuffers} {L : FlexBuffersLaws F}.

Lemma map_uint r kvs k u :
  refers r (FxMap kvs) → (k, FxUInt u) ∈ kvs → AsUInt64 (map_at r k) = u.
Proof. eauto using AsUInt64_law, refers. Qed.

Lemma map_string r kvs k s :
  refers r (FxMap kvs) → (k, FxString s) ∈ kvs → AsString (map_at r k) = s.
Proof. eauto using AsString_law, refers. Qed.

Lemma map_blob r kvs k b :
  refers r (FxMap kvs) → (k, FxBlob b) ∈ kvs → AsBlob (map_at r k) = b.
Proof. eauto using AsBlob_law, refers. Qed.

Lemma map_null r kvs k v :
  refers r (FxMap kvs) → (k, v) ∈ kvs →
  IsNull (map_at r k) = match v with FxNull => true | _ => false end.
Proof. eauto using IsNull_law, refers. Qed.

Lemma vec_uint r l i u :
  refers r (FxVector l) → l !! i = Some (FxUInt u) → AsUInt64 (vec_at r i) = u.
Proof. eauto using AsUInt64_law, refers. Qed.

End reading.

Ltac fx_mem := repeat first [apply list_elem_of_here | apply list_elem_of_further].
Ltac fx_keys := apply (bool_decide_unpack _); vm_compute; exact I.
(** [fx_wf] of a map with literal keys. *)
Ltac fx_wf_solve :=
  rewrite fx_wf_map; split; [fx_keys|];
  repeat (apply Forall_cons_2; [simpl; eauto with dchain|]); apply Forall_nil_2.
(** The reference at the root of the buffer the goal parses. *)
Ltac fx_root R :=
  match goal with
  | |- context [GetBuffer ?v] =>
      assert (refers (GetRoot (GetBuffer v)) v) as R by (apply refers_root; fx_wf_solve)
  end.
(** Evaluate every accessor of a map the reference of which is known. *)
Ltac fx_read :=
  repeat first
    [ erewrite map_uint by (first [eassumption | by fx_mem])
    | erewrite map_string by (first [eassumption | by fx_mem])
    | erewrite map_blob by (first [eassumption | by fx_mem]) ].

(** ** Round trips *)

Section roundtrip.
Context {C : Crypto} {CL : CryptoLaws C} {F : FlexBuffers} {L : FlexBuffersLaws F}.

#[export] Instance BLSSigShare_roundtrip :
  FlexRoundTrip BLSSigShare BLSSigShare_adapter (λ _, True) id.
Proof.
  intros s _. cbv [to_bytes from_bytes BLSSigShare_adapter].
  unfold BLSSigShare_from_bytes, BLSSigShare_to_bytes.
  fx_root R.
  cbv zeta. fx_read. rewrite G1_image_length. simpl.
  rewrite G1_of_image_image. apply mkBLSSigShare_components.
Qed.

#[export] Instance BLSSignature_roundtrip :
  FlexRoundTrip BLSSignature BLSSignature_adapter (λ _, True) id.
Proof.
  intros s _. cbv [to_bytes from_bytes BLSSignature_adapter].
  unfold BLSSignature_from_bytes, BLSSignature_to_bytes.
  fx_root R.
  cbv zeta. fx_read. rewrite G1_image_length. simpl.
  rewrite G1_of_image_image. apply mkBLSSignature_components.
Qed.

#[export] Instance BlockVote_roundtrip :
  FlexRoundTrip BlockVote BlockVote_adapter vote_wf id.
Proof.
  intros [bid vid os] [H1 H2]. cbv [to_bytes from_bytes BlockVote_adapter].
  unfold BlockVote_from_bytes, BlockVote_to_bytes. simpl in *.
  destruct os as [s|]; fx_root R; cbv zeta;
    (erewrite map_null by (first [eassumption | by fx_mem])); simpl; fx_read; [|done].
  by rewrite from_to.
Qed.

#[export] Instance BlockHeader_roundtrip :
  FlexRoundTrip BlockHeader BlockHeader_adapter header_wf id.
Proof.
  intros [a b c d e f] (?&?&?&?&?&?). cbv [to_bytes from_bytes BlockHeader_adapter].
  unfold BlockHeader_from_bytes, BlockHeader_to_bytes. simpl in *.
  fx_root R.
  cbv zeta. fx_read. done.
Qed.

#[export] Instance Transaction_roundtrip :
  FlexRoundTrip Transaction Transaction_adapter tx_wf id.
Proof.
  intros [a b c d e] (?&?&?&?&?). cbv [to_bytes from_bytes Transaction_adapter].
  unfold Transaction_from_bytes, Transaction_to_bytes. simpl in *.
  fx_root R.
  cbv zeta. fx_read. done.
Qed.

(** *** Blocks *)

Lemma tx_of_fields_spec r tx :
  refers r (tx_fields tx) → tx_of_fields r = tx.
Proof.
  intros R. unfold tx_of_fields, tx_fields in *. destruct tx as [a b c d e].
  by do 5 (erewrite vec_uint by first [eassumption|reflexivity]).
Qed.

Lemma tx_vec_spec r txs :
  refers r (FxVector (tx_fields <$> txs)) →
  (λ i, tx_of_fields (vec_at r i)) <$> seq 0 (vec_size r) = txs.
Proof.
  intros R. rewrite (vec_size_law _ _ R), length_fmap.
  apply list_eq. intros i. rewrite list_lookup_fmap.
  destruct (decide (i < length txs)%nat) as [Hi|Hi].
  - rewrite lookup_seq_lt by done. simpl.
    destruct (lookup_lt_is_Some_2 _ _ Hi) as [tx Htx]. rewrite Htx. f_equal.
    apply tx_of_fields_spec. eapply refers_vec; [done|]. by rewrite list_lookup_fmap, Htx.
  - rewrite lookup_seq_ge by lia. symmetry. apply lookup_ge_None. lia.
Qed.

(** The keys an encoded map of votes can hold. *)
Definition keys_small (votes : gmap Z BlockVote) : Prop :=
  map_Forall (λ k _, k < 2 ^ 31) votes.

Lemma votes_from_spec r votes ks acc :
  map_Forall (λ k v, u64 k ∧ vote_wf v) votes →
  refers r (FxMap (vote_entry <$> map_iter votes)) →
  NoDup ks → (∀ k, k ∈ ks → is_Some (votes !! k) ∧ acc !! k = None) →
  if bool_decide (Forall (λ k, k < 2 ^ 31) ks)
  then ∃ m, votes_from r (to_string <$> ks) acc = Ret m ∧
            ∀ i, m !! i = if decide (i ∈ ks) then votes !! i else acc !! i
  else votes_from r (to_string <$> ks) acc = Throw OutOfRange.
Proof.
  intros Hwf R. revert acc. induction ks as [|k ks IH]; intros acc Hnd Hks.
  { rewrite bool_decide_true by constructor. exists acc. split; [done|].
    intros i. by rewrite decide_False by apply not_elem_of_nil. }
  apply NoDup_cons in Hnd as [Hk Hnd].
  destruct (Hks k) as [[v Hv] Hacc]; [by left|].
  destruct (Hwf k v Hv) as [Hku Hvw]. cbn [fmap list_fmap votes_from].
  rewrite (map_blob r (vote_entry <$> map_iter votes) _ (to_bytes v));
    [|done|apply (list_elem_of_fmap_2 vote_entry _ (k, v)); by rewrite elem_of_map_iter].
  rewrite (from_to v Hvw). simpl obind.
  rewrite stoi_to_string by done.
  destruct (decide (Forall (λ k, k < 2 ^ 31) (k :: ks))) as [H2|H2];
    [rewrite (bool_decide_true _ H2)|rewrite (bool_decide_false _ H2)];
    rewrite Forall_cons in H2.
  - destruct H2 as [Hsmall H2]. rewrite bool_decide_true by done. simpl obind.
    rewrite wrap64_id by done.
    specialize (IH (map_insert_new k v acc) Hnd). rewrite bool_decide_true in IH by done.
    destruct IH as (m & -> & Hm).
    { intros i Hi. destruct (Hks i) as [H1 H3]; [by right|]. split; [done|].
      rewrite lookup_map_insert_new. rewrite decide_False; [done|]. by intros ->. }
    exists m. split; [done|]. intros i. rewrite Hm, lookup_map_insert_new, Hacc. simpl.
    destruct (decide (i = k)) as [->|Hne].
    + rewrite (decide_False (P := k ∈ ks)), (decide_True (P := k ∈ k :: ks)); try done.
      apply list_elem_of_here.
    + apply decide_ext. rewrite elem_of_cons. tauto.
  - destruct (decide (k < 2 ^ 31)) as [Hsmall|Hbig];
      [rewrite (bool_decide_true _ Hsmall)|by rewrite (bool_decide_false _ Hbig)].
    simpl obind.
    rewrite wrap64_id by done.
    specialize (IH (map_insert_new k v acc) Hnd). rewrite bool_decide_false in IH by tauto.
    apply IH. intros i Hi. destruct (Hks i) as [H1 H3]; [by right|]. split; [done|].
    rewrite lookup_map_insert_new. rewrite decide_False; [done|]. by intros ->.
Qed.

Lemma votes_fx_wf votes :
  map_Forall (λ k v, u64 k ∧ vote_wf v) votes → fx_wf (FxMap (vote_entry <$> map_iter votes)).
Proof.
  intros Hwf. apply fx_wf_map. split.
  - rewrite <- list_fmap_compose.
    apply (NoDup_fmap_2_strong _).
    + intros [k v] [k' v'] Hk Hk' E. rewrite elem_of_map_iter in Hk, Hk'. simpl in E.
      apply to_string_inj in E as ->; [congruence|by eapply Hwf..].
    + eapply NoDup_fmap_1. apply NoDup_fst_map_iter.
  - apply Forall_fmap, Forall_true. by intros [k v].
Qed.

(** Reading the bytes of a block: the block without its merged signature when every
    voter id fits an [int], [std::out_of_range] from [std::stoi] otherwise. *)
Lemma Block_from_to b : block_wf b →
  from_bytes (to_bytes b) =
  if bool_decide (keys_small (votes_ b)) then Ret (set_tss_sig None b)
  else Throw OutOfRange.
Proof.
  intros (Hh & Htx & Hv). destruct b as [h txs votes tss]. simpl in *.
  cbv [to_bytes from_bytes Block_adapter]. unfold Block_from_bytes, Block_to_bytes.
  cbn [header_ tx_vec_ votes_].
  assert (fx_wf (FxVector (tx_fields <$> txs))) as Wtx.
  { apply fx_wf_vector, Forall_fmap. eapply Forall_impl; [done|].
    intros tx (?&?&?&?&?). simpl. tauto. }
  pose proof (votes_fx_wf votes Hv) as Wv.
  fx_root R. cbv zeta. fx_read. rewrite (from_to h Hh). simpl obind.
  rewrite (tx_vec_spec _ txs) by (eapply refers_map; [apply R|by fx_mem]).
  assert (refers (map_at (GetRoot (GetBuffer _)) "votes")
            (FxMap (vote_entry <$> map_iter votes))) as Rv
    by (eapply refers_map; [apply R|by fx_mem]).
  pose proof (Keys_law _ _ Rv) as Hkeys.
  assert ((vote_entry <$> map_iter votes).*1 = to_string <$> (map_iter votes).*1) as E
    by (by rewrite <- !list_fmap_compose).
  rewrite E in Hkeys.
  apply Permutation_map_inv in Hkeys as (ks & -> & Hks).
  change (map to_string ks) with (to_string <$> ks).
  assert (∀ k, k ∈ ks ↔ is_Some (votes !! k)) as Hdom.
  { intros k. rewrite <- Hks, list_elem_of_fmap. split.
    - intros ([k' v] & -> & H). rewrite elem_of_map_iter in H. by eexists.
    - intros [v H]. exists (k, v). by rewrite elem_of_map_iter. }
  assert (keys_small votes ↔ Forall (λ k, k < 2 ^ 31) ks) as Hsm.
  { rewrite Forall_forall. split; [|intros H k v Hk; apply H, Hdom; by eexists].
    intros H k [v Hk]%Hdom. by eapply H. }
  pose proof (votes_from_spec _ votes ks ∅ Hv Rv) as Hspec.
  rewrite (bool_decide_ext _ _ Hsm). destruct (bool_decide (Forall _ ks)).
  - destruct Hspec as (m & -> & Hm).
    + rewrite <- Hks. apply NoDup_fst_map_iter.
    + intros k Hk. split; [by apply Hdom|apply lookup_empty].
    + simpl. f_equal. unfold set_tss_sig. simpl. f_equal. apply map_eq. intros i.
      rewrite Hm, lookup_empty. case_decide as H; [done|].
      destruct (votes !! i) eqn:Ei; [|done]. destruct H. apply Hdom. by rewrite Ei.
  - rewrite Hspec; [done| |].
    + rewrite <- Hks. apply NoDup_fst_map_iter.
    + intros k Hk. split; [by apply Hdom|apply lookup_empty].
Qed.

(** *** Whatever was read is well-formed: the accessors return machine integers *)

Lemma BlockVote_from_wf b v : from_bytes b = Ret v → vote_wf v.
Proof.
  cbv [from_bytes BlockVote_adapter]. unfold BlockVote_from_bytes. cbv zeta.
  destruct (IsNull _); cbn [negb].
  - intros [= <-]. split; apply AsUInt64_u64.
  - destruct (from_bytes (AsBlob _)) as [s| |]; [|done..].
    intros [= <-]. split; apply AsUInt64_u64.
Qed.

Lemma BlockHeader_from_wf b h : from_bytes b = Ret h → header_wf h.
Proof. intros [= <-]. split_and!; apply AsUInt64_u64. Qed.

Lemma votes_from_wf r keys votes votes' :
  votes_from r keys votes = Ret votes' →
  map_Forall (λ k v, u64 k ∧ vote_wf v) votes → map_Forall (λ k v, u64 k ∧ vote_wf v) votes'.
Proof.
  revert votes. induction keys as [|key keys IH]; simpl; intros votes; [by intros [= <-]|].
  destruct (from_bytes _) as [v| |] eqn:Ev; [|done..]. simpl.
  destruct (stoi key) as [k| |]; [|done..]. simpl. intros H Hv.
  apply IH in H; [done|]. unfold map_insert_new. destruct (votes !! _); [done|].
  apply map_Forall_insert_2; [|done]. split; [apply wrap64_u64|].
  by eapply BlockVote_from_wf.
Qed.

Lemma Block_from_wf b blk : from_bytes b = Ret blk → block_wf blk.
Proof.
  cbv [from_bytes Block_adapter]. unfold Block_from_bytes. cbv zeta.
  destruct (from_bytes (AsBlob _)) as [h| |] eqn:Eh; [|done..]. cbn [obind].
  destruct (votes_from _ _ _) as [vs| |] eqn:Ev; [|done..]. cbn [obind]. intros [= <-].
  split_and!.
  - by eapply BlockHeader_from_wf.
  - apply Forall_fmap, Forall_true. intros i. split_and!; apply AsUInt64_u64.
  - eapply votes_from_wf; [done|]. apply map_Forall_empty.
Qed.

End roundtrip.
