(* ===== verification/Msgpack.v ===== *)
(** The MessagePack adapters: [include/entity/msgpack_adapter.hpp], and
    [Block::get_sha256] of [src/entity/block.cpp], whose preimage they write. MessagePack
    is an interface: a sequence of packer calls is a tree, an unpacked object is abstract. *)
From Stdlib Require Import ZArith Lia Ascii String.
From stdpp Require Import base tactics list gmap strings sorting.
From S2P Require Import Prelude Entity.

(** ** MessagePack *)

(** The calls made on a [msgpack::packer]. [MSGPACK_DEFINE] packs the members as an
    array, a [std::vector] packs an array, a [std::vector<uint8_t>] a binary, a
    [std::map] a map, a [std::shared_ptr] its object or nil. *)
Inductive mp :=
| MpNil
| MpUInt (u : Z)
| MpStr (s : string)
| MpBin (b : bytes)
| MpArray (l : list mp)
| MpMap (kvs : list (mp * mp)).

(** The library: what a packer writes, the object a parser returns, and the accessors and
    conversions of an object the adapters use. [obj_array] and [obj_map] are [via.array]
    and [via.map] when the object has that type; [map_of_pairs] is how the conversion to
    [std::map] treats pairs with one key. *)
Class Msgpack := {
  object : Type;
  mp_pack : mp → bytes;
  mp_unpack : bytes → outcome object;
  obj_pack : object → bytes;
  obj_nil : object;
  obj_is_nil : object → bool;
  obj_array : object → option (list object);
  obj_map : object → option (list (object * object));
  as_uint64 : object → outcome Z;
  as_std_string : object → outcome string;
  as_byte_vector : object → outcome bytes;
  map_of_pairs : ∀ {K V : Type} `{Countable K}, list (K * V) → gmap K V;
}.

(** [reads o v]: converting the object [o] gives what [v] packed. *)
Fixpoint reads {K : Msgpack} (o : object) (v : mp) {struct v} : Prop :=
  match v with
  | MpNil => obj_is_nil o = true
  | MpUInt u => obj_is_nil o = false ∧ as_uint64 o = Ret u
  | MpStr s => obj_is_nil o = false ∧ as_std_string o = Ret s
  | MpBin b => obj_is_nil o = false ∧ as_byte_vector o = Ret b
  | MpArray l =>
      obj_is_nil o = false ∧
      ∃ os, obj_array o = Some os ∧
        (fix all (os : list object) (l : list mp) {struct l} : Prop :=
           match l, os with
           | [], [] => True
           | v :: l', o :: os' => reads o v ∧ all os' l'
           | _, _ => False
           end) os l
  | MpMap kvs =>
      obj_is_nil o = false ∧
      ∃ ps, obj_map o = Some ps ∧
        (fix all (ps : list (object * object)) (l : list (mp * mp)) {struct l} : Prop :=
           match l, ps with
           | [], [] => True
           | (k, v) :: l', (ko, vo) :: ps' => (reads ko k ∧ reads vo v) ∧ all ps' l'
           | _, _ => False
           end) ps kvs
  end.

Definition len_ok (n : nat) : Prop := Z.of_nat n < 2 ^ 32.

(** What the format can hold: 64-bit integers, 32-bit lengths. *)
Fixpoint mp_wf (v : mp) : Prop :=
  match v with
  | MpNil => True
  | MpUInt u => u64 u
  | MpStr s => len_ok (String.length s)
  | MpBin b => len_ok (length b)
  | MpArray l =>
      len_ok (length l) ∧
      (fix all (l : list mp) := match l with [] => True | v :: l' => mp_wf v ∧ all l' end) l
  | MpMap kvs =>
      len_ok (length kvs) ∧
      (fix all (l : list (mp * mp)) :=
         match l with [] => True | (k, v) :: l' => (mp_wf k ∧ mp_wf v) ∧ all l' end) kvs
  end.

(** Unpacking what was packed; converting pairs with distinct keys; packing an unpacked
    object again. *)
Class MsgpackLaws (K : Msgpack) : Prop := {
  unpack_pack v : mp_wf v →
    ∃ o, mp_unpack (mp_pack v) = Ret o ∧ reads o v ∧ obj_pack o = mp_pack v;
  map_of_pairs_law (K' V : Type) `{Countable K'} (l : list (K' * V)) :
    NoDup l.*1 → map_of_pairs l = list_to_map l;
}.

(** [try] along a list, as the conversions of containers do. *)
Fixpoint mapO {A B} (f : A → outcome B) (l : list A) : outcome (list B) :=
  match l with
  | [] => Ret []
  | x :: l' => obind (f x) (λ y, obind (mapO f l') (λ ys, Ret (y :: ys)))
  end.

Section adapters.
Context {C : Crypto} {K : Msgpack}.

Definition sbufferToString (sbuf : bytes) : bytes := sbuf.
Definition stringToSbuffer (str : bytes) : outcome bytes :=
  obind (mp_unpack str) (λ o, Ret (obj_pack o)).

(** ** Conversions of the library the adapters go through *)

Definition as_shared_ptr {T} (conv : object → outcome T) (o : object) : outcome (option T) :=
  if obj_is_nil o then Ret None else obind (conv o) (λ x, Ret (Some x)).

Definition as_vector {T} (conv : object → outcome T) (o : object) : outcome (list T) :=
  match obj_array o with None => Throw TypeError | Some os => mapO conv os end.

Definition as_pair {A B} (f : object → outcome A) (g : object → outcome B)
    (kv : object * object) : outcome (A * B) :=
  obind (f kv.1) (λ k, obind (g kv.2) (λ v, Ret (k, v))).

Definition as_map {A B} `{Countable A} (f : object → outcome A) (g : object → outcome B)
    (o : object) : outcome (gmap A B) :=
  match obj_map o with
  | None => Throw TypeError
  | Some ps => obind (mapO (as_pair f g) ps) (λ l, Ret (map_of_pairs l))
  end.

(** Member [i] of a class with [MSGPACK_DEFINE]: one the array is too short for keeps the
    value it was constructed with. *)
Definition member (os : list object) (i : nat) (dflt : Z) : outcome Z :=
  match os !! i with Some o => as_uint64 o | None => Ret dflt end.

(** The common head of the [as] adapters: a map of [n] entries into
    [std::map<std::string, msgpack::object>]. *)
Definition as_fields (n : nat) (o : object) : outcome (gmap string object) :=
  match obj_map o with
  | None => Throw TypeError
  | Some ps =>
      if negb (length ps =? n)%nat then Throw TypeError
      else as_map as_std_string Ret o
  end.

(** [m["k"]]: an absent key is a nil object. *)
Definition field (m : gmap string object) (k : string) : object := default obj_nil (m !! k).

(** ** Packing *)

Definition entry (k : string) (v : mp) : mp * mp := (MpStr k, v).

Definition BLSSigShare_pack (v : BLSSigShare) : mp :=
  MpMap [entry "sig_share" (MpBin (G1_image (getSigShare v)));
         entry "hint" (MpStr (getHint v));
         entry "signer_index" (MpUInt (getSignerIndex v));
         entry "t" (MpUInt (getRequiredSigners v));
         entry "n" (MpUInt (getTotalSigners v))].

(** The signature is rebuilt from its components before it is packed. *)
Definition BLSSignature_pack (v : BLSSignature) : outcome mp :=
  obind (mkBLSSignature (sig_getSig v) (sig_getHint v) (sig_getRequiredSigners v)
           (sig_getTotalSigners v))
    (λ tmp_sig,
      Ret (MpMap [entry "sig_str" (MpStr (sig_toString tmp_sig));
                  entry "t" (MpUInt (sig_getRequiredSigners tmp_sig));
                  entry "n" (MpUInt (sig_getTotalSigners tmp_sig))])).

(** An [evmc::address] is its twenty bytes. *)
Definition address_pack (v : bytes) : mp :=
  MpMap [entry "addr_bytes" (MpStr (string_of_list_byte v))].

Definition shared_ptr_pack {T} (f : T → mp) (v : option T) : mp :=
  match v with None => MpNil | Some x => f x end.

Definition BlockVote_pack (v : BlockVote) : mp :=
  MpMap [entry "block_id" (MpUInt (block_id_ v));
         entry "voter_id" (MpUInt (voter_id_ v));
         entry "sig_share" (shared_ptr_pack BLSSigShare_pack (sig_share_ v))].

Definition BlockHeader_pack (v : BlockHeader) : mp :=
  MpArray [MpUInt (id_ v); MpUInt (base_id_ v); MpUInt (proposal_ts_ v);
           MpUInt (dist_ts_ v); MpUInt (commit_ts_ v); MpUInt (recv_ts_ v)].

Definition Transaction_pack (v : Transaction) : mp :=
  MpArray [MpUInt (tx_id_ v); MpUInt (tx_sender_ v); MpUInt (tx_receiver_ v);
           MpUInt (tx_value_ v); MpUInt (tx_fee_ v)].

Definition Block_pack (v : Block) : outcome mp :=
  obind (match tss_sig_ v with None => Ret MpNil | Some s => BLSSignature_pack s end)
    (λ sg,
      Ret (MpMap [entry "header" (BlockHeader_pack (header_ v));
                  entry "tx_vec" (MpArray (Transaction_pack <$> tx_vec_ v));
                  entry "votes" (MpMap ((λ kv, (MpUInt kv.1, BlockVote_pack kv.2))
                                          <$> map_iter (votes_ v)));
                  entry "tss_sig" sg])).

(** ** Unpacking *)

Definition BLSSigShare_as (o : object) : outcome BLSSigShare :=
  obind (as_fields 5 o) (λ m,
  obind (as_byte_vector (field m "sig_share")) (λ sig_share_bv,
  if negb (length sig_share_bv =? 96)%nat then Crash AssertFail
  else
    obind (as_std_string (field m "hint")) (λ hint,
    obind (as_uint64 (field m "signer_index")) (λ signer_index,
    obind (as_uint64 (field m "t")) (λ t,
    obind (as_uint64 (field m "n")) (λ n,
    mkBLSSigShare (G1_of_image sig_share_bv) hint signer_index t n)))))).

Definition BLSSignature_as (o : object) : outcome BLSSignature :=
  obind (as_fields 3 o) (λ m,
  obind (as_std_string (field m "sig_str")) (λ sig_str,
  obind (as_uint64 (field m "t")) (λ t,
  obind (as_uint64 (field m "n")) (λ n,
  BLSSignature_of_string sig_str t n)))).

(** [std::memcpy] copies twenty bytes from a string that ends in a null byte, and reads
    past it when the string is shorter than nineteen. *)
Definition address_as (o : object) : outcome bytes :=
  obind (as_fields 1 o) (λ m,
  obind (as_std_string (field m "addr_bytes")) (λ bytes_str,
  let src := list_byte_of_string bytes_str ++ [Byte.x00] in
  if (20 <=? length src)%nat then Ret (take 20 src) else Crash NullDeref)).

Definition BlockVote_as (o : object) : outcome BlockVote :=
  obind (as_fields 3 o) (λ m,
  obind (as_uint64 (field m "block_id")) (λ block_id,
  obind (as_shared_ptr BLSSigShare_as (field m "sig_share")) (λ sig_share,
  obind (as_uint64 (field m "voter_id")) (λ voter_id,
  Ret (MkBlockVote block_id voter_id sig_share))))).

Definition BlockHeader_as (o : object) : outcome BlockHeader :=
  match obj_array o with
  | None => Throw TypeError
  | Some os =>
      let d := BlockHeader_default in
      obind (member os 0 (id_ d)) (λ id,
      obind (member os 1 (base_id_ d)) (λ base_id,
      obind (member os 2 (proposal_ts_ d)) (λ proposal_ts,
      obind (member os 3 (dist_ts_ d)) (λ dist_ts,
      obind (member os 4 (commit_ts_ d)) (λ commit_ts,
      obind (member os 5 (recv_ts_ d)) (λ recv_ts,
      Ret (MkBlockHeader id base_id proposal_ts dist_ts commit_ts recv_ts)))))))
  end.

(** [Transaction::Transaction()] leaves its members uninitialized: [d] is what they hold. *)
Definition Transaction_as (d : Transaction) (o : object) : outcome Transaction :=
  match obj_array o with
  | None => Throw TypeError
  | Some os =>
      obind (member os 0 (tx_id_ d)) (λ id,
      obind (member os 1 (tx_sender_ d)) (λ sender,
      obind (member os 2 (tx_receiver_ d)) (λ receiver,
      obind (member os 3 (tx_value_ d)) (λ value,
      obind (member os 4 (tx_fee_ d)) (λ fee,
      Ret (MkTransaction id sender receiver value fee))))))
  end.

(** A block as it is read: a nil in the place of a transaction or of a vote is a null
    pointer in the containers of the block. *)
Record ReadBlock := MkReadBlock {
  rb_header : BlockHeader;
  rb_tx_vec : list (option Transaction);
  rb_votes : gmap Z (option BlockVote);
  rb_tss_sig : option BLSSignature;
}.

Definition nullable (b : Block) : ReadBlock :=
  MkReadBlock (header_ b) (Some <$> tx_vec_ b) (Some <$> votes_ b) (tss_sig_ b).

Definition Block_as (d : Transaction) (o : object) : outcome ReadBlock :=
  obind (as_fields 4 o) (λ m,
  obind (BlockHeader_as (field m "header")) (λ header,
  obind (as_vector (as_shared_ptr (Transaction_as d)) (field m "tx_vec")) (λ tx_vec,
  obind (as_map as_uint64 (as_shared_ptr BlockVote_as) (field m "votes")) (λ votes,
  obind (as_shared_ptr BLSSignature_as (field m "tss_sig")) (λ tss_sig,
  Ret (MkReadBlock header tx_vec votes tss_sig)))))).

(** ** The hash of a block *)

(** The bytes [Block::get_sha256] hashes: the whole block, packed. *)
Definition hash_preimage (b : Block) : outcome bytes :=
  obind (Block_pack b) (λ v, Ret (sbufferToString (mp_pack v))).

(** [Block::get_sha256]. *)
Definition get_sha256 (b : Block) : outcome bytes :=
  obind (hash_preimage b) (λ ss_str, Ret (hash256 ss_str)).

End adapters.
