(* ===== verification/MsgpackProofs.v ===== *)
(** Reading back what the MessagePack adapters pack: one lemma per adapter, from the laws
    of the library. *)
From Stdlib Require Import ZArith Lia Ascii String.
From stdpp Require Import base tactics list gmap strings sorting.
From S2P Require Import Prelude Entity Msgpack.

Section proofs.
Context {C : Crypto} {CL : CryptoLaws C} {K : Msgpack} {KL : MsgpackLaws K}.

(** ** Trees *)

Lemma reads_array o l :
  reads o (MpArray l) ↔
  obj_is_nil o = false ∧ ∃ os, obj_array o = Some os ∧ Forall2 reads os l.
Proof.
  cbn [reads]. apply and_iff_compat_l. f_equiv. intros os. apply and_iff_compat_l.
  revert os. induction l as [|v l IH]; intros [|o' os]; simpl.
  - split; [by constructor|done].
  - split; [done|by intros ?%Forall2_nil_inv_r].
  - split; [done|by intros ?%Forall2_nil_inv_l].
  - rewrite IH. split; [intros []; by constructor|by intros ?%Forall2_cons_1].
Qed.

Lemma reads_map o kvs :
  reads o (MpMap kvs) ↔
  obj_is_nil o = false ∧
  ∃ ps, obj_map o = Some ps ∧ Forall2 (λ p kv, reads p.1 kv.1 ∧ reads p.2 kv.2) ps kvs.
Proof.
  cbn [reads]. apply and_iff_compat_l. f_equiv. intros ps. apply and_iff_compat_l.
  revert ps. induction kvs as [|[k v] l IH]; intros [|[ko vo] ps]; simpl.
  - split; [by constructor|done].
  - split; [done|by intros ?%Forall2_nil_inv_r].
  - split; [done|by intros ?%Forall2_nil_inv_l].
  - rewrite IH. split; [intros []; by constructor|by intros ?%Forall2_cons_1].
Qed.

Lemma mp_wf_array l : mp_wf (MpArray l) ↔ len_ok (length l) ∧ Forall mp_wf l.
Proof.
  cbn [mp_wf]. apply and_iff_compat_l. induction l as [|v l IH]; [done|].
  by rewrite Forall_cons, IH.
Qed.

Lemma mp_wf_map kvs :
  mp_wf (MpMap kvs) ↔ len_ok (length kvs) ∧ Forall (λ kv, mp_wf kv.1 ∧ mp_wf kv.2) kvs.
Proof.
  cbn [mp_wf]. apply and_iff_compat_l. induction kvs as [|[k v] l IH]; [done|].
  by rewrite Forall_cons, IH.
Qed.

Lemma reads_not_nil o v : reads o v → v ≠ MpNil → obj_is_nil o = false.
Proof. destruct v; simpl; tauto. Qed.

Lemma reads_uint o u : reads o (MpUInt u) → as_uint64 o = Ret u.
Proof. simpl. tauto. Qed.

Lemma reads_str o s : reads o (MpStr s) → as_std_string o = Ret s.
Proof. simpl. tauto. Qed.

Lemma reads_bin o b : reads o (MpBin b) → as_byte_vector o = Ret b.
Proof. simpl. tauto. Qed.

Lemma mapO_Forall2 {A B} (f : A → outcome B) l l' :
  Forall2 (λ x y, f x = Ret y) l l' → mapO f l = Ret l'.
Proof. induction 1 as [|x y l l' Hx _ IH]; simpl; [done|]. by rewrite Hx, IH. Qed.

(** ** Containers *)

Lemma as_shared_ptr_spec {T} (f : T → mp) (conv : object → outcome T) o x :
  (∀ y, x = Some y → f y ≠ MpNil) → (∀ y, reads o (f y) → conv o = Ret y) →
  reads o (shared_ptr_pack f x) → as_shared_ptr conv o = Ret x.
Proof.
  unfold as_shared_ptr. destruct x as [y|]; intros Hn Hc Hr; simpl in Hr; [|by rewrite Hr].
  rewrite (reads_not_nil _ _ Hr), (Hc y); auto.
Qed.

Lemma as_vector_spec {T} (f : T → mp) (conv : object → outcome T) o xs :
  (∀ o x, x ∈ xs → reads o (f x) → conv o = Ret x) →
  reads o (MpArray (f <$> xs)) → as_vector conv o = Ret xs.
Proof.
  intros Hc (_ & os & Ho & Hos)%reads_array. unfold as_vector. rewrite Ho.
  apply mapO_Forall2. rewrite Forall2_fmap_r in Hos.
  clear Ho. revert Hc. induction Hos as [|o' x os' xs' Hx _ IH]; intros Hc; constructor.
  - apply Hc; [by left|done].
  - apply IH. intros o2 y Hy. apply Hc. by right.
Qed.

Lemma as_map_spec {A B} `{Countable A} (fk : A → mp) (fv : B → mp) f g o (kvs : list (A * B)) :
  (∀ o k, reads o (fk k) → f o = Ret k) → (∀ o v, v ∈ kvs.*2 → reads o (fv v) → g o = Ret v) →
  NoDup kvs.*1 → reads o (MpMap ((λ kv, (fk kv.1, fv kv.2)) <$> kvs)) →
  as_map f g o = Ret (list_to_map kvs).
Proof.
  intros Hf Hg Hnd (_ & ps & Ho & Hps)%reads_map. unfold as_map. rewrite Ho.
  rewrite (mapO_Forall2 _ ps kvs).
  - simpl. f_equal. by apply map_of_pairs_law.
  - rewrite Forall2_fmap_r in Hps. clear Ho Hnd. revert Hg.
    induction Hps as [|p kv ps kvs [H1 H2] _ IH]; intros Hg; constructor.
    + unfold as_pair. rewrite (Hf _ _ H1), (Hg p.2 kv.2); [by destruct kv|by left|done].
    + apply IH. intros o2 v Hv. apply Hg. by right.
Qed.

(** The head of an [as] adapter on the fields a [pack] adapter wrote. *)
Lemma as_fields_spec o (fs : list (string * mp)) :
  NoDup fs.*1 → reads o (MpMap ((λ kv, entry kv.1 kv.2) <$> fs)) →
  ∃ m, as_fields (length fs) o = Ret m ∧ ∀ k v, (k, v) ∈ fs → reads (field m k) v.
Proof.
  intros Hnd Hr. pose proof Hr as (_ & ps & Ho & Hps)%reads_map.
  rewrite Forall2_fmap_r in Hps.
  assert (∃ kos : list (string * object), kos.*1 = fs.*1 ∧
    mapO (as_pair as_std_string Ret) ps = Ret kos ∧
    Forall2 (λ ko kv, reads ko.2 kv.2) kos fs) as (kos & Hk & Hm & Hall).
  { clear Ho Hnd Hr. induction Hps as [|p kv ps fs [H1 H2] _ (kos & Hk & Hm & Hall)].
    - exists []. by split_and!.
    - exists ((kv.1, p.2) :: kos). simpl in H1, H2 |- *. split_and!.
      + simpl. by f_equal.
      + unfold as_pair at 1. rewrite (reads_str _ _ H1). simpl. by rewrite Hm.
      + by constructor. }
  exists (list_to_map kos). unfold as_fields. rewrite Ho.
  rewrite (Forall2_length _ _ _ Hps), Nat.eqb_refl. simpl. split.
  { unfold as_map. rewrite Ho, Hm. simpl. f_equal. apply map_of_pairs_law. by rewrite Hk. }
  intros k v (i & Hi)%list_elem_of_lookup. unfold field.
  destruct (Forall2_lookup_r _ _ _ _ _ Hall Hi) as ([k' o'] & Hi' & Ho').
  assert (k' = k) as ->.
  { assert (kos.*1 !! i = Some k') as E1 by (by rewrite list_lookup_fmap, Hi').
    rewrite Hk, list_lookup_fmap, Hi in E1. simpl in E1. congruence. }
  rewrite (elem_of_list_to_map_1 kos k o'); [done|by rewrite Hk|].
  by eapply list_elem_of_lookup_2.
Qed.

Lemma member_spec os i d u o :
  os !! i = Some o → reads o (MpUInt u) → member os i d = Ret u.
Proof. intros Ho Hr. unfold member. rewrite Ho. by apply reads_uint. Qed.

End proofs.

(** Reads every field of the map the goal converts: [fs] are the fields that were packed. *)
Ltac mp_fields H fs :=
  let m := fresh "m" in let Hm := fresh "Hm" in let Hf := fresh "Hf" in
  destruct (as_fields_spec _ fs ltac:(apply (bool_decide_unpack _); vm_compute; exact I) H)
    as (m & Hm & Hf);
  cbn [length] in Hm; rewrite Hm; cbn [obind].

Ltac mp_mem := repeat first [apply list_elem_of_here | apply list_elem_of_further].

Ltac mp_read :=
  repeat first
    [ erewrite reads_uint by (match goal with Hf : _ |- _ => apply Hf; by mp_mem end)
    | erewrite reads_str by (match goal with Hf : _ |- _ => apply Hf; by mp_mem end)
    | erewrite reads_bin by (match goal with Hf : _ |- _ => apply Hf; by mp_mem end) ];
  cbn [obind].

Ltac mp_members H :=
  let os := fresh "os" in let Ho := fresh "Ho" in let Hos := fresh "Hos" in
  apply reads_array in H as (_ & os & Ho & Hos); rewrite Ho;
  repeat match goal with
    | Hl : Forall2 _ ?l (_ :: _) |- _ =>
        apply Forall2_cons_inv_r in Hl as (? & ? & ? & Hl & ->)
    end;
  cbv zeta; repeat (erewrite member_spec by (first [reflexivity | eassumption]); cbn [obind]).

Section adapters.
Context {C : Crypto} {CL : CryptoLaws C} {K : Msgpack} {KL : MsgpackLaws K}.

(** ** Adapters *)

Lemma BLSSigShare_as_pack o s : reads o (BLSSigShare_pack s) → BLSSigShare_as o = Ret s.
Proof.
  intros H. unfold BLSSigShare_as.
  mp_fields H [("sig_share"%string, MpBin (G1_image (getSigShare s)));
               ("hint"%string, MpStr (getHint s));
               ("signer_index"%string, MpUInt (getSignerIndex s));
               ("t"%string, MpUInt (getRequiredSigners s));
               ("n"%string, MpUInt (getTotalSigners s))].
  mp_read. rewrite G1_image_length. cbn [negb Nat.eqb]. mp_read.
  rewrite G1_of_image_image. apply mkBLSSigShare_components.
Qed.

(** A signature comes back with the string, and the numbers, of the one packed. *)
Definition same_sig (s s' : BLSSignature) : Prop :=
  sig_toString s' = sig_toString s ∧ sig_getRequiredSigners s' = sig_getRequiredSigners s ∧
  sig_getTotalSigners s' = sig_getTotalSigners s.

Lemma BLSSignature_pack_ret s :
  BLSSignature_pack s =
  Ret (MpMap [entry "sig_str" (MpStr (sig_toString s));
              entry "t" (MpUInt (sig_getRequiredSigners s));
              entry "n" (MpUInt (sig_getTotalSigners s))]).
Proof. unfold BLSSignature_pack. by rewrite mkBLSSignature_components. Qed.

Lemma BLSSignature_as_pack o s v :
  BLSSignature_pack s = Ret v → reads o v → ∃ s', BLSSignature_as o = Ret s' ∧ same_sig s s'.
Proof.
  rewrite BLSSignature_pack_ret. intros [= <-] H. unfold BLSSignature_as.
  mp_fields H [("sig_str"%string, MpStr (sig_toString s));
               ("t"%string, MpUInt (sig_getRequiredSigners s));
               ("n"%string, MpUInt (sig_getTotalSigners s))].
  mp_read. destruct (BLSSignature_of_toString s) as (s' & -> & ?). by exists s'.
Qed.

Lemma BlockVote_as_pack o v : reads o (BlockVote_pack v) → BlockVote_as o = Ret v.
Proof.
  intros H. unfold BlockVote_as.
  mp_fields H [("block_id"%string, MpUInt (block_id_ v));
               ("voter_id"%string, MpUInt (voter_id_ v));
               ("sig_share"%string, shared_ptr_pack BLSSigShare_pack (sig_share_ v))].
  mp_read. rewrite (as_shared_ptr_spec BLSSigShare_pack _ _ (sig_share_ v)).
  - cbn [obind]. mp_read. by destruct v.
  - done.
  - intros s. apply BLSSigShare_as_pack.
  - apply Hf. by mp_mem.
Qed.

Lemma BlockHeader_as_pack o h : reads o (BlockHeader_pack h) → BlockHeader_as o = Ret h.
Proof. intros H. unfold BlockHeader_as. mp_members H. by destruct h. Qed.

Lemma Transaction_as_pack d o tx : reads o (Transaction_pack tx) → Transaction_as d o = Ret tx.
Proof. intros H. unfold Transaction_as. mp_members H. by destruct tx. Qed.

Lemma length_string_of_bytes (a : bytes) : String.length (string_of_list_byte a) = length a.
Proof. unfold string_of_list_byte. induction a as [|x a IH]; simpl; [done|]. by f_equal. Qed.

Lemma address_as_pack o a :
  length a = 20%nat → reads o (address_pack a) → address_as o = Ret a.
Proof.
  intros Ha H. unfold address_as.
  mp_fields H [("addr_bytes"%string, MpStr (string_of_list_byte a))].
  mp_read. rewrite list_byte_of_string_of_list_byte, length_app, Ha. simpl.
  by rewrite take_app_le, take_ge by lia.
Qed.

(** Two blocks with the same content but for the representation of the signature. *)
Definition same_block (b : Block) (rb : ReadBlock) : Prop :=
  rb_header rb = header_ b ∧ rb_tx_vec rb = Some <$> tx_vec_ b ∧
  rb_votes rb = Some <$> votes_ b ∧ option_Forall2 same_sig (tss_sig_ b) (rb_tss_sig rb).

Lemma list_to_map_map_iter {A} (m : gmap Z A) : list_to_map (map_iter m) = m.
Proof.
  rewrite (list_to_map_proper _ (map_to_list m)).
  - apply list_to_map_to_list.
  - rewrite map_iter_perm. apply NoDup_fst_map_to_list.
  - apply map_iter_perm.
Qed.

Lemma votes_as_pack o votes :
  reads o (MpMap ((λ kv, (MpUInt kv.1, BlockVote_pack kv.2)) <$> map_iter votes)) →
  as_map as_uint64 (as_shared_ptr BlockVote_as) o = Ret (Some <$> votes : gmap Z _).
Proof.
  intros H.
  rewrite (as_map_spec MpUInt (shared_ptr_pack BlockVote_pack) as_uint64
             (as_shared_ptr BlockVote_as) o (prod_map id Some <$> map_iter votes)).
  - f_equal. by rewrite list_to_map_fmap, list_to_map_map_iter.
  - intros o2 k. apply reads_uint.
  - intros o2 v _. apply as_shared_ptr_spec; [done|]. intros y. apply BlockVote_as_pack.
  - rewrite <- list_fmap_compose. apply NoDup_fst_map_iter.
  - by rewrite <- list_fmap_compose.
Qed.

Lemma Block_as_pack d o b v :
  Block_pack b = Ret v → reads o v → ∃ rb, Block_as d o = Ret rb ∧ same_block b rb.
Proof.
  unfold Block_pack. intros Hp H.
  destruct (match tss_sig_ b with None => Ret MpNil | Some s => _ end) as [sg| |] eqn:Es;
    [|done..].
  injection Hp as <-. unfold Block_as.
  mp_fields H [("header"%string, BlockHeader_pack (header_ b));
     ("tx_vec"%string, MpArray (Transaction_pack <$> tx_vec_ b));
     ("votes"%string,
       MpMap ((λ kv, (MpUInt kv.1, BlockVote_pack kv.2)) <$> map_iter (votes_ b)));
     ("tss_sig"%string, sg)].
  rewrite (BlockHeader_as_pack _ (header_ b)) by (apply Hf; mp_mem). cbn [obind].
  rewrite (as_vector_spec (shared_ptr_pack Transaction_pack) _ _ (Some <$> tx_vec_ b)).
  2: { intros o2 x _. apply as_shared_ptr_spec; [done|]. intros y. apply Transaction_as_pack. }
  2: { rewrite <- list_fmap_compose. apply Hf. mp_mem. }
  cbn [obind]. rewrite (votes_as_pack _ (votes_ b)) by (apply Hf; mp_mem). cbn [obind].
  assert (reads (field m "tss_sig") sg) as Hsg by (apply Hf; mp_mem).
  destruct (tss_sig_ b) as [s|] eqn:Et.
  - destruct (BLSSignature_as_pack _ _ _ Es Hsg) as (s' & Hs' & Hsame).
    unfold as_shared_ptr. rewrite (reads_not_nil _ _ Hsg), Hs'; simpl.
    + eexists. split; [done|]. split_and!; simpl; try done. rewrite Et. by constructor.
    + rewrite BLSSignature_pack_ret in Es. by injection Es as <-.
  - injection Es as <-. simpl in Hsg. unfold as_shared_ptr. rewrite Hsg. simpl.
    eexists. split; [done|]. split_and!; simpl; try done. rewrite Et. constructor.
Qed.

End adapters.

(** ** Blocks that MessagePack can hold *)

Section preimage.
Context {C : Crypto} {CL : CryptoLaws C} {K : Msgpack} {KL : MsgpackLaws K}.

Record block_fits (b : Block) : Prop := {
  fits_wf : block_wf b;
  fits_txs : len_ok (length (tx_vec_ b));
  fits_votes : len_ok (size (votes_ b));
  fits_hints k v s :
    votes_ b !! k = Some v → sig_share_ v = Some s → len_ok (String.length (getHint s));
  fits_sig s : tss_sig_ b = Some s → len_ok (String.length (sig_toString s));
}.

Lemma BLSSigShare_pack_wf s :
  len_ok (String.length (getHint s)) → mp_wf (BLSSigShare_pack s).
Proof.
  intros Hh. apply mp_wf_map. split; [done|].
  repeat apply Forall_cons_2; try done; (split; [done|]); simpl; auto with dchain.
  by rewrite G1_image_length.
Qed.

Lemma BlockVote_pack_wf v :
  vote_wf v → (∀ s, sig_share_ v = Some s → len_ok (String.length (getHint s))) →
  mp_wf (BlockVote_pack v).
Proof.
  intros [H1 H2] Hh. apply mp_wf_map. split; [done|].
  repeat apply Forall_cons_2; try done.
  split; [done|]. destruct (sig_share_ v) as [s|]; [|done]. simpl. by apply BLSSigShare_pack_wf, Hh.
Qed.

Lemma Block_pack_fits b : block_fits b → ∃ v, Block_pack b = Ret v ∧ mp_wf v.
Proof.
  intros [(Hh & Htx & Hv) Ht Hs Hhint Hsig]. unfold Block_pack.
  assert (∃ sg, match tss_sig_ b with None => Ret MpNil | Some s => BLSSignature_pack s end
                = Ret sg ∧ mp_wf sg) as (sg & -> & Hsg).
  { destruct (tss_sig_ b) as [s|]; [|by exists MpNil]. rewrite BLSSignature_pack_ret.
    eexists. split; [done|]. apply mp_wf_map. split; [done|].
    repeat apply Forall_cons_2; try done; split; try done; simpl; auto with dchain. }
  simpl. eexists. split; [done|]. apply mp_wf_map. split; [done|].
  destruct Hh as (?&?&?&?&?&?).
  repeat apply Forall_cons_2; try done; split; try done; cbn [entry snd].
  - apply mp_wf_array. rewrite length_fmap. split; [done|]. apply Forall_fmap.
    eapply Forall_impl; [done|]. intros tx (?&?&?&?&?). by simpl.
  - apply mp_wf_map. split.
    { by rewrite length_fmap, map_iter_perm, length_map_to_list. }
    apply Forall_fmap, Forall_forall. intros [k v] Hk.
    apply elem_of_map_iter in Hk. simpl.
    destruct (Hv k v Hk) as [Hk64 Hvw]. split; [done|]. apply BlockVote_pack_wf; [done|].
    intros s. by eapply Hhint.
Qed.

(** What the hashed bytes determine. *)
Lemma preimage_read d b :
  block_fits b →
  ∃ pre o rb, hash_preimage b = Ret pre ∧ stringToSbuffer pre = Ret pre ∧
    mp_unpack pre = Ret o ∧ Block_as d o = Ret rb ∧ same_block b rb.
Proof.
  intros Hb. destruct (Block_pack_fits b Hb) as (v & Hv & Hwf).
  destruct (unpack_pack v Hwf) as (o & Ho & Hr & Hp).
  destruct (Block_as_pack d o b v Hv Hr) as (rb & Hrb & Hsame).
  exists (mp_pack v), o, rb. unfold hash_preimage, stringToSbuffer. rewrite Hv, Ho. simpl.
  by rewrite Hp.
Qed.

(** The bytes that are hashed determine the whole block: its header with every time stamp,
    its transactions, its votes and the string of its signature. *)
Lemma preimage_determines (b b' : Block) :
  block_fits b → block_fits b' → hash_preimage b = hash_preimage b' →
  header_ b = header_ b' ∧ tx_vec_ b = tx_vec_ b' ∧ votes_ b = votes_ b' ∧
  sig_toString <$> tss_sig_ b = sig_toString <$> tss_sig_ b'.
Proof.
  intros Hb Hb' Heq. set (d := MkTransaction 0 0 0 0 0).
  destruct (preimage_read d b Hb) as (pre & o & rb & Hp & _ & Ho & Hrb & (H1&H2&H3&Hs)).
  destruct (preimage_read d b' Hb') as (pre' & o' & rb' & Hp' & _ & Ho' & Hrb' & (H1'&H2'&H3'&Hs')).
  assert (rb' = rb) as -> by congruence.
  split_and!; [congruence|apply (inj (fmap Some)); congruence| |].
  - apply (inj (fmap (M := gmap Z) Some)). congruence.
  - destruct Hs as [s s1 [Hs _]|]; inversion Hs' as [s' s2 [Hs2 _]|]; subst; simpl; congruence.
Qed.

End preimage.
