(* ===== verification/ServerState.v ===== *)
(** The state of a server process: [include/server/tc-server.hpp], the configuration
    it reads, the messages of [grpc_proto/], and the primitive operations on its
    containers the components share.

    A [std::shared_ptr<Block>] is a location of the heap: the pending map, the queues and
    the committed map hold the same object, and an update through one of them is seen
    through the others. A [BlockVote], a [Transaction] and a [BlockHeader] held by
    pointer are never assigned to after they are shared, so they are values. *)
From Stdlib Require Import ZArith Lia.
From stdpp Require Import base tactics list gmap strings sorting.
From S2P Require Import Prelude Decimal Entity FlexCodec.

(** ** Configuration and environment *)

(** The keys of [conf_data] a server reads. A missing ["use-rocksdb"] is a JSON null,
    whose conversion to [bool] throws. *)
Record conf := MkConf {
  conf_server_id : Z;
  server_count : Z;
  client_count : Z;
  peer_addr : list string;
  generate_tx_rate : Z;
  tx_per_block : Z;
  pb_pool_limit : Z;
  account_count : Z;
  block_die_threshold : Z;
  use_rocksdb : option bool;
}.

(** What a process does not decide. Its clock, its random draws and the status of its
    remote calls: one value for each server, by its id, and each moment it asks. Whether
    its database opens. The order in which a [tbb::concurrent_hash_map] is traversed. *)
Class Env := {
  clock : Z → nat → Z;
  random : Z → nat → Z → Z → Z;
  rpc_ok : Z → nat → bool;
  db_opens : Z → bool;
  chm_iter : ∀ {A : Type}, gmap Z A → list (Z * A);
}.

(** The clock fits [uint64_t], [std::uniform_int_distribution(a, b)] draws between its
    bounds, and a traversal meets every entry once. *)
Class EnvLaws (E : Env) : Prop := {
  clock_u64 i n : u64 (clock i n);
  random_bounds i n a b : a ≤ b → a ≤ random i n a b ≤ b;
  chm_iter_perm A (m : gmap Z A) : chm_iter m ≡ₚ map_to_list m;
}.

(** ** Messages between servers ([grpc_proto/tc-server-peer.proto]) *)

Inductive PeerRequest :=
| SPHeartbeatRequest (id : Z)
| RelayVoteRequest (id : Z) (votes : list bytes)
| RelayBlockRequest (id : Z) (blocks : list bytes)
| SPBcastCommitRequest (id : Z) (blocks : list bytes) (timestamp : Z)
| RelayBlockSyncRequest (id : Z) (block_id : Z).

(** ** State *)

Abbreviation loc := nat (only parsing).

Section state.
Context {C : Crypto}.

Record ClientProfile := MkClientProfile {
  profile_id : Z;
  ecc_pkey : option PubKey;
  tss_key : option (BLSPrivateKeyShare * BLSPublicKeyShare);
  seen_blocks : gmap Z BlockHeader;
}.

(** [TcServer]. [heap] gives the blocks that were made under the names [0], [1], ... up to
    [next_loc]. The code frees a block with its last pointer and may use its address again;
    a name is not used again, and [Holding.v] shows that a block nothing holds is not reached
    any more, so [heap] keeps it. [db] is the sequence of
    [Put] calls on the database; [peer_stubs] the targets that have a stub; [outbox] the
    requests sent so far, oldest first; [tick] counts the questions to the environment. *)
Record server := MkServer {
  server_id : Z;
  clients : gmap Z ClientProfile;
  heap : gmap loc Block;
  next_loc : loc;
  pending_blks : gmap Z loc;
  pb_sync_queue : list Z;
  pb_sync_labels : gset Z;
  pb_merge_queue : list loc;
  committed_blks : gmap Z loc;
  pending_txs : gmap Z Transaction;
  blk_seq_generator : Z;
  relay_votes : gmap Z (list BlockVote);
  relay_blocks : gmap Z (list loc);
  bcast_commit_blocks : gmap Z (list loc);
  dead_block : gset Z;
  db : list (string * bytes);
  peer_status : list bool;
  peer_stubs : gset Z;
  outbox : list (Z * PeerRequest);
  tick : nat;
}.

(** ** Field assignments *)

Definition upd_server_id (f : Z → Z) (s : server) : server :=
  MkServer (f (server_id s)) (clients s) (heap s) (next_loc s) (pending_blks s)
    (pb_sync_queue s) (pb_sync_labels s) (pb_merge_queue s) (committed_blks s) (pending_txs s)
    (blk_seq_generator s) (relay_votes s) (relay_blocks s) (bcast_commit_blocks s) (dead_block s)
    (db s) (peer_status s) (peer_stubs s) (outbox s) (tick s).
Definition upd_clients (f : gmap Z ClientProfile → gmap Z ClientProfile) (s : server) : server :=
  MkServer (server_id s) (f (clients s)) (heap s) (next_loc s) (pending_blks s)
    (pb_sync_queue s) (pb_sync_labels s) (pb_merge_queue s) (committed_blks s) (pending_txs s)
    (blk_seq_generator s) (relay_votes s) (relay_blocks s) (bcast_commit_blocks s) (dead_block s)
    (db s) (peer_status s) (peer_stubs s) (outbox s) (tick s).
Definition upd_heap (f : gmap loc Block → gmap loc Block) (s : server) : server :=
  MkServer (server_id s) (clients s) (f (heap s)) (next_loc s) (pending_blks s)
    (pb_sync_queue s) (pb_sync_labels s) (pb_merge_queue s) (committed_blks s) (pending_txs s)
    (blk_seq_generator s) (relay_votes s) (relay_blocks s) (bcast_commit_blocks s) (dead_block s)
    (db s) (peer_status s) (peer_stubs s) (outbox s) (tick s).
Definition upd_next_loc (f : loc → loc) (s : server) : server :=
  MkServer (server_id s) (clients s) (heap s) (f (next_loc s)) (pending_blks s)
    (pb_sync_queue s) (pb_sync_labels s) (pb_merge_queue s) (committed_blks s) (pending_txs s)
    (blk_seq_generator s) (relay_votes s) (relay_blocks s) (bcast_commit_blocks s) (dead_block s)
    (db s) (peer_status s) (peer_stubs s) (outbox s) (tick s).
Definition upd_pending_blks (f : gmap Z loc → gmap Z loc) (s : server) : server :=
  MkServer (server_id s) (clients s) (heap s) (next_loc s) (f (pending_blks s))
    (pb_sync_queue s) (pb_sync_labels s) (pb_merge_queue s) (committed_blks s) (pending_txs s)
    (blk_seq_generator s) (relay_votes s) (relay_blocks s) (bcast_commit_blocks s) (dead_block s)
    (db s) (peer_status s) (peer_stubs s) (outbox s) (tick s).
Definition upd_pb_sync_queue (f : list Z → list Z) (s : server) : server :=
  MkServer (server_id s) (clients s) (heap s) (next_loc s) (pending_blks s)
    (f (pb_sync_queue s)) (pb_sync_labels s) (pb_merge_queue s) (committed_blks s) (pending_txs s)
    (blk_seq_generator s) (relay_votes s) (relay_blocks s) (bcast_commit_blocks s) (dead_block s)
    (db s) (peer_status s) (peer_stubs s) (outbox s) (tick s).
Definition upd_pb_sync_labels (f : gset Z → gset Z) (s : server) : server :=
  MkServer (server_id s) (clients s) (heap s) (next_loc s) (pending_blks s)
    (pb_sync_queue s) (f (pb_sync_labels s)) (pb_merge_queue s) (committed_blks s) (pending_txs s)
    (blk_seq_generator s) (relay_votes s) (relay_blocks s) (bcast_commit_blocks s) (dead_block s)
    (db s) (peer_status s) (peer_stubs s) (outbox s) (tick s).
Definition upd_pb_merge_queue (f : list loc → list loc) (s : server) : server :=
  MkServer (server_id s) (clients s) (heap s) (next_loc s) (pending_blks s)
    (pb_sync_queue s) (pb_sync_labels s) (f (pb_merge_queue s)) (committed_blks s) (pending_txs s)
    (blk_seq_generator s) (relay_votes s) (relay_blocks s) (bcast_commit_blocks s) (dead_block s)
    (db s) (peer_status s) (peer_stubs s) (outbox s) (tick s).
Definition upd_committed_blks (f : gmap Z loc → gmap Z loc) (s : server) : server :=
  MkServer (server_id s) (clients s) (heap s) (next_loc s) (pending_blks s)
    (pb_sync_queue s) (pb_sync_labels s) (pb_merge_queue s) (f (committed_blks s)) (pending_txs s)
    (blk_seq_generator s) (relay_votes s) (relay_blocks s) (bcast_commit_blocks s) (dead_block s)
    (db s) (peer_status s) (peer_stubs s) (outbox s) (tick s).
Definition upd_pending_txs (f : gmap Z Transaction → gmap Z Transaction) (s : server) : server :=
  MkServer (server_id s) (clients s) (heap s) (next_loc s) (pending_blks s)
    (pb_sync_queue s) (pb_sync_labels s) (pb_merge_queue s) (committed_blks s) (f (pending_txs s))
    (blk_seq_generator s) (relay_votes s) (relay_blocks s) (bcast_commit_blocks s) (dead_block s)
    (db s) (peer_status s) (peer_stubs s) (outbox s) (tick s).
Definition upd_blk_seq_generator (f : Z → Z) (s : server) : server :=
  MkServer (server_id s) (clients s) (heap s) (next_loc s) (pending_blks s)
    (pb_sync_queue s) (pb_sync_labels s) (pb_merge_queue s) (committed_blks s) (pending_txs s)
    (f (blk_seq_generator s)) (relay_votes s) (relay_blocks s) (bcast_commit_blocks s) (dead_block s)
    (db s) (peer_status s) (peer_stubs s) (outbox s) (tick s).
Definition upd_relay_votes (f : gmap Z (list BlockVote) → gmap Z (list BlockVote)) (s : server) : server :=
  MkServer (server_id s) (clients s) (heap s) (next_loc s) (pending_blks s)
    (pb_sync_queue s) (pb_sync_labels s) (pb_merge_queue s) (committed_blks s) (pending_txs s)
    (blk_seq_generator s) (f (relay_votes s)) (relay_blocks s) (bcast_commit_blocks s) (dead_block s)
    (db s) (peer_status s) (peer_stubs s) (outbox s) (tick s).
Definition upd_relay_blocks (f : gmap Z (list loc) → gmap Z (list loc)) (s : server) : server :=
  MkServer (server_id s) (clients s) (heap s) (next_loc s) (pending_blks s)
    (pb_sync_queue s) (pb_sync_labels s) (pb_merge_queue s) (committed_blks s) (pending_txs s)
    (blk_seq_generator s) (relay_votes s) (f (relay_blocks s)) (bcast_commit_blocks s) (dead_block s)
    (db s) (peer_status s) (peer_stubs s) (outbox s) (tick s).
Definition upd_bcast_commit_blocks (f : gmap Z (list loc) → gmap Z (list loc)) (s : server) : server :=
  MkServer (server_id s) (clients s) (heap s) (next_loc s) (pending_blks s)
    (pb_sync_queue s) (pb_sync_labels s) (pb_merge_queue s) (committed_blks s) (pending_txs s)
    (blk_seq_generator s) (relay_votes s) (relay_blocks s) (f (bcast_commit_blocks s)) (dead_block s)
    (db s) (peer_status s) (peer_stubs s) (outbox s) (tick s).
Definition upd_dead_block (f : gset Z → gset Z) (s : server) : server :=
  MkServer (server_id s) (clients s) (heap s) (next_loc s) (pending_blks s)
    (pb_sync_queue s) (pb_sync_labels s) (pb_merge_queue s) (committed_blks s) (pending_txs s)
    (blk_seq_generator s) (relay_votes s) (relay_blocks s) (bcast_commit_blocks s) (f (dead_block s))
    (db s) (peer_status s) (peer_stubs s) (outbox s) (tick s).
Definition upd_db (f : list (string * bytes) → list (string * bytes)) (s : server) : server :=
  MkServer (server_id s) (clients s) (heap s) (next_loc s) (pending_blks s)
    (pb_sync_queue s) (pb_sync_labels s) (pb_merge_queue s) (committed_blks s) (pending_txs s)
    (blk_seq_generator s) (relay_votes s) (relay_blocks s) (bcast_commit_blocks s) (dead_block s)
    (f (db s)) (peer_status s) (peer_stubs s) (outbox s) (tick s).
Definition upd_peer_status (f : list bool → list bool) (s : server) : server :=
  MkServer (server_id s) (clients s) (heap s) (next_loc s) (pending_blks s)
    (pb_sync_queue s) (pb_sync_labels s) (pb_merge_queue s) (committed_blks s) (pending_txs s)
    (blk_seq_generator s) (relay_votes s) (relay_blocks s) (bcast_commit_blocks s) (dead_block s)
    (db s) (f (peer_status s)) (peer_stubs s) (outbox s) (tick s).
Definition upd_peer_stubs (f : gset Z → gset Z) (s : server) : server :=
  MkServer (server_id s) (clients s) (heap s) (next_loc s) (pending_blks s)
    (pb_sync_queue s) (pb_sync_labels s) (pb_merge_queue s) (committed_blks s) (pending_txs s)
    (blk_seq_generator s) (relay_votes s) (relay_blocks s) (bcast_commit_blocks s) (dead_block s)
    (db s) (peer_status s) (f (peer_stubs s)) (outbox s) (tick s).
Definition upd_outbox (f : list (Z * PeerRequest) → list (Z * PeerRequest)) (s : server) : server :=
  MkServer (server_id s) (clients s) (heap s) (next_loc s) (pending_blks s)
    (pb_sync_queue s) (pb_sync_labels s) (pb_merge_queue s) (committed_blks s) (pending_txs s)
    (blk_seq_generator s) (relay_votes s) (relay_blocks s) (bcast_commit_blocks s) (dead_block s)
    (db s) (peer_status s) (peer_stubs s) (f (outbox s)) (tick s).
Definition upd_tick (f : nat → nat) (s : server) : server :=
  MkServer (server_id s) (clients s) (heap s) (next_loc s) (pending_blks s)
    (pb_sync_queue s) (pb_sync_labels s) (pb_merge_queue s) (committed_blks s) (pending_txs s)
    (blk_seq_generator s) (relay_votes s) (relay_blocks s) (bcast_commit_blocks s) (dead_block s)
    (db s) (peer_status s) (peer_stubs s) (outbox s) (f (tick s)).

(** ** Primitive operations *)

Section operations.
Context {F : FlexBuffers} {E : Env}.

(** [std::chrono::system_clock::now()] in milliseconds. *)
Definition now_ms : M server Z := λ s, (Ret (clock (server_id s) (tick s)), upd_tick S s).

(** One draw of [std::uniform_int_distribution(a, b)]. *)
Definition draw (a b : Z) : M server Z :=
  λ s, (Ret (random (server_id s) (tick s) a b), upd_tick S s).

(** Reading through a pointer, and assigning through it. *)
Definition deref (l : loc) : M server Block :=
  λ s, match heap s !! l with Some b => (Ret b, s) | None => (Crash NullDeref, s) end.

Definition assign (l : loc) (f : Block → Block) : M server unit :=
  λ s, match heap s !! l with
       | Some b => (Ret tt, upd_heap <[l := f b]> s)
       | None => (Crash NullDeref, s)
       end.

(** [std::make_shared<Block>(b)]. *)
Definition new_block (b : Block) : M server loc :=
  λ s, (Ret (next_loc s), upd_next_loc S (upd_heap <[next_loc s := b]> s)).

(** The pending map, under an accessor. *)
Definition pending_find (id : Z) : M server (option loc) := gets (λ s, pending_blks s !! id).
Definition pending_insert (id : Z) (l : loc) : M server unit :=
  modify (upd_pending_blks <[id := l]>).
Definition pending_erase (id : Z) : M server unit := modify (upd_pending_blks (delete id)).

Definition committed_insert (id : Z) (l : loc) : M server unit :=
  modify (upd_committed_blks <[id := l]>).

Definition merge_push (l : loc) : M server unit :=
  modify (upd_pb_merge_queue (λ q, q ++ [l])).

(** [try_pop] on a queue kept as a list, oldest element first. *)
Definition pop_front {A} (get : server → list A) (set : list A → server → server)
    : M server (option A) :=
  λ s, match get s with
       | [] => (Ret None, s)
       | x :: q => (Ret (Some x), set q s)
       end.

(** The queues of the maps from a peer to its queue. [find(t)->second->...] on an absent
    peer dereferences the end iterator. *)
Definition push_to {A} (get : server → gmap Z (list A))
    (upd : (gmap Z (list A) → gmap Z (list A)) → server → server) (t : Z) (x : A)
    : M server unit :=
  λ s, match get s !! t with
       | Some q => (Ret tt, upd <[t := q ++ [x]]> s)
       | None => (Crash NullDeref, s)
       end.

Definition pop_from {A} (get : server → gmap Z (list A))
    (upd : (gmap Z (list A) → gmap Z (list A)) → server → server) (t : Z)
    : M server (option A) :=
  λ s, match get s !! t with
       | Some [] => (Ret None, s)
       | Some (x :: q) => (Ret (Some x), upd <[t := q]> s)
       | None => (Crash NullDeref, s)
       end.

Definition push_relay_vote := push_to relay_votes upd_relay_votes.
Definition pop_relay_vote := pop_from relay_votes upd_relay_votes.
Definition push_relay_block := push_to relay_blocks upd_relay_blocks.
Definition pop_relay_block := pop_from relay_blocks upd_relay_blocks.
Definition push_bcast := push_to bcast_commit_blocks upd_bcast_commit_blocks.
Definition pop_bcast := pop_from bcast_commit_blocks upd_bcast_commit_blocks.

(** The length of one peer's queue: the bound of the loop that empties it. *)
Definition queue_len {A} (m : gmap Z (list A)) (t : Z) : nat := length (default [] (m !! t)).

(** A synchronous call of a peer's stub: the request leaves, a status comes back. *)
Definition stub_call (t : Z) (req : PeerRequest) : M server bool :=
  λ s, if decide (t ∈ peer_stubs s)
       then (Ret (rpc_ok (server_id s) (tick s)), upd_tick S (upd_outbox (λ o, o ++ [(t, req)]) s))
       else (Crash NullDeref, s).

(** [db->Put("block-<id>", bytes)]. *)
Definition db_put_block (id : Z) (ser : bytes) : M server unit :=
  modify (upd_db (λ d, d ++ [(("block-" +:+ to_string id)%string, ser)])).

End operations.

End state.

