(* ===== verification/Client.v ===== *)
(** The client: [TcClient] of [include/client/tc-client.hpp], [src/client/tc-client.cpp]
    and [include/client/tc-client-grpc.hpp], over an interface for the servers it calls. *)
From Stdlib Require Import ZArith Lia Ascii String.
From stdpp Require Import base tactics list gmap strings sorting.
From S2P Require Import Prelude Decimal Entity FlexCodec Msgpack ServerState.

(** ** The service, as a client sees it *)

(** [TcConsensus::Stub] on the channel of an address, over a network state [W]. A call
    returns whether its status is OK and the response's payload, which is the default one
    when the call fails. *)
Class ConsensusStub (W : Type) := {
  call_Register : string → Z → bytes → W → (bool * bytes) * W;
  call_Heartbeat : string → Z → W → (bool * unit) * W;
  call_PullPendingBlocks : string → Z → W → (bool * list bytes) * W;
  call_GetBlocks : string → list bytes → W → (bool * list bytes) * W;
  call_VoteBlocks : string → Z → list bytes → W → (bool * unit) * W;
}.

(** The keys of [conf_data] a client reads; a missing ["clear-rocksdb"] is a JSON null,
    whose conversion to a string throws. *)
Record client_conf := MkClientConf {
  conf_client_id : Z;
  conf_client_count : Z;
  conf_account_count : Z;
  clear_rocksdb : option string;
  grpc_server_ip : string;
  grpc_server_port : Z;
  grpc_server_count : Z;
}.

(** What the machine decides, for each client by its id: the number of cores it reports, the
    result of [pthread_setaffinity_np] and whether the database opens; and what a string holds after
    RocksDB has looked for a value that is not there. *)
Class ClientEnv := {
  hardware_concurrency : Z → Z;
  setaffinity_rc : Z → nat → Z;
  db_open_ok : Z → bool;
  get_missing : string → string;
}.

Inductive thread := HeartbeatThread | PullThread | VoteThread.

(** ** State *)

(** The buffers of [VoteBlocks], one string per transaction of a block. *)
Record mempool := MkMempool {
  sender_strvec : list string;
  receiver_strvec : list string;
  sender_bal_strvec : list string;
  receiver_bal_strvec : list string;
}.

Section state.
Context {C : Crypto} {W : Type}.

(** [TcClient]. The blocks of the queue are not shared with anything, so they are values.
    [stubs] are the addresses of the channels, [net] is everything outside the process,
    [accounts_db] the database, [affinity] the calls that pinned a thread to a core and
    [ctick] counts the questions to the environment. [AccountCHM accounts], [voted_blks]
    and [committed_blks] are never touched. *)
Record client := MkClient {
  ecc_skey : option EccKey;
  client_pkey : option PubKey;
  client_id : Z;
  queued_blks : list Block;
  pending_blkhdr : gmap Z BlockHeader;
  client_tss_key : option (BLSPrivateKeyShare * BLSPublicKeyShare);
  accounts_db : gmap string string;
  pool : mempool;
  stubs : list string;
  affinity : list (thread * Z);
  net : W;
  ctick : nat;
}.

Definition upd_queued (f : list Block → list Block) (c : client) : client :=
  MkClient (ecc_skey c) (client_pkey c) (client_id c) (f (queued_blks c)) (pending_blkhdr c)
    (client_tss_key c) (accounts_db c) (pool c) (stubs c) (affinity c) (net c) (ctick c).
Definition upd_blkhdr (f : gmap Z BlockHeader → gmap Z BlockHeader) (c : client) : client :=
  MkClient (ecc_skey c) (client_pkey c) (client_id c) (queued_blks c) (f (pending_blkhdr c))
    (client_tss_key c) (accounts_db c) (pool c) (stubs c) (affinity c) (net c) (ctick c).
Definition set_tss_key (k : BLSPrivateKeyShare * BLSPublicKeyShare) (c : client) : client :=
  MkClient (ecc_skey c) (client_pkey c) (client_id c) (queued_blks c) (pending_blkhdr c)
    (Some k) (accounts_db c) (pool c) (stubs c) (affinity c) (net c) (ctick c).
Definition upd_accounts_db (f : gmap string string → gmap string string) (c : client) : client :=
  MkClient (ecc_skey c) (client_pkey c) (client_id c) (queued_blks c) (pending_blkhdr c)
    (client_tss_key c) (f (accounts_db c)) (pool c) (stubs c) (affinity c) (net c) (ctick c).
Definition upd_pool (f : mempool → mempool) (c : client) : client :=
  MkClient (ecc_skey c) (client_pkey c) (client_id c) (queued_blks c) (pending_blkhdr c)
    (client_tss_key c) (accounts_db c) (f (pool c)) (stubs c) (affinity c) (net c) (ctick c).
Definition upd_affinity (f : list (thread * Z) → list (thread * Z)) (c : client) : client :=
  MkClient (ecc_skey c) (client_pkey c) (client_id c) (queued_blks c) (pending_blkhdr c)
    (client_tss_key c) (accounts_db c) (pool c) (stubs c) (f (affinity c)) (net c) (ctick c).
Definition set_net (w : W) (c : client) : client :=
  MkClient (ecc_skey c) (client_pkey c) (client_id c) (queued_blks c) (pending_blkhdr c)
    (client_tss_key c) (accounts_db c) (pool c) (stubs c) (affinity c) w (ctick c).
Definition set_identity (sk : EccKey) (pk : PubKey) (id : Z) (c : client) : client :=
  MkClient (Some sk) (Some pk) id (queued_blks c) (pending_blkhdr c)
    (client_tss_key c) (accounts_db c) (pool c) (stubs c) (affinity c) (net c) (ctick c).
Definition upd_ctick (f : nat → nat) (c : client) : client :=
  MkClient (ecc_skey c) (client_pkey c) (client_id c) (queued_blks c) (pending_blkhdr c)
    (client_tss_key c) (accounts_db c) (pool c) (stubs c) (affinity c) (net c) (f (ctick c)).

End state.

Arguments client {C} W.

(** ** [snprintf] into a string's buffer *)

(** A [uint64_t] printed with ["%ld"]: the value of the same bits as a [long]. *)
Definition format_ld (z : Z) : string :=
  if z <? 2 ^ 63 then to_string z else ("-" +:+ to_string (2 ^ 64 - z))%string.

(** [snprintf(s.data(), s.size(), "%s", text)]: at most [s.size()] characters with the
    final null; with a size of zero nothing is written. *)
Definition snprintf (s text : string) : string :=
  match String.length s with
  | O => s
  | S n =>
      let t := String.substring 0 n text in
      (t +:+ String zero (String.substring (S (String.length t)) (n - String.length t) s))%string
  end.

Section operations.
Context {C : Crypto} {F : FlexBuffers} {K : Msgpack} {E : Env} {CE : ClientEnv}.
Context {W : Type} {N : ConsensusStub W} (cc : client_conf).

Local Abbreviation MC := (M (client W)).

(** A synchronous call on [stubs.at(stub_id)]. *)
Definition rpc {A} (stub_id : nat) (call : string → W → (bool * A) * W) : MC (bool * A) :=
  addr <- gets (λ c, stubs c !! stub_id) ;;
  match addr with
  | None => mthrow OutOfRange
  | Some a => λ c, let '(r, w) := call a (net c) in (Ret r, set_net w c)
  end.

(** The [id] field of a request is a [uint32]. *)
Definition request_id (c : client W) : Z := wrap32 (client_id c).

(** ** Construction *)

(** The strings of a buffer after [resize(2000)]. *)
Definition empty_strings : list string := replicate 2000 EmptyString.

(** The loop that fills the database. *)
Definition put_account (i : nat) : MC unit :=
  modify (upd_accounts_db <[to_string (Z.of_nat i) := to_string (Z.of_nat i)]>).

(** [TcClient::init]; the capacity the strings reserve does not change their size. *)
Definition init : MC unit :=
  (λ c, let sk := newEccKey (conf_client_id cc) (ctick c) in
        (Ret tt, set_identity sk (CreatePubKey sk) (conf_client_id cc) (upd_ctick S c))) ;;
  modify (upd_pool (λ _, MkMempool empty_strings empty_strings empty_strings empty_strings)) ;;
  if negb (db_open_ok (conf_client_id cc)) then mcrash AssertFail
  else
    match clear_rocksdb cc with
    | None => mthrow TypeError
    | Some s =>
        if String.eqb s "true"
        then mfor (seq 0 (Z.to_nat (conf_account_count cc))) put_account ;;
             mcrash (ProcessExit 0)
        else mret tt
    end.

(** The members before [init] runs: the database and the network are what they are. *)
Definition TcClient_members (channel shadow_channel : string) (db : gmap string string) (w : W)
    : client W :=
  MkClient None None 0 [] ∅ None db (MkMempool [] [] [] []) [channel; shadow_channel] [] w 0.

(** ** Calls *)

(** [TcClient::Register]. A failed call leaves an empty key string to be parsed. *)
Definition TcClient_Register (stub_id : nat) : MC bool :=
  id <- gets request_id ;;
  pk <- gets client_pkey ;;
  match pk with
  | None => mcrash NullDeref
  | Some ecc_pkey =>
      r <- rpc stub_id (λ a, call_Register a id (get_pub_key_data ecc_pkey)) ;;
      skey_share <- lift (skey_of_string r.2 (conf_client_count cc) (conf_client_count cc)) ;;
      pkey_share <- lift (pkey_of_Fr (getPrivateKey skey_share) (conf_client_count cc)
                            (conf_client_count cc)) ;;
      modify (set_tss_key (skey_share, pkey_share)) ;;
      mret r.1
  end.

(** [TcClient::Heartbeat]. *)
Definition TcClient_Heartbeat (stub_id : nat) : MC bool :=
  id <- gets request_id ;;
  r <- rpc stub_id (λ a, call_Heartbeat a id) ;;
  mret r.1.

(** One header of the response of [TcClient::PullPendingBlocks]. *)
Definition record_header (hdr : bytes) : MC unit :=
  block_hdr <- lift (from_bytes (T := BlockHeader) hdr) ;;
  modify (upd_blkhdr (map_insert_new (id_ block_hdr) block_hdr)).

(** [TcClient::PullPendingBlocks]. *)
Definition TcClient_PullPendingBlocks (stub_id : nat) : MC bool :=
  id <- gets request_id ;;
  r <- rpc stub_id (λ a, call_PullPendingBlocks a id) ;;
  mfor r.2 record_header ;;
  mret r.1.

(** One block of the response of [TcClient::GetBlocks]. *)
Definition queue_block (ser : bytes) : MC unit :=
  block <- lift (from_bytes (T := Block) ser) ;;
  modify (upd_queued (λ q, q ++ [block])) ;;
  modify (upd_blkhdr (delete (id_ (header_ block)))).

(** [TcClient::GetBlocks]. *)
Definition TcClient_GetBlocks (stub_id : nat) : MC bool :=
  hdrs <- gets (λ c, chm_iter (pending_blkhdr c)) ;;
  r <- rpc stub_id (λ a, call_GetBlocks a ((λ kv, to_bytes (kv.2 : BlockHeader)) <$> hdrs)) ;;
  mfor r.2 queue_block ;;
  mret r.1.

(** ** Voting *)

(** [v.at(i)], and the assignment of element [i]. *)
Definition str_at (v : list string) (i : nat) : outcome string :=
  match v !! i with Some s => Ret s | None => Throw OutOfRange end.

(** The first loop of [VoteBlocks]: the account numbers as strings. *)
Definition print_accounts (itx : nat * Transaction) : MC unit :=
  let '(i, curr_tx) := itx in
  p <- gets pool ;;
  sender_str <- lift (str_at (sender_strvec p) i) ;;
  receiver_str <- lift (str_at (receiver_strvec p) i) ;;
  modify (upd_pool (λ p, MkMempool
    (<[i := snprintf sender_str (format_ld (tx_sender_ curr_tx))]> (sender_strvec p))
    (<[i := snprintf receiver_str (format_ld (tx_receiver_ curr_tx))]> (receiver_strvec p))
    (sender_bal_strvec p) (receiver_bal_strvec p))).

(** [db->Get(key, &value)]. *)
Definition db_get (d : gmap string string) (key value : string) : string :=
  match d !! key with Some v => v | None => get_missing value end.

(** An element the loop before has found to be there. *)
Definition str_elem (v : list string) (i : nat) : string := default EmptyString (v !! i).

(** The second loop: read both balances and write them back. *)
Definition touch_accounts (i : nat) : MC unit :=
  modify (λ c, upd_pool (λ p, MkMempool (sender_strvec p) (receiver_strvec p)
    (alter (db_get (accounts_db c) (str_elem (sender_strvec p) i)) i (sender_bal_strvec p))
    (receiver_bal_strvec p)) c) ;;
  modify (λ c, upd_pool (λ p, MkMempool (sender_strvec p) (receiver_strvec p)
    (sender_bal_strvec p)
    (alter (db_get (accounts_db c) (str_elem (receiver_strvec p) i)) i
       (receiver_bal_strvec p))) c) ;;
  modify (λ c, upd_accounts_db
    <[str_elem (sender_strvec (pool c)) i := str_elem (sender_bal_strvec (pool c)) i]> c) ;;
  modify (λ c, upd_accounts_db
    <[str_elem (receiver_strvec (pool c)) i := str_elem (receiver_bal_strvec (pool c)) i]> c).

Definition check_transactions (b : Block) : MC unit :=
  mfor (zip (seq 0 (length (tx_vec_ b))) (tx_vec_ b)) print_accounts ;;
  mfor (seq 0 (length (tx_vec_ b))) touch_accounts.

(** Signing: the hash of the block as it came, then the vote inserted into the block
    without its transactions. *)
Definition sign_block (b : Block) : MC Block :=
  block_hash_str <- lift (get_sha256 b) ;;
  let b := set_tx_vec [] b in
  key <- gets client_tss_key ;;
  cid <- gets client_id ;;
  match key with
  | None => mcrash NullDeref
  | Some (sk, _) =>
      sig_share <- lift (sign sk block_hash_str cid) ;;
      let bv := MkBlockVote (id_ (header_ b)) cid (Some sig_share) in
      mret (upd_votes (map_insert_new cid bv) b)
  end.

(** The body of the loop of [TcClient::VoteBlocks]: the status of the last call. *)
Definition vote_block (sp_block : Block) : MC bool :=
  id <- gets request_id ;;
  check_transactions sp_block ;;
  block <- sign_block sp_block ;;
  let ser := to_bytes (Block_copy block) in
  r0 <- rpc 0 (λ a, call_VoteBlocks a id [ser]) ;;
  r1 <- rpc 1 (λ a, call_VoteBlocks a id [ser]) ;;
  mret (r1 : bool * unit).1.

Definition pop_queued : MC (option Block) :=
  λ c, match queued_blks c with
       | [] => (Ret None, c)
       | b :: q => (Ret (Some b), upd_queued (λ _, q) c)
       end.

(** [TcClient::VoteBlocks]: a default status is OK. *)
Definition TcClient_VoteBlocks : MC bool :=
  n <- gets (λ c, length (queued_blks c)) ;;
  while_pop (S n) pop_queued (λ _, vote_block) true.

(** ** The threads *)

(** What each of the three threads does before its loop: the core is the one of the
    client's id, and the thread pinned is always the heartbeat thread. *)
Definition bind_thread : MC unit :=
  let cores := hardware_concurrency (conf_client_id cc) in
  if cores =? 0 then mcrash DivByZero
  else
    let bind_core := conf_client_id cc mod cores in
    rc <- (λ c, (Ret (setaffinity_rc (conf_client_id cc) (ctick c)),
                 upd_ctick S (upd_affinity (λ l, l ++ [(HeartbeatThread, bind_core)]) c))) ;;
    if rc =? 0 then mret tt else mcrash (ProcessExit (-1)).

Definition unit_of {A} (m : MC A) : MC unit := _ <- m ;; mret tt.

(** One round of each thread's loop. The flag of a thread is read and written by that
    thread alone, and is false between two rounds. *)
Definition heartbeat_round : MC unit := unit_of (TcClient_Heartbeat 0).

Definition pull_round : MC unit :=
  unit_of (TcClient_PullPendingBlocks 0) ;; unit_of (TcClient_PullPendingBlocks 1) ;;
  unit_of (TcClient_GetBlocks 0) ;; unit_of (TcClient_GetBlocks 1).

Definition vote_round : MC unit := unit_of TcClient_VoteBlocks.

Definition thread_round (t : thread) : MC unit :=
  match t with
  | HeartbeatThread => heartbeat_round
  | PullThread => pull_round
  | VoteThread => vote_round
  end.

(** [TcClient::start], up to the threads [schedule] creates. *)
Definition TcClient_start : MC unit :=
  unit_of (TcClient_Register 0) ;;
  mfor [HeartbeatThread; PullThread; VoteThread] (λ _, bind_thread).

End operations.

(** ** [main]: the choice of the servers *)

(** [--id] replaces the configured id unless it is zero. *)
Definition override_id (id : Z) (cc : client_conf) : client_conf :=
  if id =? 0 then cc
  else MkClientConf id (conf_client_count cc) (conf_account_count cc) (clear_rocksdb cc)
         (grpc_server_ip cc) (grpc_server_port cc) (grpc_server_count cc).

Section selection.
Context (cc : client_conf).

(** [get<uint32_t>() - 1], in 32 bits. *)
Definition client_index : Z := wrap32 (wrap32 (conf_client_id cc) - 1).

(** The remainder [client_index % grpc-server-count]. *)
Definition index_mod : outcome Z :=
  let count := wrap32 (grpc_server_count cc) in
  if count =? 0 then Crash DivByZero else Ret (client_index mod count).

Definition server_select : outcome Z := obind index_mod (λ m, Ret (wrap32 (m + 1))).

Definition shadow_server_select : outcome Z :=
  obind index_mod (λ m,
    let select := wrap32 (m + 2) in
    Ret (if wrap32 (grpc_server_count cc) <? select then 1 else select)).

(** ["<ip>:<port>"], the port in 32 bits. *)
Definition server_addr (select : Z) : string :=
  (grpc_server_ip cc +:+ ":" +:+ to_string (wrap32 (wrap32 (grpc_server_port cc) + select)))%string.

(** The channels the client is constructed with. *)
Definition channels : outcome (string * string) :=
  obind server_select (λ i, obind shadow_server_select (λ j,
  Ret (server_addr i, server_addr j))).

End selection.

(** [main], up to the watchdog: construct the client and start it. *)
Definition client_main {C : Crypto} {CE : ClientEnv} {W : Type} {N : ConsensusStub W}
    (id : Z) (conf : client_conf) (db : gmap string string) (w : W)
    : outcome unit * option (client W) :=
  let cc := override_id id conf in
  match channels cc with
  | Ret (a, b) =>
      let '(r, c) := (init cc ;; TcClient_start cc) (TcClient_members a b db w) in (r, Some c)
  | Throw e => (Throw e, None)
  | Crash f => (Crash f, None)
  end.
