(* ===== verification/ServerInv.v ===== *)
(** The invariant of a server process, the way its state evolves, and how the primitive
    operations of [ServerState.v] keep both. The components' proofs apply these lemmas. *)
From Stdlib Require Import ZArith Lia.
From stdpp Require Import base tactics list gmap strings sorting.
From S2P Require Import Prelude Decimal Entity FlexCodec ServerState.

Section invariant.
Context {C : Crypto} (cf : conf).

(** ** Definitions *)

(** The number of servers is positive and its successor fits [uint64_t]. *)
Definition conf_ok : Prop := 0 < server_count cf < 2 ^ 64 - 1.

(** A block with a vote of enough clients. *)
Definition quorum (b : Block) : Prop := client_count cf ≤ Z.of_nat (size (votes_ b)).

(** [at_loc s l P]: the pointer [l] is valid and its block satisfies [P]. *)
Definition at_loc (s : server) (l : loc) (P : Block → Prop) : Prop :=
  ∃ b, heap s !! l = Some b ∧ P b.

(** The other servers of the configuration. *)
Definition is_peer (s : server) (t : Z) : Prop :=
  1 ≤ t ≤ server_count cf ∧ t ≠ server_id s.

Record server_wf (s : server) : Prop := {
  wf_heap l b : heap s !! l = Some b → (l < next_loc s)%nat ∧ block_wf b;
  wf_pending id l : pending_blks s !! id = Some l → at_loc s l (λ b, id_ (header_ b) = id);
  wf_merge l : l ∈ pb_merge_queue s → at_loc s l quorum;
  wf_merge_nodup : NoDup (pb_merge_queue s);
  wf_merge_pending id l : pending_blks s !! id = Some l → l ∉ pb_merge_queue s;
  wf_committed id l :
    committed_blks s !! id = Some l → at_loc s l (λ b, id_ (header_ b) = id ∧ quorum b);
  wf_relay_blocks t q l : relay_blocks s !! t = Some q → l ∈ q → at_loc s l (λ _, True);
  wf_bcast t q l : bcast_commit_blocks s !! t = Some q → l ∈ q → at_loc s l quorum;
  wf_relay_votes t q : relay_votes s !! t = Some q → Forall vote_wf q;
  wf_peers t : is_peer s t →
    is_Some (relay_votes s !! t) ∧ is_Some (relay_blocks s !! t) ∧
    is_Some (bcast_commit_blocks s !! t) ∧ t ∈ peer_stubs s;
  wf_status : Z.of_nat (length (peer_status s)) = server_count cf;
  wf_txs : map_Forall (λ k tx, tx_id_ tx = k ∧ tx_wf tx) (pending_txs s);
  wf_seq : u64 (blk_seq_generator s);
}.

(** What an update of a shared block may change: time stamps (the distribution time
    once), the merged signature, and votes added under new voters. *)
Record block_le (b b' : Block) : Prop := {
  le_id : id_ (header_ b') = id_ (header_ b);
  le_base : base_id_ (header_ b') = base_id_ (header_ b);
  le_proposal : proposal_ts_ (header_ b') = proposal_ts_ (header_ b);
  le_dist : dist_ts_ (header_ b) ≠ 0 → dist_ts_ (header_ b') = dist_ts_ (header_ b);
  le_tx : tx_vec_ b' = tx_vec_ b;
  le_votes : votes_ b ⊆ votes_ b';
}.

(** How the state of a server moves: blocks stay allocated and only grow, ids are never
    unlabelled, undead or uncommitted, and the two logs only get longer. *)
Record evolves (s s' : server) : Prop := {
  ev_id : server_id s' = server_id s;
  ev_heap l b : heap s !! l = Some b → at_loc s' l (block_le b);
  ev_next : (next_loc s ≤ next_loc s')%nat;
  ev_fresh l : is_Some (heap s' !! l) → is_Some (heap s !! l) ∨ (next_loc s ≤ l)%nat;
  ev_labels : pb_sync_labels s ⊆ pb_sync_labels s';
  ev_dead : dead_block s ⊆ dead_block s';
  ev_committed : dom (committed_blks s) ⊆ dom (committed_blks s');
  ev_db : db s `prefix_of` db s';
  ev_outbox : outbox s `prefix_of` outbox s';
}.

Definition good (s s' : server) : Prop := server_wf s' ∧ evolves s s'.

(** ** Orders *)

#[export] Instance block_le_preorder : PreOrder block_le.
Proof.
  split.
  - by split.
  - intros b1 b2 b3 [i1 ba1 p1 d1 t1 v1] [i2 ba2 p2 d2 t2 v2]. split; try congruence.
    + intros H. rewrite d2; [by apply d1|]. by rewrite d1.
    + by transitivity (votes_ b2).
Qed.

#[export] Instance evolves_preorder : PreOrder evolves.
Proof.
  split.
  - intros s. split; try done; [|by left]. intros l b H. by exists b.
  - intros s1 s2 s3 [i1 h1 n1 f1 l1 d1 c1 b1 o1] [i2 h2 n2 f2 l2 d2 c2 b2 o2].
    split; [congruence| |lia| |by etrans..].
    + intros l b (b' & Hb' & Hle)%h1. apply h2 in Hb' as (b'' & Hb'' & Hle').
      exists b''. split; [done|by etrans].
    + intros l [Hl|Hl]%f2; [by apply f1|right; lia].
Qed.

Lemma good_refl s : server_wf s → good s s.
Proof. by split. Qed.

Lemma good_trans s1 s2 s3 : good s1 s2 → good s2 s3 → good s1 s3.
Proof. intros [_ H1] [H2 H3]. split; [done|by etrans]. Qed.

Lemma quorum_le b b' : block_le b b' → quorum b → quorum b'.
Proof.
  unfold quorum. intros Hle. pose proof (map_subseteq_size _ _ (le_votes _ _ Hle)). lia.
Qed.

Lemma at_loc_mono s l (P Q : Block → Prop) :
  at_loc s l P → (∀ b, P b → Q b) → at_loc s l Q.
Proof. intros (b & H1 & H2) H. exists b. eauto. Qed.

(** A property the updates keep still holds of the pointer later. *)
Lemma at_loc_evolves s s' l (P : Block → Prop) :
  evolves s s' → (∀ b b', block_le b b' → P b → P b') → at_loc s l P → at_loc s' l P.
Proof.
  intros He HP (b & Hb & H). apply (ev_heap _ _ He) in Hb as (b' & Hb' & Hle).
  exists b'. eauto.
Qed.

End invariant.

#[export] Hint Resolve good_refl quorum_le : dchain.

(** An update of fields the invariant does not speak of. *)
Ltac wf_frame H := destruct H; split; simpl; eauto.
Ltac ev_frame :=
  split; simpl;
  [ reflexivity
  | let l := fresh in let b := fresh in let Hb := fresh in
    intros l b Hb; exists b; split; [exact Hb|reflexivity]
  | lia
  | by left
  | first [reflexivity | apply union_subseteq_r]
  | first [reflexivity | apply union_subseteq_r]
  | first [reflexivity | rewrite dom_insert_L; apply union_subseteq_r]
  | first [reflexivity | apply prefix_app_r; reflexivity]
  | first [reflexivity | apply prefix_app_r; reflexivity] ].

(** ** The primitive operations *)

Section primitives.
Context {C : Crypto} {F : FlexBuffers} {E : Env} {EL : EnvLaws E} (cf : conf).
Local Abbreviation server_wf := (server_wf cf).
Local Abbreviation good := (good cf).
Local Abbreviation quorum := (quorum cf).

Lemma good_tick s : server_wf s → good s (upd_tick S s).
Proof. intros H. split; [wf_frame H|ev_frame]. Qed.

Lemma good_clients f s : server_wf s → good s (upd_clients f s).
Proof. intros H. split; [wf_frame H|ev_frame]. Qed.

Lemma good_pending_txs f s :
  server_wf s → map_Forall (λ k tx, tx_id_ tx = k ∧ tx_wf tx) (f (pending_txs s)) →
  good s (upd_pending_txs f s).
Proof. intros H Hf. split; [|ev_frame]. destruct H; split; simpl; eauto. Qed.

Lemma good_blk_seq f s :
  server_wf s → u64 (f (blk_seq_generator s)) → good s (upd_blk_seq_generator f s).
Proof. intros H Hf. split; [|ev_frame]. destruct H; split; simpl; eauto. Qed.

Lemma good_sync_queue f s : server_wf s → good s (upd_pb_sync_queue f s).
Proof. intros H. split; [wf_frame H|ev_frame]. Qed.

Lemma good_label i s : server_wf s → good s (upd_pb_sync_labels (λ X, {[i]} ∪ X) s).
Proof. intros H. split; [wf_frame H|ev_frame]. Qed.

Lemma good_dead i s : server_wf s → good s (upd_dead_block (λ X, {[i]} ∪ X) s).
Proof. intros H. split; [wf_frame H|ev_frame]. Qed.

Lemma good_db x s : server_wf s → good s (upd_db (λ d, d ++ [x]) s).
Proof. intros H. split; [wf_frame H|ev_frame]. Qed.

Lemma good_outbox x s : server_wf s → good s (upd_outbox (λ o, o ++ [x]) s).
Proof. intros H. split; [wf_frame H|ev_frame]. Qed.

Lemma good_status i ok s : server_wf s → good s (upd_peer_status <[i := ok]> s).
Proof.
  intros H. split; [|ev_frame]. destruct H; split; simpl; eauto. by rewrite length_insert.
Qed.

Lemma good_pending_erase i s : server_wf s → good s (upd_pending_blks (delete i) s).
Proof.
  intros H. split; [|ev_frame]. destruct H; split; simpl; eauto;
    intros id l [_ Hl]%lookup_delete_Some; eauto.
Qed.

(** Assigning through a pointer. *)
Lemma evolves_assign s l b b' :
  heap s !! l = Some b → block_le b b' → evolves s (upd_heap <[l := b']> s).
Proof.
  intros Hl Hle. split; try done.
  - intros l0 b0 H0. unfold at_loc. simpl. destruct (decide (l = l0)) as [<-|Hne].
    + rewrite lookup_insert_eq. simplify_eq. by exists b'.
    + rewrite lookup_insert_ne by done. by exists b0.
  - intros l0. simpl. rewrite lookup_insert_is_Some'. intros [<-|?]; left; [by eexists|done].
Qed.

Lemma good_assign s l b b' :
  server_wf s → heap s !! l = Some b → block_le b b' → block_wf b' →
  good s (upd_heap <[l := b']> s).
Proof.
  intros H Hl Hle Hwf. pose proof (evolves_assign s l b b' Hl Hle) as He.
  split; [|done].
  assert (∀ l0 P, (∀ b b', block_le b b' → P b → P b') → at_loc s l0 P →
                  at_loc (upd_heap <[l := b']> s) l0 P) as Hmono.
  { intros. by eapply at_loc_evolves. }
  destruct H; split; simpl; eauto with dchain.
  - intros l0 b0. destruct (decide (l = l0)) as [<-|Hne].
    + rewrite lookup_insert_eq. intros [= <-]. split; [|done]. by eapply wf_heap0.
    + rewrite lookup_insert_ne by done. apply wf_heap0.
  - intros id l0 Hp. apply Hmono; [|by apply wf_pending0].
    intros b1 b2 Hb; cbn beta. by rewrite (le_id _ _ Hb).
  - intros id l0 Hp. apply Hmono; [|by apply wf_committed0].
    intros b1 b2 Hb [<- Hq]. rewrite (le_id _ _ Hb). eauto with dchain.
Qed.

(** Allocating a block. *)
Lemma good_new s b : server_wf s → block_wf b →
  good s (upd_next_loc S (upd_heap <[next_loc s := b]> s)).
Proof.
  intros H Hwf.
  assert (heap s !! next_loc s = None) as Hfresh.
  { destruct (heap s !! next_loc s) eqn:El; [|done]. apply H in El as [El _]. lia. }
  assert (evolves s (upd_next_loc S (upd_heap <[next_loc s := b]> s))) as He.
  { split; try done; [|simpl; lia|].
    - intros l0 b0 H0. unfold at_loc. simpl.
      rewrite lookup_insert_ne by congruence. by exists b0.
    - intros l0. simpl. rewrite lookup_insert_is_Some'. intros [<-|?]; [by right|by left]. }
  assert (∀ l0 P, at_loc s l0 P →
            at_loc (upd_next_loc S (upd_heap <[next_loc s := b]> s)) l0 P) as Hmono.
  { intros l0 P (b0 & H0 & HP). exists b0. split; [|done]. simpl.
    rewrite lookup_insert_ne; [done|congruence]. }
  split; [|done]. destruct H; split; simpl; eauto.
  intros l0 b0. destruct (decide (next_loc s = l0)) as [<-|Hne].
  - rewrite lookup_insert_eq. intros [= <-]. split; [lia|done].
  - rewrite lookup_insert_ne by done. intros Hl. apply wf_heap0 in Hl as [Hl ?].
    split; [lia|done].
Qed.

Lemma good_pending_insert s id l :
  server_wf s → at_loc s l (λ b, id_ (header_ b) = id) → l ∉ pb_merge_queue s →
  good s (upd_pending_blks <[id := l]> s).
Proof.
  intros H Hl Hm. split; [|ev_frame]. destruct H; split; simpl; eauto;
    intros id0 l0 [[-> ->]|[_ Hp]]%lookup_insert_Some; eauto.
Qed.

Lemma good_committed_insert s id l :
  server_wf s → at_loc s l (λ b, id_ (header_ b) = id ∧ quorum b) →
  good s (upd_committed_blks <[id := l]> s).
Proof.
  intros H Hl. split; [|ev_frame]. destruct H; split; simpl; eauto.
  intros id0 l0 [[-> ->]|[_ Hp]]%lookup_insert_Some; eauto.
Qed.

(** Handing a pending block to the merge queue: the push and the erasure together. *)
Lemma good_merge_push_erase s id l :
  server_wf s → pending_blks s !! id = Some l → at_loc s l quorum →
  good s (upd_pending_blks (delete id) (upd_pb_merge_queue (λ q, q ++ [l]) s)).
Proof.
  intros H Hp Hq. split; [|ev_frame].
  assert (∀ id' , pending_blks s !! id' = Some l → id' = id) as Hinj.
  { intros id' Hp'. apply H in Hp' as (b & Hb & <-). apply H in Hp as (b' & Hb' & <-).
    congruence. }
  pose proof (wf_merge_pending _ _ H id l Hp) as Hl.
  destruct H; split; simpl; eauto.
  - intros id' l' [_ Hl']%lookup_delete_Some. eauto.
  - intros l'. rewrite elem_of_app, list_elem_of_singleton. intros [?| ->]; eauto.
  - apply NoDup_app. split_and!; [done| |apply NoDup_singleton].
    intros l' Hl' ->%list_elem_of_singleton. done.
  - intros id' l' [Hne Hl']%lookup_delete_Some.
    rewrite elem_of_app, list_elem_of_singleton. intros [Hin| ->].
    + by eapply wf_merge_pending0.
    + apply Hne. symmetry. eauto.
Qed.

Lemma good_merge_pop s l q :
  server_wf s → pb_merge_queue s = l :: q → good s (upd_pb_merge_queue (λ _, q) s).
Proof.
  intros H Hq. split; [|ev_frame]. destruct H as [h1 h2 h3 h4 h5 h6 h7 h8 h9 h10 h11 h12 h13].
  rewrite Hq in *. split; simpl; eauto.
  - intros l' Hl'. apply h3. by right.
  - by apply NoDup_cons in h4 as [_ h4].
  - intros id l' Hp Hl'. eapply h5; [done|by right].
Qed.

(** The queues of the peers. *)
Lemma good_relay_votes s t q :
  server_wf s → Forall vote_wf q → good s (upd_relay_votes <[t := q]> s).
Proof.
  intros H Hq. split; [|ev_frame]. destruct H; split; simpl; eauto.
  - intros t0 q0 [[-> ->]|[_ Hp]]%lookup_insert_Some; eauto.
  - intros t0 Ht. destruct (wf_peers0 t0 Ht) as (?&?&?&?).
    rewrite lookup_insert_is_Some'. auto.
Qed.

Lemma good_relay_blocks s t q :
  server_wf s → (∀ l, l ∈ q → at_loc s l (λ _, True)) →
  good s (upd_relay_blocks <[t := q]> s).
Proof.
  intros H Hq. split; [|ev_frame]. destruct H; split; simpl; eauto.
  - intros t0 q0 l [[-> ->]|[_ Hp]]%lookup_insert_Some; eauto.
  - intros t0 Ht. destruct (wf_peers0 t0 Ht) as (?&?&?&?).
    rewrite lookup_insert_is_Some'. auto.
Qed.

Lemma good_bcast s t q :
  server_wf s → (∀ l, l ∈ q → at_loc s l quorum) →
  good s (upd_bcast_commit_blocks <[t := q]> s).
Proof.
  intros H Hq. split; [|ev_frame]. destruct H; split; simpl; eauto.
  - intros t0 q0 l [[-> ->]|[_ Hp]]%lookup_insert_Some; eauto.
  - intros t0 Ht. destruct (wf_peers0 t0 Ht) as (?&?&?&?).
    rewrite lookup_insert_is_Some'. auto.
Qed.

(** A pointer pushed into every queue at once. *)
Definition push_each {A} (x : A) (m : gmap Z (list A)) : gmap Z (list A) :=
  (λ q, q ++ [x]) <$> m.

Lemma push_each_some {A} (x : A) m t : is_Some (m !! t) → is_Some (push_each x m !! t).
Proof. intros [q Hq]. unfold push_each. rewrite lookup_fmap, Hq. by eexists. Qed.

Lemma push_each_Some {A} (x : A) m t q :
  push_each x m !! t = Some q → ∃ q0, m !! t = Some q0 ∧ q = q0 ++ [x].
Proof.
  unfold push_each. rewrite lookup_fmap. intros (q0 & Hq & ->)%fmap_Some_1. by exists q0.
Qed.

Lemma good_relay_blocks_each s l :
  server_wf s → at_loc s l (λ _, True) → good s (upd_relay_blocks (push_each l) s).
Proof.
  intros H Hl. split; [|ev_frame]. destruct H; split; simpl; eauto.
  - intros t0 q0 l0 (q & Hq & ->)%push_each_Some.
    rewrite elem_of_app, list_elem_of_singleton. intros [?| ->]; eauto.
  - intros t0 Ht. destruct (wf_peers0 t0 Ht) as (?&?&?&?). eauto using push_each_some.
Qed.

Lemma good_bcast_each s l :
  server_wf s → at_loc s l quorum → good s (upd_bcast_commit_blocks (push_each l) s).
Proof.
  intros H Hl. split; [|ev_frame]. destruct H; split; simpl; eauto.
  - intros t0 q0 l0 (q & Hq & ->)%push_each_Some.
    rewrite elem_of_app, list_elem_of_singleton. intros [?| ->]; eauto.
  - intros t0 Ht. destruct (wf_peers0 t0 Ht) as (?&?&?&?).
    eauto using push_each_some.
Qed.

(** *** Their weakest preconditions *)

Lemma wp_deref l b (Q : outcome Block → server → Prop) s :
  heap s !! l = Some b → wp (deref l) Q s ↔ Q (Ret b) s.
Proof. intros H. unfold wp, deref. by rewrite H. Qed.

Lemma wp_assign l f b (Q : outcome unit → server → Prop) s :
  heap s !! l = Some b → wp (assign l f) Q s ↔ Q (Ret tt) (upd_heap <[l := f b]> s).
Proof. intros H. unfold wp, assign. by rewrite H. Qed.

Lemma wp_new_block b (Q : outcome loc → server → Prop) s :
  wp (new_block b) Q s ↔
  Q (Ret (next_loc s)) (upd_next_loc S (upd_heap <[next_loc s := b]> s)).
Proof. done. Qed.

Lemma wp_now (Q : outcome Z → server → Prop) s :
  wp now_ms Q s ↔ Q (Ret (clock (server_id s) (tick s))) (upd_tick S s).
Proof. done. Qed.

Lemma wp_draw a b (Q : outcome Z → server → Prop) s :
  wp (draw a b) Q s ↔ Q (Ret (random (server_id s) (tick s) a b)) (upd_tick S s).
Proof. done. Qed.

Lemma wp_push {A} get upd t (x : A) q (Q : outcome unit → server → Prop) s :
  get s !! t = Some q →
  wp (push_to get upd t x) Q s ↔ Q (Ret tt) (upd <[t := q ++ [x]]> s).
Proof. intros H. unfold wp, push_to. by rewrite H. Qed.

(** The loop that pushes one pointer into every queue of a map. *)
Section push_each.
Context {A : Type} (get : server → gmap Z (list A))
  (upd : (gmap Z (list A) → gmap Z (list A)) → server → server)
  (Hget : ∀ f s, get (upd f s) = f (get s))
  (Hcomp : ∀ f g s, upd f (upd g s) = upd (λ m, f (g m)) s)
  (Hconst : ∀ f s, upd f s = upd (λ _, f (get s)) s)
  (Hid : ∀ s, upd (λ _, get s) s = s).

Lemma upd_ext f g s : f (get s) = g (get s) → upd f s = upd g s.
Proof using Hconst. intros Heq. rewrite (Hconst f), (Hconst g). by rewrite Heq. Qed.

Definition push_in (ts : list Z) (x : A) : gmap Z (list A) → gmap Z (list A) :=
  map_imap (λ t q, Some (if decide (t ∈ ts) then q ++ [x] else q)).

Lemma lookup_push_in ts x m t :
  push_in ts x m !! t = (λ q, if decide (t ∈ ts) then q ++ [x] else q) <$> m !! t.
Proof. unfold push_in. rewrite map_lookup_imap. by destruct (m !! t). Qed.

Lemma push_loop_eq x ts s :
  NoDup ts → (∀ t, t ∈ ts → is_Some (get s !! t)) →
  mfor ts (λ t, push_to get upd t x) s = (Ret tt, upd (push_in ts x) s).
Proof using Hget Hcomp Hconst Hid.
  revert s. induction ts as [|t ts IH]; intros s Hnd Hts; simpl.
  - unfold mret. f_equal. rewrite <- (Hid s) at 1. apply upd_ext, map_eq. intros t.
    rewrite lookup_push_in. by destruct (get s !! t).
  - apply NoDup_cons in Hnd as [Ht Hnd]. destruct (Hts t) as [q Hq]; [by left|].
    unfold mbind, push_to at 1. rewrite Hq. rewrite IH; [|done|].
    + f_equal. rewrite Hcomp. apply upd_ext, map_eq. intros t0. rewrite !lookup_push_in.
      destruct (decide (t0 = t)) as [->|Hne].
      * rewrite lookup_insert_eq, Hq. simpl.
        rewrite (decide_True (P := t ∈ t :: ts)) by by left. by rewrite decide_False.
      * rewrite lookup_insert_ne by done. destruct (get s !! t0); [|done]. simpl. f_equal.
        apply decide_ext. rewrite elem_of_cons. tauto.
    + intros t0 Ht0. rewrite Hget, lookup_insert_is_Some'. right. apply Hts. by right.
Qed.

Lemma wp_push_each x (Q : outcome unit → server → Prop) s :
  wp (mfor (map_iter (get s)).*1 (λ t, push_to get upd t x)) Q s ↔
  Q (Ret tt) (upd (push_each x) s).
Proof using Hget Hcomp Hconst Hid.
  unfold wp. rewrite push_loop_eq; [|apply NoDup_fst_map_iter|].
  - simpl. enough (upd (push_in (map_iter (get s)).*1 x) s = upd (push_each x) s) as -> by done.
    apply upd_ext, map_eq. intros t. unfold push_each. rewrite lookup_push_in, lookup_fmap.
    destruct (get s !! t) as [q|] eqn:Hq; [|done]. simpl. rewrite decide_True; [done|].
    apply list_elem_of_fmap. exists (t, q). by rewrite elem_of_map_iter.
  - intros t ([t0 q] & -> & Hq%elem_of_map_iter)%list_elem_of_fmap. by eexists.
Qed.

End push_each.

Lemma wp_push_relay_blocks l (Q : outcome unit → server → Prop) s :
  wp (mfor (map_iter (relay_blocks s)).*1 (λ t, push_relay_block t l)) Q s ↔
  Q (Ret tt) (upd_relay_blocks (push_each l) s).
Proof. apply wp_push_each; done || by intros []. Qed.

Lemma wp_push_bcast l (Q : outcome unit → server → Prop) s :
  wp (mfor (map_iter (bcast_commit_blocks s)).*1 (λ t, push_bcast t l)) Q s ↔
  Q (Ret tt) (upd_bcast_commit_blocks (push_each l) s).
Proof. apply wp_push_each; done || by intros []. Qed.

Lemma wp_stub_call t req (Q : outcome bool → server → Prop) s :
  t ∈ peer_stubs s →
  wp (stub_call t req) Q s ↔
  Q (Ret (rpc_ok (server_id s) (tick s))) (upd_tick S (upd_outbox (λ o, o ++ [(t, req)]) s)).
Proof. intros H. unfold wp, stub_call. by rewrite decide_True. Qed.

(** The loop rule for bodies that are [good]: what every body keeps, the loop keeps. *)
Lemma wp_mfor_good {A} (xs : list A) body s (R : outcome unit → Prop) :
  server_wf s → R (Ret tt) →
  (∀ x s', x ∈ xs → good s s' → wp (body x) (λ r s'', good s' s'' ∧ R r) s') →
  wp (mfor xs body) (λ r s', good s s' ∧ R r) s.
Proof.
  intros Hs HR Hb. apply (wp_mfor (λ s', good s s')).
  - by apply good_refl.
  - auto.
  - intros x s' Hx Hg. eapply wp_mono; [by apply Hb|].
    intros [[]|e|f] s'' [Hg' HR']; [|split..]; eauto using good_trans.
Qed.

(** A pushed vote or block pointer. *)
Lemma push_relay_vote_good s t v :
  server_wf s → is_Some (relay_votes s !! t) → vote_wf v →
  wp (push_relay_vote t v) (λ r s', good s s' ∧ r = Ret tt) s.
Proof.
  intros H [q Hq] Hv. unfold push_relay_vote. rewrite wp_push by done. split; [|done].
  apply good_relay_votes; [done|]. apply Forall_app. split; [by eapply wf_relay_votes|].
  by constructor.
Qed.

Lemma push_relay_block_good s t l :
  server_wf s → is_Some (relay_blocks s !! t) → at_loc s l (λ _, True) →
  wp (push_relay_block t l) (λ r s', good s s' ∧ r = Ret tt) s.
Proof.
  intros H [q Hq] Hl. unfold push_relay_block. rewrite wp_push by done. split; [|done].
  apply good_relay_blocks; [done|]. intros l'.
  rewrite elem_of_app, list_elem_of_singleton. intros [Hin| ->]; [|done].
  by eapply wf_relay_blocks.
Qed.

Lemma push_bcast_good s t l :
  server_wf s → is_Some (bcast_commit_blocks s !! t) → at_loc s l quorum →
  wp (push_bcast t l) (λ r s', good s s' ∧ r = Ret tt) s.
Proof.
  intros H [q Hq] Hl. unfold push_bcast. rewrite wp_push by done. split; [|done].
  apply good_bcast; [done|]. intros l'.
  rewrite elem_of_app, list_elem_of_singleton. intros [Hin| ->]; [|done].
  by eapply wf_bcast.
Qed.

Lemma is_peer_evolves s s' t : evolves s s' → is_peer cf s t → is_peer cf s' t.
Proof. intros He. unfold is_peer. by rewrite (ev_id _ _ He). Qed.

End primitives.

#[export] Hint Rewrite @wp_new_block @wp_now @wp_draw : wp.
