(* ===== verification/ClientService.v ===== *)
(** The service a server offers to its clients: [TcConsensusImpl] of
    [include/server/tc-server-grpc.hpp]. Each handler is the fold of one definition per
    element of the request, which is the code between two points where a handler holds
    no accessor. *)
From Stdlib Require Import ZArith Lia.
From stdpp Require Import base tactics list gmap strings sorting.
From S2P Require Import Prelude Decimal Entity FlexCodec ServerState.

(** [RegisterResponse] of [grpc_proto/tc-server.proto]. *)
Record RegisterResponse := MkRegisterResponse {
  reg_status : Z;
  reg_id : Z;
  reg_tss_sk : bytes;
}.

Section client_service.
Context {C : Crypto} {F : FlexBuffers} {E : Env} (cf : conf).

Definition set_ecc_pkey (k : option PubKey) (p : ClientProfile) : ClientProfile :=
  MkClientProfile (profile_id p) k (tss_key p) (seen_blocks p).

Definition upd_seen_blocks (f : gmap Z BlockHeader → gmap Z BlockHeader) (p : ClientProfile)
    : ClientProfile :=
  MkClientProfile (profile_id p) (ecc_pkey p) (tss_key p) (f (seen_blocks p)).

(** [Register]. The accessor is not tested: an unknown client dereferences it empty. *)
Definition Register (id : Z) (pkey : bytes) : M server RegisterResponse :=
  pk <- lift (mkPubKey pkey) ;;
  accessor <- gets (λ s, clients s !! id) ;;
  match accessor with
  | None => mcrash NullDeref
  | Some profile =>
      modify (upd_clients <[id := set_ecc_pkey (Some pk) profile]>) ;;
      match tss_key profile with
      | None => mcrash NullDeref
      | Some (sk, _) => mret (MkRegisterResponse 0 id (skey_to_string sk))
      end
  end.

(** [Heartbeat]: the response's status. *)
Definition Heartbeat (id : Z) : M server Z := mret 0.

(** The body of the loop of [PullPendingBlocks] over the copy [shadow_pb] of the pending
    map, at the entry [kv]; [hdrs] is the response so far. *)
Definition PullPendingBlocks_entry (client_id : Z) (shadow_pb : gmap Z loc)
    (hdrs : list bytes) (kv : Z * loc) : M server (list bytes) :=
  try_catch
    (match shadow_pb !! kv.1 with
     | None => mret hdrs
     | Some _ =>
         is_synced <- gets (λ s, bool_decide (kv.1 ∈ pb_sync_labels s)) ;;
         if negb is_synced then mret hdrs
         else
           blk <- deref kv.2 ;;
           client <- gets (λ s, clients s !! client_id) ;;
           match client with
           | None => mcrash NullDeref
           | Some profile =>
               match seen_blocks profile !! id_ (header_ blk) with
               | Some _ => mret hdrs
               | None =>
                   modify (upd_clients <[client_id :=
                     upd_seen_blocks
                       (map_insert_new (id_ (header_ blk)) (BlockHeader_copy (header_ blk)))
                       profile]>) ;;
                   now <- now_ms ;;
                   (if dist_ts_ (header_ blk) =? 0
                    then assign kv.2 (upd_header (set_dist_ts now))
                    else mret tt) ;;
                   mret (hdrs ++ [to_bytes (header_ blk)])
               end
           end
     end)
    (λ _, mret hdrs).

(** [PullPendingBlocks]: the headers of the response. *)
Definition PullPendingBlocks (client_id : Z) : M server (list bytes) :=
  shadow_pb <- gets pending_blks ;;
  mfold (chm_iter shadow_pb) (PullPendingBlocks_entry client_id shadow_pb) [].

(** The body of the loop of [GetBlocks]. *)
Definition GetBlocks_item (pb : list bytes) (hdr : bytes) : M server (list bytes) :=
  blk_hdr <- lift (from_bytes (T := BlockHeader) hdr) ;;
  found <- pending_find (id_ blk_hdr) ;;
  match found with
  | None => mret pb
  | Some l => block <- deref l ;; mret (pb ++ [to_bytes block])
  end.

(** [GetBlocks]: the blocks of the response. *)
Definition GetBlocks (pb_hdrs : list bytes) : M server (list bytes) :=
  mfold pb_hdrs GetBlocks_item [].

(** The routing of a vote: into the relay queue of every target when this server is not
    one of them, of the other target when it is. The result tells whether the vote is
    also for this server. *)
Definition VoteBlocks_route (target_server_id_set : gset Z) (vote : BlockVote)
    : M server bool :=
  self <- gets server_id ;;
  if decide (self ∈ target_server_id_set)
  then
    mfor (set_iter target_server_id_set)
      (λ t, if t =? self then mret tt else push_relay_vote t vote) ;;
    mret true
  else
    mfor (set_iter target_server_id_set) (λ t, push_relay_vote t vote) ;;
    mret false.

(** The part under the accessor of the pending block: insert the vote, and on enough
    votes hand the block to the merge queue and erase it. *)
Definition VoteBlocks_local (client_id block_id : Z) (vote : BlockVote) : M server unit :=
  pb <- pending_find block_id ;;
  match pb with
  | None => mret tt
  | Some l =>
      assign l (upd_votes (map_insert_new client_id vote)) ;;
      blk <- deref l ;;
      if is_vote_enough blk (client_count cf)
      then merge_push l ;; pending_erase block_id
      else mret tt
  end.

(** The body of the loop of [VoteBlocks]. *)
Definition VoteBlocks_item (client_id : Z) (ser : bytes) : M server unit :=
  block <- lift (from_bytes (T := Block) ser) ;;
  match votes_ block !! client_id with
  | None => mret tt
  | Some vote =>
      is_died <- gets (λ s, bool_decide (id_ (header_ block) ∈ dead_block s)) ;;
      if (is_died : bool) then mret tt
      else
        targets <- lift (get_server_id block (server_count cf)) ;;
        here <- VoteBlocks_route targets vote ;;
        if (here : bool)
        then VoteBlocks_local client_id (id_ (header_ block)) vote
        else mret tt
  end.

(** [VoteBlocks]: the response's status. *)
Definition VoteBlocks (client_id : Z) (voted_blocks : list bytes) : M server Z :=
  mfor voted_blocks (VoteBlocks_item client_id) ;; mret 0.

End client_service.
