(* ===== verification/PeerService.v ===== *)
(** The protocol between servers: the handlers of [TcPeerConsensusImpl] and the sending
    operations of [TcServer], both of [include/server/tc-server-peer-grpc.hpp]. *)
From Stdlib Require Import ZArith Lia.
From stdpp Require Import base tactics list gmap strings sorting.
From S2P Require Import Prelude Decimal Entity FlexCodec ServerState.

Section peer_service.
Context {C : Crypto} {F : FlexBuffers} {E : Env} (cf : conf).

(** ** Handlers *)

Definition SPHeartbeat_handler (peer_id : Z) : M server Z := mret 0.

(** The part of the loop body of [RelayVote] under the accessor of the pending block. *)
Definition RelayVote_local (block_id : Z) (vote : BlockVote) : M server unit :=
  pb <- pending_find block_id ;;
  match pb with
  | None => mret tt
  | Some l =>
      assign l (upd_votes (map_insert_new (voter_id_ vote) vote)) ;;
      blk <- deref l ;;
      if is_vote_enough blk (client_count cf)
      then merge_push l ;; pending_erase block_id
      else mret tt
  end.

Definition RelayVote_item (rv : bytes) : M server unit :=
  vote <- lift (from_bytes (T := BlockVote) rv) ;;
  is_died <- gets (λ s, bool_decide (block_id_ vote ∈ dead_block s)) ;;
  if (is_died : bool) then mret tt else RelayVote_local (block_id_ vote) vote.

Definition RelayVote_handler (votes : list bytes) : M server Z :=
  mfor votes RelayVote_item ;; mret 0.

Definition RelayBlock_item (ser : bytes) : M server unit :=
  block <- lift (from_bytes (T := Block) ser) ;;
  l <- new_block block ;;
  pending_insert (id_ (header_ block)) l.

Definition RelayBlock_handler (blocks : list bytes) : M server Z :=
  mfor blocks RelayBlock_item ;; mret 0.

(** The loop body of [SPBcastCommit]. A configuration without ["use-rocksdb"] throws
    after the committed map has been written and before the pending entry is erased. *)
Definition SPBcastCommit_item (ser : bytes) : M server unit :=
  block <- lift (from_bytes (T := Block) ser) ;;
  now <- now_ms ;;
  let block := upd_header (set_recv_ts now) block in
  let id := id_ (header_ block) in
  found <- pending_find id ;;
  match found with
  | None => mret tt
  | Some _ =>
      l <- new_block block ;;
      committed_insert id l ;;
      (match use_rocksdb cf with
       | None => mthrow TypeError
       | Some true => db_put_block id (to_bytes block)
       | Some false => mret tt
       end) ;;
      pending_erase id
  end.

(** The handler reads the clock once before the loop, for a log line. *)
Definition SPBcastCommit_handler (blocks : list bytes) : M server Z :=
  _ <- now_ms ;;
  (mfor blocks SPBcastCommit_item ;; mret 0).

Definition RelayBlockSync_handler (block_id : Z) : M server Z :=
  modify (upd_pb_sync_labels (λ X, {[block_id]} ∪ X)) ;; mret 0.

(** ** Sending *)

(** The id of the sender as the [uint32] field of a message holds it. *)
Definition sender_id (s : server) : Z := wrap32 (server_id s).

Definition SPHeartbeat (target : Z) : M server bool :=
  id <- gets sender_id ;;
  ok <- stub_call target (SPHeartbeatRequest id) ;;
  n <- gets (λ s, Z.of_nat (length (peer_status s))) ;;
  let index := sub64 target 1 in
  if bool_decide (index < n)
  then modify (upd_peer_status <[Z.to_nat index := ok]>) ;; mret ok
  else mthrow OutOfRange.

(** The popping loops have one round per element of the queue, and one to find it empty. *)
Definition RelayVote (target : Z) : M server bool :=
  id <- gets sender_id ;;
  n <- gets (λ s, queue_len (relay_votes s) target) ;;
  votes <- while_pop (S n) (pop_relay_vote target)
             (λ votes vote, mret (votes ++ [to_bytes (vote : BlockVote)])) [] ;;
  if decide (votes = []) then mret true
  else stub_call target (RelayVoteRequest id votes).

Definition RelayBlock_pop (acc : list bytes * list Z) (l : loc)
    : M server (list bytes * list Z) :=
  block <- deref l ;;
  mret (acc.1 ++ [to_bytes block], acc.2 ++ [id_ (header_ block)]).

Definition RelayBlock (target : Z) : M server bool :=
  id <- gets sender_id ;;
  n <- gets (λ s, queue_len (relay_blocks s) target) ;;
  acc <- while_pop (S n) (pop_relay_block target) RelayBlock_pop ([], []) ;;
  if decide (acc.1 = []) then mret true
  else
    ok <- stub_call target (RelayBlockRequest id acc.1) ;;
    mfor acc.2 (λ i, modify (upd_pb_sync_queue (λ q, q ++ [i]))) ;;
    mret ok.

Definition SPBcastCommit_pop (acc : list bytes) (l : loc) : M server (list bytes) :=
  block <- deref l ;;
  mret (acc ++ [to_bytes block]).

Definition SPBcastCommit (target : Z) : M server bool :=
  id <- gets sender_id ;;
  n <- gets (λ s, queue_len (bcast_commit_blocks s) target) ;;
  blocks <- while_pop (S n) (pop_bcast target) SPBcastCommit_pop [] ;;
  if decide (blocks = []) then mret true
  else
    now <- now_ms ;;
    stub_call target (SPBcastCommitRequest id blocks now).

Definition RelayBlockSync (block_id target : Z) : M server bool :=
  id <- gets sender_id ;;
  stub_call target (RelayBlockSyncRequest id block_id).

(** A request at the server it was sent to. *)
Definition handle_peer (req : PeerRequest) : M server Z :=
  match req with
  | SPHeartbeatRequest id => SPHeartbeat_handler id
  | RelayVoteRequest _ votes => RelayVote_handler votes
  | RelayBlockRequest _ blocks => RelayBlock_handler blocks
  | SPBcastCommitRequest _ blocks _ => SPBcastCommit_handler blocks
  | RelayBlockSyncRequest _ block_id => RelayBlockSync_handler block_id
  end.

End peer_service.
