(* ===== verification/ServerCore.v ===== *)
(** The server itself: [TcServer] of [src/server/tc-server.cpp], from its initialization
    to the tasks its scheduler runs. *)
From Stdlib Require Import ZArith Lia.
From stdpp Require Import base tactics list gmap strings sorting.
From S2P Require Import Prelude Decimal Entity FlexCodec ServerState PeerService.

Section server_core.
Context {C : Crypto} {F : FlexBuffers} {E : Env} (cf : conf).

(** ** Initialization *)

(** The server ids of the configuration, from one. *)
Definition ids_upto (n : nat) : list Z := (λ i, Z.of_nat i + 1) <$> seq 0 n.

Definition server_ids : list Z := ids_upto (Z.to_nat (server_count cf)).

(** The members of a freshly constructed server. *)
Definition TcServer_new : server :=
  MkServer 0 ∅ ∅ 0 ∅ [] ∅ [] ∅ ∅ 0 ∅ ∅ ∅ ∅ [] [] ∅ [] 0.

(** [init_server]: the assertion is on the status of opening the database. *)
Definition init_server : M server unit :=
  modify (upd_server_id (λ _, conf_server_id cf)) ;;
  modify (upd_blk_seq_generator (λ _, wrap64 (conf_server_id cf * 1000000))) ;;
  if db_opens (conf_server_id cf) then mret tt else mcrash AssertFail.

Definition init_client_profile_one (sshares : list Fr) (i : nat) : M server unit :=
  share <- lift (match sshares !! i with Some f => Ret f | None => Throw OutOfRange end) ;;
  sk <- lift (skey_of_Fr share (client_count cf) (client_count cf)) ;;
  pk <- lift (pkey_of_Fr share (client_count cf) (client_count cf)) ;;
  let id := Z.of_nat i + 1 in
  modify (upd_clients (map_insert_new id (MkClientProfile id None (Some (sk, pk)) ∅))).

(** Each server draws the shares for itself. *)
Definition init_client_profile : M server unit :=
  sshares <- gets (λ s, createDKGSecretShares (server_id s) (tick s) (client_count cf)
                          (client_count cf)) ;;
  modify (upd_tick S) ;;
  mfor (seq 0 (Z.to_nat (client_count cf))) (init_client_profile_one sshares).

(** The ids a server keeps a queue for: those of the configuration but its own. *)
Definition peer_ids (self : Z) (ids : list Z) : list Z := filter (λ i, i ≠ self) ids.

Definition empty_queues {A} (ids : list Z) : gmap Z (list A) :=
  list_to_map ((λ i, (i, [])) <$> ids).

Definition init_peer_stubs : M server unit :=
  self <- gets server_id ;;
  let peers := peer_ids self server_ids in
  modify (upd_relay_votes (λ _, empty_queues peers)) ;;
  modify (upd_peer_status (λ _, replicate (Z.to_nat (server_count cf)) false)) ;;
  modify (upd_relay_blocks (λ _, empty_queues peers)) ;;
  modify (upd_bcast_commit_blocks (λ _, empty_queues peers)) ;;
  modify (upd_peer_stubs (λ X,
    list_to_set (peer_ids self (ids_upto (length (peer_addr cf)))) ∪ X)).

(** [start], up to the threads it creates. *)
Definition start : M server unit :=
  init_server ;; init_client_profile ;; init_peer_stubs.

(** ** Transactions and blocks *)

Definition generate_tx_one : M server unit :=
  tx_id <- draw 1 (account_count cf) ;;
  sender <- draw 1 (account_count cf) ;;
  receiver <- draw 1 (account_count cf) ;;
  let value := 0 in
  fee <- draw 1 (account_count cf) ;;
  modify (upd_pending_txs
    (map_insert_new tx_id (Transaction_new tx_id sender receiver value fee))).

Definition generate_tx (num_tx : Z) : M server unit :=
  mfor (seq 0 (Z.to_nat num_tx)) (λ _, generate_tx_one).

(** The extraction loop of [pack_block]: at least one transaction if there is one, and
    no more once [tx_count] has reached [num_tx]. *)
Fixpoint extract_txs (tx_count num_tx : Z) (it : list (Z * Transaction))
    : list (Z * Transaction) :=
  match it with
  | [] => []
  | kv :: it' =>
      kv :: if num_tx <=? tx_count + 1 then [] else extract_txs (tx_count + 1) num_tx it'
  end.

(** [blk_seq_generator.fetch_add(1)]. *)
Definition fetch_add_seq : M server Z :=
  λ s, (Ret (blk_seq_generator s), upd_blk_seq_generator (λ n, add64 n 1) s).

(** One block: the body of the loop of [pack_block] when there are transactions enough. *)
Definition pack_one (num_tx : Z) : M server unit :=
  block_id <- fetch_add_seq ;;
  timestamp <- now_ms ;;
  it <- gets (λ s, chm_iter (pending_txs s)) ;;
  let extracted := extract_txs 0 num_tx it in
  l <- new_block (set_tx_vec (extracted.*2) (Block_new block_id 0xDEADBEEF timestamp)) ;;
  queues <- gets (λ s, (map_iter (relay_blocks s)).*1) ;;
  mfor queues (λ t, push_relay_block t l) ;;
  pending_insert block_id l ;;
  mfor (extracted.*1) (λ k, modify (upd_pending_txs (delete k))).

Fixpoint pack_loop (fuel : nat) (i num_tx num_block : Z) : M server unit :=
  match fuel with
  | O => mcrash OutOfFuel
  | S n =>
      if num_block <=? i then mret tt
      else
        size_ <- gets (λ s, Z.of_nat (size (pending_txs s))) ;;
        if num_tx <=? size_
        then pack_one num_tx ;; pack_loop n (i + 1) num_tx num_block
        else mret tt
  end.

(** Every round takes a transaction when [num_tx] is not zero, so the size of the pool
    bounds the rounds; when it is zero the rounds are [num_block]. *)
Definition pack_block (num_tx num_block : Z) : M server unit :=
  n <- gets (λ s, size (pending_txs s)) ;;
  pack_loop (S (if num_tx =? 0 then Z.to_nat num_block else n)) 0 num_tx num_block.

(** ** Votes *)

(** The body of the loop of [merge_votes]. *)
Definition merge_one (l : loc) : M server unit :=
  b <- deref l ;;
  merged <- lift (Block_merge_votes b (client_count cf)) ;;
  assign l (set_tss_sig (tss_sig_ merged)) ;;
  now <- now_ms ;;
  assign l (upd_header (set_commit_ts now)) ;;
  assign l (upd_header (set_recv_ts now)) ;;
  blk <- deref l ;;
  committed_insert (id_ (header_ blk)) l ;;
  db_put_block (id_ (header_ blk)) (to_bytes blk) ;;
  queues <- gets (λ s, (map_iter (bcast_commit_blocks s)).*1) ;;
  mfor queues (λ t, push_bcast t l).

Definition pop_merge : M server (option loc) :=
  pop_front pb_merge_queue (λ q, upd_pb_merge_queue (λ _, q)).

Definition merge_votes : M server unit :=
  n <- gets (λ s, length (pb_merge_queue s)) ;;
  while_pop (S n) pop_merge (λ _, merge_one) tt.

(** ** Dead blocks *)

Definition remove_dead_block (block_id : Z) : M server unit :=
  found <- pending_find block_id ;;
  match found with
  | None => mret tt
  | Some l =>
      now <- now_ms ;;
      b <- deref l ;;
      let delta := sub64 now (proposal_ts_ (header_ b)) in
      if 100000 <? delta then mret tt
      else if block_die_threshold cf <? delta
      then modify (upd_dead_block (λ X, {[block_id]} ∪ X)) ;; pending_erase block_id
      else mret tt
  end.

Definition remove_dead_blocks : M server unit :=
  shadow_pb <- gets pending_blks ;;
  ids <- mfold (chm_iter shadow_pb)
           (λ ids kv, b <- deref kv.2 ;; mret (ids ++ [id_ (header_ b)])) [] ;;
  mfor ids remove_dead_block.

(** ** The sending rounds *)

Definition get_shadow_peer_server_id (s : server) : Z :=
  if server_id s =? server_count cf then 1 else server_id s + 1.

(** [for (i = 0; i < server-count; i++)] over every server but this one. *)
Definition for_peers (send : Z → M server bool) : M server unit :=
  self <- gets server_id ;;
  mfor server_ids (λ t, if t =? self then mret tt else (_ <- send t ;; mret tt)).

Definition send_heartbeats : M server unit := for_peers SPHeartbeat.
Definition send_relay_votes : M server unit := for_peers RelayVote.
Definition bcast_commits : M server unit := for_peers SPBcastCommit.

Definition send_relay_block_sync (block_id : Z) : M server unit :=
  for_peers (RelayBlockSync block_id) ;;
  modify (upd_pb_sync_labels (λ X, {[block_id]} ∪ X)).

Definition pop_sync : M server (option Z) :=
  pop_front pb_sync_queue (λ q, upd_pb_sync_queue (λ _, q)).

Definition send_relay_blocks : M server unit :=
  for_peers RelayBlock ;;
  n <- gets (λ s, length (pb_sync_queue s)) ;;
  while_pop (S n) pop_sync (λ _, send_relay_block_sync) tt.

(** ** The scheduler *)

(** One round of the packing thread, which only the last server runs. *)
Definition pack_thread_round : M server unit :=
  pb_size <- gets (λ s, Z.of_nat (size (pending_blks s))) ;;
  (if pb_size <? pb_pool_limit cf then generate_tx (generate_tx_rate cf) else mret tt) ;;
  pack_block (tx_per_block cf) INT_MAX.

Inductive task := PackRound | CountTimer | RelayVoteTimer | RelayBlockTimer
  | BcastCommitTimer | MergeTimer.

(** What [schedule] runs again and again; the timer that counts only logs sizes. *)
Definition run_task (t : task) : M server unit :=
  match t with
  | PackRound =>
      if conf_server_id cf =? server_count cf then pack_thread_round else mret tt
  | CountTimer => mret tt
  | RelayVoteTimer => send_heartbeats ;; send_relay_votes
  | RelayBlockTimer => send_relay_blocks
  | BcastCommitTimer => bcast_commits
  | MergeTimer => merge_votes
  end.

(** A timer's callback under its flag: it does nothing while the flag is set. It runs in a
    thread of its own, where nothing catches an exception. *)
Definition timer_tick (t : task) (flag : bool) : M server bool :=
  in_thread_of (if flag then mret flag else run_task t ;; mret false).

End server_core.
