(* ===== verification/ClientProofs.v ===== *)
(** The invariant of a client and what its operations do, whatever the servers answer. *)
From Stdlib Require Import ZArith Lia Ascii String.
From stdpp Require Import base tactics list gmap strings sorting.
From S2P Require Import Prelude Decimal Entity FlexCodec Msgpack ServerState Client.

Section client.
Context {C : Crypto} {F : FlexBuffers} {L : FlexBuffersLaws F} {K : Msgpack}.
Context {E : Env} {EL : EnvLaws E} {CE : ClientEnv} {W : Type} {N : ConsensusStub W}.
Context (cc : client_conf).
Local Abbreviation client := (client W).

(** ** The invariant *)

Lemma lookup_empty_strings i :
  empty_strings !! i = if (i <? 2000)%nat then Some EmptyString else None.
Proof.
  unfold empty_strings. destruct (Nat.ltb_spec i 2000).
  - by apply lookup_replicate_2.
  - by apply lookup_replicate_None.
Qed.

Lemma insert_empty_strings i : <[i := EmptyString]> empty_strings = empty_strings.
Proof.
  destruct (decide (i < 2000)%nat) as [Hi|Hi].
  - apply list_insert_id. rewrite lookup_empty_strings. by destruct (Nat.ltb_spec i 2000); [|lia].
  - apply list_insert_ge. unfold empty_strings. rewrite length_replicate. lia.
Qed.

(** The buffers as [init] makes them; the key buffers never change again. *)
Record pool_wf (p : mempool) : Prop := {
  pool_sender : sender_strvec p = empty_strings;
  pool_receiver : receiver_strvec p = empty_strings;
  pool_sender_bal : length (sender_bal_strvec p) = 2000%nat;
  pool_receiver_bal : length (receiver_bal_strvec p) = 2000%nat;
}.

Record client_wf (c : client) : Prop := {
  cwf_id : u64 (client_id c);
  cwf_keys : is_Some (ecc_skey c) ∧ is_Some (client_pkey c);
  cwf_stubs : length (stubs c) = 2%nat;
  cwf_pool : pool_wf (pool c);
  cwf_queue : Forall block_wf (queued_blks c);
  cwf_headers : map_Forall (λ k h, id_ h = k ∧ header_wf h) (pending_blkhdr c);
}.

(** What an operation never changes, and that a crash is none of its outcomes. *)
Definition client_post {A} (c : client) (r : outcome A) (c' : client) : Prop :=
  client_wf c' ∧ client_id c' = client_id c ∧ stubs c' = stubs c.

(** ** Calls *)

Lemma wp_rpc {A} i (call : string → W → (bool * A) * W) (Q : outcome (bool * A) → client → Prop) (c : client) :
  (∀ a, stubs c !! i = Some a → Q (Ret (call a (net c)).1) (set_net (call a (net c)).2 c)) →
  (stubs c !! i = None → Q (Throw OutOfRange) c) →
  wp (rpc i call) Q c.
Proof.
  intros H1 H2. unfold rpc. wp_simpl. destruct (stubs c !! i) as [a|]; [|by apply H2].
  unfold wp. specialize (H1 a eq_refl). by destruct (call a (net c)).
Qed.

Lemma set_net_wf w (c : client) : client_wf c → client_wf (set_net w c).
Proof. intros []. by split. Qed.

(** ** Pulling and fetching *)

Lemma record_header_spec (c : client) hdr :
  wp (record_header hdr) (λ r c', match from_bytes (T := BlockHeader) hdr with
    | Ret h => r = Ret tt ∧ c' = upd_blkhdr (map_insert_new (id_ h) h) c
    | Throw e => r = Throw e ∧ c' = c
    | Crash f => r = Crash f ∧ c' = c
    end) c.
Proof. unfold record_header. wp_simpl. by destruct (from_bytes hdr). Qed.

Lemma upd_blkhdr_new_wf h (c : client) :
  header_wf h → client_wf c → client_wf (upd_blkhdr (map_insert_new (id_ h) h) c).
Proof.
  intros Hh []. split; simpl; try done. unfold map_insert_new.
  destruct (_ !! _); [done|]. by apply map_Forall_insert_2.
Qed.

Lemma upd_queued_wf q (c : client) : Forall block_wf q → client_wf c → client_wf (upd_queued (λ _, q) c).
Proof. intros Hq []. by split. Qed.

Lemma upd_blkhdr_delete_wf k (c : client) : client_wf c → client_wf (upd_blkhdr (delete k) c).
Proof. intros []. split; simpl; try done. by apply map_Forall_delete. Qed.

Lemma record_headers_wf (c : client) hdrs :
  client_wf c → wp (mfor hdrs record_header) (client_post c) c.
Proof.
  intros Hc. apply (wp_mfor (λ c', client_post c (Ret tt) c')); [done|done|].
  intros hdr c' _ (Hc' & Hid & Hst). eapply wp_mono; [apply record_header_spec|].
  intros r c2. destruct (from_bytes hdr) as [h|e|f] eqn:Eh; intros [-> ->]; [|by split_and!..].
  split_and!; [|done..]. by apply upd_blkhdr_new_wf; [eapply BlockHeader_from_wf|].
Qed.

(** The headers of a response all of which can be read. *)
Lemma record_headers_ret (c : client) hdrs hs :
  mapM (λ b, match from_bytes (T := BlockHeader) b with Ret h => Some h | _ => None end) hdrs
    = Some hs →
  wp (mfor hdrs record_header)
    (λ r c', r = Ret tt ∧
       c' = upd_blkhdr (λ m, foldl (λ m h, map_insert_new (id_ h) h m) m hs) c) c.
Proof.
  revert c hs. induction hdrs as [|hdr hdrs IH]; intros c hs Hm.
  { injection Hm as <-. split; [done|]. by destruct c. }
  apply bind_Some in Hm as (h & Hh & (hs' & Hhs & [= <-])%bind_Some).
  cbn [mfor]. wp_simpl. eapply wp_mono; [apply record_header_spec|].
  intros r c'. destruct (from_bytes hdr); [|done..]. simplify_eq. intros [-> ->].
  eapply wp_mono; [by apply IH|]. simpl. intros r2 c2 [-> ->]. by destruct c.
Qed.

Lemma queue_block_spec (c : client) ser :
  wp (queue_block ser) (λ r c', match from_bytes (T := Block) ser with
    | Ret b => r = Ret tt ∧
        c' = upd_blkhdr (delete (id_ (header_ b))) (upd_queued (λ q, q ++ [b]) c)
    | Throw e => r = Throw e ∧ c' = c
    | Crash f => r = Crash f ∧ c' = c
    end) c.
Proof. unfold queue_block. wp_simpl. destruct (from_bytes ser); wp_simpl; done. Qed.

Lemma queue_blocks_wf (c : client) sers :
  client_wf c → wp (mfor sers queue_block) (client_post c) c.
Proof.
  intros Hc. apply (wp_mfor (λ c', client_post c (Ret tt) c')); [done|done|].
  intros ser c' _ (Hc' & Hid & Hst). eapply wp_mono; [apply queue_block_spec|].
  intros r c2. destruct (from_bytes ser) as [b|e|f] eqn:Eb; intros [-> ->]; [|by split_and!..].
  split_and!; [|done..]. apply upd_blkhdr_delete_wf, (upd_queued_wf (queued_blks c' ++ [b])); [|done].
  apply Forall_app. split; [apply Hc'|]. apply Forall_singleton. by eapply Block_from_wf.
Qed.

Lemma queue_blocks_ret (c : client) sers bs :
  mapM (λ s, match from_bytes (T := Block) s with Ret b => Some b | _ => None end) sers
    = Some bs →
  wp (mfor sers queue_block)
    (λ r c', r = Ret tt ∧
       c' = upd_blkhdr (λ m, foldl (λ m b, delete (id_ (header_ b)) m) m bs)
              (upd_queued (λ q, q ++ bs) c)) c.
Proof.
  revert c bs. induction sers as [|ser sers IH]; intros c bs Hm.
  { injection Hm as <-. split; [done|]. destruct c. simpl. unfold upd_queued, upd_blkhdr. simpl.
    by rewrite app_nil_r. }
  apply bind_Some in Hm as (b & Hb & (bs' & Hbs & [= <-])%bind_Some).
  cbn [mfor]. wp_simpl. eapply wp_mono; [apply queue_block_spec|].
  intros r c'. destruct (from_bytes ser); [|done..]. simplify_eq. intros [-> ->].
  eapply wp_mono; [by apply IH|]. simpl. intros r2 c2 [-> ->]. split; [done|].
  destruct c. unfold upd_queued, upd_blkhdr. simpl. by rewrite <- (assoc_L (++)).
Qed.

(** ** Checking transactions *)

(** What the checks may change: balance buffers, and the database at the empty key. *)
Definition checked (c c' : client) : Prop :=
  ∃ p d, c' = upd_accounts_db (λ _, d) (upd_pool (λ _, p) c) ∧ pool_wf p ∧
    ∀ k, k ≠ EmptyString → d !! k = accounts_db c !! k.

Lemma checked_refl (c : client) : pool_wf (pool c) → checked c c.
Proof. intros H. exists (pool c), (accounts_db c). by destruct c. Qed.

Lemma checked_trans (c1 c2 c3 : client) : checked c1 c2 → checked c2 c3 → checked c1 c3.
Proof.
  intros (p & d & -> & Hp & Hd) (p' & d' & -> & Hp' & Hd'). exists p', d'.
  split_and!; [by destruct c1|done|]. intros k Hk. rewrite Hd' by done. simpl. by apply Hd.
Qed.

Lemma checked_pool (c c' : client) : checked c c' → pool_wf (pool c').
Proof. by intros (p & d & -> & Hp & _). Qed.

Lemma checked_wf (c c' : client) : checked c c' → client_wf c → client_wf c'.
Proof. intros (p & d & -> & Hp & _) []. by split. Qed.

Lemma str_elem_empty i : str_elem empty_strings i = EmptyString.
Proof. unfold str_elem. rewrite lookup_empty_strings. by destruct (i <? 2000)%nat. Qed.

Lemma print_accounts_eq (c : client) i tx :
  pool_wf (pool c) →
  print_accounts (i, tx) c = (if (i <? 2000)%nat then Ret tt else Throw OutOfRange, c).
Proof.
  intros Hp. unfold print_accounts, str_at, mbind, gets, lift, modify.
  rewrite (pool_sender _ Hp), (pool_receiver _ Hp), lookup_empty_strings.
  destruct (i <? 2000)%nat; [|done]. f_equal.
  destruct c as [sk pk id q h k d [s r sb rb] st af w t], Hp. unfold upd_pool. simpl in *. subst.
  unfold snprintf. simpl. by rewrite insert_empty_strings.
Qed.

Lemma touch_accounts_checked (c : client) i :
  pool_wf (pool c) → ∃ c', touch_accounts i c = (Ret tt, c') ∧ checked c c'.
Proof.
  intros Hp. eexists. split; [reflexivity|].
  destruct c as [sk pk id q h k d [s r sb rb] st af w t], Hp. simpl in *. subst.
  rewrite !str_elem_empty. eexists _, _. split; [reflexivity|]. split.
  - split; simpl; by rewrite ?length_alter.
  - intros k' Hk. simpl. by rewrite !lookup_insert_ne.
Qed.

Lemma print_loop (c : client) n (txs : list Transaction) :
  pool_wf (pool c) →
  mfor (zip (seq n (length txs)) txs) print_accounts c =
  (if bool_decide (txs = [] ∨ n + length txs ≤ 2000)%nat then Ret tt else Throw OutOfRange, c).
Proof.
  intros Hp. revert n. induction txs as [|tx txs IH]; intros n.
  { by rewrite bool_decide_true by by left. }
  cbn [length seq zip zip_with mfor]. unfold mbind. rewrite print_accounts_eq by done.
  destruct (Nat.ltb_spec n 2000) as [Hn|Hn].
  - rewrite IH. f_equal.
    assert (txs = [] ∨ (S n + length txs ≤ 2000)%nat ↔
            tx :: txs = [] ∨ (n + S (length txs) ≤ 2000)%nat) as Heq.
    { destruct txs; simpl; [|intuition (done || lia)]. split; intros _; right; lia. }
    by rewrite (bool_decide_ext _ _ Heq).
  - rewrite bool_decide_false; [done|]. intros [|]; [done|]. lia.
Qed.

Lemma touch_loop (c : client) ixs :
  pool_wf (pool c) → ∃ c', mfor ixs touch_accounts c = (Ret tt, c') ∧ checked c c'.
Proof.
  revert c. induction ixs as [|i ixs IH]; intros c Hp.
  { exists c. split; [done|by apply checked_refl]. }
  cbn [mfor]. unfold mbind. destruct (touch_accounts_checked c i Hp) as (c1 & -> & H1).
  destruct (IH c1 (checked_pool _ _ H1)) as (c2 & -> & H2). exists c2.
  split; [done|by eapply checked_trans].
Qed.

(** Every block of at most two thousand transactions passes; a longer one throws. *)
Lemma check_transactions_spec (c : client) b :
  pool_wf (pool c) →
  if bool_decide (length (tx_vec_ b) ≤ 2000)%nat
  then ∃ c', check_transactions b c = (Ret tt, c') ∧ checked c c'
  else check_transactions b c = (Throw OutOfRange, c).
Proof.
  intros Hp. unfold check_transactions, mbind.
  rewrite (print_loop c 0 _ Hp).
  destruct (decide (length (tx_vec_ b) ≤ 2000)%nat) as [Hn|Hn].
  - rewrite !bool_decide_true by auto. by apply touch_loop.
  - assert (¬ (tx_vec_ b = [] ∨ (0 + length (tx_vec_ b) ≤ 2000)%nat)) as Hn'.
    { intros [He|Hle]; [|by apply Hn]. apply Hn. rewrite He. simpl. lia. }
    rewrite (bool_decide_false _ Hn), (bool_decide_false _ Hn'). done.
Qed.

(** ** Voting *)

(** The block a client sends with its vote. *)
Definition with_vote (cid : Z) (share : BLSSigShare) (b : Block) : Block :=
  upd_votes (map_insert_new cid (MkBlockVote (id_ (header_ b)) cid (Some share)))
    (set_tx_vec [] b).

Lemma with_vote_wf cid share b : u64 cid → block_wf b → block_wf (with_vote cid share b).
Proof.
  intros Hc (Hh & _ & Hv). split_and!; [done|by constructor|]. simpl. unfold map_insert_new.
  destruct (_ !! _); [done|]. apply map_Forall_insert_2; [|done]. split; [done|].
  split; [apply Hh|done].
Qed.

(** The network after the block [ser] has been sent on both channels, and the second status. *)
Definition send_both (a0 a1 : string) (id : Z) (ser : bytes) (w : W) : bool * W :=
  let w1 := (call_VoteBlocks a0 id [ser] w).2 in
  ((call_VoteBlocks a1 id [ser] w1).1.1, (call_VoteBlocks a1 id [ser] w1).2).

Lemma vote_block_sent (c : client) b a0 a1 sk pk h share :
  pool_wf (pool c) → stubs c = [a0; a1] → client_tss_key c = Some (sk, pk) →
  (length (tx_vec_ b) ≤ 2000)%nat → get_sha256 b = Ret h → sign sk h (client_id c) = Ret share →
  let r := send_both a0 a1 (request_id c)
             (to_bytes (with_vote (client_id c) share b)) (net c) in
  ∃ c', checked c c' ∧ vote_block b c = (Ret r.1, set_net r.2 c').
Proof.
  intros Hp Hst Hk Hn Hh Hs r. subst r.
  pose proof (check_transactions_spec c b Hp) as Hc. rewrite bool_decide_true in Hc by done.
  destruct Hc as (c1 & Hc & Hch). exists c1. split; [done|].
  destruct Hch as (p & d & -> & _ & _).
  unfold vote_block, mbind, gets. rewrite Hc. unfold sign_block, mbind, lift, gets.
  rewrite Hh. simpl. rewrite Hk, Hs. unfold mret, rpc, mbind, gets. simpl. rewrite Hst. simpl.
  unfold send_both. rewrite (surjective_pairing (call_VoteBlocks a0 _ _ _)). simpl. rewrite Hst.
  simpl. rewrite (surjective_pairing (call_VoteBlocks a1 _ _ _)). done.
Qed.

(** What is signed is the hash of the block as it came. *)
Lemma sign_block_result (c : client) b sk pk h :
  client_tss_key c = Some (sk, pk) → get_sha256 b = Ret h →
  (sign_block b c).1 =
    obind (sign sk h (client_id c)) (λ share, Ret (with_vote (client_id c) share b)).
Proof.
  intros Hk Hh. unfold sign_block, mbind, lift, gets. rewrite Hh, Hk. by destruct (sign _ _ _).
Qed.

Lemma sign_block_state (c : client) b : (sign_block b c).2 = c.
Proof.
  unfold sign_block, mbind, lift, gets. destruct (get_sha256 b); [|done..].
  destruct (client_tss_key c) as [[sk pk]|]; [|done]. by destruct (sign _ _ _).
Qed.

Lemma vote_block_wf (c : client) b : client_wf c → wp (vote_block b) (client_post c) c.
Proof.
  intros Hc. unfold vote_block. wp_simpl.
  pose proof (check_transactions_spec c b (cwf_pool _ Hc)) as Hch. unfold wp at 1.
  case_bool_decide; [|by rewrite Hch].
  destruct Hch as (c1 & -> & Hch). simpl. pose proof (checked_wf _ _ Hch Hc) as Hc1.
  assert (client_id c1 = client_id c ∧ stubs c1 = stubs c) as [Hid Hst]
    by (by destruct Hch as (p & d & -> & _)).
  wp_simpl. unfold wp at 1. pose proof (sign_block_state c1 b) as Hsg.
  destruct (sign_block b c1) as [[blk|e|f] c2]; simpl in Hsg; subst c2; simpl;
    [|by split_and!..].
  wp_simpl. apply wp_rpc; [|intros _; by split_and!]. intros a0 _.
  wp_simpl. apply wp_rpc; [|intros _; split_and!; [by apply set_net_wf|done..]]. intros a1 _.
  wp_simpl. split_and!; [by repeat apply set_net_wf|done..].
Qed.

Lemma rpc_keeps {X A} (f : client → X) i (call : string → W → (bool * A) * W) :
  (∀ w c, f (set_net w c) = f c) → Keeps f (rpc i call).
Proof.
  intros Hf. unfold rpc. apply keeps_bind; [apply _|]. intros [a|]; [|apply _].
  intros c. destruct (call a (net c)). apply Hf.
Qed.

#[local] Hint Extern 1 (Keeps _ (rpc _ _)) => (apply rpc_keeps; intros; reflexivity) : keeps.

Lemma vote_block_queue b : Keeps (St := client) queued_blks (vote_block b).
Proof.
  unfold vote_block, check_transactions, sign_block, print_accounts, touch_accounts.
  keeps_tac.
Qed.

Lemma VoteBlocks_wf (c : client) : client_wf c → wp TcClient_VoteBlocks (client_post c) c.
Proof.
  intros Hc. unfold TcClient_VoteBlocks. wp_simpl.
  apply (wp_while_pop pop_queued (λ q, upd_queued (λ _, q)) _
           (λ _ rest _ c', client_post c (Ret true) c' ∧ queued_blks c' = rest) _
           _ [] (queued_blks c)).
  - intros pre rest b c' [_ Hq]. unfold pop_queued. by rewrite Hq; destruct rest.
  - intros pre b rest ok c' [(Hc' & Hid & Hst) Hq].
    assert (client_wf (upd_queued (λ _, rest) c')) as Hc2.
    { apply upd_queued_wf; [|done]. pose proof (cwf_queue _ Hc') as Hf. rewrite Hq in Hf.
      by inversion Hf. }
    pose proof (vote_block_wf _ b Hc2) as Hw. pose proof (vote_block_queue b (upd_queued (λ _, rest) c')) as Hk.
    unfold wp in *. destruct (vote_block b _) as [r c3], Hw as (Hc3 & Hid3 & Hst3). simpl in *.
    assert (client_id c3 = client_id c ∧ stubs c3 = stubs c) as [] by (split; congruence).
    by destruct r; split_and!.
  - intros ok c' [H _]. exact H.
  - by split_and!.
  - lia.
Qed.

(** A round of the voting thread on a queue of one block. *)
Lemma vote_round_single (c : client) b a0 a1 sk pk h share :
  pool_wf (pool c) → queued_blks c = [b] → stubs c = [a0; a1] →
  client_tss_key c = Some (sk, pk) → (length (tx_vec_ b) ≤ 2000)%nat →
  get_sha256 b = Ret h → sign sk h (client_id c) = Ret share →
  ∃ c', thread_round VoteThread c = (Ret tt, c') ∧
    net c' = (send_both a0 a1 (request_id c)
                (to_bytes (with_vote (client_id c) share b)) (net c)).2.
Proof.
  intros Hp Hq Hst Hk Hn Hh Hs.
  destruct (vote_block_sent (upd_queued (λ _, []) c) b a0 a1 sk pk h share Hp Hst Hk Hn Hh Hs)
    as (c' & Hch & Hv).
  assert (queued_blks c' = []) as Hq' by (by destruct Hch as (p & d & -> & _)).
  eexists. split.
  - unfold thread_round, vote_round, unit_of, TcClient_VoteBlocks, mbind, gets. rewrite Hq.
    cbn [length]. unfold while_pop, mbind, pop_queued at 1. rewrite Hq, Hv. unfold pop_queued.
    cbn [queued_blks set_net]. rewrite Hq'. reflexivity.
  - reflexivity.
Qed.

(** *** Any round of any thread keeps the invariant *)

Lemma client_post_trans {A B} (c c1 c2 : client) (r1 : outcome A) (r2 : outcome B) :
  client_post c r1 c1 → client_post c1 r2 c2 → client_post c r2 c2.
Proof. intros (_ & H1 & H2) (H3 & H4 & H5). split_and!; [done|congruence..]. Qed.

Lemma unit_of_post {A} (c : client) (m : M client A) :
  wp m (client_post c) c → wp (unit_of m) (client_post c) c.
Proof. intros H. unfold unit_of. wp_simpl. eapply wp_mono; [done|]. by intros []. Qed.

Lemma seq_post (c : client) (m1 m2 : M client unit) :
  wp m1 (client_post c) c → (∀ c', client_wf c' → wp m2 (client_post c') c') →
  wp (m1 ;; m2) (client_post c) c.
Proof.
  intros H1 H2. wp_simpl. eapply wp_mono; [apply H1|]. intros [u|e|f] c' Hc'; [|done..].
  eapply wp_mono; [apply H2, Hc'|]. intros r c2 Hc2. by eapply client_post_trans.
Qed.

Lemma Heartbeat_wf (c : client) i : client_wf c → wp (TcClient_Heartbeat i) (client_post c) c.
Proof.
  intros Hc. unfold TcClient_Heartbeat. wp_simpl. apply wp_rpc; [|done].
  intros a _. wp_simpl. split_and!; [by apply set_net_wf|done..].
Qed.

Lemma Pull_wf (c : client) i :
  client_wf c → wp (TcClient_PullPendingBlocks i) (client_post c) c.
Proof.
  intros Hc. unfold TcClient_PullPendingBlocks. wp_simpl. apply wp_rpc; [|done].
  intros a _. wp_simpl. eapply wp_mono; [by apply record_headers_wf, set_net_wf|].
  intros [u|e|f] c' Hc'; [wp_simpl|..]; exact Hc'.
Qed.

Lemma GetBlocks_wf (c : client) i : client_wf c → wp (TcClient_GetBlocks i) (client_post c) c.
Proof.
  intros Hc. unfold TcClient_GetBlocks. wp_simpl. apply wp_rpc; [|done].
  intros a _. wp_simpl. eapply wp_mono; [by apply queue_blocks_wf, set_net_wf|].
  intros [u|e|f] c' Hc'; [wp_simpl|..]; exact Hc'.
Qed.

Lemma thread_round_wf (c : client) t : client_wf c → wp (thread_round t) (client_post c) c.
Proof.
  intros Hc. destruct t; unfold thread_round, heartbeat_round, pull_round, vote_round.
  - by apply unit_of_post, Heartbeat_wf.
  - repeat (apply seq_post; [by apply unit_of_post; auto using Pull_wf, GetBlocks_wf|];
      clear c Hc; intros c Hc).
    by apply unit_of_post, GetBlocks_wf.
  - by apply unit_of_post, VoteBlocks_wf.
Qed.

(** ** Coming up *)

Definition fresh_pool : mempool :=
  MkMempool empty_strings empty_strings empty_strings empty_strings.

Lemma fresh_pool_wf : pool_wf fresh_pool.
Proof. by split; simpl; unfold empty_strings; rewrite ?length_replicate. Qed.

(** The client when [init] has set its identity and its buffers. *)
Definition initialised (c : client) : client :=
  upd_pool (λ _, fresh_pool)
    (set_identity (newEccKey (conf_client_id cc) (ctick c)) (CreatePubKey (newEccKey (conf_client_id cc) (ctick c)))
       (conf_client_id cc) (upd_ctick S c)).

(** What [init] does with the database. *)
Lemma init_eq (c : client) :
  init cc c =
  if negb (db_open_ok (conf_client_id cc)) then (Crash AssertFail, initialised c)
  else
    match clear_rocksdb cc with
    | None => (Throw TypeError, initialised c)
    | Some flag =>
        if String.eqb flag "true"
        then (mfor (seq 0 (Z.to_nat (conf_account_count cc))) put_account ;;
              mcrash (ProcessExit 0)) (initialised c)
        else (Ret tt, initialised c)
    end.
Proof.
  unfold init, mbind, modify. destruct (negb (db_open_ok (conf_client_id cc))); [done|].
  destruct (clear_rocksdb cc) as [flag|]; [|done]. by destruct (String.eqb _ _).
Qed.

(** The accounts the loop fills, each with its own number as its balance. *)
Definition fill_accounts (n : nat) (d : gmap string string) : gmap string string :=
  foldl (λ d i, <[to_string (Z.of_nat i) := to_string (Z.of_nat i)]> d) d (seq 0 n).

Lemma put_accounts_eq (c : client) ixs :
  mfor ixs put_account c =
  (Ret tt, upd_accounts_db
     (λ d, foldl (λ d i, <[to_string (Z.of_nat i) := to_string (Z.of_nat i)]> d) d ixs) c).
Proof.
  revert c. induction ixs as [|i ixs IH]; intros c; [by destruct c|].
  cbn [mfor]. unfold mbind, put_account at 1, modify. rewrite IH. by destruct c.
Qed.

Lemma fill_accounts_lookup n d i :
  (i < n)%nat → u64 (Z.of_nat n) → fill_accounts n d !! to_string (Z.of_nat i) = Some (to_string (Z.of_nat i)).
Proof.
  unfold fill_accounts. unfold u64. induction n as [|n IH]; intros Hi Hn; [lia|].
  rewrite seq_S, foldl_app. simpl. destruct (decide (n = i)) as [->|Hne]; [by rewrite lookup_insert_eq|].
  rewrite lookup_insert_ne; [apply IH; lia|].
  intros Heq. apply Hne. apply (to_string_inj (Z.of_nat n) (Z.of_nat i)) in Heq; unfold u64; lia.
Qed.

Lemma initialised_wf a b d w :
  u64 (conf_client_id cc) → client_wf (initialised (TcClient_members a b d w)).
Proof.
  intros Hid. split; simpl; [done|split; by eexists|done|apply fresh_pool_wf|done|done].
Qed.

Lemma Register_wf (c : client) i : client_wf c → wp (TcClient_Register cc i) (client_post c) c.
Proof.
  intros Hc. unfold TcClient_Register. wp_simpl. destruct (client_pkey c) as [pk|]; [|done].
  wp_simpl. apply wp_rpc; [|done]. intros a _.
  pose proof (set_net_wf (call_Register a (request_id c) (get_pub_key_data pk) (net c)).2 c Hc) as Hw.
  wp_simpl. destruct (skey_of_string _ _ _); wp_simpl; [|by split_and!..].
  destruct (pkey_of_Fr _ _ _); wp_simpl; [|by split_and!..].
  destruct Hw. by split_and!.
Qed.

Lemma bind_thread_wf (c : client) : client_wf c → wp (bind_thread cc) (client_post c) c.
Proof.
  intros Hc. unfold bind_thread. destruct (_ =? 0); [done|]. cbv zeta. unfold wp, mbind. simpl.
  destruct Hc. destruct (_ =? 0); by split_and!.
Qed.

Lemma start_wf (c : client) : client_wf c → wp (TcClient_start cc) (client_post c) c.
Proof.
  intros Hc. unfold TcClient_start. apply seq_post; [by apply unit_of_post, Register_wf|].
  clear c Hc. intros c Hc. apply (wp_mfor (λ c', client_post c (Ret tt) c')); [done|done|].
  intros t c' _ (Hc' & Hid & Hst). eapply wp_mono; [by apply bind_thread_wf|].
  intros [u|e|f] c2 (H1 & H2 & H3); split_and!; congruence || done.
Qed.

End client.
