(* ===== verification/Instances.v ===== *)
(** Concrete libraries that satisfy the interfaces of [Entity.v], [FlexCodec.v] and
    [Msgpack.v] and [ServerState.v]. They are not models of libBLS, FlexBuffers or
    MessagePack: they show that the hypotheses on them can hold, and the witnesses of the
    theorems run on them. *)
From Stdlib Require Import ZArith Lia.
From stdpp Require Import base tactics list gmap strings sorting countable.
From S2P Require Import Prelude Decimal Entity FlexCodec Msgpack ServerState Client.

(** ** A serializer *)

(** A builder tree as a generic tree, whose leaves are the scalars. *)
Definition leaf : Type := Z + (string + bytes).

#[export] Instance byte_eq_dec : EqDecision Byte.byte := Byte.byte_eq_dec.
#[export] Instance byte_countable : Countable Byte.byte :=
  inj_countable Byte.to_N Byte.of_N Byte.of_to_N.

Fixpoint fx_tree (v : fx) : gen_tree leaf :=
  match v with
  | FxNull => GenNode 0 []
  | FxUInt u => GenLeaf (inl u)
  | FxString s => GenLeaf (inr (inl s))
  | FxBlob b => GenLeaf (inr (inr b))
  | FxVector l => GenNode 1 (fx_tree <$> l)
  | FxMap kvs =>
      GenNode 2 ((λ kv, GenNode 3 [GenLeaf (inr (inl kv.1)); fx_tree kv.2]) <$> kvs)
  end.

Fixpoint tree_fx (t : gen_tree leaf) : fx :=
  match t with
  | GenLeaf (inl u) => FxUInt u
  | GenLeaf (inr (inl s)) => FxString s
  | GenLeaf (inr (inr b)) => FxBlob b
  | GenNode 1 l => FxVector (tree_fx <$> l)
  | GenNode 2 l =>
      FxMap ((λ t, match t with
                   | GenNode _ [GenLeaf (inr (inl k)); t'] => (k, tree_fx t')
                   | _ => (EmptyString, FxNull)
                   end) <$> l)
  | _ => FxNull
  end.

(** The bits of a positive number, one per byte. *)
Fixpoint pos_bytes (p : positive) : bytes :=
  match p with
  | xH => [Byte.x02]
  | xO p => Byte.x00 :: pos_bytes p
  | xI p => Byte.x01 :: pos_bytes p
  end.

Fixpoint bytes_pos (b : bytes) : option positive :=
  match b with
  | Byte.x00 :: b' => xO <$> bytes_pos b'
  | Byte.x01 :: b' => xI <$> bytes_pos b'
  | [Byte.x02] => Some xH
  | _ => None
  end.

Definition toy_GetBuffer (v : fx) : bytes := pos_bytes (encode (fx_tree v)).
Definition toy_GetRoot (b : bytes) : fx :=
  default FxNull (p ← bytes_pos b; tree_fx <$> decode p).

Definition toy_map_at (r : fx) (k : string) : fx :=
  match r with FxMap kvs => default FxNull ((list_to_map kvs : gmap string fx) !! k)
             | _ => FxNull end.

Definition toy_flex : FlexBuffers := {|
  Reference := fx;
  GetBuffer := toy_GetBuffer;
  GetRoot := toy_GetRoot;
  AsUInt64 r := match r with FxUInt u => wrap64 u | _ => 0 end;
  AsString r := match r with FxString s => s | _ => EmptyString end;
  AsBlob r := match r with FxBlob b => b | _ => [] end;
  IsNull r := match r with FxNull => true | _ => false end;
  vec_size r := match r with FxVector l => length l | _ => 0%nat end;
  vec_at r i := match r with FxVector l => default FxNull (l !! i) | _ => FxNull end;
  Keys r := match r with FxMap kvs => kvs.*1 | _ => [] end;
  map_at := toy_map_at;
|}.

Lemma bytes_pos_pos p : bytes_pos (pos_bytes p) = Some p.
Proof. induction p; simpl; by rewrite ?IHp. Qed.

Lemma tree_fx_tree v : tree_fx (fx_tree v) = v.
Proof.
  revert v. fix IH 1. intros [|u|s|b|l|kvs]; [reflexivity..| |]; simpl; f_equal.
  - induction l as [|v l IHl]; simpl; [reflexivity|]. rewrite IH. f_equal. exact IHl.
  - induction kvs as [|[k v] kvs IHl]; simpl; [reflexivity|]. rewrite IH. f_equal. exact IHl.
Qed.

Lemma toy_root v : toy_GetRoot (toy_GetBuffer v) = v.
Proof.
  unfold toy_GetRoot, toy_GetBuffer. rewrite bytes_pos_pos. simpl.
  rewrite decode_encode. simpl. apply tree_fx_tree.
Qed.

(** In this library a reference is the tree it refers to. *)
Lemma toy_refers r v : refers (F := toy_flex) r v → r = v ∧ fx_wf v.
Proof.
  induction 1 as [v Hwf|r l i v _ [-> Hwf] Hl|r kvs k v _ [-> Hwf] Hk].
  - split; [apply toy_root|done].
  - rewrite fx_wf_vector in Hwf. simpl. rewrite Hl. split; [done|].
    eapply Forall_lookup_1; [apply Hwf|done].
  - apply fx_wf_map in Hwf as [Hnd Hwf]. simpl. unfold toy_map_at.
    rewrite (elem_of_list_to_map_1 kvs k v) by done. split; [done|].
    rewrite Forall_forall in Hwf. apply (Hwf (k, v)). by apply list_elem_of_In.
Qed.

#[export] Instance toy_flex_laws : FlexBuffersLaws toy_flex.
Proof.
  split; try (intros r v [-> Hwf]%toy_refers; reflexivity).
  - intros r u [-> Hwf]%toy_refers. apply wrap64_id, Hwf.
  - intros r. destruct r; try apply wrap64_u64; done.
Qed.

(** ** A packer *)

Fixpoint mp_tree (v : mp) : gen_tree leaf :=
  match v with
  | MpNil => GenNode 0 []
  | MpUInt u => GenLeaf (inl u)
  | MpStr s => GenLeaf (inr (inl s))
  | MpBin b => GenLeaf (inr (inr b))
  | MpArray l => GenNode 1 (mp_tree <$> l)
  | MpMap kvs => GenNode 2 ((λ kv, GenNode 3 [mp_tree kv.1; mp_tree kv.2]) <$> kvs)
  end.

Fixpoint tree_mp (t : gen_tree leaf) : mp :=
  match t with
  | GenLeaf (inl u) => MpUInt u
  | GenLeaf (inr (inl s)) => MpStr s
  | GenLeaf (inr (inr b)) => MpBin b
  | GenNode 1 l => MpArray (tree_mp <$> l)
  | GenNode 2 l =>
      MpMap ((λ t, match t with
                   | GenNode _ [k; v] => (tree_mp k, tree_mp v)
                   | _ => (MpNil, MpNil)
                   end) <$> l)
  | _ => MpNil
  end.

Definition toy_mp_pack (v : mp) : bytes := pos_bytes (encode (mp_tree v)).
Definition toy_mp_unpack (b : bytes) : outcome mp :=
  match (p ← bytes_pos b; tree_mp <$> decode p) with
  | Some v => Ret v
  | None => Throw LibraryError
  end.

Definition toy_msgpack : Msgpack := {|
  object := mp;
  mp_pack := toy_mp_pack;
  mp_unpack := toy_mp_unpack;
  obj_pack := toy_mp_pack;
  obj_nil := MpNil;
  obj_is_nil o := match o with MpNil => true | _ => false end;
  obj_array o := match o with MpArray l => Some l | _ => None end;
  obj_map o := match o with MpMap l => Some l | _ => None end;
  as_uint64 o := match o with MpUInt u => Ret u | _ => Throw TypeError end;
  as_std_string o := match o with MpStr s => Ret s | _ => Throw TypeError end;
  as_byte_vector o := match o with MpBin b => Ret b | _ => Throw TypeError end;
  map_of_pairs _ _ _ _ l := list_to_map l;
|}.

Lemma tree_mp_tree v : tree_mp (mp_tree v) = v.
Proof.
  revert v. fix IH 1. intros [|u|s|b|l|kvs]; [reflexivity..| |]; simpl; f_equal.
  - induction l as [|v l IHl]; simpl; [reflexivity|]. rewrite IH. f_equal. exact IHl.
  - induction kvs as [|[k v] kvs IHl]; simpl; [reflexivity|]. rewrite !IH. f_equal. exact IHl.
Qed.

Lemma toy_mp_unpack_pack v : toy_mp_unpack (toy_mp_pack v) = Ret v.
Proof.
  unfold toy_mp_unpack, toy_mp_pack. rewrite bytes_pos_pos. simpl.
  rewrite decode_encode. simpl. by rewrite tree_mp_tree.
Qed.

(** In this library an object is the tree it reads. *)
Lemma toy_reads v : reads (K := toy_msgpack) v v.
Proof.
  revert v. fix IH 1. intros [|u|s|b|l|kvs]; simpl; [reflexivity|split; reflexivity..| |].
  - split; [reflexivity|]. exists l. split; [reflexivity|].
    induction l as [|v l IHl]; [exact I|]. split; [apply IH|exact IHl].
  - split; [reflexivity|]. exists kvs. split; [reflexivity|].
    induction kvs as [|[k v] kvs IHl]; [exact I|]. split; [split; apply IH|exact IHl].
Qed.

#[export] Instance toy_msgpack_laws : MsgpackLaws toy_msgpack.
Proof.
  split; [|done]. intros v _. exists v.
  split; [apply toy_mp_unpack_pack|split; [apply toy_reads|done]].
Qed.

(** ** A signature library *)

Definition toy_fits (i t n : Z) : bool := bool_decide (u64 i ∧ u64 t ∧ u64 n).

#[export] Instance u64_dec z : Decision (u64 z).
Proof. unfold u64. apply _. Defined.

(** A share: one byte of "group element", a hint and three [size_t] values. *)
Record toy_share := ToyShare {
  ts_g : Byte.byte;
  ts_hint : string;
  ts_index : Z;
  ts_t : Z;
  ts_n : Z;
  ts_fits : toy_fits ts_index ts_t ts_n = true;
}.

Definition toy_mk_share (g : Byte.byte) (h : string) (i t n : Z) : outcome toy_share :=
  match decide (toy_fits i t n = true) with
  | left H => Ret (ToyShare g h i t n H)
  | right _ => Throw InvalidArgument
  end.

Record toy_sig := ToySig {
  tg_g : Byte.byte;
  tg_hint : string;
  tg_t : Z;
  tg_n : Z;
  tg_fits : toy_fits 0 tg_t tg_n = true;
}.

Definition toy_mk_sig (g : Byte.byte) (h : string) (t n : Z) : outcome toy_sig :=
  match decide (toy_fits 0 t n = true) with
  | left H => Ret (ToySig g h t n H)
  | right _ => Throw InvalidArgument
  end.

(** The string of a signature: its group element and its hint. *)
Definition toy_sig_string (s : toy_sig) : string :=
  String (Ascii.ascii_of_byte (tg_g s)) (tg_hint s).
Definition toy_sig_of_string (str : string) (t n : Z) : outcome toy_sig :=
  match str with
  | String a h => toy_mk_sig (Ascii.byte_of_ascii a) h t n
  | EmptyString => Throw InvalidArgument
  end.

Definition toy_sign (k : Byte.byte) (hash : bytes) (index : Z) : outcome toy_share :=
  toy_mk_share k "hint" index 2 2.

(** The shares of a set by signer index; a second share of a signer is dropped. *)
Definition toy_add (set : Z * gmap Z toy_share) (o : option toy_share)
    : outcome (Z * gmap Z toy_share) :=
  match o with
  | None => Throw InvalidArgument
  | Some s => Ret (set.1, map_insert_new (ts_index s) s set.2)
  end.

Definition toy_crypto : Crypto := {|
  G1 := Byte.byte;
  G1_image g := replicate 96 g;
  G1_of_image b := default Byte.x00 (head b);
  BLSSigShare := toy_share;
  mkBLSSigShare := toy_mk_share;
  getSigShare := ts_g;
  getHint := ts_hint;
  getSignerIndex := ts_index;
  getRequiredSigners := ts_t;
  getTotalSigners := ts_n;
  BLSSignature := toy_sig;
  mkBLSSignature := toy_mk_sig;
  sig_getSig := tg_g;
  sig_getHint := tg_hint;
  sig_getRequiredSigners := tg_t;
  sig_getTotalSigners := tg_n;
  sig_toString := toy_sig_string;
  BLSSignature_of_string := toy_sig_of_string;
  BLSSigShareSet := Z * gmap Z toy_share;
  newBLSSigShareSet t n := (t, ∅);
  addSigShare := toy_add;
  isEnough set := set.1 <=? Z.of_nat (size set.2);
  merge set _ := toy_mk_sig Byte.x07 "merged" set.1 set.1;
  BLSPrivateKeyShare := Byte.byte;
  BLSPublicKeyShare := Byte.byte;
  Fr := Byte.byte;
  createDKGSecretShares _ _ _ n := replicate (Z.to_nat n) Byte.x05;
  skey_of_Fr f _ _ := Ret f;
  pkey_of_Fr f _ _ := Ret f;
  skey_to_string k := [k];
  skey_of_string b _ _ :=
    match b with [k] => Ret k | _ => Throw InvalidArgument end;
  getPrivateKey k := k;
  sign := toy_sign;
  PubKey := bytes;
  mkPubKey b := Ret b;
  get_pub_key_data k := k;
  EccKey := Byte.byte;
  newEccKey _ _ := Byte.x09;
  CreatePubKey k := [k];
  hash256 b := b;
|}.

Lemma toy_fits_spec i t n : toy_fits i t n = true ↔ u64 i ∧ u64 t ∧ u64 n.
Proof. unfold toy_fits. by rewrite bool_decide_eq_true. Qed.

Lemma toy_mk_share_eq s :
  toy_mk_share (ts_g s) (ts_hint s) (ts_index s) (ts_t s) (ts_n s) = Ret s.
Proof.
  destruct s as [g h i t n H]. unfold toy_mk_share. simpl.
  destruct (decide _) as [H'|]; [|done]. do 2 f_equal. apply (proof_irrel H' H).
Qed.

Lemma toy_mk_sig_eq s : toy_mk_sig (tg_g s) (tg_hint s) (tg_t s) (tg_n s) = Ret s.
Proof.
  destruct s as [g h t n H]. unfold toy_mk_sig. simpl.
  destruct (decide _) as [H'|]; [|done]. do 2 f_equal. apply (proof_irrel H' H).
Qed.

#[export] Instance toy_crypto_laws : CryptoLaws toy_crypto.
Proof.
  split; try done; intros s; try apply (proj1 (toy_fits_spec _ _ _) (ts_fits s));
    try apply (proj1 (toy_fits_spec _ _ _) (tg_fits s)).
  - apply toy_mk_share_eq.
  - apply toy_mk_sig_eq.
  - exists s. split_and!; [|done..]. simpl. unfold toy_sig_of_string, toy_sig_string.
    rewrite Ascii.byte_of_ascii_of_byte. apply toy_mk_sig_eq.
  - intros [t|]; simpl; tauto.
  - intros n. simpl. unfold toy_mk_sig. destruct (decide _); simpl; tauto.
Qed.

(** ** An environment *)

(** A clock that ticks once a question, draws that walk the range, remote calls that
    succeed, and traversals in the order of the map. *)
Definition toy_env : Env := {|
  clock _ n := 1000 + Z.of_nat n mod 1000;
  random _ n a b := a + Z.of_nat n mod (Z.max 1 (b - a + 1));
  rpc_ok _ _ := true;
  db_opens _ := true;
  chm_iter _ m := map_to_list m;
|}.

#[export] Instance toy_env_laws : EnvLaws toy_env.
Proof.
  split.
  - intros i n. unfold u64. simpl. pose proof (Z.mod_pos_bound (Z.of_nat n) 1000). lia.
  - intros i n a b H. simpl.
    pose proof (Z.mod_pos_bound (Z.of_nat n) (Z.max 1 (b - a + 1))). lia.
  - done.
Qed.

(** A client's machine of eight cores, where threads can be pinned and databases open. *)
Definition toy_client_env : ClientEnv :=
  {| hardware_concurrency _ := 8; setaffinity_rc _ _ := 0; db_open_ok _ := true;
     get_missing v := v |}.
