(* ===== verification/HandlersProofs.v ===== *)
(** The handlers of a server, client side and peer side: what they do on every branch,
    and that they keep the invariant. *)
From Stdlib Require Import ZArith Lia.
From stdpp Require Import base tactics list gmap strings sorting.
From S2P Require Import Prelude Decimal Entity FlexCodec ServerState ServerInv ClientService.
From S2P Require Import PeerService.

Section handlers.
Context {C : Crypto} {F : FlexBuffers} {L : FlexBuffersLaws F} {E : Env} {EL : EnvLaws E}.
Context (cf : conf) (Hcf : conf_ok cf).
Local Abbreviation server_wf := (server_wf cf).
Local Abbreviation good := (good cf).
Local Abbreviation quorum := (quorum cf).

(** ** Votes *)

(** A block after a vote: the first vote under a key is the one that stays. *)
Definition add_vote (k : Z) (v : BlockVote) : Block → Block := upd_votes (map_insert_new k v).

(** The state after a vote for a pending block at [l], which becomes [b]. *)
Definition after_vote (id : Z) (l : loc) (b : Block) (s : server) : server :=
  if is_vote_enough b (client_count cf)
  then upd_pending_blks (delete id)
         (upd_pb_merge_queue (λ q, q ++ [l]) (upd_heap <[l := b]> s))
  else upd_heap <[l := b]> s.

Lemma add_vote_le k v b : block_le b (add_vote k v b).
Proof. split; try done. apply map_insert_new_subseteq. Qed.

Lemma add_vote_wf k v b : u64 k → vote_wf v → block_wf b → block_wf (add_vote k v b).
Proof.
  intros Hk Hv (Hh & Ht & Hvs). split_and!; [done..|]. simpl. unfold map_insert_new.
  destruct (votes_ b !! k); [done|]. by apply map_Forall_insert_2.
Qed.

Lemma VoteBlocks_local_eq k id v s :
  VoteBlocks_local cf k id v s =
  match pending_blks s !! id with
  | None => (Ret tt, s)
  | Some l =>
      match heap s !! l with
      | None => (Crash NullDeref, s)
      | Some b => (Ret tt, after_vote id l (add_vote k v b) s)
      end
  end.
Proof.
  unfold VoteBlocks_local, mbind, pending_find, gets, assign, deref, after_vote.
  destruct (pending_blks s !! id) as [l|]; [|done].
  destruct (heap s !! l) as [b|]; [|done]. simpl. rewrite lookup_insert_eq.
  by destruct (is_vote_enough _ _).
Qed.

(** The peer's critical section is the client service's, under the vote's own voter. *)
Lemma RelayVote_local_eq id v : RelayVote_local cf id v = VoteBlocks_local cf (voter_id_ v) id v.
Proof. done. Qed.

Lemma after_vote_good s id l b k v :
  server_wf s → pending_blks s !! id = Some l → heap s !! l = Some b →
  u64 k → vote_wf v → good s (after_vote id l (add_vote k v b) s).
Proof.
  intros H Hp Hl Hk Hv.
  assert (good s (upd_heap <[l := add_vote k v b]> s)) as Hg.
  { eapply good_assign; eauto using add_vote_le, add_vote_wf.
    apply add_vote_wf; [done..|]. by eapply wf_heap. }
  unfold after_vote. destruct (is_vote_enough _ _) eqn:En; [|done].
  eapply good_trans; [done|]. apply good_merge_push_erase; [apply Hg|done|].
  exists (add_vote k v b). simpl. rewrite lookup_insert_eq. split; [done|].
  by apply is_vote_enough_spec.
Qed.

Lemma VoteBlocks_local_good s k id v :
  server_wf s → u64 k → vote_wf v →
  wp (VoteBlocks_local cf k id v) (λ r s', good s s' ∧ r = Ret tt) s.
Proof.
  intros H Hk Hv. unfold wp. rewrite VoteBlocks_local_eq.
  destruct (pending_blks s !! id) as [l|] eqn:Hp; [|by split; [apply good_refl|]].
  destruct (wf_pending _ _ H id l Hp) as (b & Hb & _). rewrite Hb.
  split; [|done]. by apply after_vote_good.
Qed.

Lemma VoteBlocks_route_good s b targets v :
  server_wf s → vote_wf v → u64 (id_ (header_ b)) →
  get_server_id b (server_count cf) = Ret targets →
  wp (VoteBlocks_route targets v)
    (λ r s', good s s' ∧ r = Ret (bool_decide (server_id s ∈ targets))) s.
Proof.
  intros H Hv Hid Ht. unfold VoteBlocks_route. wp_simpl.
  assert (∀ t, t ∈ set_iter targets → t ≠ server_id s → is_peer cf s t) as Hpeer.
  { intros t Hin Hne. split; [|done]. apply elem_of_set_iter in Hin.
    by eapply get_server_id_mem. }
  assert (∀ t s', is_peer cf s t → good s s' →
            wp (push_relay_vote t v) (λ r s'', good s' s'' ∧ r = Ret tt) s') as Hpush.
  { intros t s' Hp [Hwf He]. apply (push_relay_vote_good cf); [done| |done].
    eapply wf_peers; [done|]. by eapply is_peer_evolves. }
  case_decide as Hself; wp_simpl.
  - eapply wp_mono; [apply (wp_mfor_good cf _ _ _ (λ r, r = Ret tt)); [done|done|]|].
    + intros t s' Hin Hg. destruct (Z.eqb_spec t (server_id s)) as [->|Hne].
      * split; [|done]. apply good_refl, Hg.
      * by apply Hpush; [apply Hpeer|].
    + intros r s' [Hg ->]. wp_simpl. by rewrite bool_decide_true.
  - eapply wp_mono; [apply (wp_mfor_good cf _ _ _ (λ r, r = Ret tt)); [done|done|]|].
    + intros t s' Hin Hg. apply Hpush; [|done]. apply Hpeer; [done|].
      intros ->. by apply Hself, elem_of_set_iter.
    + intros r s' [Hg ->]. wp_simpl. by rewrite bool_decide_false.
Qed.

(** The relay queues a vote goes into: those of the targets other than the server. *)
Definition relay_targets (s : server) (targets : gset Z) : list Z :=
  filter (λ t, t ≠ server_id s) (set_iter targets).

Lemma VoteBlocks_route_eq s b targets v :
  server_wf s → u64 (id_ (header_ b)) → get_server_id b (server_count cf) = Ret targets →
  VoteBlocks_route targets v s =
  (Ret (bool_decide (server_id s ∈ targets)),
   upd_relay_votes (push_in (relay_targets s targets) v) s).
Proof.
  intros H Hid Ht.
  assert (mfor (relay_targets s targets) (λ t, push_relay_vote t v) s =
          (Ret tt, upd_relay_votes (push_in (relay_targets s targets) v) s)) as Hpush.
  { apply push_loop_eq; try done; try (by intros []).
    - apply NoDup_filter, NoDup_set_iter.
    - intros t [Hne Hin%elem_of_set_iter]%list_elem_of_filter.
      eapply wf_peers; [done|]. split; [by eapply get_server_id_mem|done]. }
  unfold VoteBlocks_route. unfold mbind at 1, gets. destruct (decide (server_id s ∈ targets)) as [Hs|Hs].
  - unfold mbind at 1. rewrite mfor_skip. fold (relay_targets s targets). rewrite Hpush.
    by rewrite bool_decide_true.
  - assert (set_iter targets = relay_targets s targets) as ->.
    { unfold relay_targets. symmetry. apply filter_all. intros t Hin ->.
      by apply Hs, elem_of_set_iter. }
    unfold mbind at 1. rewrite Hpush. by rewrite bool_decide_false.
Qed.

(** What one element of [VoteBlocks] does when the vote can be read and the block is alive. *)
Lemma VoteBlocks_item_eq s k ser blk v targets :
  server_wf s → from_bytes ser = Ret blk → votes_ blk !! k = Some v →
  id_ (header_ blk) ∉ dead_block s → get_server_id blk (server_count cf) = Ret targets →
  let id := id_ (header_ blk) in
  let s1 := upd_relay_votes (push_in (relay_targets s targets) v) s in
  VoteBlocks_item cf k ser s =
    (Ret tt,
     if bool_decide (server_id s ∈ targets)
     then match pending_blks s !! id with
          | Some l => match heap s !! l with
                      | Some b => after_vote id l (add_vote k v b) s1
                      | None => s1
                      end
          | None => s1
          end
     else s1).
Proof.
  intros H Hser Hv Hdead Ht id s1.
  apply Block_from_wf in Hser as Hwf. destruct Hwf as (Hh & _ & _).
  unfold VoteBlocks_item, mbind at 1, lift. rewrite Hser, Hv. unfold mbind at 1, gets.
  rewrite bool_decide_false by done. unfold mbind at 1, lift. rewrite Ht.
  unfold mbind at 1. rewrite (VoteBlocks_route_eq s blk) by (done || apply Hh).
  fold s1. case_bool_decide; [|done]. rewrite VoteBlocks_local_eq.
  change (pending_blks s1) with (pending_blks s). change (heap s1) with (heap s). fold id.
  destruct (pending_blks s !! id) as [l|] eqn:Hp; [|done].
  destruct (wf_pending _ _ H _ _ Hp) as (b & Hb & _). by rewrite Hb.
Qed.

(** The outcome of a step on bytes from the network: it crashes only if reading does. *)
Definition crash_only {A B} (rd : outcome A) (r : outcome B) : Prop :=
  ∀ f, r = Crash f → rd = Crash f.

Ltac no_crash := intros ? ?; congruence.
Ltac stay := wp_simpl; split; [by apply good_refl|no_crash].

Lemma VoteBlocks_item_good s k ser :
  server_wf s → u64 k →
  wp (VoteBlocks_item cf k ser)
    (λ r s', good s s' ∧ crash_only (from_bytes (T := Block) ser) r) s.
Proof.
  intros H Hk. unfold VoteBlocks_item. wp_simpl.
  destruct (from_bytes ser) as [blk|e|f] eqn:Eb;
    [|stay..].
  apply Block_from_wf in Eb as (Hh & _ & Hvs).
  destruct (votes_ blk !! k) as [v|] eqn:Ev; [|stay].
  apply Hvs in Ev as [_ Hv]. wp_simpl.
  case_bool_decide; [stay|]. wp_simpl.
  rewrite get_server_id_unfold by (apply Hcf || apply Hh). wp_simpl.
  eapply wp_mono; [eapply (VoteBlocks_route_good s blk); [done|done|apply Hh|]|].
  { apply get_server_id_unfold; [apply Hcf|apply Hh]. }
  intros r s' [Hg ->]. case_bool_decide; [|wp_simpl; by split; [|no_crash]].
  eapply wp_mono; [apply VoteBlocks_local_good; [apply Hg|done|done]|].
  intros r s'' [Hg' ->]. split; [by eapply good_trans|no_crash].
Qed.

Lemma RelayVote_item_good s ser :
  server_wf s →
  wp (RelayVote_item cf ser)
    (λ r s', good s s' ∧ crash_only (from_bytes (T := BlockVote) ser) r) s.
Proof.
  intros H. unfold RelayVote_item. wp_simpl.
  destruct (from_bytes ser) as [v|e|f] eqn:Ev;
    [|stay..].
  apply BlockVote_from_wf in Ev. wp_simpl.
  case_bool_decide; [stay|].
  rewrite RelayVote_local_eq.
  eapply wp_mono; [apply VoteBlocks_local_good; [done|apply Ev|done]|].
  intros r s' [Hg ->]. wp_simpl; by split; [|no_crash].
Qed.

(** ** Blocks *)

Lemma RelayBlock_item_good s ser :
  server_wf s →
  wp (RelayBlock_item ser)
    (λ r s', good s s' ∧ crash_only (from_bytes (T := Block) ser) r) s.
Proof.
  intros H. unfold RelayBlock_item. wp_simpl.
  destruct (from_bytes ser) as [b|e|f] eqn:Eb;
    [|stay..].
  apply Block_from_wf in Eb. unfold pending_insert. wp_simpl. split; [|no_crash].
  pose proof (good_new cf s b H Eb) as Hg. eapply good_trans; [done|].
  apply good_pending_insert; [apply Hg|exists b; split; [apply lookup_insert_eq|done]|].
  intros Hin. apply (wf_merge _ _ H) in Hin as (b' & Hb' & _).
  apply (wf_heap _ _ H) in Hb' as [Hlt _]. lia.
Qed.

(** A commit message is accepted from the network only with a quorum of votes in it. *)
Definition bcast_ok (ser : bytes) : Prop := ∀ b, from_bytes ser = Ret b → quorum b.

Lemma set_recv_wf t b : u64 t → block_wf b → block_wf (upd_header (set_recv_ts t) b).
Proof. intros Ht ((?&?&?&?&?&?) & Htx & Hvs). by split_and!. Qed.

Lemma SPBcastCommit_item_good s ser :
  server_wf s → bcast_ok ser →
  wp (SPBcastCommit_item cf ser)
    (λ r s', good s s' ∧ crash_only (from_bytes (T := Block) ser) r) s.
Proof.
  intros H Hok. unfold SPBcastCommit_item. wp_simpl.
  destruct (from_bytes ser) as [b|e|f] eqn:Eb;
    [|stay..].
  apply Hok in Eb as Hq. apply Block_from_wf in Eb. wp_simpl.
  pose proof (good_tick cf s H) as Hg0.
  set (s0 := upd_tick S s) in *. set (b0 := upd_header _ b).
  assert (block_wf b0) as Hb0 by (apply set_recv_wf; [apply clock_u64|done]).
  unfold pending_find. wp_simpl.
  destruct (pending_blks s0 !! _) as [l|]; [|wp_simpl; by split; [|no_crash]].
  unfold committed_insert, pending_erase, db_put_block. wp_simpl.
  pose proof (good_new cf s0 b0 (proj1 Hg0) Hb0) as Hg1.
  set (s1 := upd_next_loc S _) in *.
  assert (good s1 (upd_committed_blks <[id_ (header_ b0) := next_loc s0]> s1)) as Hg2.
  { apply good_committed_insert; [apply Hg1|]. exists b0. split; [apply lookup_insert_eq|done]. }
  set (s2 := upd_committed_blks _ s1) in *.
  assert (good s s2) as Hg by eauto using good_trans.
  destruct (use_rocksdb cf) as [[]|]; wp_simpl; (split; [|no_crash]).
  - eapply good_trans; [done|]. eapply good_trans; [apply good_db, Hg|].
    apply good_pending_erase, good_db, Hg.
  - eapply good_trans; [done|]. apply good_pending_erase, Hg.
  - done.
Qed.

(** ** Pulling headers *)

(** The blocks a pull offers at the entries [kvs]: signalled, and not seen by the client. *)
Definition offered (s : server) (p : ClientProfile) (kvs : list (Z * loc)) : list Block :=
  omap (λ kv,
    if bool_decide (kv.1 ∈ pb_sync_labels s ∧ seen_blocks p !! kv.1 = None)
    then heap s !! kv.2 else None) kvs.

Lemma ids_nil (X : gset Z) : X = X ∪ list_to_set (block_ids []).
Proof. unfold block_ids. simpl. by rewrite (right_id_L ∅ (∪)). Qed.

Lemma ids_one b : (list_to_set (block_ids [b]) : gset Z) = {[id_ (header_ b)]}.
Proof. unfold block_ids. simpl. by rewrite (right_id_L ∅ (∪)). Qed.

(** What a pull leaves alone. *)
Record pull_frame (s s' : server) : Prop := {
  pf_pending : pending_blks s' = pending_blks s;
  pf_labels : pb_sync_labels s' = pb_sync_labels s;
  pf_merge : pb_merge_queue s' = pb_merge_queue s;
  pf_committed : committed_blks s' = committed_blks s;
}.

Lemma dist_ts_le b t : dist_ts_ (header_ b) = 0 → block_le b (upd_header (set_dist_ts t) b).
Proof. intros H. by split. Qed.

Lemma dist_ts_wf b t : u64 t → block_wf b → block_wf (upd_header (set_dist_ts t) b).
Proof. intros Ht ((?&?&?&?&?&?) & Htx & Hvs). by split_and!. Qed.

(** One entry: the header goes out and is recorded exactly when the block is offered. *)
Lemma PullPendingBlocks_entry_spec s cid p shadow hdrs id l b :
  server_wf s → shadow !! id = Some l → heap s !! l = Some b → id_ (header_ b) = id →
  clients s !! cid = Some p →
  wp (PullPendingBlocks_entry cid shadow hdrs (id, l)) (λ r s',
    good s s' ∧ pull_frame s s' ∧ (∀ l', l' ≠ l → heap s' !! l' = heap s !! l') ∧
    let bs := offered s p [(id, l)] in
    r = Ret (hdrs ++ (to_bytes ∘ header_ <$> bs)) ∧
    ∃ p', clients s' = <[cid := p']> (clients s) ∧ seen_blocks p ⊆ seen_blocks p' ∧
          dom (seen_blocks p') = dom (seen_blocks p) ∪ list_to_set (block_ids bs)) s.
Proof.
  intros H Hsh Hb Hid Hp. unfold PullPendingBlocks_entry. wp_simpl. cbn [fst snd].
  rewrite Hsh. wp_simpl.
  assert (clients s = <[cid := p]> (clients s)) as Hsame by (by rewrite insert_id).
  unfold offered. cbn [omap list_omap fst snd].
  destruct (decide (id ∈ pb_sync_labels s)) as [Hlab|Hlab]; cycle 1.
  { rewrite (bool_decide_false _ Hlab), bool_decide_false by tauto. cbn [negb]. wp_simpl.
    split_and!; [by apply good_refl|done|done|by rewrite app_nil_r|].
    exists p. split_and!; [done..|]. apply ids_nil. }
  rewrite (bool_decide_true _ Hlab). cbn [negb]. wp_simpl.
  rewrite (wp_deref _ b) by done. wp_simpl. rewrite Hp, Hid.
  destruct (seen_blocks p !! id) as [h|] eqn:Hseen; wp_simpl.
  { rewrite bool_decide_false by (intros [_ ?]; congruence).
    split_and!; [by apply good_refl|done|done|by rewrite app_nil_r|].
    exists p. split_and!; [done..|]. apply ids_nil. }
  rewrite bool_decide_true by done. rewrite Hb. cbn [fmap list_fmap].
  set (p' := upd_seen_blocks _ p). set (s1 := upd_clients _ s).
  assert (good s (upd_tick S s1)) as Hg.
  { eapply good_trans; [by apply good_clients|]. apply good_tick. by apply good_clients. }
  assert (seen_blocks p ⊆ seen_blocks p' ∧
          dom (seen_blocks p') = dom (seen_blocks p) ∪ {[id]}) as [Hs1 Hs2].
  { split; [apply map_insert_new_subseteq|]. simpl. by rewrite dom_map_insert_new, (comm_L (∪)). }
  destruct (Z.eqb_spec (dist_ts_ (header_ b)) 0) as [Hd|Hd]; wp_simpl;
    [rewrite (wp_assign _ _ b) by done; wp_simpl|].
  - split_and!; [|done| |done|].
    + eapply good_trans; [done|]. eapply good_assign; [apply Hg|done|by apply dist_ts_le|].
      apply dist_ts_wf; [apply clock_u64|by eapply wf_heap].
    + intros l' Hne. simpl. by rewrite lookup_insert_ne.
    + exists p'. split_and!; [done..|]. by rewrite ids_one, Hs2, Hid.
  - split_and!; [done..|]. exists p'. split_and!; [done..|]. by rewrite ids_one, Hs2, Hid.
Qed.

(** What one entry leaves for the entries after it. *)
Lemma offered_frame s s' p p' id l b kvs :
  pull_frame s s' → (∀ l', l' ≠ l → heap s' !! l' = heap s !! l') →
  heap s !! l = Some b → id_ (header_ b) = id → id ∉ kvs.*1 →
  Forall (λ kv, at_loc s kv.2 (λ b, id_ (header_ b) = kv.1)) kvs →
  dom (seen_blocks p') = dom (seen_blocks p) ∪ list_to_set (block_ids (offered s p [(id, l)])) →
  offered s' p' kvs = offered s p kvs.
Proof.
  intros Hf Hheap Hb Hid Hnin Hkvs Hdom. unfold offered.
  induction Hkvs as [|[id' l'] kvs Hl' _ IH]; [done|].
  rewrite fmap_cons, not_elem_of_cons in Hnin. cbn [fst snd] in *.
  cbn [omap list_omap fst snd]. rewrite IH by tauto.
  assert (l' ≠ l) as Hne.
  { intros ->. destruct Hl' as (b' & Hb' & <-). destruct Hnin as [Hnin _].
    apply Hnin. congruence. }
  rewrite (Hheap l' Hne), (pf_labels _ _ Hf).
  assert (seen_blocks p' !! id' = None ↔ seen_blocks p !! id' = None) as Hseen.
  { rewrite <- !not_elem_of_dom, Hdom, not_elem_of_union.
    enough (id' ∉ (list_to_set (block_ids (offered s p [(id, l)])) : gset Z)) by tauto.
    rewrite elem_of_list_to_set. unfold offered. cbn [omap list_omap fst snd].
    case_bool_decide; [rewrite Hb|]; simpl; [|apply not_elem_of_nil].
    rewrite list_elem_of_singleton, Hid. intros ->. tauto. }
  by rewrite (bool_decide_ext _ _ (and_iff_compat_l _ Hseen)).
Qed.

Lemma PullPendingBlocks_loop_spec s cid p shadow kvs hdrs :
  server_wf s → clients s !! cid = Some p → NoDup kvs.*1 →
  Forall (λ kv, shadow !! kv.1 = Some kv.2 ∧
                at_loc s kv.2 (λ b, id_ (header_ b) = kv.1)) kvs →
  wp (mfold kvs (PullPendingBlocks_entry cid shadow) hdrs) (λ r s',
    good s s' ∧ pull_frame s s' ∧
    r = Ret (hdrs ++ (to_bytes ∘ header_ <$> offered s p kvs)) ∧
    ∃ p', clients s' = <[cid := p']> (clients s) ∧ seen_blocks p ⊆ seen_blocks p' ∧
          dom (seen_blocks p') =
          dom (seen_blocks p) ∪ list_to_set (block_ids (offered s p kvs))) s.
Proof.
  revert s p hdrs. induction kvs as [|[id l] kvs IH]; intros s p hdrs H Hp Hnd Hkvs.
  { split_and!; [by apply good_refl|done|by rewrite app_nil_r|].
    exists p. split_and!; [by rewrite insert_id|done|]. apply ids_nil. }
  apply Forall_cons in Hkvs as [[Hsh (b & Hb & Hid)] Hkvs]. apply NoDup_cons in Hnd as [Hnin Hnd].
  cbn [fst snd mfold] in *. apply wp_bind.
  eapply wp_mono; [by eapply PullPendingBlocks_entry_spec|].
  intros r s1 (Hg & Hf & Hheap & -> & p1 & Hc & Hsub & Hdom). cbv zeta in *.
  assert (offered s1 p1 kvs = offered s p kvs) as Hoff.
  { eapply offered_frame; eauto. eapply Forall_impl; [done|]. by intros ? [_ ?]. }
  eapply wp_mono; [apply (IH s1 p1)|].
  - apply Hg.
  - by rewrite Hc, lookup_insert_eq.
  - done.
  - eapply Forall_impl; [done|]. intros kv [Hs Hl]. split; [done|].
    eapply at_loc_evolves; [apply Hg| |done]. intros b1 b2 Hle. by rewrite (le_id _ _ Hle).
  - assert (offered s p ((id, l) :: kvs) = offered s p [(id, l)] ++ offered s p kvs) as Happ.
    { change ((id, l) :: kvs) with ([(id, l)] ++ kvs). apply omap_app. }
    intros r s2 (Hg' & Hf' & -> & p2 & Hc' & Hsub' & Hdom').
    split_and!.
    + by eapply good_trans.
    + destruct Hf, Hf'. split; congruence.
    + by rewrite Hoff, Happ, fmap_app, (assoc_L (++)).
    + exists p2. split_and!.
      * by rewrite Hc', Hc, insert_insert_eq.
      * by etrans.
      * unfold block_ids in *.
        by rewrite Hdom', Hdom, Hoff, Happ, fmap_app, list_to_set_app_L, (assoc_L (∪)).
Qed.

(** The entries of a traversal of the pending map. *)
Lemma pending_entries s :
  server_wf s →
  NoDup (chm_iter (pending_blks s)).*1 ∧
  Forall (λ kv, pending_blks s !! kv.1 = Some kv.2 ∧
                at_loc s kv.2 (λ b, id_ (header_ b) = kv.1)) (chm_iter (pending_blks s)).
Proof.
  intros H. pose proof (chm_iter_perm _ (pending_blks s)) as Hp. split.
  - rewrite Hp. apply NoDup_fst_map_to_list.
  - apply Forall_forall. intros [id l] Hin. rewrite Hp, elem_of_map_to_list in Hin.
    split; [done|]. by apply (wf_pending _ _ H).
Qed.

Lemma PullPendingBlocks_spec s cid p :
  server_wf s → clients s !! cid = Some p →
  let bs := offered s p (chm_iter (pending_blks s)) in
  wp (PullPendingBlocks cid) (λ r s',
    good s s' ∧ pull_frame s s' ∧ r = Ret (to_bytes ∘ header_ <$> bs) ∧
    ∃ p', clients s' = <[cid := p']> (clients s) ∧ seen_blocks p ⊆ seen_blocks p' ∧
          dom (seen_blocks p') = dom (seen_blocks p) ∪ list_to_set (block_ids bs)) s.
Proof.
  intros H Hp. unfold PullPendingBlocks. wp_simpl.
  destruct (pending_entries s H) as [Hnd Hkvs].
  eapply wp_mono; [by apply PullPendingBlocks_loop_spec|]. done.
Qed.

(** A pull of an unknown client: nothing changes, and the process ends at the first block
    that is signalled. *)
Lemma PullPendingBlocks_unknown s cid :
  server_wf s → clients s !! cid = None →
  wp (PullPendingBlocks cid) (λ r s', s' = s ∧ ((∃ h, r = Ret h) ∨ r = Crash NullDeref)) s.
Proof.
  intros H Hc. unfold PullPendingBlocks. wp_simpl.
  destruct (pending_entries s H) as [_ Hkvs]. generalize (@nil bytes) as hdrs.
  induction Hkvs as [|[id l] kvs [Hsh (b & Hb & _)] _ IH]; intros hdrs; cbn [mfold].
  { wp_simpl. split; [done|]. left. by eexists. }
  apply wp_bind. unfold PullPendingBlocks_entry at 1. wp_simpl. simpl in *. rewrite Hsh. wp_simpl.
  case_bool_decide; simpl; wp_simpl; [|apply IH].
  rewrite (wp_deref _ b) by done. wp_simpl. rewrite Hc. wp_simpl. auto.
Qed.

Lemma Register_good s id k : server_wf s → wp (Register id k) (λ r s', good s s') s.
Proof.
  intros H. unfold Register. wp_simpl.
  destruct (mkPubKey k); wp_simpl; try by apply good_refl.
  destruct (clients s !! id) as [p|]; wp_simpl; [|by apply good_refl].
  destruct (tss_key p) as [[sk pk]|]; wp_simpl; by apply good_clients.
Qed.

Lemma PullPendingBlocks_good s cid : server_wf s → wp (PullPendingBlocks cid) (λ r s', good s s') s.
Proof.
  intros H. destruct (clients s !! cid) as [p|] eqn:Hc.
  - eapply wp_mono; [by eapply PullPendingBlocks_spec|]. by intros r s' [Hg _].
  - eapply wp_mono; [by apply PullPendingBlocks_unknown|]. intros r s' [-> _].
    by apply good_refl.
Qed.

(** [GetBlocks] answers with the pending blocks of the headers, as they are. *)
Definition blocks_at (s : server) (ids : list Z) : list Block :=
  omap (λ id, pending_blks s !! id ≫= λ l, heap s !! l) ids.

Definition header_id (hdr : bytes) : Z := AsUInt64 (map_at (GetRoot hdr) "id").

Lemma GetBlocks_spec s hdrs :
  server_wf s →
  wp (GetBlocks hdrs) (λ r s', s' = s ∧
    r = Ret (to_bytes <$> blocks_at s (header_id <$> hdrs))) s.
Proof.
  intros H. unfold GetBlocks.
  enough (∀ pb, wp (mfold hdrs GetBlocks_item pb) (λ r s', s' = s ∧
    r = Ret (pb ++ (to_bytes <$> blocks_at s (header_id <$> hdrs)))) s) as He by apply He.
  induction hdrs as [|hdr hdrs IH]; intros pb; cbn [mfold].
  { wp_simpl. by rewrite app_nil_r. }
  assert (∃ h, from_bytes hdr = Ret h ∧ id_ h = header_id hdr) as (h & Hh & Hid)
    by (by eexists).
  apply wp_bind. unfold GetBlocks_item at 1, pending_find. wp_simpl. rewrite Hh. wp_simpl.
  rewrite Hid. unfold blocks_at. cbn [fmap list_fmap omap list_omap]. fold (blocks_at s (header_id <$> hdrs)).
  destruct (pending_blks s !! header_id hdr) as [l|] eqn:Hp; simpl; wp_simpl; [|apply IH].
  destruct (wf_pending _ _ H _ _ Hp) as (b & Hb & _).
  rewrite (wp_deref _ b) by done. wp_simpl. rewrite Hb.
  eapply wp_mono; [apply IH|]. intros r s' [-> ->]. by rewrite <- (assoc_L (++)).
Qed.

End handlers.
