(* ===== verification/SendersProofs.v ===== *)
(** The sending operations of a server: each empties its queue into one request, in
    order, and keeps the invariant. None of them reads the network, so none crashes. *)
From Stdlib Require Import ZArith Lia.
From stdpp Require Import base tactics list gmap strings sorting.
From S2P Require Import Prelude Decimal Entity FlexCodec ServerState ServerInv PeerService.
From S2P Require Import ServerCore.

(** ** The payloads of messages *)

Definition block_payloads (r : PeerRequest) : list bytes :=
  match r with RelayBlockRequest _ l => l | _ => [] end.
Definition vote_payloads (r : PeerRequest) : list bytes :=
  match r with RelayVoteRequest _ l => l | _ => [] end.
Definition commit_payloads (r : PeerRequest) : list bytes :=
  match r with SPBcastCommitRequest _ l _ => l | _ => [] end.
Definition signal_ids (r : PeerRequest) : list Z :=
  match r with RelayBlockSyncRequest _ i => [i] | _ => [] end.

(** What the messages carry to [t], oldest first. *)
Definition payloads_to {A} (p : PeerRequest → list A) (t : Z) (ms : list (Z * PeerRequest))
    : list A :=
  concat ((λ m, if m.1 =? t then p m.2 else []) <$> ms).

Lemma payloads_to_app {A} (p : PeerRequest → list A) t m1 m2 :
  payloads_to p t (m1 ++ m2) = payloads_to p t m1 ++ payloads_to p t m2.
Proof. unfold payloads_to. by rewrite fmap_app, concat_app. Qed.

(** Messages of another kind carry nothing. *)
Lemma payloads_to_none {A} (p : PeerRequest → list A) t ms :
  Forall (λ m, p m.2 = []) ms → payloads_to p t ms = [].
Proof.
  intros H. apply concat_nil, Forall_fmap. eapply Forall_impl; [exact H|].
  intros m Hm. simpl. rewrite Hm. by destruct (_ =? _).
Qed.

(** In a round that visits each peer once, [t] gets what the visit of [t] sends. *)
Lemma payloads_to_round {A} (p : PeerRequest → list A) t (f : Z → list (Z * PeerRequest)) ts :
  NoDup ts → (∀ u m, m ∈ f u → m.1 = u) →
  payloads_to p t (concat (f <$> ts)) = if decide (t ∈ ts) then payloads_to p t (f t) else [].
Proof.
  intros Hnd Hf.
  assert (∀ u, u ≠ t → payloads_to p t (f u) = []) as Hother.
  { intros u Hu. unfold payloads_to. specialize (Hf u). induction (f u) as [|m ms IH]; [done|].
    rewrite fmap_cons. cbn [concat]. rewrite IH by (intros m' Hm'; apply Hf; by right).
    rewrite (Hf m) by by left. by destruct (Z.eqb_spec u t). }
  induction Hnd as [|u ts Hu _ IH]; [done|].
  rewrite fmap_cons. cbn [concat]. rewrite payloads_to_app, IH.
  destruct (decide (u = t)) as [->|Hne].
  - rewrite (decide_False (P := t ∈ ts)), (decide_True (P := t ∈ t :: ts)) by (done || by left).
    by rewrite app_nil_r.
  - rewrite Hother by done. simpl. apply decide_ext. rewrite elem_of_cons. naive_solver.
Qed.

Section senders.
Context {C : Crypto} {F : FlexBuffers} {E : Env} {EL : EnvLaws E}.
Context (cf : conf) (Hcf : conf_ok cf).
Local Abbreviation server_wf := (server_wf cf).
Local Abbreviation good := (good cf).
Local Abbreviation quorum := (quorum cf).

(** A call of a stub leaves the request in the outbox, and a status comes back. *)
Lemma stub_call_good s t req :
  server_wf s → is_peer cf s t →
  wp (stub_call t req) (λ r s',
    good s s' ∧ outbox s' = outbox s ++ [(t, req)] ∧
    relay_votes s' = relay_votes s ∧ relay_blocks s' = relay_blocks s ∧
    bcast_commit_blocks s' = bcast_commit_blocks s ∧
    pb_sync_queue s' = pb_sync_queue s ∧ heap s' = heap s ∧
    pb_sync_labels s' = pb_sync_labels s ∧ peer_status s' = peer_status s ∧
    r = Ret (rpc_ok (server_id s) (tick s))) s.
Proof.
  intros H Hp. rewrite wp_stub_call by (eapply wf_peers; done).
  split_and!; try done.
  eapply good_trans; [by apply good_outbox|]. apply good_tick. by apply good_outbox.
Qed.

(** ** Votes *)

Definition vote_request (s : server) (t : Z) (q : list BlockVote) : list (Z * PeerRequest) :=
  if decide (q = []) then [] else [(t, RelayVoteRequest (sender_id s) (to_bytes <$> q))].

Lemma RelayVote_spec s t q :
  server_wf s → is_peer cf s t → relay_votes s !! t = Some q →
  wp (RelayVote t) (λ r s',
    good s s' ∧ relay_votes s' = <[t := []]> (relay_votes s) ∧
    outbox s' = outbox s ++ vote_request s t q ∧ ∃ ok, r = Ret ok) s.
Proof.
  intros H Hp Hq. unfold RelayVote. wp_simpl. unfold queue_len. rewrite Hq. simpl default.
  apply (wp_while_pop _ (λ rest, upd_relay_votes <[t := rest]>) _
           (λ pre rest b s', good s s' ∧ b = to_bytes <$> pre ∧
              relay_votes s' = <[t := rest]> (relay_votes s) ∧ outbox s' = outbox s ∧
              Forall vote_wf rest) _ _ [] q).
  - intros pre rest b s' (_ & _ & Hr & _). unfold pop_relay_vote, pop_from.
    rewrite Hr, lookup_insert_eq. by destruct rest.
  - intros pre x rest b s' (Hg & -> & Hr & Ho & Hwf). apply Forall_cons in Hwf as [_ Hwf].
    wp_simpl. split_and!; [| |by simpl; rewrite Hr, insert_insert_eq|done|done].
    + eapply good_trans; [done|]. apply good_relay_votes; [apply Hg|done].
    + by rewrite fmap_app.
  - intros b s' (Hg & -> & Hr & Ho & _). simpl app in *. unfold vote_request.
    case_decide as Hb; wp_simpl.
    + apply fmap_nil_inv in Hb as ->. rewrite decide_True by done.
      rewrite app_nil_r. split_and!; [done..|by eexists].
    + rewrite decide_False by (by intros ->).
      eapply wp_mono; [apply stub_call_good|].
      { apply Hg. }
      { eapply is_peer_evolves; [apply Hg|done]. }
      intros r s'' (Hg' & Ho' & Hv' & _ & _ & _ & _ & _ & _ & ->).
      split_and!; [by eapply good_trans|congruence|by rewrite Ho', Ho|by eexists].
  - split_and!; [by apply good_refl|done|by rewrite insert_id|done|].
    by eapply wf_relay_votes.
  - lia.
Qed.

(** ** Blocks *)

(** The blocks behind a queue of pointers. *)
Definition read_all (s : server) (ls : list loc) : list Block := omap (λ l, heap s !! l) ls.

Lemma read_all_app s l1 l2 : read_all s (l1 ++ l2) = read_all s l1 ++ read_all s l2.
Proof. apply omap_app. Qed.

Lemma read_all_one s l b : heap s !! l = Some b → read_all s [l] = [b].
Proof. intros H. unfold read_all. cbn. by rewrite H. Qed.

Lemma read_all_nil s ls :
  (∀ l, l ∈ ls → at_loc s l (λ _, True)) → read_all s ls = [] → ls = [].
Proof.
  destruct ls as [|l ls]; [done|]. intros H. destruct (H l) as (b & Hb & _); [by left|].
  unfold read_all. simpl. by rewrite Hb.
Qed.

Definition block_request (s : server) (t : Z) (q : list loc) : list (Z * PeerRequest) :=
  if decide (q = []) then []
  else [(t, RelayBlockRequest (sender_id s) (to_bytes <$> read_all s q))].

Lemma sync_push_good s ids :
  server_wf s →
  wp (mfor ids (λ i, modify (upd_pb_sync_queue (λ q, q ++ [i]))))
    (λ r s', good s s' ∧ r = Ret tt ∧ pb_sync_queue s' = pb_sync_queue s ++ ids ∧
       relay_blocks s' = relay_blocks s ∧ outbox s' = outbox s ∧
       heap s' = heap s ∧ pb_sync_labels s' = pb_sync_labels s) s.
Proof.
  revert s. induction ids as [|i ids IH]; intros s H; simpl.
  { split_and!; [by apply good_refl|done|by rewrite app_nil_r|done..]. }
  wp_simpl. pose proof (good_sync_queue cf (λ q, q ++ [i]) s H) as Hg.
  eapply wp_mono; [apply IH, Hg|]. intros r s' (Hg' & -> & Hq & Hr & Ho & Hh & Hl).
  split_and!; [by eapply good_trans|done|by rewrite Hq; simpl; rewrite <- (assoc_L (++))|done..].
Qed.

Lemma RelayBlock_spec s t q :
  server_wf s → is_peer cf s t → relay_blocks s !! t = Some q →
  wp (RelayBlock t) (λ r s',
    good s s' ∧ relay_blocks s' = <[t := []]> (relay_blocks s) ∧
    outbox s' = outbox s ++ block_request s t q ∧
    pb_sync_queue s' = pb_sync_queue s ++ block_ids (read_all s q) ∧
    heap s' = heap s ∧ pb_sync_labels s' = pb_sync_labels s ∧ ∃ ok, r = Ret ok) s.
Proof.
  intros H Hp Hq. unfold RelayBlock. wp_simpl. unfold queue_len. rewrite Hq. simpl default.
  assert (∀ l, l ∈ q → at_loc s l (λ _, True)) as Hvalid
    by (intros l Hl; by eapply wf_relay_blocks).
  apply (wp_while_pop _ (λ rest, upd_relay_blocks <[t := rest]>) _
           (λ pre rest b s', good s s' ∧
              b = (to_bytes <$> read_all s pre, block_ids (read_all s pre)) ∧
              relay_blocks s' = <[t := rest]> (relay_blocks s) ∧ outbox s' = outbox s ∧
              heap s' = heap s ∧ pb_sync_queue s' = pb_sync_queue s ∧
              pb_sync_labels s' = pb_sync_labels s ∧ (∀ l, l ∈ rest → at_loc s l (λ _, True))) _ _ [] q).
  - intros pre rest b s' (_ & _ & Hr & _). unfold pop_relay_block, pop_from.
    rewrite Hr, lookup_insert_eq. by destruct rest.
  - intros pre l rest b s' (Hg & -> & Hr & Ho & Hh & Hs & Hlab & Hv). unfold RelayBlock_pop.
    destruct (Hv l) as (blk & Hblk & _); [by left|]. wp_simpl.
    rewrite (wp_deref _ blk) by (simpl; congruence). wp_simpl.
    assert (∀ l0, l0 ∈ rest → at_loc s l0 (λ _, True)) as Hv' by (intros; apply Hv; by right).
    split_and!; try done.
    + eapply good_trans; [done|]. apply good_relay_blocks; [apply Hg|].
      intros l0 Hl0. eapply at_loc_evolves; [apply Hg|done|by apply Hv'].
    + unfold block_ids. by rewrite read_all_app, (read_all_one _ _ _ Hblk), !fmap_app.
    + simpl. by rewrite Hr, insert_insert_eq.
  - intros b s' (Hg & -> & Hr & Ho & Hh & Hs & Hlab & _). simpl app in *. cbn [fst snd].
    unfold block_request. case_decide as Hb; wp_simpl.
    + apply fmap_nil_inv, read_all_nil in Hb as ->; [|done]. rewrite decide_True by done.
      simpl. rewrite !app_nil_r. split_and!; [done..|by eexists].
    + rewrite decide_False by (by intros ->).
      eapply wp_mono; [apply stub_call_good|].
      { apply Hg. }
      { eapply is_peer_evolves; [apply Hg|done]. }
      intros r s'' (Hg' & Ho' & _ & Hr' & _ & Hs' & Hh' & Hlab' & _ & ->). wp_simpl.
      eapply wp_mono; [apply sync_push_good, Hg'|].
      intros r s3 (Hg3 & -> & Hs3 & Hr3 & Ho3 & Hh3 & Hlab3). wp_simpl. split_and!.
      * eauto using good_trans.
      * congruence.
      * by rewrite Ho3, Ho', Ho.
      * by rewrite Hs3, Hs', Hs.
      * congruence.
      * congruence.
      * by eexists.
  - split_and!; [by apply good_refl|done|by rewrite insert_id|done..].
  - lia.
Qed.

(** ** Commits *)

Definition commit_request (s : server) (now t : Z) (q : list loc) : list (Z * PeerRequest) :=
  if decide (q = []) then []
  else [(t, SPBcastCommitRequest (sender_id s) (to_bytes <$> read_all s q) now)].

Lemma SPBcastCommit_spec s t q :
  server_wf s → is_peer cf s t → bcast_commit_blocks s !! t = Some q →
  wp (SPBcastCommit t) (λ r s',
    good s s' ∧ bcast_commit_blocks s' = <[t := []]> (bcast_commit_blocks s) ∧
    outbox s' = outbox s ++ commit_request s (clock (server_id s) (tick s)) t q ∧
    heap s' = heap s ∧ ∃ ok, r = Ret ok) s.
Proof.
  intros H Hp Hq. unfold SPBcastCommit. wp_simpl. unfold queue_len. rewrite Hq. simpl default.
  assert (∀ l, l ∈ q → at_loc s l quorum) as Hvalid by (intros l Hl; by eapply wf_bcast).
  assert (∀ l, l ∈ q → at_loc s l (λ _, True)) as Hvalid'
    by (intros l Hl; eapply at_loc_mono; [by apply Hvalid|done]).
  apply (wp_while_pop _ (λ rest, upd_bcast_commit_blocks <[t := rest]>) _
           (λ pre rest b s', good s s' ∧ b = to_bytes <$> read_all s pre ∧
              bcast_commit_blocks s' = <[t := rest]> (bcast_commit_blocks s) ∧
              outbox s' = outbox s ∧ heap s' = heap s ∧ tick s' = tick s ∧
              (∀ l, l ∈ rest → at_loc s l quorum)) _ _ [] q).
  - intros pre rest b s' (_ & _ & Hr & _). unfold pop_bcast, pop_from.
    rewrite Hr, lookup_insert_eq. by destruct rest.
  - intros pre l rest b s' (Hg & -> & Hr & Ho & Hh & Ht & Hv). unfold SPBcastCommit_pop.
    destruct (Hv l) as (blk & Hblk & _); [by left|]. wp_simpl.
    rewrite (wp_deref _ blk) by (simpl; congruence). wp_simpl.
    assert (∀ l0, l0 ∈ rest → at_loc s l0 quorum) as Hv' by (intros; apply Hv; by right).
    split_and!; try done.
    + eapply good_trans; [done|]. apply good_bcast; [apply Hg|].
      intros l0 Hl0. eapply at_loc_evolves; [apply Hg|apply quorum_le|by apply Hv'].
    + by rewrite read_all_app, (read_all_one _ _ _ Hblk), !fmap_app.
    + simpl. by rewrite Hr, insert_insert_eq.
  - intros b s' (Hg & -> & Hr & Ho & Hh & Ht & _). simpl app in *. unfold commit_request.
    case_decide as Hb; wp_simpl.
    + apply fmap_nil_inv, read_all_nil in Hb as ->; [|done]. rewrite decide_True by done.
      rewrite app_nil_r. split_and!; [done..|by eexists].
    + rewrite decide_False by (by intros ->).
      pose proof (good_tick cf s' (proj1 Hg)) as Hg0.
      eapply wp_mono; [apply stub_call_good|].
      { apply Hg0. }
      { eapply is_peer_evolves; [apply Hg0|]. eapply is_peer_evolves; [apply Hg|done]. }
      intros r s'' (Hg' & Ho' & _ & _ & Hr' & _ & Hh' & _ & _ & ->).
      split_and!; [eauto using good_trans|by rewrite Hr'| |by rewrite Hh'|by eexists].
      rewrite Ho'. simpl. by rewrite Ho, Ht, (ev_id _ _ (proj2 Hg)).
  - split_and!; [by apply good_refl|done|by rewrite insert_id|done..].
  - lia.
Qed.

(** ** Heartbeats and signals *)

Lemma SPHeartbeat_spec s t :
  server_wf s → is_peer cf s t →
  wp (SPHeartbeat t) (λ r s',
    good s s' ∧ r = Ret (rpc_ok (server_id s) (tick s)) ∧
    peer_status s' = <[Z.to_nat (t - 1) := rpc_ok (server_id s) (tick s)]> (peer_status s) ∧
    outbox s' = outbox s ++ [(t, SPHeartbeatRequest (sender_id s))]) s.
Proof.
  intros H Hp. unfold SPHeartbeat. wp_simpl.
  eapply wp_mono; [by apply stub_call_good|].
  intros r s' (Hg & Ho & _ & _ & _ & _ & _ & _ & Hst & ->). wp_simpl.
  assert (sub64 t 1 = t - 1) as ->.
  { unfold sub64. apply wrap64_id. unfold u64. destruct Hp as [Hp _], Hcf. lia. }
  rewrite bool_decide_true by (rewrite (wf_status _ _ (proj1 Hg)); destruct Hp; lia).
  wp_simpl. split_and!; [|done|by rewrite <- Hst|done].
  eapply good_trans; [done|]. apply good_status, Hg.
Qed.

Lemma RelayBlockSync_spec s i t :
  server_wf s → is_peer cf s t →
  wp (RelayBlockSync i t) (λ r s',
    good s s' ∧ outbox s' = outbox s ++ [(t, RelayBlockSyncRequest (sender_id s) i)] ∧
    pb_sync_queue s' = pb_sync_queue s ∧ pb_sync_labels s' = pb_sync_labels s ∧
    relay_blocks s' = relay_blocks s ∧ heap s' = heap s ∧ ∃ ok, r = Ret ok) s.
Proof.
  intros H Hp. unfold RelayBlockSync. wp_simpl.
  eapply wp_mono; [by apply stub_call_good|].
  intros r s' (Hg & Ho & _ & Hr & _ & Hq & Hh & Hl & _ & ->).
  split_and!; try done. by eexists.
Qed.

(** ** The rounds over every peer *)

(** The peers of a server, in the order of the rounds. *)
Definition peers (s : server) : list Z := peer_ids (server_id s) (server_ids cf).

Lemma elem_of_server_ids t : t ∈ server_ids cf ↔ 1 ≤ t ≤ server_count cf.
Proof.
  unfold server_ids, ids_upto. rewrite list_elem_of_fmap. split.
  - intros (i & -> & Hi%elem_of_seq). lia.
  - intros Ht. exists (Z.to_nat (t - 1)). rewrite elem_of_seq. lia.
Qed.

Lemma elem_of_peers s t : t ∈ peers s ↔ is_peer cf s t.
Proof.
  unfold peers, peer_ids. rewrite list_elem_of_filter, elem_of_server_ids.
  unfold is_peer. tauto.
Qed.

Lemma NoDup_server_ids : NoDup (server_ids cf).
Proof.
  unfold server_ids, ids_upto. apply NoDup_fmap_2; [intros i j; lia|apply NoDup_seq].
Qed.

Lemma NoDup_peers s : NoDup (peers s).
Proof. apply NoDup_filter, NoDup_server_ids. Qed.

Lemma for_peers_eq send s :
  for_peers cf send s = mfor (peers s) (λ t, _ <- send t ;; mret tt) s.
Proof. unfold for_peers, mbind at 1, gets, peers, peer_ids. apply mfor_skip. Qed.

(** The rule of a round: [I pre] holds once the peers [pre] have been served. *)
Lemma for_peers_rule send (I : list Z → server → Prop) s :
  I [] s →
  (∀ pre t s', t ∈ peers s → t ∉ pre → I pre s' →
     wp (send t) (λ r s'', I (pre ++ [t]) s'' ∧ ∃ ok, r = Ret ok) s') →
  wp (for_peers cf send) (λ r s', I (peers s) s' ∧ r = Ret tt) s.
Proof.
  intros HI Hstep. unfold wp. rewrite for_peers_eq.
  apply (wp_mfor_seq I); [done..|]. intros pre t post s' Heq HIs.
  pose proof (NoDup_peers s) as Hnd. rewrite Heq in Hnd.
  apply NoDup_app in Hnd as (_ & Hnd & _). wp_simpl.
  eapply wp_mono; [apply Hstep|].
  - rewrite Heq, elem_of_app. right. by left.
  - intros Hin. apply (Hnd t Hin). by left.
  - done.
  - by intros r s'' [HI' [ok ->]].
Qed.

(** The messages of a round. *)
Definition round_of (s : server) (f : Z → list (Z * PeerRequest)) : list (Z * PeerRequest) :=
  concat (f <$> peers s).

Lemma concat_snoc {A} (f : Z → list A) pre t : concat (f <$> pre ++ [t]) = concat (f <$> pre) ++ f t.
Proof. by rewrite fmap_app, concat_app; simpl; rewrite app_nil_r. Qed.

(** The queues of the peers served so far are empty, the others as they were. *)
Definition drained {A} (pre : list Z) (m m' : gmap Z (list A)) : Prop :=
  ∀ t, m' !! t = if decide (t ∈ pre) then Some [] else m !! t.

Lemma drained_snoc {A} pre t (m m' : gmap Z (list A)) :
  drained pre m m' → drained (pre ++ [t]) m (<[t := []]> m').
Proof.
  intros H t0. destruct (decide (t0 = t)) as [->|Hne].
  - by rewrite lookup_insert_eq, decide_True by (rewrite elem_of_app; right; by left).
  - rewrite lookup_insert_ne, H by done. apply decide_ext.
    rewrite elem_of_app, list_elem_of_singleton. naive_solver.
Qed.

Lemma drained_nil {A} (m : gmap Z (list A)) : drained [] m m.
Proof. intros t. by rewrite decide_False by apply not_elem_of_nil. Qed.

Lemma drained_fresh {A} pre t (m m' : gmap Z (list A)) :
  drained pre m m' → t ∉ pre → m' !! t = m !! t.
Proof. intros H Ht. by rewrite H, decide_False. Qed.

Definition queue_of {A} (m : gmap Z (list A)) (t : Z) : list A := default [] (m !! t).

Lemma queue_of_peer {A} (m : gmap Z (list A)) t : is_Some (m !! t) → m !! t = Some (queue_of m t).
Proof. intros [q Hq]. unfold queue_of. by rewrite Hq. Qed.

Lemma sender_id_evolves s s' : evolves s s' → sender_id s' = sender_id s.
Proof. intros He. unfold sender_id. by rewrite (ev_id _ _ He). Qed.

Lemma peers_evolves s s' : evolves s s' → peers s' = peers s.
Proof. intros He. unfold peers. by rewrite (ev_id _ _ He). Qed.

Lemma send_heartbeats_spec s :
  server_wf s →
  wp (send_heartbeats cf) (λ r s',
    (good s s' ∧
     outbox s' = outbox s ++ round_of s (λ t, [(t, SPHeartbeatRequest (sender_id s))])) ∧
    r = Ret tt) s.
Proof.
  intros H.
  apply (for_peers_rule _ (λ pre s', good s s' ∧
    outbox s' = outbox s ++ concat ((λ t, [(t, SPHeartbeatRequest (sender_id s))]) <$> pre))).
  { by rewrite app_nil_r; split; [apply good_refl|]. }
  intros pre t s' Ht Hpre [Hg Ho]. apply elem_of_peers in Ht.
  eapply wp_mono; [apply SPHeartbeat_spec; [apply Hg|eapply is_peer_evolves; [apply Hg|done]]|].
  intros r s'' (Hg' & -> & _ & Ho'). split; [split; [by eapply good_trans|]|by eexists].
  by rewrite Ho', Ho, concat_snoc, (sender_id_evolves s s'), (assoc_L (++)) by apply Hg.
Qed.

Lemma send_relay_votes_spec s :
  server_wf s →
  wp (send_relay_votes cf) (λ r s',
    (good s s' ∧ drained (peers s) (relay_votes s) (relay_votes s') ∧
     outbox s' =
       outbox s ++ round_of s (λ t, vote_request s t (queue_of (relay_votes s) t))) ∧
    r = Ret tt) s.
Proof.
  intros H.
  apply (for_peers_rule _ (λ pre s', good s s' ∧ drained pre (relay_votes s) (relay_votes s') ∧
    outbox s' =
      outbox s ++ concat ((λ t, vote_request s t (queue_of (relay_votes s) t)) <$> pre))).
  { by rewrite app_nil_r; split_and!; [apply good_refl|apply drained_nil|]. }
  intros pre t s' Ht Hpre (Hg & Hd & Ho). apply elem_of_peers in Ht.
  assert (is_peer cf s' t) as Ht' by (eapply is_peer_evolves; [apply Hg|done]).
  pose proof (wf_peers _ _ H t Ht) as (Hq & _).
  eapply wp_mono; [apply RelayVote_spec; [apply Hg|done|]|].
  { rewrite (drained_fresh _ _ _ _ Hd Hpre). by apply queue_of_peer. }
  intros r s'' (Hg' & Hr & Ho' & [ok ->]). split; [|by eexists]. split_and!.
  - by eapply good_trans.
  - rewrite Hr. by apply drained_snoc.
  - rewrite Ho', Ho, concat_snoc, (assoc_L (++)). unfold vote_request.
    by rewrite (sender_id_evolves s s') by apply Hg.
Qed.

(** A commit round reads the clock for each peer that has something to be told. *)
Lemma bcast_commits_spec s :
  server_wf s →
  wp (bcast_commits cf) (λ r s',
    (good s s' ∧ drained (peers s) (bcast_commit_blocks s) (bcast_commit_blocks s') ∧
     ∃ now, outbox s' = outbox s ++
       round_of s (λ t, commit_request s (now t) t (queue_of (bcast_commit_blocks s) t))) ∧
    r = Ret tt) s.
Proof.
  intros H.
  eapply wp_mono; [apply (for_peers_rule _ (λ pre s', good s s' ∧ heap s' = heap s ∧
    drained pre (bcast_commit_blocks s) (bcast_commit_blocks s') ∧
    ∃ now, outbox s' = outbox s ++
      concat ((λ t, commit_request s (now t) t (queue_of (bcast_commit_blocks s) t)) <$> pre)))|].
  - split_and!; [by apply good_refl|done|apply drained_nil|].
    exists (λ _, 0). by rewrite app_nil_r.
  - intros pre t s' Ht Hpre (Hg & Hh & Hd & now & Ho). apply elem_of_peers in Ht.
    assert (is_peer cf s' t) as Ht' by (eapply is_peer_evolves; [apply Hg|done]).
    pose proof (wf_peers _ _ H t Ht) as (_ & _ & Hq & _).
    eapply wp_mono; [apply SPBcastCommit_spec; [apply Hg|done|]|].
    { rewrite (drained_fresh _ _ _ _ Hd Hpre). by apply queue_of_peer. }
    intros r s'' (Hg' & Hr & Ho' & Hh' & [ok ->]). split; [|by eexists]. split_and!.
    + by eapply good_trans.
    + congruence.
    + rewrite Hr. by apply drained_snoc.
    + exists (λ i, if decide (i = t) then clock (server_id s') (tick s') else now i).
      rewrite Ho', Ho, concat_snoc, (assoc_L (++)). f_equal; [f_equal|].
      * f_equal. apply list_fmap_ext. intros k i Hi. rewrite decide_False; [done|].
        intros ->. by apply Hpre, list_elem_of_lookup; exists k.
      * rewrite decide_True by done. unfold commit_request, read_all.
        by rewrite Hh, (sender_id_evolves s s') by apply Hg.
  - intros r s' ((Hg & _ & Hd & Hn) & ->). done.
Qed.

(** ** Relaying blocks, and signalling that they can be handed out *)

Definition relayed_ids (s : server) : list Z :=
  concat ((λ t, block_ids (read_all s (queue_of (relay_blocks s) t))) <$> peers s).

Definition sync_round (s : server) (i : Z) : list (Z * PeerRequest) :=
  round_of s (λ t, [(t, RelayBlockSyncRequest (sender_id s) i)]).

Lemma relay_round_spec s :
  server_wf s →
  wp (for_peers cf RelayBlock) (λ r s',
    (good s s' ∧ heap s' = heap s ∧ pb_sync_labels s' = pb_sync_labels s ∧
     drained (peers s) (relay_blocks s) (relay_blocks s') ∧
     outbox s' =
       outbox s ++ round_of s (λ t, block_request s t (queue_of (relay_blocks s) t)) ∧
     pb_sync_queue s' = pb_sync_queue s ++ relayed_ids s) ∧
    r = Ret tt) s.
Proof.
  intros H.
  apply (for_peers_rule _ (λ pre s', good s s' ∧ heap s' = heap s ∧
    pb_sync_labels s' = pb_sync_labels s ∧ drained pre (relay_blocks s) (relay_blocks s') ∧
    outbox s' =
      outbox s ++ concat ((λ t, block_request s t (queue_of (relay_blocks s) t)) <$> pre) ∧
    pb_sync_queue s' = pb_sync_queue s ++
      concat ((λ t, block_ids (read_all s (queue_of (relay_blocks s) t))) <$> pre))).
  { simpl. rewrite !app_nil_r. by split_and!. }
  intros pre t s' Ht Hpre (Hg & Hh & Hl & Hd & Ho & Hq). apply elem_of_peers in Ht.
  assert (is_peer cf s' t) as Ht' by (eapply is_peer_evolves; [apply Hg|done]).
  pose proof (wf_peers _ _ H t Ht) as (_ & Hsome & _).
  eapply wp_mono; [apply RelayBlock_spec; [apply Hg|done|]|].
  { rewrite (drained_fresh _ _ _ _ Hd Hpre). by apply queue_of_peer. }
  intros r s'' (Hg' & Hr & Ho' & Hq' & Hh' & Hl' & [ok ->]). split; [|by eexists].
  assert (∀ q, read_all s' q = read_all s q) as Hread by (intros; unfold read_all; by rewrite Hh).
  rewrite Hread in Hq'.
  split_and!; [by eapply good_trans|congruence|congruence| | |].
  - rewrite Hr. by apply drained_snoc.
  - rewrite Ho', Ho, concat_snoc, (assoc_L (++)). unfold block_request.
    by rewrite Hread, (sender_id_evolves s s') by apply Hg.
  - by rewrite Hq', Hq, concat_snoc, (assoc_L (++)).
Qed.

(** The rounds of signals tell every peer the ids, in their order. *)
Lemma signals_to_round s t ids :
  is_peer cf s t → payloads_to signal_ids t (concat (sync_round s <$> ids)) = ids.
Proof.
  intros Ht%elem_of_peers. induction ids as [|i ids IH]; [done|].
  rewrite fmap_cons. cbn [concat]. rewrite payloads_to_app, IH. unfold sync_round, round_of.
  rewrite payloads_to_round, decide_True; [|done|apply NoDup_peers|].
  - unfold payloads_to. simpl. by rewrite Z.eqb_refl.
  - intros u m ->%list_elem_of_singleton. done.
Qed.

Lemma Forall_round_of (P : Z * PeerRequest → Prop) s f :
  (∀ t, Forall P (f t)) → Forall P (round_of s f).
Proof. intros Hf. unfold round_of. by apply Forall_concat, Forall_fmap, Forall_true. Qed.

Lemma sync_rounds_forall (P : Z * PeerRequest → Prop) s ids :
  (∀ t i, P (t, RelayBlockSyncRequest (sender_id s) i)) →
  Forall P (concat (sync_round s <$> ids)).
Proof.
  intros HP. apply Forall_concat, Forall_fmap, Forall_true. intros i.
  apply Forall_round_of. intros t. by repeat constructor.
Qed.

Lemma block_round_forall (P : Z * PeerRequest → Prop) s (q : Z → list loc) :
  (∀ t bs, P (t, RelayBlockRequest (sender_id s) bs)) →
  Forall P (round_of s (λ t, block_request s t (q t))).
Proof.
  intros HP. apply Forall_round_of. intros t. unfold block_request.
  case_decide; by repeat constructor.
Qed.

Lemma send_relay_block_sync_spec s i :
  server_wf s →
  wp (send_relay_block_sync cf i) (λ r s',
    (good s s' ∧ pb_sync_queue s' = pb_sync_queue s ∧ relay_blocks s' = relay_blocks s ∧
     pb_sync_labels s' = {[i]} ∪ pb_sync_labels s ∧ outbox s' = outbox s ++ sync_round s i) ∧
    r = Ret tt) s.
Proof.
  intros H. unfold send_relay_block_sync. wp_simpl.
  eapply wp_mono; [apply (for_peers_rule _ (λ pre s', good s s' ∧
    pb_sync_queue s' = pb_sync_queue s ∧ relay_blocks s' = relay_blocks s ∧
    pb_sync_labels s' = pb_sync_labels s ∧
    outbox s' = outbox s ++
      concat ((λ t, [(t, RelayBlockSyncRequest (sender_id s) i)]) <$> pre)))|].
  - simpl. rewrite app_nil_r. by split_and!.
  - intros pre t s' Ht Hpre (Hg & Hq & Hr & Hl & Ho). apply elem_of_peers in Ht.
    eapply wp_mono;
      [apply RelayBlockSync_spec; [apply Hg|eapply is_peer_evolves; [apply Hg|done]]|].
    intros r s'' (Hg' & Ho' & Hq' & Hl' & Hr' & _ & [ok ->]). split; [|by eexists].
    split_and!; [by eapply good_trans|congruence..|].
    by rewrite Ho', Ho, concat_snoc, (sender_id_evolves s s'), (assoc_L (++)) by apply Hg.
  - intros r s' ((Hg & Hq & Hr & Hl & Ho) & ->). wp_simpl.
    split_and!; simpl; [|congruence|congruence|by rewrite Hl|done|done].
    eapply good_trans; [done|]. apply good_label, Hg.
Qed.

Lemma sync_round_evolves s s' i : evolves s s' → sync_round s' i = sync_round s i.
Proof.
  intros He. unfold sync_round, round_of. by rewrite (peers_evolves s s'), (sender_id_evolves s s').
Qed.

Lemma send_relay_blocks_spec s :
  server_wf s →
  let ids := pb_sync_queue s ++ relayed_ids s in
  wp (send_relay_blocks cf) (λ r s',
    (good s s' ∧ drained (peers s) (relay_blocks s) (relay_blocks s') ∧
     pb_sync_queue s' = [] ∧ pb_sync_labels s' = list_to_set ids ∪ pb_sync_labels s ∧
     outbox s' =
       (outbox s ++ round_of s (λ t, block_request s t (queue_of (relay_blocks s) t))) ++
       concat (sync_round s <$> ids)) ∧
    r = Ret tt) s.
Proof.
  intros H ids. unfold send_relay_blocks. wp_simpl.
  eapply wp_mono; [by apply relay_round_spec|].
  intros r s1 ((Hg & _ & Hl & Hd & Ho & Hq) & ->). wp_simpl. fold ids in Hq. rewrite Hq.
  apply (wp_while_pop _ (λ rest, upd_pb_sync_queue (λ _, rest)) _
           (λ pre rest _ s', good s s' ∧ pb_sync_queue s' = rest ∧
              drained (peers s) (relay_blocks s) (relay_blocks s') ∧
              pb_sync_labels s' = list_to_set pre ∪ pb_sync_labels s ∧
              outbox s' = outbox s1 ++ concat (sync_round s <$> pre)) _ _ [] ids).
  - intros pre rest b s' (_ & Hr & _). unfold pop_sync, pop_front. by rewrite Hr.
  - intros pre i rest [] s' (Hg' & Hr & Hd' & Hl' & Ho').
    pose proof (good_sync_queue cf (λ _, rest) s' (proj1 Hg')) as Hg0.
    eapply wp_mono; [apply send_relay_block_sync_spec, Hg0|].
    intros r s2 ((Hg2 & Hq2 & Hr2 & Hl2 & Ho2) & ->).
    assert (good s (upd_pb_sync_queue (λ _, rest) s')) as Hgs by eauto using good_trans.
    split_and!; [eauto using good_trans|by rewrite Hq2|intros t; by rewrite Hr2; apply Hd'| |].
    + rewrite Hl2, list_to_set_app_L. simpl. rewrite Hl', (right_id_L ∅ (∪)).
      by rewrite (assoc_L (∪)), (comm_L (∪) {[i]}).
    + rewrite Ho2, (sync_round_evolves s _ i (proj2 Hgs)). simpl.
      by rewrite Ho', concat_snoc, (assoc_L (++)).
  - intros [] s' (Hg' & Hr & Hd' & Hl' & Ho'). split_and!; try done. by rewrite Ho', Ho.
  - simpl. rewrite app_nil_r, (left_id_L ∅ (∪)). by split_and!.
  - lia.
Qed.

End senders.
