(* ===== verification/CoreProofs.v ===== *)
(** The server's own operations: initialization gives the invariant; generating, packing,
    merging and the removal of dead blocks keep it, with what each of them does; and no
    task of the scheduler crashes. *)
From Stdlib Require Import ZArith Lia.
From stdpp Require Import base tactics list gmap strings sorting.
From S2P Require Import Prelude Decimal Entity FlexCodec ServerState ServerInv PeerService.
From S2P Require Import ServerCore SendersProofs.

(** ** Initialization *)

Section start.
Context {C : Crypto} {F : FlexBuffers} {E : Env}.
Context (cf : conf) (Hcf : conf_ok cf).

(** The key generation of the run gives every client a usable pair of key shares. *)
Definition dkg_ok : Prop :=
  let shares := createDKGSecretShares (conf_server_id cf) 0 (client_count cf) (client_count cf) in
  Forall (λ f, (∃ sk, skey_of_Fr f (client_count cf) (client_count cf) = Ret sk) ∧
               (∃ pk, pkey_of_Fr f (client_count cf) (client_count cf) = Ret pk)) shares ∧
  length shares = Z.to_nat (client_count cf).

(** A client as it is before it registers. *)
Definition fresh_client (i : Z) (p : ClientProfile) : Prop :=
  profile_id p = i ∧ ecc_pkey p = None ∧ is_Some (tss_key p) ∧ seen_blocks p = ∅.

Definition with_clients (s : server) (m : gmap Z ClientProfile) : server :=
  upd_clients (λ _, m) s.

Lemma init_clients_ok s :
  dkg_ok → server_id s = conf_server_id cf → clients s = ∅ → tick s = 0%nat →
  wp (init_client_profile cf) (λ r s', r = Ret tt ∧ ∃ m,
    s' = with_clients (upd_tick S s) m ∧
    ∀ i, if bool_decide (1 ≤ i ≤ client_count cf)
         then ∃ p, m !! i = Some p ∧ fresh_client i p else m !! i = None) s.
Proof.
  intros [Hok Hlen] Hid Hc Ht. unfold init_client_profile. wp_simpl. rewrite Hid, Ht.
  set (shares := createDKGSecretShares _ 0 _ _) in *.
  apply (wp_mfor_seq (λ pre s', ∃ m, s' = with_clients (upd_tick S s) m ∧
    pre = seq 0 (length pre) ∧
    ∀ i, if bool_decide (1 ≤ i ≤ Z.of_nat (length pre))
         then ∃ p, m !! i = Some p ∧ fresh_client i p else m !! i = None)).
  - exists ∅. split_and!; [by destruct s; simpl in *; subst|done|].
    intros i. rewrite bool_decide_false by (simpl; lia). apply lookup_empty.
  - intros s' (m & -> & _ & Hm). split; [done|]. exists m. split; [done|].
    intros i. specialize (Hm i). rewrite length_seq in Hm.
    by rewrite (bool_decide_ext _ (1 ≤ i ≤ Z.of_nat (Z.to_nat (client_count cf)))) by lia.
  - intros pre n post s' Heq (m & -> & Hpre & Hm).
    assert (n = length pre ∧ (n < length shares)%nat) as [-> Hn].
    { rewrite Hlen.
      assert (seq 0 (Z.to_nat (client_count cf)) !! length pre = Some n) as Hl
        by (by rewrite Heq, list_lookup_middle).
      by apply lookup_seq in Hl as [-> Hl]. }
    apply lookup_lt_is_Some_2 in Hn as [f Hf].
    rewrite Forall_lookup in Hok. destruct (Hok _ _ Hf) as [[sk Hsk] [pk Hpk]].
    unfold init_client_profile_one. wp_simpl. rewrite Hf. wp_simpl. rewrite Hsk. wp_simpl.
    rewrite Hpk. wp_simpl. eexists. split; [done|]. rewrite length_app. simpl length.
    split; [rewrite Hpre at 1; by rewrite seq_app|]. intros i. specialize (Hm i).
    cbn [clients with_clients upd_clients]. rewrite lookup_map_insert_new.
    destruct (decide (i = Z.of_nat (length pre) + 1)) as [->|Hi].
    + rewrite bool_decide_false in Hm by lia. rewrite bool_decide_true by lia.
      eexists. split; [by rewrite Hm|]. by split_and!.
    + by rewrite (bool_decide_ext _ (1 ≤ i ≤ Z.of_nat (length pre))) by lia.
Qed.

Lemma lookup_empty_queues {A} (ids : list Z) t :
  (empty_queues ids : gmap Z (list A)) !! t = if decide (t ∈ ids) then Some [] else None.
Proof.
  clear Hcf cf.
  unfold empty_queues. induction ids as [|i ids IH]; [done|].
  rewrite fmap_cons, list_to_map_cons. cbn [fst snd]. rewrite lookup_insert, IH. repeat case_decide; try done; exfalso; set_solver.
Qed.

Lemma empty_queues_Some {A} (ids : list Z) t (q : list A) :
  (empty_queues ids : gmap Z (list A)) !! t = Some q → q = [] ∧ t ∈ ids.
Proof. rewrite lookup_empty_queues. case_decide; [by intros [= <-]|done]. Qed.

(** The state after [start]. *)
Definition started (m : gmap Z ClientProfile) : server :=
  let ps := peer_ids (conf_server_id cf) (server_ids cf) in
  MkServer (conf_server_id cf) m ∅ 0 ∅ [] ∅ [] ∅ ∅ (wrap64 (conf_server_id cf * 1000000))
    (empty_queues ps) (empty_queues ps) (empty_queues ps) ∅ []
    (replicate (Z.to_nat (server_count cf)) false)
    (list_to_set (peer_ids (conf_server_id cf) (ids_upto (length (peer_addr cf)))) ∪ ∅) [] 1.

(** The database of the server opens. *)
Definition db_ok : Prop := db_opens (conf_server_id cf) = true.

Lemma start_eq :
  db_ok → dkg_ok →
  wp (start cf) (λ r s', r = Ret tt ∧ ∃ m, s' = started m ∧
    ∀ i, if bool_decide (1 ≤ i ≤ client_count cf)
         then ∃ p, m !! i = Some p ∧ fresh_client i p else m !! i = None) TcServer_new.
Proof.
  intros Hdb Hd. unfold start, init_server. wp_simpl. rewrite Hdb. wp_simpl.
  eapply wp_mono; [by apply init_clients_ok|].
  intros r s' (-> & m & -> & Hm). unfold init_peer_stubs. wp_simpl. split; [done|].
  by exists m.
Qed.

Lemma start_no_db : ¬ db_ok → fst (start cf TcServer_new) = Crash AssertFail.
Proof.
  intros Hdb. apply not_true_iff_false in Hdb. unfold start, init_server, mbind, modify.
  by rewrite Hdb.
Qed.

(** There is an address for every server. *)
Definition addrs_ok : Prop := server_count cf ≤ Z.of_nat (length (peer_addr cf)).

Lemma started_wf m : addrs_ok → server_wf cf (started m).
Proof.
  intros Ha.
  split; simpl; try done; try (intros; by apply not_elem_of_nil in H); try apply NoDup_nil_2.
  - intros t q l [-> _]%empty_queues_Some Hl. by apply not_elem_of_nil in Hl.
  - intros t q l [-> _]%empty_queues_Some Hl. by apply not_elem_of_nil in Hl.
  - by intros t q [-> _]%empty_queues_Some.
  - intros t [Ht Hne]. simpl in Hne.
    assert (t ∈ peer_ids (conf_server_id cf) (server_ids cf)) as Hin.
    { apply (elem_of_peers cf (started m)). done. }
    rewrite !lookup_empty_queues, !decide_True by done. split_and!; [by eexists..|].
    apply elem_of_union_l, elem_of_list_to_set, list_elem_of_filter. split; [done|].
    apply list_elem_of_fmap. exists (Z.to_nat (t - 1)). unfold addrs_ok in Ha.
    rewrite elem_of_seq. lia.
  - rewrite length_replicate. destruct Hcf. lia.
  - apply wrap64_u64.
Qed.

End start.

(** ** Transactions *)

Section transactions.
Context {C : Crypto} {F : FlexBuffers} {E : Env} {EL : EnvLaws E}.
Context (cf : conf).
Local Abbreviation server_wf := (server_wf cf).
Local Abbreviation good := (good cf).

Definition accounts_ok : Prop := 1 ≤ account_count cf < 2 ^ 64.

(** What [generate_tx] can put into the pool. *)
Definition generated (k : Z) (tx : Transaction) : Prop :=
  tx_id_ tx = k ∧ 1 ≤ k ≤ account_count cf ∧ 1 ≤ tx_sender_ tx ≤ account_count cf ∧
  1 ≤ tx_receiver_ tx ≤ account_count cf ∧ tx_value_ tx = 0 ∧
  1 ≤ tx_fee_ tx ≤ account_count cf.

Definition with_pool (s : server) (m : gmap Z Transaction) (t : nat) : server :=
  upd_tick (λ _, t) (upd_pending_txs (λ _, m) s).

(** The pool after some draws: the old transactions stay, the others are generated. *)
Record grown (n : nat) (m m' : gmap Z Transaction) : Prop := {
  gr_old : m ⊆ m';
  gr_new k tx : m' !! k = Some tx → m !! k = Some tx ∨ generated k tx;
  gr_size : (size m' ≤ size m + n)%nat;
}.

Lemma grown_insert n k tx m m' :
  grown n m m' → generated k tx → grown (S n) m (map_insert_new k tx m').
Proof.
  intros [H1 H2 H3] Hg. split.
  - etrans; [done|]. apply map_insert_new_subseteq.
  - intros k0 tx0. rewrite lookup_map_insert_new. case_decide as Hk; [subst|by auto].
    destruct (m' !! k) eqn:Em; simpl; intros [= <-]; auto.
  - unfold map_insert_new. destruct (m' !! k) eqn:Em; [lia|].
    rewrite map_size_insert_None by done. lia.
Qed.

Lemma generate_tx_spec s n :
  server_wf s → accounts_ok →
  wp (generate_tx cf n) (λ r s', r = Ret tt ∧ good s s' ∧ ∃ m t,
    s' = with_pool s m t ∧ grown (Z.to_nat n) (pending_txs s) m) s.
Proof.
  intros H Hac. unfold generate_tx.
  apply (wp_mfor_seq (λ pre s', good s s' ∧ ∃ m t,
    s' = with_pool s m t ∧ grown (length pre) (pending_txs s) m)).
  - split; [by apply good_refl|]. exists (pending_txs s), (tick s).
    split; [by destruct s|]. split; [done|auto|lia].
  - intros s' [Hg (m & t & -> & Hm)]. rewrite length_seq in Hm. split_and!; [done..|].
    by exists m, t.
  - intros pre i post s' _ [Hg (m & t & -> & Hm)]. unfold generate_tx_one. wp_simpl.
    pose proof (λ i t, random_bounds i t 1 (account_count cf) (proj1 Hac)) as Hr.
    set (tx := Transaction_new _ _ _ _ _). set (k := random _ _ _ _) in *.
    assert (generated k tx) as Hgen by (by split_and!; try apply Hr).
    pose proof (grown_insert _ _ _ _ _ Hm Hgen) as Hm'.
    rewrite length_app. simpl length. rewrite Nat.add_1_r. split.
    + pose proof (proj1 Hg) as Hwf.
      do 4 (pose proof (proj1 (good_tick _ _ Hwf)) as Hwf'; clear Hwf; rename Hwf' into Hwf).
      assert (good (with_pool s m t) (upd_tick S (upd_tick S (upd_tick S (upd_tick S
                (with_pool s m t)))))) as Hg' by (split; [done|ev_frame]).
      eapply good_trans; [done|]. eapply good_trans; [done|].
      apply good_pending_txs; [apply Hg'|]. cbn [pending_txs upd_tick with_pool upd_pending_txs].
      intros k0 tx0 Hk0. apply (gr_new _ _ _ Hm') in Hk0 as [Hk0|Hk0].
      * by apply (wf_txs _ _ H).
      * destruct Hk0 as (Ha & Hb & Hc & Hd & He & Hf), Hac. split; [done|].
        unfold tx_wf, u64. rewrite He. lia.
    + exists (map_insert_new k tx m), (S (S (S (S t)))). by split.
Qed.

(** ** Packing *)

Lemma extract_txs_take c n (it : list (Z * Transaction)) :
  0 ≤ c → extract_txs c n it = take (Z.to_nat (Z.max 1 (n - c))) it.
Proof.
  revert c. induction it as [|kv it IH]; intros c Hc; simpl; [by rewrite take_nil|].
  destruct (Z.leb_spec n (c + 1)).
  - replace (Z.to_nat (Z.max 1 (n - c))) with 1%nat by lia. done.
  - rewrite IH by lia.
    replace (Z.to_nat (Z.max 1 (n - c))) with (S (Z.to_nat (Z.max 1 (n - (c + 1))))) by lia.
    done.
Qed.

Definition delete_all {A} (ks : list Z) (m : gmap Z A) : gmap Z A :=
  foldl (λ m k, delete k m) m ks.

Lemma mfor_delete_txs ks (Q : outcome unit → server → Prop) s :
  wp (mfor ks (λ k, modify (upd_pending_txs (delete k)))) Q s ↔
  Q (Ret tt) (upd_pending_txs (delete_all ks) s).
Proof.
  revert s. induction ks as [|k ks IH]; intros s; simpl; [by destruct s|].
  wp_simpl. by rewrite IH.
Qed.

(** Erasing the keys of a prefix of the traversal leaves the rest of it. *)
Lemma delete_all_prefix {A} (m : gmap Z A) t d :
  t ++ d ≡ₚ map_to_list m → map_to_list (delete_all t.*1 m) ≡ₚ d.
Proof.
  revert m. induction t as [|[k v] t IH]; intros m Hp; simpl in *; [by rewrite Hp|].
  assert (m !! k = Some v) as Hk by (apply elem_of_map_to_list; rewrite <- Hp; by left).
  apply IH. apply (Permutation_cons_inv (a := (k, v))).
  rewrite Hp. rewrite <- (map_to_list_insert (delete k m)) by apply lookup_delete_eq.
  by rewrite insert_delete_id.
Qed.

Lemma delete_all_subseteq {A} ks (m : gmap Z A) : delete_all ks m ⊆ m.
Proof.
  revert m. induction ks as [|k ks IH]; intros m; simpl; [done|].
  etrans; [apply IH|apply delete_subseteq].
Qed.

Definition pool_txs (s : server) : list Transaction := (map_to_list (pending_txs s)).*2.

Lemma length_pool_txs s : length (pool_txs s) = size (pending_txs s).
Proof. unfold pool_txs. by rewrite length_fmap, length_map_to_list. Qed.

(** The next block of a server whose pool holds [num_tx] transactions, and the state that
    [pack_one] leaves. *)
Definition next_txs (s : server) (num_tx : Z) : list (Z * Transaction) :=
  take (Z.to_nat (Z.max 1 num_tx)) (chm_iter (pending_txs s)).

Definition next_block (s : server) (num_tx : Z) : Block :=
  set_tx_vec (next_txs s num_tx).*2
    (Block_new (blk_seq_generator s) 0xDEADBEEF (clock (server_id s) (tick s))).

Definition after_pack (s : server) (num_tx : Z) : server :=
  upd_pending_txs (delete_all (next_txs s num_tx).*1)
    (upd_pending_blks <[blk_seq_generator s := next_loc s]>
      (upd_relay_blocks (push_each (next_loc s))
        (upd_next_loc S (upd_heap <[next_loc s := next_block s num_tx]>
          (upd_tick S (upd_blk_seq_generator (λ n, add64 n 1) s)))))).

Lemma next_txs_spec s num_tx :
  ∃ rest, (next_txs s num_tx).*2 ++ rest ≡ₚ pool_txs s ∧
    pool_txs (after_pack s num_tx) ≡ₚ rest ∧
    (∀ kv, kv ∈ next_txs s num_tx → pending_txs s !! kv.1 = Some kv.2).
Proof.
  set (it := chm_iter (pending_txs s)).
  set (n := Z.to_nat (Z.max 1 num_tx)).
  assert (take n it ++ drop n it ≡ₚ map_to_list (pending_txs s)) as Hp.
  { rewrite take_drop. apply chm_iter_perm. }
  exists (drop n it).*2. split_and!.
  - unfold pool_txs. by rewrite <- Hp, fmap_app.
  - apply fmap_Permutation. exact (delete_all_prefix _ _ _ Hp).
  - intros [k v] Hkv. apply elem_of_map_to_list. rewrite <- Hp, elem_of_app. by left.
Qed.

Lemma next_block_wf s num_tx : server_wf s → block_wf (next_block s num_tx).
Proof.
  intros H. destruct (next_txs_spec s num_tx) as (_ & _ & _ & Hin).
  split; [|split].
  - split_and!; simpl; try (unfold u64; lia); [apply (wf_seq _ _ H)|apply clock_u64].
  - apply Forall_fmap, Forall_forall. intros kv Hkv.
    apply Hin in Hkv. by apply (wf_txs _ _ H) in Hkv as [_ ?].
  - apply map_Forall_empty.
Qed.

Lemma after_pack_good s num_tx : server_wf s → good s (after_pack s num_tx).
Proof.
  intros H. unfold after_pack.
  pose proof (good_blk_seq cf (λ n, add64 n 1) s H (wrap64_u64 _)) as G1.
  pose proof (good_tick cf _ (proj1 G1)) as G2.
  pose proof (good_new cf _ _ (proj1 G2) (next_block_wf s num_tx H)) as G3.
  cbn [next_loc upd_tick upd_blk_seq_generator] in G3.
  set (s3 := upd_next_loc S _) in *.
  assert (∀ P, P (next_block s num_tx) → at_loc s3 (next_loc s) P) as Hat.
  { intros P HP. exists (next_block s num_tx). split; [apply lookup_insert_eq|done]. }
  pose proof (good_relay_blocks_each cf _ (next_loc s) (proj1 G3) (Hat _ I)) as G4.
  set (s4 := upd_relay_blocks _ s3) in *.
  assert (good s4 (upd_pending_blks <[blk_seq_generator s := next_loc s]> s4)) as G5.
  { apply good_pending_insert; [apply G4|by apply Hat|].
    intros Hin. apply (wf_merge _ _ H) in Hin as (b' & Hb' & _).
    apply (wf_heap _ _ H) in Hb' as [Hlt _]. lia. }
  set (s5 := upd_pending_blks _ s4) in *.
  do 5 (eapply good_trans; [eassumption|]).
  apply good_pending_txs; [apply G5|].
  intros k tx Hk. apply (wf_txs _ _ H). eapply lookup_weaken; [exact Hk|].
  apply delete_all_subseteq.
Qed.

Lemma wp_pack_one num_tx (Q : outcome unit → server → Prop) s :
  wp (pack_one num_tx) Q s ↔ Q (Ret tt) (after_pack s num_tx).
Proof.
  unfold pack_one, fetch_add_seq, pending_insert. rewrite wp_bind. unfold wp at 1.
  cbn [fst snd]. wp_simpl. rewrite extract_txs_take by done. rewrite Z.sub_0_r.
  rewrite wp_push_relay_blocks. wp_simpl. by rewrite mfor_delete_txs.
Qed.

(** What packing the blocks [bs] does to a server. *)
Record packed (s : server) (bs : list Block) (s' : server) : Prop := {
  pk_txs : pool_txs s ≡ₚ concat (tx_vec_ <$> bs) ++ pool_txs s';
  pk_seq : blk_seq_generator s' = wrap64 (blk_seq_generator s + Z.of_nat (length bs));
  pk_ids i b : bs !! i = Some b →
    id_ (header_ b) = wrap64 (blk_seq_generator s + Z.of_nat i) ∧
    base_id_ (header_ b) = 0xDEADBEEF ∧ votes_ b = ∅ ∧
    heap s' !! (next_loc s + i)%nat = Some b;
  pk_heap l b : heap s !! l = Some b → heap s' !! l = Some b;
  pk_next : next_loc s' = (next_loc s + length bs)%nat;
  pk_relay t : relay_blocks s' !! t =
    (λ q, q ++ seq (next_loc s) (length bs)) <$> relay_blocks s !! t;
  pk_pending : NoDup (block_ids bs) → ∀ i b, bs !! i = Some b →
    pending_blks s' !! id_ (header_ b) = Some (next_loc s + i)%nat;
  pk_others id : id ∉ block_ids bs → pending_blks s' !! id = pending_blks s !! id;
}.

Lemma packed_nil s : server_wf s → packed s [] s.
Proof.
  intros H. split; try done.
  - simpl. rewrite Z.add_0_r, wrap64_id; [done|apply H].
  - intros t. destruct (relay_blocks s !! t) as [q|]; [|done]. simpl. by rewrite app_nil_r.
Qed.

Lemma packed_cons s num_tx bs s' :
  server_wf s → packed (after_pack s num_tx) bs s' →
  packed s (next_block s num_tx :: bs) s'.
Proof.
  intros H [p1 p2 p3 p4 p5 p6 p7 p8].
  destruct (next_txs_spec s num_tx) as (rest & Hp1 & Hp2 & _).
  assert (heap s !! next_loc s = None) as Hfresh.
  { destruct (heap s !! next_loc s) eqn:El; [|done]. apply (wf_heap _ _ H) in El as [El _]. lia. }
  assert (heap s' !! next_loc s = Some (next_block s num_tx)) as Hnew
    by (apply p4, lookup_insert_eq).
  cbn [blk_seq_generator next_loc relay_blocks heap pending_blks after_pack upd_pending_txs upd_pending_blks
    upd_relay_blocks upd_next_loc upd_heap upd_tick upd_blk_seq_generator] in *.
  split.
  - rewrite <- Hp1, <- Hp2, p1. simpl. by rewrite (assoc_L (++)).
  - rewrite p2. unfold add64, wrap64. rewrite Zplus_mod_idemp_l. f_equal. simpl. lia.
  - intros [|i] b Hb; simpl in Hb.
    + simplify_eq. rewrite Nat.add_0_r, Z.add_0_r, wrap64_id by apply H. by split_and!.
    + destruct (p3 i b Hb) as (Hid & Hbase & Hvotes & Hheap). split_and!; try done.
      * rewrite Hid. unfold add64, wrap64. rewrite Zplus_mod_idemp_l. f_equal. lia.
      * by rewrite <- plus_n_Sm.
  - intros l b Hl. apply p4. rewrite lookup_insert_ne; [done|congruence].
  - rewrite p5. simpl. lia.
  - intros t. rewrite p6. unfold push_each. rewrite lookup_fmap.
    destruct (relay_blocks s !! t) as [q|]; [|done]. simpl. by rewrite <- (assoc_L (++)).
  - intros Hnd i b Hb. unfold block_ids in Hnd. rewrite fmap_cons in Hnd.
    apply NoDup_cons in Hnd as [Hnin Hnd]. destruct i as [|i]; simpl in Hb.
    + simplify_eq. rewrite p8 by done. rewrite Nat.add_0_r. apply lookup_insert_eq.
    + rewrite (p7 Hnd i b Hb). by rewrite <- plus_n_Sm.
  - intros id. unfold block_ids. rewrite fmap_cons, not_elem_of_cons. intros [Hne Hnin].
    rewrite p8 by done. by apply lookup_insert_ne.
Qed.

(** The number of rounds of the loop from [i]. *)
Definition pack_rounds (i num_tx num_block : Z) (pool : nat) : Z :=
  Z.max 0 (if num_tx =? 0 then num_block - i
           else Z.min (num_block - i) (Z.of_nat pool / num_tx)).

Lemma after_pack_size s num_tx :
  0 < num_tx ≤ Z.of_nat (size (pending_txs s)) →
  Z.of_nat (size (pending_txs (after_pack s num_tx))) =
    Z.of_nat (size (pending_txs s)) - num_tx ∧
  Z.of_nat (length (tx_vec_ (next_block s num_tx))) = num_tx.
Proof.
  intros Hn. destruct (next_txs_spec s num_tx) as (rest & Hp1 & Hp2 & _).
  assert (Z.of_nat (length (next_txs s num_tx).*2) = num_tx) as Hlen.
  { rewrite length_fmap. unfold next_txs. rewrite length_take.
    rewrite (Permutation_length (chm_iter_perm _ _)), length_map_to_list. lia. }
  split; [|done]. rewrite <- !length_pool_txs, Hp2, <- Hp1, length_app. lia.
Qed.

Lemma pack_loop_spec fuel i num_tx num_block s :
  server_wf s → 0 ≤ num_tx →
  (pack_rounds i num_tx num_block (size (pending_txs s)) < Z.of_nat fuel) →
  wp (pack_loop fuel i num_tx num_block) (λ r s', r = Ret tt ∧ good s s' ∧ ∃ bs,
    packed s bs s' ∧
    Z.of_nat (length bs) = pack_rounds i num_tx num_block (size (pending_txs s)) ∧
    (0 < num_tx → Forall (λ b, Z.of_nat (length (tx_vec_ b)) = num_tx) bs)) s.
Proof.
  intros H Hn. revert i s H. induction fuel as [|fuel IH]; intros i s H Hf.
  { unfold pack_rounds in Hf. lia. }
  assert (pack_rounds i num_tx num_block (size (pending_txs s)) = 0 →
    wp (mret tt) (λ r s', r = Ret tt ∧ good s s' ∧ ∃ bs, packed s bs s' ∧
      Z.of_nat (length bs) = pack_rounds i num_tx num_block (size (pending_txs s)) ∧
      (0 < num_tx → Forall (λ b, Z.of_nat (length (tx_vec_ b)) = num_tx) bs)) s) as Hstop.
  { intros H0. wp_simpl. split_and!; [done|by apply good_refl|]. exists [].
    rewrite H0. split_and!; [by apply packed_nil|done..]. }
  cbn [pack_loop]. destruct (Z.leb_spec num_block i) as [Hi|Hi].
  { apply Hstop. unfold pack_rounds.
    pose proof (Z.div_pos (Z.of_nat (size (pending_txs s))) num_tx).
    destruct (Z.eqb_spec num_tx 0); lia. }
  wp_simpl. destruct (Z.leb_spec num_tx (Z.of_nat (size (pending_txs s)))) as [Hs|Hs]; cycle 1.
  { apply Hstop. unfold pack_rounds. rewrite Z.div_small by lia.
    destruct (Z.eqb_spec num_tx 0); lia. }
  wp_simpl. rewrite wp_pack_one.
  pose proof (after_pack_good s num_tx H) as Hg.
  assert (pack_rounds i num_tx num_block (size (pending_txs s)) =
          1 + pack_rounds (i + 1) num_tx num_block (size (pending_txs (after_pack s num_tx))))
    as Hrounds.
  { unfold pack_rounds. destruct (Z.eqb_spec num_tx 0) as [|Hnz]; [lia|].
    destruct (after_pack_size s num_tx) as [-> _]; [lia|].
    replace (Z.of_nat (size (pending_txs s)) - num_tx)
      with (Z.of_nat (size (pending_txs s)) + (-1) * num_tx) by lia.
    rewrite Z.div_add by lia.
    assert (1 ≤ Z.of_nat (size (pending_txs s)) / num_tx) by (apply Z.div_le_lower_bound; lia).
    lia. }
  eapply wp_mono; [apply IH; [apply Hg|lia]|].
  intros r s' (-> & Hg' & bs & Hp & Hlen & Hall). split_and!; [done|by eapply good_trans|].
  exists (next_block s num_tx :: bs). split_and!.
  - by apply packed_cons.
  - simpl length. lia.
  - intros Hpos. constructor; [|by apply Hall]. by apply after_pack_size.
Qed.

Lemma pack_block_spec s num_tx num_block :
  server_wf s → 0 ≤ num_tx →
  wp (pack_block num_tx num_block) (λ r s', r = Ret tt ∧ good s s' ∧ ∃ bs,
    packed s bs s' ∧
    Z.of_nat (length bs) = pack_rounds 0 num_tx num_block (size (pending_txs s)) ∧
    (0 < num_tx → Forall (λ b, Z.of_nat (length (tx_vec_ b)) = num_tx) bs)) s.
Proof.
  intros H Hn. unfold pack_block. wp_simpl. apply pack_loop_spec; [done..|].
  unfold pack_rounds. destruct (Z.eqb_spec num_tx 0) as [|Hnz]; [lia|].
  pose proof (Z.div_le_upper_bound (Z.of_nat (size (pending_txs s))) num_tx
                (Z.of_nat (size (pending_txs s)))). nia.
Qed.

End transactions.
