(* ===== verification/MergeProofs.v ===== *)
(** Committing, the removal of dead blocks, and the tasks of the scheduler. *)
From Stdlib Require Import ZArith Lia.
From stdpp Require Import base tactics list gmap strings sorting.
From S2P Require Import Prelude Decimal Entity FlexCodec ServerState ServerInv PeerService.
From S2P Require Import ServerCore SendersProofs CoreProofs.

Section merging.
Context {C : Crypto} {CL : CryptoLaws C} {F : FlexBuffers} {E : Env} {EL : EnvLaws E}.
Context (cf : conf) (Hcf : conf_ok cf).
Local Abbreviation server_wf := (server_wf cf).
Local Abbreviation good := (good cf).
Local Abbreviation quorum := (quorum cf).

(** ** Merging votes *)

(** A block [b] committed at [t] with the signature of [m]. *)
Definition sealed (m : Block) (t : Z) (b : Block) : Block :=
  upd_header (set_recv_ts t) (upd_header (set_commit_ts t) (set_tss_sig (tss_sig_ m) b)).

Definition db_entry (b : Block) : string * bytes :=
  (("block-" +:+ to_string (id_ (header_ b)))%string, to_bytes b).

(** The state after the block at [l], which becomes [b], has been committed. *)
Definition after_merge (l : loc) (b : Block) (s : server) : server :=
  upd_bcast_commit_blocks (push_each l)
    (upd_db (λ d, d ++ [db_entry b])
      (upd_committed_blks <[id_ (header_ b) := l]>
        (upd_tick S (upd_heap <[l := b]> s)))).

Lemma sealed_le m t b : block_le b (sealed m t b).
Proof. by split. Qed.

Lemma sealed_wf m t b : u64 t → block_wf b → block_wf (sealed m t b).
Proof. intros Ht ((?&?&?&?&?&?) & Htx & Hv). by split_and!. Qed.

Lemma after_merge_good s l b m t :
  server_wf s → heap s !! l = Some b → quorum b → u64 t →
  good s (after_merge l (sealed m t b) s).
Proof.
  intros H Hl Hq Ht. unfold after_merge.
  pose proof (good_assign cf s l b (sealed m t b) H Hl (sealed_le m t b)
                (sealed_wf m t b Ht (proj2 (wf_heap _ _ H _ _ Hl)))) as G1.
  pose proof (good_tick cf _ (proj1 G1)) as G2. set (s2 := upd_tick S _) in *.
  assert (∀ P, P (sealed m t b) → at_loc s2 l P) as Hat.
  { intros P HP. exists (sealed m t b). split; [apply lookup_insert_eq|done]. }
  assert (quorum (sealed m t b)) as Hq' by done.
  pose proof (good_committed_insert cf s2 (id_ (header_ (sealed m t b))) l (proj1 G2)
                (Hat _ (conj eq_refl Hq'))) as G3.
  set (s3 := upd_committed_blks _ s2) in *.
  pose proof (good_db cf (db_entry (sealed m t b)) s3 (proj1 G3)) as G4.
  do 4 (eapply good_trans; [eassumption|]).
  apply good_bcast_each; [apply G4|]. by apply Hat.
Qed.

Lemma wp_merge_one l b (Q : outcome unit → server → Prop) s :
  heap s !! l = Some b →
  wp (merge_one cf l) Q s ↔
  match Block_merge_votes b (client_count cf) with
  | Ret m => Q (Ret tt) (after_merge l (sealed m (clock (server_id s) (tick s)) b) s)
  | Throw e => Q (Throw e) s
  | Crash f => Q (Crash f) s
  end.
Proof.
  intros Hl. unfold merge_one, committed_insert, db_put_block. wp_simpl.
  rewrite (wp_deref _ b) by done. wp_simpl.
  destruct (Block_merge_votes b _) as [m|e|f]; wp_simpl; [|done..].
  rewrite (wp_assign _ _ b) by done. wp_simpl.
  erewrite wp_assign by apply lookup_insert_eq. wp_simpl.
  erewrite wp_assign by apply lookup_insert_eq. wp_simpl.
  erewrite wp_deref by apply lookup_insert_eq. wp_simpl.
  rewrite wp_push_bcast. unfold after_merge, upd_heap. cbn.
  by rewrite !insert_insert_eq.
Qed.

(** What committing the blocks at [ls] does to a server. *)
Record merged (s : server) (ls : list loc) (s' : server) : Prop := {
  mg_done l : l ∈ ls → ∃ b m t l',
    heap s !! l = Some b ∧ Block_merge_votes b (client_count cf) = Ret m ∧
    heap s' !! l = Some (sealed m t b) ∧
    committed_blks s' !! id_ (header_ b) = Some l' ∧ l' ∈ ls;
  mg_heap l : l ∉ ls → heap s' !! l = heap s !! l;
  mg_committed id : id ∉ block_ids (read_all s ls) →
    committed_blks s' !! id = committed_blks s !! id;
  mg_bcast t : bcast_commit_blocks s' !! t = (λ q, q ++ ls) <$> bcast_commit_blocks s !! t;
  mg_db : db s' = db s ++ (db_entry <$> read_all s' ls);
  mg_pending : pending_blks s' = pending_blks s;
}.

Lemma merged_nil s : merged s [] s.
Proof.
  split; try done.
  - intros l Hl. by apply not_elem_of_nil in Hl.
  - intros t. destruct (bcast_commit_blocks s !! t); [|done]. simpl. by rewrite app_nil_r.
  - simpl. by rewrite app_nil_r.
Qed.

Lemma read_all_frame s s' ls :
  (∀ l, l ∈ ls → heap s' !! l = heap s !! l) → read_all s' ls = read_all s ls.
Proof.
  intros H. induction ls as [|l ls IH]; [done|].
  rewrite !(read_all_app _ [l] ls), IH by (intros l' Hl'; apply H; by right).
  f_equal. unfold read_all. simpl. by rewrite H by by left.
Qed.

Lemma merged_snoc s pre l b m t s1 :
  merged s pre s1 → l ∉ pre → heap s !! l = Some b →
  Block_merge_votes b (client_count cf) = Ret m →
  merged s (pre ++ [l]) (after_merge l (sealed m t b) s1).
Proof.
  intros [m1 m2 m3 m4 m5 m6] Hl Hb Hm. unfold after_merge.
  split; cbn [heap committed_blks bcast_commit_blocks db pending_blks upd_bcast_commit_blocks
    upd_db upd_committed_blks upd_tick upd_heap].
  - intros l0. rewrite elem_of_app, list_elem_of_singleton. intros [Hl0| ->].
    + destruct (m1 l0 Hl0) as (b0 & m0 & t0 & l' & ? & ? & ? & Hc & Hl').
      exists b0, m0, t0.
      destruct (decide (id_ (header_ b0) = id_ (header_ (sealed m t b)))) as [Heq|Hne].
      * exists l. rewrite lookup_insert_ne by (by intros ->). rewrite Heq, lookup_insert_eq.
        rewrite elem_of_app, list_elem_of_singleton. tauto.
      * exists l'. rewrite lookup_insert_ne by (by intros ->).
        rewrite lookup_insert_ne by done. rewrite elem_of_app. tauto.
    + exists b, m, t, l. split_and!; [done..|apply lookup_insert_eq|apply lookup_insert_eq|].
      rewrite elem_of_app, list_elem_of_singleton. tauto.
  - intros l0. rewrite elem_of_app, list_elem_of_singleton. intros Hn.
    rewrite lookup_insert_ne by (intros ->; tauto). apply m2. tauto.
  - intros id. rewrite read_all_app, (read_all_one _ _ _ Hb). unfold block_ids.
    rewrite fmap_app, not_elem_of_app. intros [Hn [Hne _]%not_elem_of_cons].
    rewrite lookup_insert_ne by (by apply not_eq_sym). by apply m3.
  - intros t0. unfold push_each. rewrite lookup_fmap, m4.
    destruct (bcast_commit_blocks s !! t0); [|done]. simpl. by rewrite <- (assoc_L (++)).
  - rewrite m5, read_all_app, fmap_app, (assoc_L (++)). f_equal; [f_equal; f_equal|].
    + symmetry. apply read_all_frame. intros l0 Hl0. apply lookup_insert_ne. by intros ->.
    + erewrite read_all_one; [done|]. apply lookup_insert_eq.
  - done.
Qed.

(** The loop stops early only when the signature library throws. *)
Lemma merge_votes_spec s :
  server_wf s →
  wp (merge_votes cf) (λ r s', good s s' ∧ ∃ pre rest,
    merged s pre s' ∧ pb_merge_queue s' = rest ∧
    (r = Ret tt ∧ rest = [] ∧ pb_merge_queue s = pre ∨
     ∃ e l b, r = Throw e ∧ pb_merge_queue s = pre ++ l :: rest ∧
       heap s !! l = Some b ∧ Block_merge_votes b (client_count cf) = Throw e)) s.
Proof.
  intros H. unfold merge_votes. wp_simpl. set (q := pb_merge_queue s).
  pose proof (wf_merge_nodup _ _ H) as Hnd. fold q in Hnd.
  assert (∀ l, l ∈ q → at_loc s l quorum) as Hq by (intros l Hl; by apply (wf_merge _ _ H)).
  apply (wp_while_pop _ (λ rest, upd_pb_merge_queue (λ _, rest)) _
           (λ pre rest _ s', good s s' ∧ merged s pre s' ∧ pb_merge_queue s' = rest ∧
              q = pre ++ rest) _ _ [] q).
  - intros pre rest b s' (_ & _ & Hr & _). unfold pop_merge, pop_front. by rewrite Hr.
  - intros pre l rest [] s' (Hg & Hm & Hr & Hpre).
    pose proof (good_merge_pop cf s' l rest (proj1 Hg) Hr) as Hg'.
    assert ((l ∉ pre) ∧ (l ∈ q)) as [Hfresh Hlq].
    { rewrite Hpre in Hnd |- *. apply NoDup_app in Hnd as (_ & Hnd & _). split.
      - intros Hin. apply (Hnd l Hin). by left.
      - apply elem_of_app. right. by left. }
    destruct (Hq l Hlq) as (b & Hb & Hqb).
    assert (heap (upd_pb_merge_queue (λ _, rest) s') !! l = Some b) as Hb'
      by (simpl; by rewrite (mg_heap _ _ _ Hm l Hfresh)).
    rewrite (wp_merge_one l b) by done.
    assert (merged s pre (upd_pb_merge_queue (λ _, rest) s')) as Hm'
      by (destruct Hm; by split).
    pose proof (Block_merge_votes_no_crash b (client_count cf)) as Hnc.
    destruct (Block_merge_votes b _) as [m|e|f] eqn:Eb; [| |by destruct Hnc].
    + split_and!; [|by apply merged_snoc|done|by rewrite <- (assoc_L (++))].
      eapply good_trans; [done|]. eapply good_trans; [done|].
      apply after_merge_good; [apply Hg'|done..|apply clock_u64].
    + split; [by eapply good_trans|]. exists pre, rest. split_and!; [done..|].
      right. exists e, l, b. done.
  - intros [] s' (Hg & Hm & Hr & _). split; [done|]. exists q, []. split_and!; [done..|].
    left. done.
  - split_and!; [by apply good_refl|apply merged_nil|done..].
  - lia.
Qed.

(** ** Dead blocks *)

(** Whether the proposal time of [b] is old enough at [now], and not too old. *)
Definition expired (now : Z) (b : Block) : Prop :=
  block_die_threshold cf < sub64 now (proposal_ts_ (header_ b)) ≤ 100000.

(** What removing the blocks [X] among the ids [pre] does: the clock is read once for each
    of them, in their order. *)
Record removed (s : server) (pre : list Z) (X : gset Z) (s' : server) : Prop := {
  rm_dead : dead_block s' = X ∪ dead_block s;
  rm_pending id : pending_blks s' !! id =
    if decide (id ∈ X) then None else pending_blks s !! id;
  rm_which i id : pre !! i = Some id → ∃ l b,
    pending_blks s !! id = Some l ∧ heap s !! l = Some b ∧
    (id ∈ X ↔ expired (clock (server_id s) (tick s + i)) b);
  rm_in id : id ∈ X → id ∈ pre;
  rm_heap : heap s' = heap s;
  rm_committed : committed_blks s' = committed_blks s;
  rm_merge : pb_merge_queue s' = pb_merge_queue s;
  rm_tick : tick s' = (tick s + length pre)%nat;
}.

Lemma remove_dead_block_spec s pre X s' id :
  server_wf s → good s s' → removed s pre X s' → id ∉ pre → is_Some (pending_blks s !! id) →
  wp (remove_dead_block cf id) (λ r s'', r = Ret tt ∧ good s s'' ∧
    ∃ X', removed s (pre ++ [id]) X' s'') s'.
Proof.
  clear Hcf. intros H Hg [r1 r2 r3 r4 r5 r6 r7 r8] Hid [l Hl].
  assert (id ∉ X) as HX by auto.
  destruct (wf_pending _ _ H id l Hl) as (b & Hb & _).
  unfold remove_dead_block, pending_find, pending_erase. wp_simpl.
  rewrite r2, decide_False, Hl by done. wp_simpl.
  rewrite (wp_deref _ b) by (simpl; by rewrite r5). wp_simpl. cbv zeta.
  pose proof (good_trans cf _ _ _ Hg (good_tick cf s' (proj1 Hg))) as Hg'.
  rewrite (ev_id _ _ (proj2 Hg)), r8. set (now := clock _ _).
  assert (∀ X' s'', heap s'' = heap s' → committed_blks s'' = committed_blks s' →
    pb_merge_queue s'' = pb_merge_queue s' → tick s'' = S (tick s') →
    dead_block s'' = X' ∪ dead_block s →
    (∀ id0, pending_blks s'' !! id0 = if decide (id0 ∈ X') then None else pending_blks s !! id0) →
    (∀ id0, id0 ∈ X' ↔ id0 ∈ X ∨ id0 = id ∧ expired now b) →
    removed s (pre ++ [id]) X' s'') as Hmk.
  { intros X' s'' e1 e2 e3 et e4 e5 HX'. split; try congruence; [done| | |].
    - intros i id0 [Hi|[Hi Hi']]%lookup_app_Some.
      + destruct (r3 i id0 Hi) as (l0 & b0 & ? & ? & Hiff). exists l0, b0.
        split_and!; [done..|]. rewrite HX', <- Hiff. split; [|tauto].
        intros [?|[-> _]]; [done|]. by apply list_elem_of_lookup_2 in Hi.
      + apply list_lookup_singleton_Some in Hi' as [Hi' <-].
        replace i with (length pre) by lia.
        exists l, b. split_and!; [done..|]. rewrite HX'. fold now. tauto.
    - intros id0 [Hin|[-> _]]%HX'; rewrite elem_of_app, list_elem_of_singleton; auto.
    - rewrite et, r8, length_app. simpl. lia. }
  destruct (Z.ltb_spec 100000 (sub64 now (proposal_ts_ (header_ b)))) as [Ho|Ho].
  { wp_simpl. split_and!; [done..|]. exists X. apply Hmk; try done. unfold expired.
    intros id0. intuition lia. }
  destruct (Z.ltb_spec (block_die_threshold cf) (sub64 now (proposal_ts_ (header_ b))))
    as [Hd|Hd]; wp_simpl; (split; [done|]).
  - split.
    + eapply good_trans; [done|]. pose proof (good_dead cf id _ (proj1 Hg')) as Hg2.
      eapply good_trans; [done|]. apply good_pending_erase, Hg2.
    + exists ({[id]} ∪ X). apply Hmk; try done.
      * simpl. rewrite r1. by rewrite (assoc_L (∪)).
      * intros id0. simpl. rewrite lookup_delete, r2.
        repeat case_decide; try done; exfalso; set_solver.
      * intros id0. rewrite elem_of_union, elem_of_singleton. unfold expired. intuition lia.
  - split; [done|]. exists X. apply Hmk; try done. unfold expired.
    intros id0. intuition lia.
Qed.

(** The ids collected from the copy of the pending map are its keys. *)
Lemma collect_ids_spec s kvs acc :
  Forall (λ kv, at_loc s kv.2 (λ b, id_ (header_ b) = kv.1)) kvs →
  wp (mfold kvs (λ ids (kv : Z * loc), b <- deref kv.2 ;; mret (ids ++ [id_ (header_ b)])) acc)
    (λ r s', r = Ret (acc ++ kvs.*1) ∧ s' = s) s.
Proof.
  intros Hk. revert acc. induction Hk as [|[id l] kvs (b & Hb & Hid) _ IH]; intros acc; simpl.
  { by rewrite app_nil_r. }
  wp_simpl. rewrite (wp_deref _ b) by done. wp_simpl.
  eapply wp_mono; [apply IH|]. intros r s' [-> ->]. simpl in Hid.
  by rewrite Hid, <- (assoc_L (++)).
Qed.

Lemma remove_dead_blocks_spec s :
  server_wf s →
  wp (remove_dead_blocks cf) (λ r s', r = Ret tt ∧ good s s' ∧
    ∃ X, removed s (chm_iter (pending_blks s)).*1 X s') s.
Proof.
  clear Hcf. intros H. unfold remove_dead_blocks. wp_simpl.
  pose proof (chm_iter_perm _ (pending_blks s)) as Hp.
  eapply wp_mono; [apply collect_ids_spec|].
  { apply Forall_forall. intros [id l] Hin. simpl. apply (wf_pending _ _ H).
    apply elem_of_map_to_list. by rewrite <- Hp. }
  intros r s0 [-> ->]. simpl app. set (ids := (chm_iter (pending_blks s)).*1).
  assert (∀ id, id ∈ ids ↔ is_Some (pending_blks s !! id)) as Hids.
  { intros id. unfold ids. rewrite Hp, list_elem_of_fmap. split.
    - intros ([id' l] & -> & Hin%elem_of_map_to_list). by eexists.
    - intros [l Hl]. exists (id, l). by rewrite elem_of_map_to_list. }
  assert (NoDup ids) as Hnd by (unfold ids; rewrite Hp; apply NoDup_fst_map_to_list).
  apply (wp_mfor_seq (λ pre s', good s s' ∧ ∃ X, removed s pre X s')).
  - split; [by apply good_refl|]. exists ∅. split; simpl; try done; by rewrite (left_id_L ∅ (∪)).
  - intros s' [Hg [X HX]]. split_and!; [done..|]. by exists X.
  - intros pre id post s' Heq [Hg [X HX]].
    eapply wp_mono; [eapply (remove_dead_block_spec s pre X s' id); [done..| |]|].
    + rewrite Heq in Hnd. apply NoDup_app in Hnd as (_ & Hnd & _). intros Hin.
      apply (Hnd id Hin). by left.
    + apply Hids. rewrite Heq, elem_of_app. right. by left.
    + by intros r s'' (-> & Hg'' & HX').
Qed.

(** ** The scheduler *)

Definition conf_tasks_ok : Prop := accounts_ok cf ∧ 0 ≤ tx_per_block cf.

Definition safe {A} (s : server) (r : outcome A) (s' : server) : Prop :=
  good s s' ∧ ¬ is_crash r.

Lemma pack_thread_round_safe s :
  server_wf s → conf_tasks_ok →
  wp (pack_thread_round cf) (λ r s', good s s' ∧ r = Ret tt) s.
Proof.
  intros H [Hac Htx]. unfold pack_thread_round. wp_simpl.
  assert (∀ s1, good s s1 → wp (pack_block (tx_per_block cf) INT_MAX)
            (λ r s', good s s' ∧ r = Ret tt) s1) as Hpack.
  { intros s1 Hg. eapply wp_mono; [by apply (pack_block_spec cf), Htx; apply Hg|].
    intros r s' (-> & Hg' & _). split; [by eapply good_trans|done]. }
  destruct (_ <? pb_pool_limit cf); wp_simpl; [|by apply Hpack, good_refl].
  eapply wp_mono; [by apply generate_tx_spec|]. intros r s1 (-> & Hg & _). by apply Hpack.
Qed.

(** The signature library refuses the shares of a block of the merge queue. *)
Definition refused (s : server) (e : exn) : Prop :=
  ∃ l b, l ∈ pb_merge_queue s ∧ heap s !! l = Some b ∧
         Block_merge_votes b (client_count cf) = Throw e.

(** What a task ends with: only merging can throw, and only on a block that is refused. *)
Definition task_end (t : task) (s : server) (r : outcome unit) : Prop :=
  r = Ret tt ∨ t = MergeTimer ∧ ∃ e, r = Throw e ∧ refused s e.

Lemma task_end_no_crash t s r : task_end t s r → ¬ is_crash r.
Proof. intros [->|(_ & e & -> & _)]; auto with dchain. Qed.

Lemma run_task_spec t s :
  server_wf s → conf_tasks_ok →
  wp (run_task cf t) (λ r s', good s s' ∧ task_end t s r) s.
Proof.
  intros H Hok. unfold task_end. destruct t; simpl.
  - destruct (_ =? _); [|wp_simpl; split; [by apply good_refl|by left]].
    eapply wp_mono; [by apply pack_thread_round_safe|]. intros r s' [Hg Hr]. auto.
  - wp_simpl. split; [by apply good_refl|by left].
  - wp_simpl. eapply wp_mono; [by apply send_heartbeats_spec|].
    intros r s1 ((Hg & _) & ->).
    eapply wp_mono; [by apply send_relay_votes_spec, Hg|]. intros r s2 ((Hg2 & _) & Hr).
    split; [by eapply good_trans|by left].
  - eapply wp_mono; [by apply send_relay_blocks_spec|]. intros r s' ((Hg & _) & Hr). auto.
  - eapply wp_mono; [by apply bcast_commits_spec|]. intros r s' ((Hg & _) & Hr). auto.
  - eapply wp_mono; [by apply merge_votes_spec|].
    intros r s' (Hg & pre & rest & _ & _ & [(-> & _)|(e & l & b & -> & Hq & Hb & He)]); [auto|].
    split; [done|]. right. split; [done|]. exists e. split; [done|]. exists l, b.
    split_and!; [|done..]. rewrite Hq. apply elem_of_app. right. by left.
Qed.

End merging.
