(* ===== verification/Frames.v ===== *)
(** What the operations leave alone: only sending writes the outbox, only packing writes
    the block counter, and only three operations allocate blocks. *)
From Stdlib Require Import ZArith Lia.
From stdpp Require Import base tactics list gmap strings sorting.
From S2P Require Import Prelude Decimal Entity FlexCodec ServerState ClientService PeerService.
From S2P Require Import ServerCore.

(** A primitive operation, unfolded and run on both outcomes of its test. *)
Ltac keeps_prim :=
  intros ?;
  cbv [now_ms draw deref assign new_block pending_find pending_insert pending_erase
       committed_insert merge_push pop_front push_to pop_from push_relay_vote pop_relay_vote
       push_relay_block pop_relay_block push_bcast pop_bcast stub_call db_put_block fetch_add_seq
       pop_merge pop_sync gets modify];
  repeat case_match; reflexivity.

#[export] Hint Extern 1 (Keeps _ now_ms) => keeps_prim : keeps.
#[export] Hint Extern 1 (Keeps _ (draw _ _)) => keeps_prim : keeps.
#[export] Hint Extern 1 (Keeps _ (deref _)) => keeps_prim : keeps.
#[export] Hint Extern 1 (Keeps _ (assign _ _)) => keeps_prim : keeps.
#[export] Hint Extern 1 (Keeps _ (new_block _)) => keeps_prim : keeps.
#[export] Hint Extern 1 (Keeps _ (pending_find _)) => keeps_prim : keeps.
#[export] Hint Extern 1 (Keeps _ (pending_insert _ _)) => keeps_prim : keeps.
#[export] Hint Extern 1 (Keeps _ (pending_erase _)) => keeps_prim : keeps.
#[export] Hint Extern 1 (Keeps _ (committed_insert _ _)) => keeps_prim : keeps.
#[export] Hint Extern 1 (Keeps _ (merge_push _)) => keeps_prim : keeps.
#[export] Hint Extern 1 (Keeps _ (push_relay_vote _ _)) => keeps_prim : keeps.
#[export] Hint Extern 1 (Keeps _ (pop_relay_vote _)) => keeps_prim : keeps.
#[export] Hint Extern 1 (Keeps _ (push_relay_block _ _)) => keeps_prim : keeps.
#[export] Hint Extern 1 (Keeps _ (pop_relay_block _)) => keeps_prim : keeps.
#[export] Hint Extern 1 (Keeps _ (push_bcast _ _)) => keeps_prim : keeps.
#[export] Hint Extern 1 (Keeps _ (pop_bcast _)) => keeps_prim : keeps.
#[export] Hint Extern 1 (Keeps _ (stub_call _ _)) => keeps_prim : keeps.
#[export] Hint Extern 1 (Keeps _ (db_put_block _ _)) => keeps_prim : keeps.
#[export] Hint Extern 1 (Keeps _ fetch_add_seq) => keeps_prim : keeps.
#[export] Hint Extern 1 (Keeps _ pop_merge) => keeps_prim : keeps.
#[export] Hint Extern 1 (Keeps _ pop_sync) => keeps_prim : keeps.

Section frames.
Context {C : Crypto} {F : FlexBuffers} {E : Env} (cf : conf).

(** The part only packing writes; with the allocator; with the outbox; and all three. *)
Definition counter_alloc (s : server) : Z * loc := (blk_seq_generator s, next_loc s).
Definition counter_out (s : server) : Z * list (Z * PeerRequest) :=
  (blk_seq_generator s, outbox s).
Definition counter_alloc_out (s : server) : Z * loc * list (Z * PeerRequest) :=
  (blk_seq_generator s, next_loc s, outbox s).

(** *** The client service *)

#[export] Instance Register_frame id k : Keeps counter_alloc_out (Register id k).
Proof. unfold Register. keeps_tac. Qed.

#[export] Instance Pull_entry_frame cid shadow hdrs kv :
  Keeps counter_alloc_out (PullPendingBlocks_entry cid shadow hdrs kv).
Proof. unfold PullPendingBlocks_entry. keeps_tac. Qed.

#[export] Instance Pull_frame cid : Keeps counter_alloc_out (PullPendingBlocks cid).
Proof. unfold PullPendingBlocks. keeps_tac. Qed.

Lemma GetBlocks_item_id {X} (f : server → X) pb hdr : Keeps f (GetBlocks_item pb hdr).
Proof. unfold GetBlocks_item. keeps_tac. Qed.

Lemma GetBlocks_id {X} (f : server → X) hdrs : Keeps f (GetBlocks hdrs).
Proof. unfold GetBlocks. apply keeps_mfold. intros. apply GetBlocks_item_id. Qed.

#[export] Instance VoteBlocks_local_frame k id v :
  Keeps counter_alloc_out (VoteBlocks_local cf k id v).
Proof. unfold VoteBlocks_local. keeps_tac. Qed.

#[export] Instance VoteBlocks_item_frame k ser :
  Keeps counter_alloc_out (VoteBlocks_item cf k ser).
Proof. unfold VoteBlocks_item, VoteBlocks_route. keeps_tac. Qed.

(** *** The peer service *)

#[export] Instance RelayVote_item_frame ser : Keeps counter_alloc_out (RelayVote_item cf ser).
Proof. unfold RelayVote_item, RelayVote_local. keeps_tac. Qed.

#[export] Instance RelayBlock_item_frame ser : Keeps counter_out (RelayBlock_item ser).
Proof. unfold RelayBlock_item. keeps_tac. Qed.

#[export] Instance SPBcastCommit_item_frame ser : Keeps counter_out (SPBcastCommit_item cf ser).
Proof. unfold SPBcastCommit_item. keeps_tac. Qed.

#[export] Instance RelayBlockSync_handler_frame id :
  Keeps counter_alloc_out (RelayBlockSync_handler id).
Proof. unfold RelayBlockSync_handler. keeps_tac. Qed.

(** *** Sending *)

#[export] Instance SPHeartbeat_frame t : Keeps counter_alloc (SPHeartbeat t).
Proof. unfold SPHeartbeat. keeps_tac. Qed.

#[export] Instance RelayVote_frame t : Keeps counter_alloc (RelayVote t).
Proof. unfold RelayVote. keeps_tac. Qed.

#[export] Instance RelayBlock_frame t : Keeps counter_alloc (RelayBlock t).
Proof. unfold RelayBlock, RelayBlock_pop. keeps_tac. Qed.

#[export] Instance SPBcastCommit_frame t : Keeps counter_alloc (SPBcastCommit t).
Proof. unfold SPBcastCommit, SPBcastCommit_pop. keeps_tac. Qed.

#[export] Instance RelayBlockSync_frame i t : Keeps counter_alloc (RelayBlockSync i t).
Proof. unfold RelayBlockSync. keeps_tac. Qed.

#[export] Instance for_peers_frame send :
  (∀ t, Keeps counter_alloc (send t)) → Keeps counter_alloc (for_peers cf send).
Proof. unfold for_peers. keeps_tac. Qed.

#[export] Instance send_relay_block_sync_frame i :
  Keeps counter_alloc (send_relay_block_sync cf i).
Proof. unfold send_relay_block_sync. keeps_tac. Qed.

#[export] Instance send_relay_blocks_frame : Keeps counter_alloc (send_relay_blocks cf).
Proof. unfold send_relay_blocks. keeps_tac. Qed.

(** *** The core *)

#[export] Instance generate_tx_frame n : Keeps counter_alloc_out (generate_tx cf n).
Proof. unfold generate_tx, generate_tx_one. keeps_tac. Qed.

#[export] Instance pack_one_frame n : Keeps outbox (pack_one n).
Proof. unfold pack_one. keeps_tac. Qed.

#[export] Instance pack_loop_frame fuel i n nb : Keeps outbox (pack_loop fuel i n nb).
Proof. revert i. induction fuel as [|fuel IH]; intros i; simpl; keeps_tac. Qed.

#[export] Instance pack_block_frame n nb : Keeps outbox (pack_block n nb).
Proof. unfold pack_block. keeps_tac. Qed.

#[export] Instance merge_one_frame l : Keeps counter_alloc_out (merge_one cf l).
Proof. unfold merge_one. keeps_tac. Qed.

#[export] Instance merge_votes_frame : Keeps counter_alloc_out (merge_votes cf).
Proof. unfold merge_votes. keeps_tac. Qed.

#[export] Instance remove_dead_block_frame id : Keeps counter_alloc_out (remove_dead_block cf id).
Proof. unfold remove_dead_block. keeps_tac. Qed.

#[export] Instance remove_dead_blocks_frame : Keeps counter_alloc_out (remove_dead_blocks cf).
Proof. unfold remove_dead_blocks. keeps_tac. Qed.

End frames.
