(* ===== verification/System.v ===== *)
(** Several servers and their clients. The steps of a server are the pieces of code
    between two points where it holds no accessor; any number of them, of any handler and
    task, interleave. A request between servers can be handled at any time after it was
    sent, in any order and more than once. Clients send whatever bytes they like. *)
From Stdlib Require Import ZArith Lia.
From stdpp Require Import base tactics list gmap strings sorting relations.
From S2P Require Import Prelude Decimal Entity FlexCodec ServerState ServerInv ClientService.
From S2P Require Import PeerService ServerCore CoreProofs MergeProofs.

(** A server and whether its process is alive. *)
Record node {C : Crypto} := MkNode { up : bool; state : server }.

Arguments MkNode {C} up state.

Abbreviation world := (gmap Z node).

Section system.
Context {C : Crypto} {F : FlexBuffers} {E : Env}.

(** ** Steps of one server *)

Inductive op :=
| OpRegister (id : Z) (pkey : bytes)
| OpPull (client_id : Z)
| OpGetBlocks (pb_hdrs : list bytes)
| OpVote (client_id : Z) (ser : bytes)
| OpRelayVote (ser : bytes)
| OpRelayBlock (ser : bytes)
| OpCommit (ser : bytes)
| OpSync (block_id : Z)
| OpBeatTo (target : Z)
| OpVotesTo (target : Z)
| OpBlocksTo (target : Z)
| OpCommitsTo (target : Z)
| OpSignalTo (block_id target : Z)
| OpMergeOne
| OpRemoveDead
| OpTask (t : task).

Definition discard {A} (m : M server A) : M server unit := _ <- m ;; mret tt.

Definition merge_next (cf : conf) : M server unit :=
  o <- pop_merge ;;
  match o with None => mret tt | Some l => merge_one cf l end.

Definition run_op (cf : conf) (o : op) : M server unit :=
  match o with
  | OpRegister id pkey => discard (Register id pkey)
  | OpPull cid => discard (PullPendingBlocks cid)
  | OpGetBlocks hdrs => discard (GetBlocks hdrs)
  | OpVote cid ser => VoteBlocks_item cf cid ser
  | OpRelayVote ser => RelayVote_item cf ser
  | OpRelayBlock ser => RelayBlock_item ser
  | OpCommit ser => SPBcastCommit_item cf ser
  | OpSync i => discard (RelayBlockSync_handler i)
  | OpBeatTo t => discard (SPHeartbeat t)
  | OpVotesTo t => discard (RelayVote t)
  | OpBlocksTo t => discard (RelayBlock t)
  | OpCommitsTo t => discard (SPBcastCommit t)
  | OpSignalTo i t => discard (RelayBlockSync i t)
  | OpMergeOne => merge_next cf
  | OpRemoveDead => remove_dead_blocks cf
  | OpTask t => run_task cf t
  end.

(** The steps that run in a thread of the server and not in a handler, where an uncaught
    exception ends the process. *)
Definition in_thread (o : op) : bool :=
  match o with
  | OpBeatTo _ | OpVotesTo _ | OpBlocksTo _ | OpCommitsTo _ | OpSignalTo _ _
  | OpMergeOne | OpRemoveDead | OpTask _ => true
  | _ => false
  end.

Definition survives (o : op) (r : outcome unit) : bool :=
  match r with
  | Ret _ => true
  | Throw _ => negb (in_thread o)
  | Crash _ => false
  end.

(** ** The servers together *)

Definition sent (w : world) (i : Z) (req : PeerRequest) : Prop :=
  ∃ j nd, w !! j = Some nd ∧ (i, req) ∈ outbox (state nd).

(** What has to have happened before a step. *)
Definition allowed (cf : conf) (w : world) (i : Z) (s : server) (o : op) : Prop :=
  match o with
  | OpRelayVote ser => ∃ from votes, sent w i (RelayVoteRequest from votes) ∧ ser ∈ votes
  | OpRelayBlock ser => ∃ from blocks, sent w i (RelayBlockRequest from blocks) ∧ ser ∈ blocks
  | OpCommit ser =>
      ∃ from blocks ts, sent w i (SPBcastCommitRequest from blocks ts) ∧ ser ∈ blocks
  | OpSync block_id => ∃ from, sent w i (RelayBlockSyncRequest from block_id)
  | OpVote client_id _ => u64 client_id
  | OpBeatTo t | OpVotesTo t | OpBlocksTo t | OpCommitsTo t | OpSignalTo _ t => is_peer cf s t
  | _ => True
  end.

Definition after_op (cf : conf) (o : op) (s : server) : node :=
  let '(r, s') := run_op cf o s in MkNode (survives o r) s'.

Inductive wstep (cfs : Z → conf) : world → world → Prop :=
| WStep w i s o :
    w !! i = Some (MkNode true s) → allowed (cfs i) w i s o →
    wstep cfs w (<[i := after_op (cfs i) o s]> w).

(** The configurations of [n] servers with [c] clients. *)
Record sys_ok (cfs : Z → conf) (n c : Z) : Prop := {
  so_range : 0 < n < 2 ^ 64 - 1;
  so_id i : conf_server_id (cfs i) = i;
  so_servers i : server_count (cfs i) = n;
  so_clients i : client_count (cfs i) = c;
  so_addrs i : addrs_ok (cfs i);
  so_tasks i : conf_tasks_ok (cfs i);
  so_dkg i : dkg_ok (cfs i);
  so_db i : db_ok (cfs i);
}.

(** Every server has started. *)
Definition initial (cfs : Z → conf) (n : Z) (w : world) : Prop :=
  ∀ i, w !! i = if decide (1 ≤ i ≤ n)
                then Some (MkNode true (snd (start (cfs i) TcServer_new))) else None.

Definition reachable (cfs : Z → conf) (n : Z) (w : world) : Prop :=
  ∃ w0, initial cfs n w0 ∧ rtc (wstep cfs) w0 w.

(** A step in which no block counter wraps around. *)
Definition wstep_nowrap (cfs : Z → conf) (w w' : world) : Prop :=
  wstep cfs w w' ∧
  ∀ i nd nd', w !! i = Some nd → w' !! i = Some nd' →
    blk_seq_generator (state nd) ≤ blk_seq_generator (state nd').

Definition reachable_nowrap (cfs : Z → conf) (n : Z) (w : world) : Prop :=
  ∃ w0, initial cfs n w0 ∧ rtc (wstep_nowrap cfs) w0 w.

End system.
