(* ===== verification/Holding.v ===== *)
(** Which blocks a server holds a pointer to. The code frees a block with its last
    [std::shared_ptr]; the heap of the model keeps every block that was made, under a name
    that is not used again. Here it is shown that no operation reaches a block again once
    nothing holds it, so that freeing it or keeping it is the same. *)
From Stdlib Require Import ZArith Lia.
From stdpp Require Import base tactics list gmap strings sorting relations.
From S2P Require Import Prelude Decimal Entity FlexCodec ServerState ServerInv ClientService.
From S2P Require Import PeerService ServerCore HandlersProofs Frames System.

Section held.
Context {C : Crypto}.

(** A map or a queue of the server has the pointer [l]. *)
Definition held (s : server) (l : loc) : Prop :=
  (∃ id, pending_blks s !! id = Some l) ∨ l ∈ pb_merge_queue s ∨
  (∃ id, committed_blks s !! id = Some l) ∨
  (∃ t q, relay_blocks s !! t = Some q ∧ l ∈ q) ∨
  (∃ t q, bcast_commit_blocks s !! t = Some q ∧ l ∈ q).

(** From [s] to [s'] only the pointers [X] and new ones have come to be held. *)
Definition handed (X : list loc) (s s' : server) : Prop :=
  (next_loc s ≤ next_loc s')%nat ∧
  ∀ l, held s' l → held s l ∨ l ∈ X ∨ (next_loc s ≤ l)%nat.

#[export] Instance handed_preorder X : PreOrder (handed X).
Proof.
  split; [by split; auto|].
  intros s1 s2 s3 [H1 H2] [H3 H4]. split; [lia|]. intros l [Hl|[Hl|Hl]]%H4; auto with lia.
Qed.

Lemma handed_mono X s s' : handed [] s s' → handed X s s'.
Proof.
  intros [H1 H2]. split; [done|]. intros l [?|[Hl|?]]%H2; auto. by apply not_elem_of_nil in Hl.
Qed.

(** In a state of the invariant what is held is there. *)
Lemma held_valid cf s l : server_wf cf s → held s l → is_Some (heap s !! l).
Proof.
  intros H [[id Hl]|[Hl|[[id Hl]|[(t & q & Hq & Hl)|(t & q & Hq & Hl)]]]].
  - destruct (wf_pending _ _ H _ _ Hl) as (b & -> & _). by eexists.
  - destruct (wf_merge _ _ H _ Hl) as (b & -> & _). by eexists.
  - destruct (wf_committed _ _ H _ _ Hl) as (b & -> & _). by eexists.
  - destruct (wf_relay_blocks _ _ H _ _ _ Hq Hl) as (b & -> & _). by eexists.
  - destruct (wf_bcast _ _ H _ _ _ Hq Hl) as (b & -> & _). by eexists.
Qed.

(** The fields that hold pointers. *)
Definition holding (s : server) :=
  (next_loc s, pending_blks s, pb_merge_queue s, committed_blks s, relay_blocks s,
   bcast_commit_blocks s).

Lemma held_frame s s' l : holding s' = holding s → held s' l → held s l.
Proof. unfold holding, held. by intros [= _ -> -> -> -> ->]. Qed.

End held.

(** ** Operations *)

Section hands.
Context {C : Crypto} {F : FlexBuffers} {E : Env} (cf : conf).

Abbreviation hands X := (Moves (λ s : server, s) (handed X)).

Lemma hands_keeps X {A} (m : M server A) : Keeps holding m → hands X m.
Proof.
  intros Hk s. specialize (Hk s). split; [unfold holding in Hk; by simplify_eq/=; lia|].
  intros l Hl. left. by eapply held_frame.
Qed.

Lemma hands_mono X {A} (m : M server A) : hands [] m → hands X m.
Proof. intros H s. apply handed_mono, H. Qed.

(** A pointer that the first part gives to the second one was held, or is new. *)
Lemma hands_gives {A B} (m : M server A) (k : A → M server B) (give : A → list loc) :
  (∀ s a, (m s).1 = Ret a → ∀ l, l ∈ give a → held s l ∨ (next_loc s ≤ l)%nat) →
  hands [] m → (∀ a, hands (give a) (k a)) → hands [] (mbind m k).
Proof.
  intros Hg Hm Hk s. unfold mbind. specialize (Hm s). specialize (Hg s).
  destruct (m s) as [[a|e|f] s1]; simpl in *; [|done..].
  destruct Hm as [H1 H2]. destruct (Hk a s1) as [H3 H4]. split; [lia|].
  intros l [Hl|[Hl|Hl]]%H4; [by apply H2| |right; right; lia].
  destruct (Hg a eq_refl l Hl); auto.
Qed.

(** *** The primitive operations *)

Lemma hands_new_block X b : hands X (new_block b).
Proof. intros s. split; [simpl; lia|]. by left. Qed.

Lemma hands_pending_erase X id : hands X (pending_erase id).
Proof.
  intros s. split; [done|]. intros l. unfold held. simpl.
  intros [[id' [_ Hl]%lookup_delete_Some]|Hl]; eauto.
Qed.

Lemma hands_pending_insert X id l : l ∈ X → hands X (pending_insert id l).
Proof.
  intros Hx s. split; [done|]. intros l'. unfold held. simpl.
  intros [[id' [[_ ->]|[_ Hl]]%lookup_insert_Some]|Hl]; eauto.
Qed.

Lemma hands_committed_insert X id l : l ∈ X → hands X (committed_insert id l).
Proof.
  intros Hx s. split; [done|]. intros l'. unfold held. simpl.
  intros [Hl|[Hl|[[id' [[_ ->]|[_ Hl]]%lookup_insert_Some]|Hl]]]; eauto 6.
Qed.

Lemma hands_merge_push X l : l ∈ X → hands X (merge_push l).
Proof.
  intros Hx s. split; [done|]. intros l'. unfold held. simpl.
  rewrite elem_of_app, list_elem_of_singleton. intros [Hl|[[Hl| ->]|Hl]]; eauto 6.
Qed.

Lemma hands_push_relay_block X t l : l ∈ X → hands X (push_relay_block t l).
Proof.
  intros Hx s. unfold push_relay_block, push_to.
  destruct (relay_blocks s !! t) as [q|] eqn:Hq; [|done]. split; [done|].
  intros l'. unfold held. simpl. intros [Hl|[Hl|[Hl|[(u & q' & Hu & Hl)|Hl]]]]; eauto 6.
  apply lookup_insert_Some in Hu as [[<- <-]|[_ Hu]]; [|left; eauto 8].
  rewrite elem_of_app, list_elem_of_singleton in Hl. destruct Hl as [Hl| ->]; eauto 10.
Qed.

Lemma hands_push_bcast X t l : l ∈ X → hands X (push_bcast t l).
Proof.
  intros Hx s. unfold push_bcast, push_to.
  destruct (bcast_commit_blocks s !! t) as [q|] eqn:Hq; [|done]. split; [done|].
  intros l'. unfold held. simpl. intros [Hl|[Hl|[Hl|[Hl|(u & q' & Hu & Hl)]]]]; eauto 6.
  apply lookup_insert_Some in Hu as [[<- <-]|[_ Hu]]; [|left; eauto 8].
  rewrite elem_of_app, list_elem_of_singleton in Hl. destruct Hl as [Hl| ->]; eauto 10.
Qed.

Lemma hands_pop_merge X : hands X pop_merge.
Proof.
  intros s. unfold pop_merge, pop_front. destruct (pb_merge_queue s) as [|l q] eqn:Hq; [done|].
  split; [done|]. intros l'. unfold held. simpl. rewrite Hq.
  intros [Hl|[Hl|Hl]]; [by eauto| |by eauto]. left. right. left. by right.
Qed.

Lemma hands_pop_relay_block X t : hands X (pop_relay_block t).
Proof.
  intros s. unfold pop_relay_block, pop_from.
  destruct (relay_blocks s !! t) as [[|l q]|] eqn:Hq; [done| |done]. split; [done|].
  intros l'. unfold held. simpl. intros [Hl|[Hl|[Hl|[(u & q' & Hu & Hl)|Hl]]]]; eauto 6.
  apply lookup_insert_Some in Hu as [[<- <-]|[_ Hu]]; [|left; eauto 8].
  left. do 3 right. left. exists t, (l :: q). split; [done|by right].
Qed.

Lemma hands_pop_bcast X t : hands X (pop_bcast t).
Proof.
  intros s. unfold pop_bcast, pop_from.
  destruct (bcast_commit_blocks s !! t) as [[|l q]|] eqn:Hq; [done| |done]. split; [done|].
  intros l'. unfold held. simpl. intros [Hl|[Hl|[Hl|[Hl|(u & q' & Hu & Hl)]]]]; eauto 6.
  apply lookup_insert_Some in Hu as [[<- <-]|[_ Hu]]; [|left; eauto 8].
  left. do 4 right. exists t, (l :: q). split; [done|by right].
Qed.

Lemma hands_after_new X {A} b (k : loc → M server A) :
  (∀ l, hands [l] (k l)) → hands X (mbind (new_block b) k).
Proof.
  intros Hk. apply hands_mono, (hands_gives _ _ (λ l, [l])); [|apply hands_new_block|done].
  intros s a [= <-] l ->%list_elem_of_singleton. by right.
Qed.

Lemma hands_after_find X {A} id (k : option loc → M server A) :
  (∀ o, hands (option_list o) (k o)) → hands X (mbind (pending_find id) k).
Proof.
  intros Hk. apply hands_mono, (hands_gives _ _ option_list); [|by apply hands_keeps|done].
  intros s o [= <-] l. destruct (pending_blks s !! id) as [l0|] eqn:Hl; simpl.
  - intros ->%list_elem_of_singleton. do 2 left. by exists id.
  - by intros ?%not_elem_of_nil.
Qed.

Lemma hands_after_pop X {A} (k : option loc → M server A) :
  (∀ o, hands (option_list o) (k o)) → hands X (mbind pop_merge k).
Proof.
  intros Hk. apply hands_mono, (hands_gives _ _ option_list); [|apply hands_pop_merge|done].
  intros s o. unfold pop_merge, pop_front.
  destruct (pb_merge_queue s) as [|l0 q] eqn:Hq; intros [= <-] l; simpl.
  - by intros ?%not_elem_of_nil.
  - intros ->%list_elem_of_singleton. left. right. left. rewrite Hq. by left.
Qed.

(** *** By the structure of an operation *)

Ltac hands_leaf :=
  first
    [ apply hands_new_block | apply hands_pending_erase | apply hands_pop_merge
    | apply hands_pop_relay_block | apply hands_pop_bcast
    | apply hands_pending_insert; set_solver | apply hands_committed_insert; set_solver
    | apply hands_merge_push; set_solver | apply hands_push_relay_block; set_solver
    | apply hands_push_bcast; set_solver ].
Ltac hands_step :=
  first
    [ progress intros
    | assumption
    | hands_leaf
    | apply hands_after_new; intros ?
    | apply hands_after_find; intros [?|]; cbn [option_list]
    | apply hands_after_pop; intros [?|]; cbn [option_list]
    | apply moves_bind; [apply _|..] | apply moves_try_catch; [apply _|..]
    | apply moves_mfor; [apply _|..] | apply moves_while_pop; [apply _|..]
    | match goal with |- Moves _ _ (match ?x with _ => _ end) => destruct x end
    | apply hands_keeps; keeps_tac; fail ].
Ltac hands_tac := repeat hands_step.

(** *** The handlers *)

Lemma hands_VoteBlocks_local k id v : hands [] (VoteBlocks_local cf k id v).
Proof.
  unfold VoteBlocks_local. hands_tac.
Qed.

Lemma hands_VoteBlocks_item k ser : hands [] (VoteBlocks_item cf k ser).
Proof.
  unfold VoteBlocks_item, VoteBlocks_route. hands_tac.
Qed.

Lemma hands_RelayVote_item ser : hands [] (RelayVote_item cf ser).
Proof.
  unfold RelayVote_item, RelayVote_local. hands_tac.
Qed.

Lemma hands_RelayBlock_item ser : hands [] (RelayBlock_item ser).
Proof. unfold RelayBlock_item. hands_tac. Qed.

Lemma hands_SPBcastCommit_item ser : hands [] (SPBcastCommit_item cf ser).
Proof. unfold SPBcastCommit_item. hands_tac. Qed.

(** *** Sending and packing *)

Lemma hands_RelayBlock t : hands [] (RelayBlock t).
Proof. unfold RelayBlock, RelayBlock_pop. hands_tac. Qed.

Lemma hands_SPBcastCommit t : hands [] (SPBcastCommit t).
Proof. unfold SPBcastCommit, SPBcastCommit_pop. hands_tac. Qed.

Lemma hands_for_peers send : (∀ t, hands [] (send t)) → hands [] (for_peers cf send).
Proof. intros H. unfold for_peers. hands_tac; apply H. Qed.

Lemma hands_send_relay_blocks : hands [] (send_relay_blocks cf).
Proof.
  unfold send_relay_blocks, send_relay_block_sync, RelayBlockSync, for_peers.
  hands_tac; apply hands_RelayBlock.
Qed.

Lemma hands_pack_one num_tx : hands [] (pack_one num_tx).
Proof. unfold pack_one. hands_tac. Qed.

Lemma hands_pack_loop fuel i num_tx num_block : hands [] (pack_loop fuel i num_tx num_block).
Proof.
  revert i. induction fuel as [|fuel IH]; intros i; simpl; hands_tac; apply IH.
Qed.

(** *** Merging and the dead blocks *)

Lemma hands_merge_one l : hands [l] (merge_one cf l).
Proof. unfold merge_one. hands_tac. Qed.

(** Every round commits the block it has popped. *)
Lemma hands_merge_votes : hands [] (merge_votes cf).
Proof.
  unfold merge_votes. apply moves_bind; [apply _|by apply hands_keeps, _|]. intros n.
  generalize (S n). clear n. intros n. generalize tt. induction n as [|n IH]; intros b.
  { apply hands_keeps, _. }
  cbn [while_pop]. apply hands_after_pop. intros [l|]; [|by apply hands_keeps, _].
  cbn [option_list]. apply moves_bind; [apply _|apply hands_merge_one|].
  intros b'. apply hands_mono, IH.
Qed.

Lemma hands_merge_next : hands [] (merge_next cf).
Proof.
  unfold merge_next. apply hands_after_pop. intros [l|]; [apply hands_merge_one|].
  by apply hands_keeps, _.
Qed.

Lemma hands_remove_dead_blocks : hands [] (remove_dead_blocks cf).
Proof. unfold remove_dead_blocks, remove_dead_block, pending_find. hands_tac. Qed.

(** *** Every step *)

Lemma hands_run_task t : hands [] (run_task cf t).
Proof.
  destruct t; simpl.
  - unfold pack_thread_round, generate_tx, generate_tx_one, pack_block.
    hands_tac; apply hands_pack_loop.
  - hands_tac.
  - unfold send_heartbeats, send_relay_votes, SPHeartbeat, RelayVote, for_peers. hands_tac.
  - apply hands_send_relay_blocks.
  - apply hands_for_peers, hands_SPBcastCommit.
  - apply hands_merge_votes.
Qed.

Lemma hands_run_op o : hands [] (run_op cf o).
Proof.
  destruct o; simpl; unfold discard;
    try (apply moves_bind; [apply _| |intros ?; apply hands_keeps, _]).
  - unfold Register. hands_tac.
  - unfold PullPendingBlocks, PullPendingBlocks_entry. hands_tac.
  - apply hands_keeps, GetBlocks_id.
  - apply hands_VoteBlocks_item.
  - apply hands_RelayVote_item.
  - apply hands_RelayBlock_item.
  - apply hands_SPBcastCommit_item.
  - unfold RelayBlockSync_handler. hands_tac.
  - unfold SPHeartbeat. hands_tac.
  - unfold RelayVote. hands_tac.
  - apply hands_RelayBlock.
  - apply hands_SPBcastCommit.
  - unfold RelayBlockSync. hands_tac.
  - apply hands_merge_next.
  - apply hands_remove_dead_blocks.
  - apply hands_run_task.
Qed.

End hands.

(** Along a run a server comes to hold new blocks only, not one it has let go of. *)
Lemma steps_handed {C : Crypto} {F : FlexBuffers} {E : Env} (cfs : Z → conf) w w' i nd nd' :
  rtc (wstep cfs) w w' → w !! i = Some nd → w' !! i = Some nd' →
  handed [] (state nd) (state nd').
Proof.
  intros Hr. revert nd. induction Hr as [w|w w1 w' Hs _ IH]; intros nd Hi Hi'.
  { by simplify_eq. }
  destruct Hs as [w j s o Hj _]. destruct (decide (i = j)) as [->|Hne].
  - simplify_eq. etrans; [|apply IH; [apply lookup_insert_eq|done]].
    pose proof (hands_run_op (cfs j) o s) as Ho. unfold after_op.
    by destruct (run_op (cfs j) o s).
  - apply IH; [|done]. by rewrite lookup_insert_ne.
Qed.
