(* ===== verification/Network.v ===== *)
(** Clients and servers together: the network a client calls is the world of servers of
    [System.v], a call runs the server's handler. The clients share one network; their
    rounds interleave with the steps of the servers. *)
From Stdlib Require Import ZArith Lia Ascii String.
From stdpp Require Import base tactics list gmap strings sorting relations.
From S2P Require Import Prelude Decimal Entity FlexCodec Msgpack ServerState ServerInv.
From S2P Require Import ClientService PeerService ServerCore Client System.

(** What becomes of a call. *)
Inductive fate := Delivered | RequestLost | ResponseLost.

(** Where servers listen, and the fate of each call. *)
Class NetEnv := {
  listen : string → option Z;
  call_fate : nat → fate;
}.

Record network {C : Crypto} := MkNetwork { servers : world; calls : nat }.
Arguments network {C}.
Arguments MkNetwork {C} servers calls.

(** Servers 1 to [n] listen on the ports after the configured one. *)
Definition deployed {NE : NetEnv} (cc : client_conf) (n : Z) : Prop :=
  ∀ i, 1 ≤ i ≤ n → listen (server_addr cc i) = Some i.

Section network.
Context {C : Crypto} {F : FlexBuffers} {K : Msgpack} {E : Env} {CE : ClientEnv} {NE : NetEnv}.
Context (cfs : Z → conf).

(** A handler at a server: an exception becomes a failed call, a crash ends the process. *)
Definition handle {A} (m : M server A) (s : server) : option A * node :=
  match m s with
  | (Ret a, s') => (Some a, MkNode true s')
  | (Throw _, s') => (None, MkNode true s')
  | (Crash _, s') => (None, MkNode false s')
  end.

(** One call of the server at an address; a call that fails has the payload [dflt]. *)
Definition serve {A} (addr : string) (m : Z → M server A) (dflt : A) (n : network)
    : (bool * A) * network :=
  let failed := (false, dflt) in
  let next w := MkNetwork w (S (calls n)) in
  let ft := call_fate (calls n) in
  match ft, listen addr with
  | RequestLost, _ | _, None => (failed, next (servers n))
  | _, Some i =>
      match servers n !! i with
      | Some (MkNode true s) =>
          let '(o, nd) := handle (m i) s in
          (match ft, o with Delivered, Some a => (true, a) | _, _ => failed end,
           next (<[i := nd]> (servers n)))
      | _ => (failed, next (servers n))
      end
  end.

Definition world_stub : ConsensusStub network := {|
  call_Register addr id pkey :=
    serve addr (λ _, r <- Register id pkey ;; mret (reg_tss_sk r)) [];
  call_Heartbeat addr id := serve addr (λ _, discard (Heartbeat id)) tt;
  call_PullPendingBlocks addr id := serve addr (λ _, PullPendingBlocks id) [];
  call_GetBlocks addr hdrs := serve addr (λ _, GetBlocks hdrs) [];
  call_VoteBlocks addr id blocks :=
    serve addr (λ i, discard (VoteBlocks (cfs i) id blocks)) tt;
|}.
#[local] Existing Instance world_stub.

(** ** The whole system *)

(** The clients that run, each with what it sees of the network set aside, and the network. *)
Record system := MkSystem { clients_of : gmap Z (client network); net_of : network }.

(** A round of a client's thread on the shared network. An uncaught exception or a crash
    ends the client. *)
Definition client_round (t : thread) (c : client network) (n : network)
    : option (client network) * network :=
  match thread_round t (set_net n c) with
  | (Ret _, c') => (Some c', net c')
  | (_, c') => (None, net c')
  end.

(** [SStart] is a client process that comes up, under a process number [k] of its own; one
    whose start fails has still talked to the servers. *)
Inductive sstep : system → system → Prop :=
| SServer cl w w' k :
    wstep cfs w w' → sstep (MkSystem cl (MkNetwork w k)) (MkSystem cl (MkNetwork w' k))
| SStart cl n k id cc db r c :
    u64 id → u64 (conf_client_id cc) → cl !! k = None →
    client_main id cc db n = (r, Some c) → r = Ret tt →
    sstep (MkSystem cl n) (MkSystem (<[k := c]> cl) (net c))
| SStartFails cl n id cc db r c :
    u64 id → u64 (conf_client_id cc) →
    client_main id cc db n = (r, Some c) → r ≠ Ret tt →
    sstep (MkSystem cl n) (MkSystem cl (net c))
| SRound cl n i c t o n' :
    cl !! i = Some c → client_round t c n = (o, n') →
    sstep (MkSystem cl n) (MkSystem (partial_alter (λ _, o) i cl) n').

End network.

Arguments system {C}.
