(* ===== verification/NetworkProofs.v ===== *)
(** What clients do to the servers is a run of the system of [System.v]. *)
From Stdlib Require Import ZArith Lia Ascii String.
From stdpp Require Import base tactics list gmap strings sorting relations.
From S2P Require Import Prelude Decimal Entity FlexCodec Msgpack ServerState ServerInv.
From S2P Require Import ClientService PeerService ServerCore Client ClientProofs System Network.

Section network.
Context {C : Crypto} {F : FlexBuffers} {K : Msgpack} {E : Env} {CE : ClientEnv} {NE : NetEnv}.
Context (cfs : Z → conf).
#[local] Hint Extern 0 (ConsensusStub _) => exact (world_stub cfs) : typeclass_instances.

(** ** One call *)

(** [realized i m]: running the handler [m] at server [i] is some steps of the system. *)
Definition realized {A} (i : Z) (m : M server A) : Prop :=
  ∀ w s, w !! i = Some (MkNode true s) → rtc (wstep cfs) w (<[i := (handle m s).2]> w).

Lemma serve_moves {A} addr (m : Z → M server A) dflt n :
  (∀ i, realized i (m i)) → rtc (wstep cfs) (servers n) (servers (serve addr m dflt n).2).
Proof.
  intros Hm. unfold serve. destruct (call_fate _), (listen addr) as [i|]; try done;
    destruct (servers n !! i) as [[[] s]|] eqn:Hi; try done;
    specialize (Hm i _ _ Hi); by destruct (handle (m i) s).
Qed.

(** A handler that is one step of the system. *)
Lemma realized_op {A} i (m : M server A) o :
  (∀ s, snd (run_op (cfs i) o s) = snd (m s) ∧
        survives o (fst (run_op (cfs i) o s)) = up (handle m s).2) →
  (∀ w s, allowed (cfs i) w i s o) → realized i m.
Proof.
  intros Ho Ha w s Hi. apply rtc_once.
  assert ((handle m s).2 = after_op (cfs i) o s) as ->.
  { destruct (Ho s) as [H1 H2]. unfold after_op, handle in *.
    destruct (run_op (cfs i) o s) as [r s1]. simpl in *. subst.
    by destruct (m s) as [[] s2]; simpl in *; f_equal. }
  by constructor.
Qed.

Lemma discard_same {A} (m : M server A) s :
  snd (discard m s) = snd (m s) ∧
  match fst (m s) with
  | Ret _ => fst (discard m s) = Ret tt
  | Throw e => fst (discard m s) = Throw e
  | Crash f => fst (discard m s) = Crash f
  end.
Proof. unfold discard, mbind, mret. by destruct (m s) as [[] s']. Qed.

Lemma realized_discard {A} i (m : M server A) o :
  (∀ s, run_op (cfs i) o s = discard m s) → in_thread o = false →
  (∀ w s, allowed (cfs i) w i s o) → realized i m.
Proof.
  intros Hr Ht. apply realized_op. intros s. rewrite Hr.
  destruct (discard_same m s) as [-> Hf]. split; [done|]. unfold handle.
  destruct (m s) as [[] s']; simpl in *; rewrite Hf; simpl; by rewrite ?Ht.
Qed.

Lemma realized_map {A B} i (m : M server A) (f : A → B) :
  realized i m → realized i (r <- m ;; mret (f r)).
Proof.
  intros Hm w s Hi. specialize (Hm w s Hi). unfold handle, mbind, mret in *.
  by destruct (m s) as [[] s'].
Qed.

Lemma realized_Register i id pkey : realized i (Register id pkey).
Proof. by apply (realized_discard i _ (OpRegister id pkey)). Qed.

Lemma realized_Pull i id : realized i (PullPendingBlocks id).
Proof. by apply (realized_discard i _ (OpPull id)). Qed.

Lemma realized_GetBlocks i hdrs : realized i (GetBlocks hdrs).
Proof. by apply (realized_discard i _ (OpGetBlocks hdrs)). Qed.

Lemma realized_Heartbeat i id : realized i (Heartbeat id).
Proof. intros w s Hi. unfold handle, Heartbeat, mret. simpl. by rewrite insert_id. Qed.

(** A handler that loops is as many steps as it has elements. *)
Lemma realized_loop {A} i (xs : list A) (body : A → M server unit) (o : A → op) :
  (∀ x, run_op (cfs i) (o x) = body x) → (∀ x, in_thread (o x) = false) →
  (∀ w s x, allowed (cfs i) w i s (o x)) → realized i (mfor xs body).
Proof.
  intros Hr Ht Ha. induction xs as [|x xs IH]; intros w s Hi.
  { unfold handle, mret. simpl. by rewrite insert_id. }
  assert (realized i (body x)) as Hx.
  { apply (realized_op i _ (o x)); [|done]. intros s'. rewrite Hr. split; [done|]. unfold handle.
    destruct (body x s') as [[] ?]; simpl; by rewrite ?Ht. }
  specialize (Hx w s Hi). unfold handle in *. cbn [mfor]. unfold mbind.
  destruct (body x s) as [[[]|e|f] s1]; [|done..]. simpl in Hx. etrans; [exact Hx|].
  specialize (IH (<[i := MkNode true s1]> w) s1 (lookup_insert_eq _ _ _)).
  unfold handle in IH. by rewrite insert_insert_eq in IH.
Qed.

Lemma realized_VoteBlocks i id blocks : u64 id → realized i (VoteBlocks (cfs i) id blocks).
Proof.
  intros Hid. unfold VoteBlocks.
  assert (realized i (mfor blocks (VoteBlocks_item (cfs i) id))) as H
    by (by apply (realized_loop i _ _ (OpVote id))).
  intros w s Hi. specialize (H w s Hi). unfold handle, mbind, mret in *.
  by destruct (mfor blocks _ s) as [[[]|e|f] s'].
Qed.

(** ** One client *)

Local Abbreviation net_moves := (Moves (λ c : client network, servers (net c)) (rtc (wstep cfs))).

Lemma rpc_moves {A} i (call : string → network → (bool * A) * network) :
  (∀ a n, rtc (wstep cfs) (servers n) (servers (call a n).2)) → net_moves (rpc i call).
Proof.
  intros Hc. unfold rpc. apply moves_bind; [apply _|apply moves_keeps, _; apply _|].
  intros [a|]; [|apply moves_keeps, _; apply _].
  intros c. specialize (Hc a (net c)). by destruct (call a (net c)).
Qed.

Lemma request_id_u64 (c : client network) : u64 (request_id c).
Proof. unfold request_id. eauto with dchain. Qed.

(** The calls of the interface, each as the steps of the server that handles it. *)
Lemma calls_move a (n : network) :
  (∀ id pk, rtc (wstep cfs) (servers n) (servers (call_Register a id pk n).2)) ∧
  (∀ id, rtc (wstep cfs) (servers n) (servers (call_Heartbeat a id n).2)) ∧
  (∀ id, rtc (wstep cfs) (servers n) (servers (call_PullPendingBlocks a id n).2)) ∧
  (∀ hdrs, rtc (wstep cfs) (servers n) (servers (call_GetBlocks a hdrs n).2)) ∧
  (∀ id bs, u64 id → rtc (wstep cfs) (servers n) (servers (call_VoteBlocks a id bs n).2)).
Proof.
  split_and!; intros; apply serve_moves; intros i.
  - apply realized_map, realized_Register.
  - apply (realized_map i (Heartbeat id) (λ _, tt)), realized_Heartbeat.
  - apply realized_Pull.
  - apply realized_GetBlocks.
  - by apply (realized_map i (VoteBlocks (cfs i) id bs) (λ _, tt)), realized_VoteBlocks.
Qed.

#[local] Hint Extern 5 (Moves _ _ (rpc _ _)) => (apply rpc_moves; intros; apply calls_move) : moves.

(** Proves [net_moves m] by the structure of [m]; what makes no call keeps the network. *)
Ltac moves_step :=
  first
    [ progress intros
    | solve [auto with moves]
    | solve [apply moves_keeps; [apply _|keeps_tac]]
    | apply moves_bind; [apply _|..]
    | apply moves_mfor; [apply _|..]
    | apply moves_while_pop; [apply _|..]
    | match goal with |- Moves _ _ (match ?x with _ => _ end) => destruct x end ].
Ltac moves_tac := repeat moves_step.

(** A bind that reads the id of the requests: the rest may rely on it. *)
Lemma moves_request {A} (k : Z → M (client network) A) :
  (∀ id, u64 id → net_moves (k id)) → net_moves (id <- gets request_id ;; k id).
Proof. intros Hk c. unfold mbind, gets. apply Hk, request_id_u64. Qed.

Lemma Register_moves cc i : net_moves (TcClient_Register cc i).
Proof.
  unfold TcClient_Register. moves_tac.
Qed.

Lemma Heartbeat_moves i : net_moves (TcClient_Heartbeat i).
Proof. unfold TcClient_Heartbeat. moves_tac. Qed.

Lemma Pull_moves i : net_moves (TcClient_PullPendingBlocks i).
Proof. unfold TcClient_PullPendingBlocks, record_header. moves_tac. Qed.

Lemma GetBlocks_moves i : net_moves (TcClient_GetBlocks i).
Proof. unfold TcClient_GetBlocks, queue_block. moves_tac. Qed.

Lemma vote_call_moves i id ser :
  u64 id → net_moves (rpc i (λ a, call_VoteBlocks a id [ser])).
Proof. intros Hid. apply rpc_moves. intros a n. by apply calls_move. Qed.

Lemma VoteBlocks_moves : net_moves TcClient_VoteBlocks.
Proof.
  unfold TcClient_VoteBlocks. apply moves_bind; [apply _|moves_tac|]. intros n.
  apply moves_while_pop; [apply _| |].
  { apply moves_keeps; [apply _|]. intros c. unfold pop_queued. by destruct (queued_blks c). }
  intros _ b. unfold vote_block.
  apply moves_request. intros id Hid.
  unfold check_transactions, sign_block, print_accounts, touch_accounts.
  repeat first [by apply vote_call_moves | moves_step].
Qed.

Lemma thread_round_moves t : net_moves (thread_round t).
Proof.
  destruct t; unfold thread_round, heartbeat_round, pull_round, vote_round, unit_of;
    repeat first [ apply Heartbeat_moves | apply Pull_moves | apply GetBlocks_moves
                 | apply VoteBlocks_moves | moves_step ].
Qed.

Lemma start_moves cc : net_moves (init cc ;; TcClient_start cc).
Proof.
  unfold init, TcClient_start, unit_of, put_account, bind_thread.
  repeat first
    [ apply Register_moves
    | by (apply moves_keeps; [apply _|]; intros ?; reflexivity)
    | moves_step ].
Qed.

(** ** The whole system *)

Lemma client_main_moves id cc db n r c :
  client_main id cc db n = (r, Some c) → rtc (wstep cfs) (servers n) (servers (net c)).
Proof.
  unfold client_main. destruct (channels _) as [[a b]| |]; [|done..].
  pose proof (start_moves (override_id id cc) (TcClient_members a b db n)) as Hm.
  destruct (mbind _ _ _) as [r' c']. by intros [= <- <-].
Qed.

Lemma sstep_moves s s' :
  sstep cfs s s' → rtc (wstep cfs) (servers (net_of s)) (servers (net_of s')).
Proof.
  intros [cl w w' k H|cl n k id cc db r c _ _ _ H _|cl n id cc db r c _ _ H _|cl n i c t o n' _ H]; simpl.
  - by apply rtc_once.
  - by eapply client_main_moves.
  - by eapply client_main_moves.
  - pose proof (thread_round_moves t (set_net n c)) as Hm. unfold client_round in H.
    destruct (thread_round t _) as [[[]|e|f] c']; by simplify_eq.
Qed.

Lemma ssteps_move s s' :
  rtc (sstep cfs) s s' → rtc (wstep cfs) (servers (net_of s)) (servers (net_of s')).
Proof. induction 1 as [|s1 s2 s3 H12 _ IH]; [done|]. etrans; [by apply sstep_moves|done]. Qed.

(** Every client that runs satisfies its invariant. *)
Context {L : FlexBuffersLaws F} {EL : EnvLaws E}.

Definition clients_wf (s : system) : Prop := map_Forall (λ _ c, client_wf c) (clients_of s).

Lemma client_main_wf id cc db n c :
  u64 id → u64 (conf_client_id cc) → client_main id cc db n = (Ret tt, Some c) → client_wf c.
Proof.
  intros Hid Hcc. unfold client_main. set (cc' := override_id id cc).
  assert (u64 (conf_client_id cc')) as Hcc' by (unfold cc', override_id; by destruct (id =? 0)).
  destruct (channels cc') as [[a b]| |]; [|done..].
  unfold mbind at 1. rewrite init_eq. destruct (negb _); [done|].
  destruct (clear_rocksdb cc') as [flag|]; [|done].
  destruct (String.eqb flag "true"); [unfold mbind; by rewrite put_accounts_eq|].
  pose proof (start_wf cc' _ (initialised_wf cc' a b db n Hcc')) as Hw. unfold wp in Hw.
  destruct (TcClient_start cc' _) as [r c']. intros [= -> ->]. apply Hw.
Qed.

Lemma client_round_wf t c n o n' :
  client_wf c → client_round cfs t c n = (o, n') → ∀ c', o = Some c' → client_wf c'.
Proof.
  intros Hc. unfold client_round. pose proof (thread_round_wf (set_net n c) t (set_net_wf n c Hc)) as Hw.
  unfold wp in Hw. destruct (thread_round t _) as [[u|e|f] c2]; intros [= <- <-]; intros c' [= ->].
  apply Hw.
Qed.

Lemma sstep_clients_wf s s' : sstep cfs s s' → clients_wf s → clients_wf s'.
Proof.
  unfold clients_wf.
  intros [cl w w' k H|cl n k id cc db r c Hid Hcc _ H ->|cl n id cc db r c _ _ H _|cl n i c t o n' Hi H];
    simpl; intros Hwf; [done| |done|].
  - apply map_Forall_insert_2; [|done]. exact (client_main_wf id cc db n c Hid Hcc H).
  - intros j c' Hj. destruct (decide (i = j)) as [<-|Hne].
    + rewrite lookup_partial_alter_eq in Hj. eapply client_round_wf; [|exact H|exact Hj].
      by eapply Hwf.
    + rewrite lookup_partial_alter_ne in Hj by done. by eapply Hwf.
Qed.

Lemma ssteps_clients_wf s s' : rtc (sstep cfs) s s' → clients_wf s → clients_wf s'.
Proof. induction 1 as [|s1 s2 s3 H12 _ IH]; [done|]. intros Hwf. by eapply IH, sstep_clients_wf. Qed.

End network.
