(* ===== verification/SystemProofs.v ===== *)
(** The invariant of one server of the system and of the messages it has sent: every step
    keeps it, and says what it adds to the blocks. *)
From Stdlib Require Import ZArith Lia.
From stdpp Require Import base tactics list gmap strings sorting relations.
From S2P Require Import Prelude Decimal Entity FlexCodec ServerState ServerInv ClientService.
From S2P Require Import PeerService ServerCore HandlersProofs SendersProofs CoreProofs MergeProofs Frames.
From S2P Require Import System.

Section one_server.
Context {C : Crypto} {CL : CryptoLaws C} {F : FlexBuffers} {L : FlexBuffersLaws F}.
Context {E : Env} {EL : EnvLaws E}.
Context (cf : conf) (Hcf : conf_ok cf) (Htasks : conf_tasks_ok cf).
(** A property of blocks that every update keeps. *)
Context (P : Block → Prop) (P_le : ∀ b b', block_le b b' → P b → P b').
Local Abbreviation server_wf := (server_wf cf).
Local Abbreviation good := (good cf).
Local Abbreviation quorum := (quorum cf).

(** ** The invariant of a server and of its messages *)

Definition payload_ok (Q : Block → Prop) (ser : bytes) : Prop :=
  ∃ b, ser = to_bytes b ∧ block_wf b ∧ Q b.

Definition msg_ok (m : Z * PeerRequest) : Prop :=
  match m.2 with
  | RelayVoteRequest _ votes =>
      Forall (λ ser, ∃ v : BlockVote, ser = to_bytes v ∧ vote_wf v) votes
  | RelayBlockRequest _ blocks => Forall (payload_ok P) blocks
  | SPBcastCommitRequest _ blocks _ => Forall (payload_ok (λ b, P b ∧ quorum b)) blocks
  | _ => True
  end.

Record node_inv (s : server) : Prop := {
  ni_wf : server_wf s;
  ni_heap l b : heap s !! l = Some b → P b;
  ni_out : Forall msg_ok (outbox s);
}.

(** Without allocation the blocks of the new state are those of the old one, updated. *)
Lemma node_inv_step s s' ms :
  node_inv s → good s s' → next_loc s' = next_loc s → outbox s' = outbox s ++ ms →
  Forall msg_ok ms → node_inv s'.
Proof.
  intros [Hwf Hh Ho] [Hwf' He] Hn Hout Hms. split; [done| |by rewrite Hout; apply Forall_app].
  intros l b Hb. pose proof (wf_heap _ _ Hwf' _ _ Hb) as [Hlt _]. rewrite Hn in Hlt.
  destruct (ev_fresh _ _ He l) as [[b0 Hb0]|]; [by eexists| |lia].
  destruct (ev_heap _ _ He _ _ Hb0) as (b1 & Hb1 & Hle). simplify_eq. eauto.
Qed.

(** *** Steps that neither allocate nor send *)

Lemma quiet_step {A} (m : M server A) (R : outcome A → server → Prop) s :
  Keeps counter_alloc_out m → node_inv s →
  (server_wf s → wp m (λ r s', good s s' ∧ R r s') s) →
  wp m (λ r s', node_inv s' ∧ good s s' ∧ R r s' ∧
                blk_seq_generator s' = blk_seq_generator s) s.
Proof.
  intros Hk Hi Hm. eapply wp_mono; [apply (wp_keeps counter_alloc_out), Hm; [done|apply Hi]|].
  intros r s' [[Hg HR] Hf]. unfold counter_alloc_out in Hf. simplify_eq.
  split_and!; try done. eapply (node_inv_step s s' []); rewrite ?app_nil_r; done.
Qed.

(** *** Steps that send *)

Lemma sending_step {A} (m : M server A) (R : outcome A → Prop) s :
  Keeps counter_alloc m → node_inv s →
  wp m (λ r s', good s s' ∧ (∃ ms, outbox s' = outbox s ++ ms ∧ Forall msg_ok ms) ∧ R r) s →
  wp m (λ r s', node_inv s' ∧ good s s' ∧ R r ∧
                blk_seq_generator s' = blk_seq_generator s) s.
Proof.
  intros Hk Hi Hm. eapply wp_mono; [apply (wp_keeps counter_alloc), Hm; done|].
  intros r s' [(Hg & (ms & Ho & Hms) & HR) Hf]. unfold counter_alloc in Hf. simplify_eq.
  split_and!; try done. by eapply node_inv_step.
Qed.

Lemma vote_request_ok s t q : Forall vote_wf q → Forall msg_ok (vote_request s t q).
Proof.
  intros Hq. unfold vote_request. case_decide; [done|]. constructor; [|done].
  apply Forall_fmap. eapply Forall_impl; [done|]. intros v Hv. by exists v.
Qed.

Lemma payloads_ok s q (Q : Block → Prop) :
  node_inv s → (∀ l, l ∈ q → at_loc s l Q) →
  Forall (payload_ok (λ b, P b ∧ Q b)) (to_bytes <$> read_all s q).
Proof.
  intros Hi Hq. apply Forall_fmap, Forall_forall. intros b Hb.
  apply list_elem_of_omap in Hb as (l & Hl & Hb).
  destruct (Hq l Hl) as (b' & Hb' & HQ). assert (b' = b) as -> by congruence.
  exists b. split_and!; try done.
  - by eapply (wf_heap _ _ (ni_wf _ Hi)).
  - by eapply ni_heap.
Qed.

Lemma payload_ok_mono (Q Q' : Block → Prop) sers :
  (∀ b, Q b → Q' b) → Forall (payload_ok Q) sers → Forall (payload_ok Q') sers.
Proof.
  intros HQ H. eapply Forall_impl; [exact H|]. intros ser (b & -> & Hwf & Hb). exists b. auto.
Qed.

Lemma block_request_ok s t :
  node_inv s → Forall msg_ok (block_request s t (queue_of (relay_blocks s) t)).
Proof.
  intros Hi. unfold block_request. case_decide; [done|]. constructor; [|done].
  eapply payload_ok_mono; [|apply (payloads_ok s _ (λ _, True)); [done|]]; [naive_solver|].
  unfold queue_of. destruct (relay_blocks s !! t) as [q|] eqn:Hq; simpl; intros l Hl.
  - by eapply wf_relay_blocks; [apply Hi|..].
  - by apply not_elem_of_nil in Hl.
Qed.

Lemma commit_request_ok s now t :
  node_inv s → Forall msg_ok (commit_request s now t (queue_of (bcast_commit_blocks s) t)).
Proof.
  intros Hi. unfold commit_request. case_decide; [done|]. constructor; [|done].
  apply payloads_ok; [done|].
  unfold queue_of. destruct (bcast_commit_blocks s !! t) as [q|] eqn:Hq; simpl; intros l Hl.
  - by eapply wf_bcast; [apply Hi|..].
  - by apply not_elem_of_nil in Hl.
Qed.

Lemma round_ok s (f : Z → list (Z * PeerRequest)) :
  (∀ t, is_peer cf s t → Forall msg_ok (f t)) → Forall msg_ok (round_of cf s f).
Proof.
  intros Hf. unfold round_of. apply Forall_concat, Forall_fmap, Forall_forall.
  intros t Ht. by apply Hf, elem_of_peers.
Qed.

Lemma queue_votes_ok s t : node_inv s → Forall vote_wf (queue_of (relay_votes s) t).
Proof.
  intros Hi. unfold queue_of. destruct (relay_votes s !! t) as [q|] eqn:Hq; simpl; [|done].
  by eapply wf_relay_votes; [apply Hi|].
Qed.

(** *** Steps that allocate *)

(** A step that adds blocks, each of them satisfying the property. *)
Lemma alloc_step s s' :
  node_inv s → good s s' → outbox s' = outbox s →
  (∀ l b, heap s' !! l = Some b → heap s !! l = Some b ∨ P b) → node_inv s'.
Proof.
  intros [Hwf Hh Ho] [Hwf' _] Hout Hnew. split; [done| |by rewrite Hout].
  intros l b [Hb|Hb]%Hnew; [by eapply Hh|done].
Qed.

Lemma RelayBlock_item_heap s ser :
  wp (RelayBlock_item ser) (λ r s', ∀ l b, heap s' !! l = Some b →
    heap s !! l = Some b ∨ from_bytes ser = Ret b) s.
Proof.
  unfold RelayBlock_item, pending_insert. wp_simpl.
  destruct (from_bytes (T := Block) ser) as [b0|e|f]; wp_simpl; [|by left..].
  intros l b. simpl. intros [[_ ->]|[_ Hl]]%lookup_insert_Some; auto.
Qed.

Lemma SPBcastCommit_item_heap s ser :
  wp (SPBcastCommit_item cf ser) (λ r s', ∀ l b, heap s' !! l = Some b →
    heap s !! l = Some b ∨
    ∃ b0 t, from_bytes ser = Ret b0 ∧ b = upd_header (set_recv_ts t) b0) s.
Proof.
  unfold SPBcastCommit_item, pending_find, committed_insert, db_put_block, pending_erase.
  wp_simpl. destruct (from_bytes (T := Block) ser) as [b0|e|f]; wp_simpl; [|by left..].
  destruct (pending_blks _ !! _); wp_simpl; [|by left].
  destruct (use_rocksdb cf) as [[]|]; wp_simpl;
    intros l' b; simpl; intros [[_ <-]|[_ Hl]]%lookup_insert_Some; eauto.
Qed.

(** What is read from a message of an honest server. *)
Lemma read_payload (Q : Block → Prop) ser b :
  payload_ok Q ser → from_bytes ser = Ret b →
  ∃ b0, Q b0 ∧ b = set_tss_sig None b0 ∧ block_wf b0.
Proof.
  intros (b0 & -> & Hwf & HQ). rewrite Block_from_to by done.
  case_bool_decide; [|done]. intros [= <-]. by exists b0.
Qed.

Lemma payload_no_crash Q ser : payload_ok Q ser → ¬ is_crash (from_bytes (T := Block) ser).
Proof.
  intros (b0 & -> & Hwf & _). rewrite Block_from_to by done.
  destruct (bool_decide _); auto with dchain.
Qed.

Lemma crash_only_no_crash {A B} (rd : outcome A) (r : outcome B) :
  ¬ is_crash rd → crash_only rd r → ¬ is_crash r.
Proof.
  intros Hn Hc. destruct r as [a|e|f]; [auto with dchain..|]. intros _. by rewrite (Hc f) in Hn.
Qed.

Lemma set_tss_le b : block_le b (set_tss_sig None b).
Proof. by split. Qed.

Lemma set_recv_le t b : block_le b (upd_header (set_recv_ts t) b).
Proof. by split. Qed.

(** ** Every step *)

(** The steps a client asks for, whose input is not to be trusted. *)
Definition from_client (o : op) : bool :=
  match o with OpRegister _ _ | OpPull _ | OpVote _ _ => true | _ => false end.

Definition inputs_ok (s : server) (o : op) : Prop :=
  match o with
  | OpRelayVote ser => ∃ v : BlockVote, ser = to_bytes v ∧ vote_wf v
  | OpRelayBlock ser => payload_ok P ser
  | OpCommit ser => payload_ok (λ b, P b ∧ quorum b) ser
  | OpVote client_id _ => u64 client_id
  | OpBeatTo t | OpVotesTo t | OpBlocksTo t | OpCommitsTo t | OpSignalTo _ t => is_peer cf s t
  | _ => True
  end.

(** What holds after any step but a round of the packing thread. *)
Definition step_post (o : op) (s : server) (r : outcome unit) (s' : server) : Prop :=
  node_inv s' ∧ good s s' ∧ (from_client o = false → ¬ is_crash r) ∧
  blk_seq_generator s' = blk_seq_generator s.

Lemma discard_wp {A} (m : M server A) (R : outcome unit → server → Prop) s :
  wp m (λ r s', R (obind r (λ _, Ret tt)) s') s → wp (discard m) R s.
Proof.
  intros H. unfold discard. wp_simpl. eapply wp_mono; [exact H|].
  intros [a|e|f] s' HR; by wp_simpl.
Qed.

(** The shapes of [step_post]. *)
Lemma quiet_post o {A} (m : M server A) s (k : A → unit) :
  Keeps counter_alloc_out m → node_inv s →
  (server_wf s → wp m (λ r s', good s s' ∧ (from_client o = false → ¬ is_crash r)) s) →
  wp m (λ r s', step_post o s (obind r (λ a, Ret (k a))) s') s.
Proof.
  intros Hk Hi Hm.
  eapply wp_mono; [by apply (quiet_step m (λ r _, from_client o = false → ¬ is_crash r))|].
  intros r s' (Hi' & Hg & Hc & Hs). split_and!; try done. intros Ho. specialize (Hc Ho).
  destruct r; auto with dchain.
Qed.

Lemma sending_post o {A} (m : M server A) s (k : A → unit) :
  Keeps counter_alloc m → node_inv s →
  (server_wf s → wp m (λ r s', good s s' ∧
     (∃ ms, outbox s' = outbox s ++ ms ∧ Forall msg_ok ms) ∧ ∃ a, r = Ret a) s) →
  wp m (λ r s', step_post o s (obind r (λ a, Ret (k a))) s') s.
Proof.
  intros Hk Hi Hm.
  eapply wp_mono; [apply (sending_step m (λ r, ∃ a, r = Ret a)); [done..|apply Hm, Hi]|].
  intros r s' (Hi' & Hg & [a ->] & Hs). split_and!; auto with dchain.
Qed.

Lemma obind_ret {A} (r : outcome A) : obind r Ret = r.
Proof. by destruct r. Qed.

Lemma obind_tt (r : outcome unit) : obind r (λ _, Ret tt) = r.
Proof. by destruct r as [[]| |]. Qed.

(** A lemma on [discard m] for one on [m] with a unit result. *)
Lemma unit_post o (m : M server unit) s :
  wp m (λ r s', step_post o s (obind r (λ _, Ret tt)) s') s → wp m (step_post o s) s.
Proof.
  intros H. eapply wp_mono; [exact H|]. intros r s'. cbn beta. by rewrite obind_tt.
Qed.

Lemma client_steps_inv s o :
  node_inv s → inputs_ok s o →
  match o with OpRegister _ _ | OpPull _ | OpGetBlocks _ | OpVote _ _ => True | _ => False end →
  wp (run_op cf o) (step_post o s) s.
Proof.
  intros Hi Hin Ho. destruct o; try done; simpl.
  - apply discard_wp, quiet_post; [apply _|done|]. intros Hwf.
    eapply wp_mono; [by apply (Register_good cf)|]. intros r s' Hg. split; [done|by intros [=]].
  - apply discard_wp, quiet_post; [apply _|done|]. intros Hwf.
    eapply wp_mono; [by apply (PullPendingBlocks_good cf)|]. intros r s' Hg.
    split; [done|by intros [=]].
  - apply discard_wp, quiet_post; [apply GetBlocks_id|done|]. intros Hwf.
    eapply wp_mono; [by apply (GetBlocks_spec cf)|]. intros r s' [-> ->].
    split; [by apply good_refl|auto with dchain].
  - apply unit_post, quiet_post; [apply _|done|]. intros Hwf.
    eapply wp_mono; [by apply VoteBlocks_item_good|]. intros r s' [Hg _].
    split; [done|by intros [=]].
Qed.

Lemma peer_steps_inv s o :
  node_inv s → inputs_ok s o →
  match o with OpRelayVote _ | OpRelayBlock _ | OpCommit _ | OpSync _ => True | _ => False end →
  wp (run_op cf o) (step_post o s) s.
Proof.
  intros Hi Hin Ho. pose proof (ni_wf _ Hi) as Hwf. destruct o; try done; simpl.
  - apply unit_post, quiet_post; [apply _|done|]. intros _.
    eapply wp_mono; [by apply RelayVote_item_good|]. intros r s' [Hg Hc].
    split; [done|]. intros _. eapply crash_only_no_crash; [|done].
    destruct Hin as (v & -> & Hv). rewrite (from_to v Hv). apply ret_no_crash.
  - eapply wp_mono; [apply wp_and; [apply (RelayBlock_item_good cf _ ser Hwf)|]|].
    { apply (wp_keeps counter_out); [apply _|apply RelayBlock_item_heap]. }
    intros r s' ([Hg Hc] & Hheap & Hf). unfold counter_out in Hf. simplify_eq.
    split_and!; [|done| |done].
    + eapply alloc_step; [done..|]. intros l b [Hb|Hb]%Hheap; [by left|right].
      eapply read_payload in Hb as (b0 & Hb0 & -> & _); [|done].
      eapply P_le; [apply set_tss_le|done].
    + intros _. eapply crash_only_no_crash; [|done]. by eapply payload_no_crash.
  - assert (bcast_ok cf ser) as Hok.
    { intros b Hb. eapply (read_payload (λ b, P b ∧ quorum b)) in Hb as (b0 & [_ Hq] & -> & _); [|done]. done. }
    eapply wp_mono; [apply wp_and; [apply (SPBcastCommit_item_good cf _ ser Hwf Hok)|]|].
    { apply (wp_keeps counter_out); [apply _|apply SPBcastCommit_item_heap]. }
    intros r s' ([Hg Hc] & Hheap & Hf). unfold counter_out in Hf. simplify_eq.
    split_and!; [|done| |done].
    + eapply alloc_step; [done..|]. intros l b [Hb|(b1 & t & Hb & ->)]%Hheap; [by left|right].
      eapply (read_payload (λ b, P b ∧ quorum b)) in Hb as (b0 & [Hb0 _] & -> & _); [|done].
      eapply P_le; [apply set_recv_le|]. eapply P_le; [apply set_tss_le|done].
    + intros _. eapply crash_only_no_crash; [|done]. by eapply payload_no_crash.
  - apply discard_wp, quiet_post; [apply _|done|]. intros _.
    unfold RelayBlockSync_handler. wp_simpl. split; [by apply good_label|auto with dchain].
Qed.

Lemma send_steps_inv s o :
  node_inv s → inputs_ok s o →
  match o with
  | OpBeatTo _ | OpVotesTo _ | OpBlocksTo _ | OpCommitsTo _ | OpSignalTo _ _ => True
  | _ => False
  end →
  wp (run_op cf o) (step_post o s) s.
Proof.
  intros Hi Hin Ho. pose proof (ni_wf _ Hi) as Hwf. destruct o; try done; simpl in *;
    apply discard_wp, sending_post; try done; try apply _; intros _;
    pose proof (wf_peers _ _ Hwf _ Hin) as (Hv & Hb & Hc & _).
  - eapply wp_mono; [by apply SPHeartbeat_spec|]. intros r s' (Hg & -> & _ & Ho').
    split_and!; [done|eexists; split; [done|by constructor]|by eexists].
  - eapply wp_mono; [apply RelayVote_spec; [done..|by apply queue_of_peer]|].
    intros r s' (Hg & _ & Ho' & Hr).
    split_and!; [done| |done]. eexists. split; [done|]. by apply vote_request_ok, queue_votes_ok.
  - eapply wp_mono; [apply RelayBlock_spec; [done..|by apply queue_of_peer]|].
    intros r s' (Hg & _ & Ho' & _ & _ & _ & Hr).
    split_and!; [done| |done]. eexists. split; [done|]. by apply block_request_ok.
  - eapply wp_mono; [apply SPBcastCommit_spec; [done..|by apply queue_of_peer]|].
    intros r s' (Hg & _ & Ho' & _ & Hr).
    split_and!; [done| |done]. eexists. split; [done|]. by apply commit_request_ok.
  - eapply wp_mono; [by apply RelayBlockSync_spec|]. intros r s' (Hg & Ho' & _ & _ & _ & _ & Hr).
    split_and!; [done|eexists; split; [done|by constructor]|done].
Qed.

(** Merging ends well, or with an exception of the library on a block of the queue. *)
Definition merged_or_refused (s : server) (r : outcome unit) : Prop :=
  r = Ret tt ∨ ∃ e, r = Throw e ∧ refused cf s e.

Lemma merged_or_refused_no_crash s r : merged_or_refused s r → ¬ is_crash r.
Proof. intros [->|(e & -> & _)]; auto with dchain. Qed.

Lemma merge_next_good s :
  server_wf s → wp (merge_next cf) (λ r s', good s s' ∧ merged_or_refused s r) s.
Proof.
  intros H. unfold merge_next, pop_merge, pop_front. apply wp_bind. unfold wp at 1.
  destruct (pb_merge_queue s) as [|l q] eqn:Hq; simpl; wp_simpl.
  { split; [by apply good_refl|by left]. }
  pose proof (good_merge_pop cf s l q H Hq) as Hg.
  destruct (wf_merge _ _ H l) as (b & Hb & Hqb); [rewrite Hq; by left|].
  rewrite (wp_merge_one cf l b) by done.
  pose proof (Block_merge_votes_no_crash b (client_count cf)) as Hnc.
  destruct (Block_merge_votes b _) as [m|e|f] eqn:Hm; [| |done].
  - split; [|by left]. eapply good_trans; [done|].
    apply after_merge_good; [apply Hg|done..|apply clock_u64].
  - split; [done|]. right. exists e. split; [done|]. exists l, b. rewrite Hq.
    split_and!; [by left|done..].
Qed.

(** How a step of a thread ends: only merging throws. *)
Lemma thread_step_end w i s o :
  server_wf s → allowed cf w i s o → in_thread o = true →
  (run_op cf o s).1 = Ret tt ∨
  (o = OpMergeOne ∨ o = OpTask MergeTimer) ∧
    ∃ e, (run_op cf o s).1 = Throw e ∧ refused cf s e.
Proof.
  intros Hwf Ha Ho.
  assert (∀ (m : M server bool), wp m (λ r _, ∃ ok, r = Ret ok) s → (discard m s).1 = Ret tt)
    as Hsend.
  { intros m [ok Hr]. unfold discard, mbind. destruct (m s) as [r s1]. simpl in Hr. by subst. }
  destruct o; try done; simpl in Ha;
    try (left; apply Hsend; pose proof (wf_peers _ _ Hwf _ Ha) as (Hv & Hb & Hc & _)).
  - eapply wp_mono; [by apply SPHeartbeat_spec|]. intros r s' (_ & -> & _). eauto.
  - eapply wp_mono; [apply RelayVote_spec; [done..|by apply queue_of_peer]|]. naive_solver.
  - eapply wp_mono; [apply RelayBlock_spec; [done..|by apply queue_of_peer]|]. naive_solver.
  - eapply wp_mono; [apply SPBcastCommit_spec; [done..|by apply queue_of_peer]|]. naive_solver.
  - eapply wp_mono; [by apply RelayBlockSync_spec|]. naive_solver.
  - destruct (merge_next_good s Hwf) as [_ [Hr|He]]; [by left|right]. split; [by left|done].
  - left. apply (remove_dead_blocks_spec cf s Hwf).
  - destruct (run_task_spec cf Hcf t s Hwf Htasks) as [_ [Hr|[-> He]]]; [by left|right].
    split; [by right|done].
Qed.

Lemma round_step_inv o (m : M server unit) s :
  Keeps counter_alloc m → node_inv s →
  (server_wf s → wp m (λ r s', good s s' ∧
     (∃ ms, outbox s' = outbox s ++ ms ∧ Forall msg_ok ms) ∧ r = Ret tt) s) →
  wp m (λ r s', step_post o s r s' ∧ r = Ret tt) s.
Proof.
  intros Hk Hi Hm.
  eapply wp_mono; [apply (sending_step m (λ r, r = Ret tt)); [done..|apply Hm, Hi]|].
  intros r s' (Hi' & Hg & -> & Hs). split; [|done]. split_and!; auto with dchain.
Qed.

Lemma thread_steps_inv s o :
  node_inv s → o ≠ OpTask PackRound →
  match o with OpMergeOne | OpRemoveDead | OpTask _ => True | _ => False end →
  wp (run_op cf o) (step_post o s) s.
Proof.
  intros Hi Hne Ho. destruct o as [| | | | | | | | | | | | | | |t]; try done; simpl.
  - apply unit_post, quiet_post; [unfold merge_next; keeps_tac|done|]. intros Hwf.
    eapply wp_mono; [by apply merge_next_good|]. intros r s' [Hg Hc%merged_or_refused_no_crash].
    done.
  - apply unit_post, quiet_post; [apply _|done|]. intros Hwf.
    eapply wp_mono; [by apply remove_dead_blocks_spec|]. intros r s' (-> & Hg & _).
    split; [done|auto with dchain].
  - destruct t; try done; simpl.
    + wp_simpl. split_and!; [done|by apply good_refl, Hi|auto with dchain|done].
    + wp_simpl. eapply wp_mono; [apply (round_step_inv (OpTask RelayVoteTimer));
        [unfold send_heartbeats; apply _|done|]|].
      { intros Hwf. eapply wp_mono; [by apply send_heartbeats_spec|].
        intros r s' ((Hg & Ho') & ->). split_and!; try done. eexists. split; [done|].
        apply round_ok. intros t _. by constructor. }
      intros r s1 [(Hi1 & Hg1 & _ & Hs1) ->].
      eapply wp_mono; [apply (round_step_inv (OpTask RelayVoteTimer));
        [unfold send_relay_votes; apply _|done|]|].
      { intros Hwf. eapply wp_mono; [by apply send_relay_votes_spec|].
        intros r s' ((Hg & _ & Ho') & ->). split_and!; try done. eexists. split; [done|].
        apply round_ok. intros t _. by apply vote_request_ok, queue_votes_ok. }
      intros r s2 [(Hi2 & Hg2 & _ & Hs2) ->].
      split_and!; [done|by eapply good_trans|auto with dchain|congruence].
    + eapply wp_mono; [apply (round_step_inv (OpTask RelayBlockTimer)); [apply _|done|]|by intros ?? []].
      intros Hwf. eapply wp_mono; [by apply send_relay_blocks_spec|].
      intros r s' ((Hg & _ & _ & _ & Ho') & ->). split_and!; try done.
      rewrite <- (assoc_L (++)) in Ho'. eexists. split; [done|]. apply Forall_app. split.
      * apply round_ok. intros t _. by apply block_request_ok.
      * apply Forall_concat, Forall_fmap, Forall_true. intros i. apply round_ok.
        intros t _. by constructor.
    + eapply wp_mono; [apply (round_step_inv (OpTask BcastCommitTimer));
        [unfold bcast_commits; apply _|done|]|by intros ?? []].
      intros Hwf. eapply wp_mono; [by apply bcast_commits_spec|].
      intros r s' ((Hg & _ & now & Ho') & ->). split_and!; try done. eexists. split; [done|].
      apply round_ok. intros t _. by apply commit_request_ok.
    + apply unit_post, quiet_post; [apply _|done|]. intros Hwf.
      eapply wp_mono; [by apply (run_task_spec cf Hcf MergeTimer)|].
      intros r s' (Hg & Hc%task_end_no_crash). done.
Qed.

(** Every step but a round of the packing thread. *)
Lemma step_inv s o :
  node_inv s → inputs_ok s o → o ≠ OpTask PackRound → wp (run_op cf o) (step_post o s) s.
Proof.
  intros Hi Hin Hne. destruct o;
    first [ by apply client_steps_inv | by apply peer_steps_inv | by apply send_steps_inv
          | by apply thread_steps_inv ].
Qed.

End one_server.

(** ** A round of the packing thread *)

Section packing.
Context {C : Crypto} {F : FlexBuffers} {E : Env} {EL : EnvLaws E}.
Context (cf : conf) (Htasks : conf_tasks_ok cf).

(** What a round adds: blocks with the next ids. *)
Record pack_post (s : server) (bs : list Block) (s' : server) : Prop := {
  pp_seq : blk_seq_generator s' = wrap64 (blk_seq_generator s + Z.of_nat (length bs));
  pp_len : Z.of_nat (length bs) ≤ INT_MAX;
  pp_ids i b : bs !! i = Some b →
    id_ (header_ b) = wrap64 (blk_seq_generator s + Z.of_nat i);
  pp_heap l b : heap s' !! l = Some b → heap s !! l = Some b ∨ b ∈ bs;
  pp_new b : b ∈ bs → ∃ l, heap s' !! l = Some b;
  pp_packer : bs ≠ [] → conf_server_id cf = server_count cf;
}.

Lemma pack_post_nil s : u64 (blk_seq_generator s) → pack_post s [] s.
Proof.
  intros H. split; try done; simpl.
  - by rewrite Z.add_0_r, wrap64_id.
  - by left.
  - intros b Hb. by apply not_elem_of_nil in Hb.
Qed.

Lemma packed_post s m t bs s' :
  server_wf cf s' → evolves (with_pool s m t) s' → conf_server_id cf = server_count cf →
  Z.of_nat (length bs) ≤ INT_MAX → packed (with_pool s m t) bs s' → pack_post s bs s'.
Proof.
  intros Hwf He Hid Hlen [p1 p2 p3 p4 p5 p6 p7 p8]. split; try done.
  - intros i b Hb. by apply p3.
  - intros l b Hb. destruct (ev_fresh _ _ He l) as [[b0 Hb0]|Hl]; [by eexists|left|right].
    + apply p4 in Hb0 as Hb1. simpl in Hb0. by simplify_eq.
    + pose proof (wf_heap _ _ Hwf _ _ Hb) as [Hlt _]. rewrite p5 in Hlt.
      destruct (lookup_lt_is_Some_2 bs (l - next_loc (with_pool s m t))) as [b' Hb']; [lia|].
      destruct (p3 _ _ Hb') as (_ & _ & _ & Hh).
      replace (next_loc (with_pool s m t) + (l - next_loc (with_pool s m t)))%nat with l
        in Hh by lia.
      simplify_eq. by eapply list_elem_of_lookup_2.
  - intros b [i Hi]%list_elem_of_lookup_1. destruct (p3 _ _ Hi) as (_ & _ & _ & Hh). eauto.
Qed.

Lemma pack_round_spec s :
  server_wf cf s →
  wp (run_task cf PackRound) (λ r s', (r = Ret tt ∧ good cf s s' ∧ ∃ bs, pack_post s bs s') ∧
    outbox s' = outbox s) s.
Proof.
  intros H. apply (wp_keeps outbox).
  { simpl. unfold pack_thread_round, generate_tx, generate_tx_one. keeps_tac. }
  simpl. destruct (Z.eqb_spec (conf_server_id cf) (server_count cf)) as [Hid|_]; cycle 1.
  { wp_simpl. split_and!; [done|by apply good_refl|]. exists []. apply pack_post_nil, H. }
  destruct Htasks as [Hac Htx].
  assert (∀ m t, good cf s (with_pool s m t) →
    wp (pack_block (tx_per_block cf) INT_MAX)
      (λ r s', r = Ret tt ∧ good cf s s' ∧ ∃ bs, pack_post s bs s') (with_pool s m t)) as Hpack.
  { intros m t Hg. eapply wp_mono; [by apply (pack_block_spec cf), Htx; apply Hg|].
    intros r s' (-> & Hg' & bs & Hp & Hlen & _). split_and!; [done|by eapply good_trans|].
    exists bs. eapply packed_post; [apply Hg'|apply Hg'|done| |done].
    rewrite Hlen. unfold pack_rounds, INT_MAX. destruct (_ =? 0); lia. }
  unfold pack_thread_round. wp_simpl. destruct (_ <? pb_pool_limit cf); wp_simpl; cycle 1.
  { pose proof (Hpack (pending_txs s) (tick s)) as Hp.
    assert (with_pool s (pending_txs s) (tick s) = s) as Hs by (by destruct s).
    rewrite Hs in Hp. by apply Hp, good_refl. }
  eapply wp_mono; [by apply generate_tx_spec|]. intros r s1 (-> & Hg & m & t & -> & _).
  by apply Hpack.
Qed.

End packing.
