(* ===== verification/WorldProofs.v ===== *)
(** Invariants of the whole system: what every block at a server and in the network
    satisfies in every reachable state. *)
From Stdlib Require Import ZArith Lia.
From stdpp Require Import base tactics list gmap strings sorting relations.
From S2P Require Import Prelude Decimal Entity FlexCodec ServerState ServerInv ClientService.
From S2P Require Import PeerService ServerCore HandlersProofs SendersProofs CoreProofs MergeProofs Frames.
From S2P Require Import System SystemProofs.


Lemma pack_round_dec (o : op) :
  {o = OpTask PackRound} + {o ≠ OpTask PackRound}.
Proof. destruct o as [| | | | | | | | | | | | | | |[]]; try (by right); by left. Defined.

Section world.
Context {C : Crypto} {CL : CryptoLaws C} {F : FlexBuffers} {L : FlexBuffersLaws F}.
Context {E : Env} {EL : EnvLaws E}.
Context (cfs : Z → conf) (n c : Z) (Hsys : sys_ok cfs n c).

Lemma sys_conf_ok i : conf_ok (cfs i).
Proof using Hsys. unfold conf_ok. rewrite (so_servers _ _ _ Hsys). apply Hsys. Qed.

Definition world_inv (P : Block → Prop) (w : world) : Prop :=
  ∀ i nd, w !! i = Some nd →
    1 ≤ i ≤ n ∧ server_id (state nd) = i ∧ node_inv (cfs i) P (state nd).

Lemma quorum_any i j b : quorum (cfs j) b → quorum (cfs i) b.
Proof using Hsys. unfold quorum. by rewrite !(so_clients _ _ _ Hsys). Qed.

(** A request in the network is fit for the server it is addressed to. *)
Lemma sent_ok P w i req :
  world_inv P w → sent w i req → msg_ok (cfs i) P (i, req).
Proof using Hsys.
  intros Hw (j & nd & Hj & Hin). destruct (Hw _ _ Hj) as (_ & _ & [_ _ Hout]).
  rewrite Forall_forall in Hout. specialize (Hout _ Hin). unfold msg_ok in *. simpl in *.
  destruct req; try done. eapply payload_ok_mono; [|exact Hout].
  intros b [? ?]. split; [done|by eapply quorum_any].
Qed.

Lemma allowed_inputs P w i s o :
  world_inv P w → w !! i = Some (MkNode true s) → allowed (cfs i) w i s o →
  inputs_ok (cfs i) P s o.
Proof using Hsys.
  intros Hw Hi Ha. destruct o; try done; simpl in *.
  - destruct Ha as (from & votes & Hs & Hin). apply (sent_ok P) in Hs; [|done].
    unfold msg_ok in Hs. simpl in Hs. rewrite Forall_forall in Hs. by apply Hs.
  - destruct Ha as (from & blocks & Hs & Hin). apply (sent_ok P) in Hs; [|done].
    unfold msg_ok in Hs. simpl in Hs. rewrite Forall_forall in Hs. by apply Hs.
  - destruct Ha as (from & blocks & ts & Hs & Hin). apply (sent_ok P) in Hs; [|done].
    unfold msg_ok in Hs. simpl in Hs. rewrite Forall_forall in Hs. by apply Hs.
Qed.

Lemma msg_ok_mono cf (P P' : Block → Prop) m : (∀ b, P b → P' b) → msg_ok cf P m → msg_ok cf P' m.
Proof.
  intros HP. unfold msg_ok. destruct m.2; try done; apply payload_ok_mono; naive_solver.
Qed.

Lemma node_inv_mono cf (P P' : Block → Prop) s :
  (∀ b, P b → P' b) → node_inv cf P s → node_inv cf P' s.
Proof.
  intros HP [Hwf Hh Ho]. split; [done|eauto|].
  eapply Forall_impl; [exact Ho|]. intros m. by apply msg_ok_mono.
Qed.

Definition le_closed (P : Block → Prop) : Prop := ∀ b b', block_le b b' → P b → P b'.

(** What any step does to the server that makes it: [bs] are the blocks it packs. *)
Record op_post (P : Block → Prop) (i : Z) (s : server) (bs : list Block) (s' : server) : Prop := {
  op_good : good (cfs i) s s';
  op_pack : bs ≠ [] → i = n;
  op_added : pack_post (cfs i) s bs s' ∨ bs = [] ∧ blk_seq_generator s' = blk_seq_generator s;
  op_inv P' : (∀ b, P b → P' b) → (∀ b, b ∈ bs → P' b) → node_inv (cfs i) P' s';
}.

Lemma run_op_post P w i s o :
  le_closed P → world_inv P w → w !! i = Some (MkNode true s) → allowed (cfs i) w i s o →
  wp (run_op (cfs i) o) (λ r s', (∃ bs, op_post P i s bs s') ∧
    (from_client o = false → ¬ is_crash r)) s.
Proof using All.
  intros HP Hw Hi Ha. destruct (Hw _ _ Hi) as (_ & _ & Hn). simpl in Hn.
  pose proof (allowed_inputs P w i s o Hw Hi Ha) as Hin.
  destruct (pack_round_dec o) as [->|Hne].
  - eapply wp_mono; [apply (pack_round_spec (cfs i) (so_tasks _ _ _ Hsys i)), Hn|].
    intros r s' ((-> & Hg & bs & Hp) & Hout). split; [|auto with dchain]. exists bs.
    split; [done| |by left|].
    + intros Hbs. apply Hp in Hbs. by rewrite (so_id _ _ _ Hsys), (so_servers _ _ _ Hsys) in Hbs.
    + intros P' HP' Hbs. eapply alloc_step; [by eapply node_inv_mono|done..|].
      intros l b [?|?]%(pp_heap _ _ _ _ Hp); auto.
  - eapply wp_mono; [apply (step_inv (cfs i) (sys_conf_ok i) (so_tasks _ _ _ Hsys i) P HP); done|].
    intros r s' (Hn' & Hg & Hc & Hs). split; [|done]. exists []. split; try done; [by right|].
    intros P' HP' _. by eapply node_inv_mono.
Qed.

(** ** Reachable states *)

Lemma after_op_post P w i s o :
  le_closed P → world_inv P w → w !! i = Some (MkNode true s) → allowed (cfs i) w i s o →
  ∃ bs, op_post P i s bs (state (after_op (cfs i) o s)).
Proof using All.
  intros HP Hw Hi Ha. pose proof (run_op_post P w i s o HP Hw Hi Ha) as [H _].
  unfold after_op. by destruct (run_op (cfs i) o s).
Qed.

Lemma world_inv_insert P P' w i s bs nd' :
  world_inv P w → w !! i = Some (MkNode true s) → op_post P i s bs (state nd') →
  (∀ b, P b → P' b) → (∀ b, b ∈ bs → P' b) → world_inv P' (<[i := nd']> w).
Proof.
  intros Hw Hi Hp HP Hbs j nd [[<- <-]|[_ Hj]]%lookup_insert_Some.
  - destruct (Hw _ _ Hi) as (Hr & Hid & _). simpl in Hid. split_and!; try apply Hr.
    + rewrite (ev_id _ _ (proj2 (op_good _ _ _ _ _ Hp))). done.
    + by eapply op_inv.
  - destruct (Hw _ _ Hj) as (Hr & Hid & Hn). split_and!; try done; try apply Hr.
    by eapply node_inv_mono.
Qed.

Lemma world_inv_step P w w' :
  le_closed P → (∀ b, P b) → world_inv P w → wstep cfs w w' → world_inv P w'.
Proof using All.
  intros HP Hall Hw Hs. destruct Hs as [w i s o Hi Ha].
  destruct (after_op_post P w i s o HP Hw Hi Ha) as [bs Hp].
  by eapply world_inv_insert.
Qed.

Lemma initial_inv P w : initial cfs n w → world_inv P w.
Proof using Hsys.
  intros Hinit i nd Hi. rewrite Hinit in Hi. case_decide as Hr; [|done].
  injection Hi as <-. split; [done|]. simpl.
  pose proof (start_eq (cfs i) (so_db _ _ _ Hsys i) (so_dkg _ _ _ Hsys i)) as (_ & m & Heq & _). rewrite Heq.
  split; [apply (so_id _ _ _ Hsys)|]. split; [|done|done].
  apply started_wf; [apply sys_conf_ok|apply (so_addrs _ _ _ Hsys)].
Qed.

Definition anything (b : Block) : Prop := True.

Lemma anything_closed : le_closed anything.
Proof. done. Qed.

Lemma reachable_inv w : reachable cfs n w → world_inv anything w.
Proof using All.
  intros (w0 & Hinit & Hsteps).
  assert (world_inv anything w0) as H0 by by apply initial_inv.
  clear Hinit. induction Hsteps as [w|w1 w2 w3 H12 _ IH]; [done|].
  apply IH. by eapply world_inv_step.
Qed.

(** A server only moves forward along a run. *)
Lemma steps_evolve w w' i nd :
  world_inv anything w → rtc (wstep cfs) w w' → w !! i = Some nd →
  ∃ nd', w' !! i = Some nd' ∧ evolves (state nd) (state nd').
Proof using All.
  intros Hw Hsteps. revert nd Hw.
  induction Hsteps as [w|w1 w2 w3 H12 _ IH]; intros nd Hw Hi; [by eexists|].
  assert (world_inv anything w2) as Hw2 by by eapply world_inv_step.
  destruct H12 as [w1 j s o Hj Ha].
  destruct (after_op_post anything w1 j s o anything_closed Hw Hj Ha) as [bs Hp].
  assert (∃ nd2, <[j:=after_op (cfs j) o s]> w1 !! i = Some nd2 ∧
                 evolves (state nd) (state nd2)) as (nd2 & Hi2 & He2).
  { destruct (decide (i = j)) as [->|Hne].
    - rewrite lookup_insert_eq. eexists. split; [done|]. simplify_eq. apply Hp.
    - rewrite lookup_insert_ne by done. by exists nd. }
  destruct (IH nd2 Hw2 Hi2) as (nd3 & Hi3 & He3). exists nd3. split; [done|by etrans].
Qed.

(** ** Agreement *)

(** What a block is, apart from time stamps of its distribution, votes and signature. *)
Definition content (b : Block) : Z * Z * list Transaction :=
  (base_id_ (header_ b), proposal_ts_ (header_ b), tx_vec_ b).

Abbreviation ledger := (gmap Z (Z * Z * list Transaction)).

(** The block is the one the ledger has under its id. *)
Definition listed (G : ledger) (b : Block) : Prop := G !! id_ (header_ b) = Some (content b).

Lemma listed_closed G : le_closed (listed G).
Proof.
  intros b b' [h1 h2 h3 h4 h5 h6]. unfold listed, content. by rewrite h1, h2, h3, h5.
Qed.

(** Every block in the system is in the ledger, every entry of which was packed by server
    [n] under an id below its counter. *)
Record agreed (G : ledger) (w : world) : Prop := {
  ag_inv : world_inv (listed G) w;
  ag_packed id x : G !! id = Some x → ∃ nd l b, w !! n = Some nd ∧
    heap (state nd) !! l = Some b ∧ id_ (header_ b) = id ∧ content b = x ∧
    id < blk_seq_generator (state nd);
}.

(** The ids of the blocks of a round that does not wrap around. *)
Lemma pack_ids cf s bs s' :
  u64 (blk_seq_generator s) → pack_post cf s bs s' →
  blk_seq_generator s ≤ blk_seq_generator s' →
  blk_seq_generator s' = blk_seq_generator s + Z.of_nat (length bs) ∧
  ∀ i b, bs !! i = Some b → id_ (header_ b) = blk_seq_generator s + Z.of_nat i.
Proof.
  intros Hu Hp Hle. pose proof (pp_len _ _ _ _ Hp) as Hlen. unfold INT_MAX in Hlen.
  rewrite (pp_seq _ _ _ _ Hp) in Hle |- *. unfold u64 in Hu.
  assert (blk_seq_generator s + Z.of_nat (length bs) < 2 ^ 64) as Hlt.
  { destruct (Z.lt_ge_cases (blk_seq_generator s + Z.of_nat (length bs)) (2 ^ 64)) as [|Hge];
      [done|]. exfalso. revert Hle. unfold wrap64.
    rewrite <- (Z_mod_plus_full _ (-1)), Z.mod_small; lia. }
  split; [apply wrap64_id; unfold u64; lia|].
  intros i b Hb. rewrite (pp_ids _ _ _ _ Hp _ _ Hb). apply wrap64_id. unfold u64.
  apply lookup_lt_Some in Hb. lia.
Qed.

(** The ledger with the blocks of a round. *)
Definition enter (bs : list Block) (G : ledger) : ledger :=
  list_to_map ((λ b, (id_ (header_ b), content b)) <$> bs) ∪ G.

Lemma enter_spec bs G id x :
  NoDup (block_ids bs) → (∀ b, b ∈ bs → G !! id_ (header_ b) = None) →
  enter bs G !! id = Some x ↔
  G !! id = Some x ∨ ∃ b, b ∈ bs ∧ id_ (header_ b) = id ∧ content b = x.
Proof.
  intros Hnd Hfresh. unfold enter.
  assert (((λ b, (id_ (header_ b), content b)) <$> bs).*1 = block_ids bs) as Hkeys
    by (by rewrite <- list_fmap_compose).
  assert ((list_to_map ((λ b, (id_ (header_ b), content b)) <$> bs) : ledger) !! id = Some x
    ↔ ∃ b, b ∈ bs ∧ id_ (header_ b) = id ∧ content b = x) as Hl.
  { rewrite <- elem_of_list_to_map by (by rewrite Hkeys). rewrite list_elem_of_fmap. naive_solver. }
  rewrite lookup_union_Some_raw, Hl. split.
  - intros [?|[_ ?]]; auto.
  - intros [HG|?]; [|by left]. right. split; [|done].
    apply not_elem_of_list_to_map_1. rewrite Hkeys. unfold block_ids.
    intros (b & -> & Hb)%list_elem_of_fmap. apply Hfresh in Hb. congruence.
Qed.

Lemma agreed_same_ledger G w w' i s nd' :
  agreed G w → w !! i = Some (MkNode true s) → w' = <[i := nd']> w →
  op_post (listed G) i s [] (state nd') → blk_seq_generator s ≤ blk_seq_generator (state nd') →
  agreed G w'.
Proof.
  intros [Hw Hpk] Hi -> Hp Hle. split.
  - eapply world_inv_insert; [done..|]. intros b Hb. by apply not_elem_of_nil in Hb.
  - intros id x (nd & l & b & Hn & Hb & Hid & Hx & Hlt)%Hpk.
    destruct (decide (n = i)) as [<-|Hne].
    + rewrite lookup_insert_eq. assert (nd = MkNode true s) as -> by congruence. simpl in *.
      destruct (ev_heap _ _ (proj2 (op_good _ _ _ _ _ Hp)) _ _ Hb) as (b' & Hb' & Hle').
      exists nd', l, b'. split_and!; [done..| | |lia].
      * by rewrite (le_id _ _ Hle').
      * rewrite <- Hx. destruct Hle'. unfold content. congruence.
    + rewrite lookup_insert_ne by done. by exists nd, l, b.
Qed.

Lemma agreed_pack G w s bs nd' :
  agreed G w → w !! n = Some (MkNode true s) →
  op_post (listed G) n s bs (state nd') → pack_post (cfs n) s bs (state nd') →
  blk_seq_generator s ≤ blk_seq_generator (state nd') →
  G ⊆ enter bs G ∧ agreed (enter bs G) (<[n := nd']> w).
Proof.
  intros [Hw Hpk] Hn Hp Hpp Hle. destruct (Hw _ _ Hn) as (_ & _ & Hni). simpl in Hni.
  destruct (pack_ids _ _ _ _ (wf_seq _ _ (ni_wf _ _ _ Hni)) Hpp Hle) as [Hseq Hids].
  assert (NoDup (block_ids bs)) as Hnd.
  { apply NoDup_alt. intros i j id. unfold block_ids. rewrite !list_lookup_fmap.
    intros (b1 & Hb1 & ->)%fmap_Some_1 (b2 & Hb2 & Heq)%fmap_Some_1.
    rewrite (Hids _ _ Hb1), (Hids _ _ Hb2) in Heq. lia. }
  assert (∀ b, b ∈ bs → G !! id_ (header_ b) = None) as Hfresh.
  { intros b [i Hb]%list_elem_of_lookup_1. destruct (G !! _) eqn:EG; [|done].
    apply Hpk in EG as (nd & l & b0 & Hnd0 & _ & Hid0 & _ & Hlt).
    assert (nd = MkNode true s) as -> by congruence. simpl in Hlt.
    rewrite (Hids _ _ Hb) in Hlt. lia. }
  pose proof (λ id x, enter_spec bs G id x Hnd Hfresh) as Hspec.
  split; [apply map_subseteq_spec; intros id x Hx; apply Hspec; by left|]. split.
  - eapply world_inv_insert; [done..| |]; intros b Hb; apply Hspec; [by left|right; by exists b].
  - intros id x Hx%Hspec. rewrite lookup_insert_eq. exists nd'.
    destruct Hx as [(nd & l & b & Hnd0 & Hb & Hid & Hx & Hlt)%Hpk|(b & Hb & Hid & Hx)].
    + assert (nd = MkNode true s) as -> by congruence. simpl in *.
      destruct (ev_heap _ _ (proj2 (op_good _ _ _ _ _ Hp)) _ _ Hb) as (b' & Hb' & Hle').
      exists l, b'. split_and!; [done..| | |lia].
      * by rewrite (le_id _ _ Hle').
      * rewrite <- Hx. destruct Hle'. unfold content. congruence.
    + destruct (pp_new _ _ _ _ Hpp _ Hb) as [l Hl]. exists l, b. split_and!; try done.
      apply list_elem_of_lookup_1 in Hb as [i Hi]. rewrite <- Hid, (Hids _ _ Hi), Hseq.
      apply lookup_lt_Some in Hi. lia.
Qed.

(** The ledger only grows. *)
Lemma agreed_step G w w' :
  agreed G w → wstep_nowrap cfs w w' → ∃ G', G ⊆ G' ∧ agreed G' w'.
Proof using All.
  intros Hag [Hstep Hle]. destruct Hstep as [w i s o Hi Ha].
  specialize (Hle i _ (after_op (cfs i) o s) Hi (lookup_insert_eq _ _ _)). simpl in Hle.
  destruct (after_op_post (listed G) w i s o (listed_closed G) (ag_inv _ _ Hag) Hi Ha)
    as [bs Hp].
  destruct (op_added _ _ _ _ _ Hp) as [Hpp|[-> _]]; [|exists G; split; [done|by eapply agreed_same_ledger]].
  destruct bs as [|b bs]; [exists G; split; [done|by eapply agreed_same_ledger]|].
  assert (i = n) as -> by (by eapply op_pack). exists (enter (b :: bs) G). by eapply agreed_pack.
Qed.

Lemma reachable_agreed w : reachable_nowrap cfs n w → ∃ G, agreed G w.
Proof using All.
  intros (w0 & Hinit & Hsteps).
  assert (∃ G, agreed G w0) as H0.
  { exists ∅. split; [by apply initial_inv|]. intros id x. by rewrite lookup_empty. }
  clear Hinit. induction Hsteps as [w|w1 w2 w3 H12 _ IH]; [done|].
  apply IH. destruct H0 as [G HG]. destruct (agreed_step _ _ _ HG H12) as (G' & _ & ?). by exists G'.
Qed.

Lemma reachable_nowrap_reachable w : reachable_nowrap cfs n w → reachable cfs n w.
Proof.
  intros (w0 & Hinit & Hsteps). exists w0. split; [done|].
  clear Hinit. induction Hsteps as [|w1 w2 w3 [H12 _]]; [done|by eapply rtc_l].
Qed.

Lemma reachable_wf w i nd :
  reachable cfs n w → w !! i = Some nd → server_wf (cfs i) (state nd).
Proof using All. intros Hr Hi. apply (reachable_inv w Hr i nd Hi). Qed.

End world.
