(* ===== verification/Ledger.v ===== *)
(** The abstract chain the servers implement: a ledger that is only appended to, and the
    ids each server has committed. The system refines it. *)
From Stdlib Require Import ZArith Lia.
From stdpp Require Import base tactics list gmap strings sorting relations.
From S2P Require Import Prelude Entity FlexCodec ServerState ServerInv ServerCore CoreProofs System.
From S2P Require Import SystemProofs WorldProofs.

(** ** The abstract machine *)

(** The content of a block: base, proposal time and transactions. *)
Abbreviation entry_content := (Z * Z * list Transaction)%type.

Record chain := MkChain {
  packed : gmap Z entry_content;
  committed_by : gmap Z (gset Z);
}.

(** An id is entered once, and a server commits only ids that have been entered. *)
Inductive chain_step : chain → chain → Prop :=
| ChainAppend G K id x :
    G !! id = None → chain_step (MkChain G K) (MkChain (<[id := x]> G) K)
| ChainCommit G K i X id :
    is_Some (G !! id) → K !! i = Some X →
    chain_step (MkChain G K) (MkChain G (<[i := {[id]} ∪ X]> K)).

(** The chain when the servers [1 .. n] start. *)
Definition empty_chain (n : Z) : chain :=
  MkChain ∅ (list_to_map ((λ i, (i, ∅)) <$> ids_upto (Z.to_nat n))).

(** What the abstract machine promises: entries stay, and commits stay. *)
Lemma chain_step_grows σ σ' : chain_step σ σ' →
  packed σ ⊆ packed σ' ∧
  ∀ i X, committed_by σ !! i = Some X → ∃ X', committed_by σ' !! i = Some X' ∧ X ⊆ X'.
Proof.
  intros [G K id x Hn|G K i X id _ Hi]; simpl; split.
  - by apply insert_subseteq.
  - intros i X Hi. by exists X.
  - done.
  - intros j Y Hj. destruct (decide (i = j)) as [<-|Hne].
    + rewrite lookup_insert_eq. eexists. split; [done|]. simplify_eq. set_solver.
    + rewrite lookup_insert_ne by done. by exists Y.
Qed.

Lemma chain_appends D G K :
  D ##ₘ G → rtc chain_step (MkChain G K) (MkChain (D ∪ G) K).
Proof.
  induction D as [|i x D Hi IH] using map_ind; intros Hd.
  { by rewrite (left_id_L ∅ (∪)). }
  apply map_disjoint_insert_l in Hd as [HG Hd]. etrans; [by apply IH|].
  rewrite <- insert_union_l. apply rtc_once. constructor. by apply lookup_union_None.
Qed.

Lemma chain_commits D G K i X :
  (∀ id, id ∈ D → is_Some (G !! id)) → K !! i = Some X →
  rtc chain_step (MkChain G K) (MkChain G (<[i := D ∪ X]> K)).
Proof.
  revert X. induction D as [|id D Hid IH] using set_ind_L; intros X HD Hi.
  { by rewrite (left_id_L ∅ (∪)), insert_id. }
  etrans; [apply (IH X); [|done]; intros id' H; apply HD; set_solver|].
  rewrite <- (insert_insert_eq _ i ({[id]} ∪ D ∪ X) (D ∪ X)). apply rtc_once.
  rewrite <- (assoc_L (∪)). apply ChainCommit; [apply HD; set_solver|apply lookup_insert_eq].
Qed.

(** ** The refinement mapping *)

Section refinement.
Context {C : Crypto} {CL : CryptoLaws C} {F : FlexBuffers} {L : FlexBuffersLaws F}.
Context {E : Env} {EL : EnvLaws E}.
Context (cfs : Z → conf) (n c : Z) (Hsys : sys_ok cfs n c).

Definition committed_ids (nd : node) : gset Z := dom (committed_blks (state nd)).

Definition refines (w : world) (σ : chain) : Prop :=
  agreed cfs n (packed σ) w ∧ committed_by σ = committed_ids <$> w.

Lemma committed_packed G w i nd id :
  agreed cfs n G w → w !! i = Some nd → id ∈ committed_ids nd → is_Some (G !! id).
Proof.
  intros HG Hi Hin. unfold committed_ids in Hin. apply elem_of_dom in Hin as [l Hl]. destruct (ag_inv _ _ _ _ HG _ _ Hi) as (_ & _ & Hn).
  destruct (wf_committed _ _ (ni_wf _ _ _ Hn) _ _ Hl) as (b & Hb & <- & _).
  eexists. exact (ni_heap _ _ _ Hn _ _ Hb).
Qed.

Lemma refines_initial w : initial cfs n w → refines w (empty_chain n).
Proof using All.
  intros Hw. split.
  - split; [by apply (initial_inv cfs n c Hsys)|]. intros id x Hx. simpl in Hx. by rewrite lookup_empty in Hx.
  - simpl. apply map_eq. intros i. rewrite lookup_fmap, Hw.
    assert (∀ j, j ∈ ids_upto (Z.to_nat n) ↔ 1 ≤ j ≤ n) as Hids.
    { intros j. unfold ids_upto. rewrite list_elem_of_fmap. split.
      - intros (k & -> & Hk%elem_of_seq). lia.
      - intros Hj. exists (Z.to_nat (j - 1)). rewrite elem_of_seq. lia. }
    case_decide as Hr.
    + simpl. pose proof (start_eq (cfs i) (so_db _ _ _ Hsys i) (so_dkg _ _ _ Hsys i)) as (_ & m & Heq & _).
      unfold committed_ids. simpl. rewrite Heq. simpl. rewrite dom_empty_L.
      apply elem_of_list_to_map_1'.
      * by intros X (j & [= _ ->] & _)%list_elem_of_fmap.
      * apply list_elem_of_fmap. exists i. split; [done|by apply Hids].
    + simpl. apply not_elem_of_list_to_map_1.
      intros (p & -> & (j & -> & Hj)%list_elem_of_fmap)%list_elem_of_fmap. by apply Hr, Hids.
Qed.

Lemma refines_step w w' σ :
  wstep_nowrap cfs w w' → refines w σ → ∃ σ', rtc chain_step σ σ' ∧ refines w' σ'.
Proof using All.
  intros Hs [HG HK]. destruct σ as [G K]. simpl in *. subst K.
  destruct (agreed_step cfs n c Hsys G w w' HG Hs) as (G' & Hsub & HG').
  exists (MkChain G' (committed_ids <$> w')). split; [|done].
  assert ((G' ∖ G) ##ₘ G) as Hd by (by apply map_disjoint_difference_l1).
  pose proof (chain_appends (G' ∖ G) G (committed_ids <$> w) Hd) as Happ.
  rewrite map_union_comm, map_difference_union in Happ by done.
  etrans; [exact Happ|]. clear Hd Happ.
  destruct Hs as [Hs _]. inversion Hs as [w1 i s o Hi Ha]; subst w1 w'.
  set (nd := after_op (cfs i) o s) in *. rewrite fmap_insert.
  assert (committed_ids (MkNode true s) ⊆ committed_ids nd) as Hgrow.
  { destruct (after_op_post cfs n c Hsys (listed G) w i s o (listed_closed G)
                (ag_inv _ _ _ _ HG) Hi Ha) as [bs Hp].
    apply (ev_committed _ _ (proj2 (op_good _ _ _ _ _ _ _ Hp))). }
  assert (committed_ids nd =
          (committed_ids nd ∖ committed_ids (MkNode true s)) ∪ committed_ids (MkNode true s)) as ->.
  { apply set_eq. intros x. rewrite elem_of_union, elem_of_difference.
    destruct (decide (x ∈ committed_ids (MkNode true s))); set_solver. }
  apply chain_commits.
  - intros id [Hid _]%elem_of_difference. eapply (committed_packed G' (<[i := nd]> w) i nd);
      [done|apply lookup_insert_eq|done].
  - by rewrite lookup_fmap, Hi.
Qed.

End refinement.
