(* ===== verification/Liveness.v ===== *)
(** Progress: what a run of the system can always reach from a state in which a block
    waits for votes. A vote given to any server arrives at a server the block is assigned
    to; with the votes of all clients the block is committed there, and then everywhere. *)
From Stdlib Require Import ZArith Lia.
From stdpp Require Import base tactics list gmap strings sorting relations.
From S2P Require Import Prelude Decimal Entity FlexCodec ServerState ServerInv ClientService.
From S2P Require Import PeerService ServerCore HandlersProofs SendersProofs CoreProofs MergeProofs.
From S2P Require Import Frames System SystemProofs WorldProofs.

(** ** Stages of a block at one server *)

Section stages.
Context {C : Crypto}.

(** The block [b] at [l] is pending under [id], and nothing waits to be merged. *)
Record awaiting (s : server) (id : Z) (l : loc) (b : Block) : Prop := {
  wt_pending : pending_blks s !! id = Some l;
  wt_heap : heap s !! l = Some b;
  wt_alive : id ∉ dead_block s;
  wt_merge : pb_merge_queue s = [];
}.

(** It has all its votes and is the next block to be merged. *)
Record to_merge (s : server) (l : loc) (b : Block) : Prop := {
  mb_heap : heap s !! l = Some b;
  mb_merge : pb_merge_queue s = [l];
}.

(** A vote of the client [k] for the block [id], as honest clients make it. *)
Definition honest_vote (id k : Z) (v : BlockVote) : Prop :=
  vote_wf v ∧ voter_id_ v = k ∧ block_id_ v = id.

(** Bytes of a block that carries it. *)
Definition carries {F : FlexBuffers} (ser : bytes) (id k : Z) (v : BlockVote) : Prop :=
  ∃ blk, from_bytes (T := Block) ser = Ret blk ∧ id_ (header_ blk) = id ∧
         votes_ blk !! k = Some v.

(** The servers a block is assigned to, by its id. *)
Definition assigned (n id : Z) : gset Z := {[ id mod n + 1; next_server n (id mod n + 1) ]}.

(** A vote on its way: the client, the server it sends the vote to, the bytes, the vote. *)
Record ballot := MkBallot {
  by_client : Z;
  at_node : Z;
  vote_ser : bytes;
  vote_of : BlockVote;
}.

Definition cast (ds : list ballot) : gmap Z BlockVote :=
  list_to_map ((λ d, (by_client d, vote_of d)) <$> ds).

End stages.

Section liveness.
Context {C : Crypto} {CL : CryptoLaws C} {F : FlexBuffers} {L : FlexBuffersLaws F}.
Context {E : Env} {EL : EnvLaws E}.
Context (cfs : Z → conf) (n c : Z) (Hsys : sys_ok cfs n c).

Local Abbreviation at_server w i s := (w !! i = Some (MkNode true s)).

Lemma op_step w i s o s' :
  at_server w i s → allowed (cfs i) w i s o → run_op (cfs i) o s = (Ret tt, s') →
  wstep cfs w (<[i := MkNode true s']> w).
Proof.
  intros Hi Ha Hr. pose proof (WStep cfs w i s o Hi Ha) as H.
  unfold after_op in H. by rewrite Hr in H.
Qed.

Lemma reachable_step w w' : reachable cfs n w → wstep cfs w w' → reachable cfs n w'.
Proof. intros (w0 & Hi & Hw) Hs. exists w0. split; [done|by eapply rtc_r]. Qed.

Lemma reachable_steps w w' : reachable cfs n w → rtc (wstep cfs) w w' → reachable cfs n w'.
Proof. intros (w0 & Hi & Hw) Hs. exists w0. split; [done|by etrans]. Qed.

(** ** A vote at a server *)

(** After a vote at the server that has the block pending. *)
Definition voted (s : server) (id : Z) (l : loc) (b : Block) : Prop :=
  if is_vote_enough b c then to_merge s l b else awaiting s id l b.

Lemma after_vote_stage i s s1 id l b b' :
  awaiting s id l b → pending_blks s1 = pending_blks s → pb_merge_queue s1 = pb_merge_queue s →
  dead_block s1 = dead_block s →
  voted (after_vote (cfs i) id l b' s1) id l b' ∧
  dead_block (after_vote (cfs i) id l b' s1) = dead_block s.
Proof.
  intros [Hp Hh Hd Hm] E1 E2 E3. unfold voted, after_vote. rewrite (so_clients _ _ _ Hsys).
  destruct (is_vote_enough b' c); (split; [|done]); split; simpl; try apply lookup_insert_eq.
  - by rewrite E2, Hm.
  - by rewrite E1.
  - by rewrite E3.
  - by rewrite E2.
Qed.

Lemma target_set blk : u64 (id_ (header_ blk)) →
  get_server_id blk n = Ret (assigned n (id_ (header_ blk))).
Proof. intros H. apply get_server_id_unfold; [apply Hsys|done]. Qed.

(** Any vote handler returns, whatever it finds. *)
Lemma vote_handled w i s k id ser v :
  reachable cfs n w → at_server w i s → id ∉ dead_block s → carries ser id k v →
  ∃ s', VoteBlocks_item (cfs i) k ser s = (Ret tt, s') ∧ dead_block s' = dead_block s ∧
    ∀ t, t ∈ assigned n id → t ≠ i → relay_votes s' !! t = (λ q, q ++ [v]) <$> relay_votes s !! t.
Proof.
  intros Hr Hi Hd (blk & Hser & Hid & Hv).
  destruct (reachable_inv cfs n c Hsys w Hr _ _ Hi) as (_ & Hsid & Hn). simpl in Hsid.
  pose proof (ni_wf _ _ _ Hn) as Hwf. simpl in Hwf.
  assert (u64 (id_ (header_ blk))) as Hid64 by (apply Block_from_wf in Hser as [Hh _]; apply Hh).
  pose proof (target_set blk Hid64) as Ht. rewrite <- (so_servers _ _ _ Hsys i) in Ht at 1.
  rewrite Hid in *.
  rewrite (VoteBlocks_item_eq (cfs i) (sys_conf_ok cfs n c Hsys i) s k ser blk v _ Hwf Hser Hv)
    by (done || by rewrite Hid).
  eexists. split; [reflexivity|].
  assert (∀ t, t ∈ assigned n id → t ≠ i →
    push_in (relay_targets s (assigned n id)) v (relay_votes s) !! t =
    (λ q, q ++ [v]) <$> relay_votes s !! t) as Hpush.
  { intros t Hta Hne. rewrite lookup_push_in.
    assert (t ∈ relay_targets s (assigned n id)) as Hin.
    { apply list_elem_of_filter. split; [congruence|by apply elem_of_set_iter]. }
    destruct (relay_votes s !! t); simpl; [|done]. by rewrite decide_True. }
  case_bool_decide; [|by split].
  rewrite Hid. destruct (pending_blks s !! id) as [l|]; [|by split].
  destruct (heap s !! l) as [b|]; [|by split].
  unfold after_vote. destruct (is_vote_enough _ _); by split.
Qed.

(** At the server itself. *)
Lemma direct_vote w t s id l b k ser v :
  reachable cfs n w → at_server w t s → awaiting s id l b → t ∈ assigned n id →
  carries ser id k v → u64 k →
  ∃ s', wstep cfs w (<[t := MkNode true s']> w) ∧ voted s' id l (add_vote k v b) ∧
        dead_block s' = dead_block s.
Proof.
  intros Hr Hi Hw Hta Hc Hk. pose proof Hc as (blk & Hser & Hid & Hv).
  destruct (reachable_inv cfs n c Hsys w Hr _ _ Hi) as (_ & Hsid & Hn). simpl in Hsid.
  pose proof (ni_wf _ _ _ Hn) as Hwf. simpl in Hwf.
  assert (u64 (id_ (header_ blk))) as Hid64 by (apply Block_from_wf in Hser as [Hh _]; apply Hh).
  pose proof (target_set blk Hid64) as Ht. rewrite <- (so_servers _ _ _ Hsys t) in Ht at 1.
  rewrite Hid in Ht.
  pose proof (VoteBlocks_item_eq (cfs t) (sys_conf_ok cfs n c Hsys t) s k ser blk v (assigned n id) Hwf Hser Hv)
    as Heq.
  rewrite Hid in Heq. specialize (Heq (wt_alive _ _ _ _ Hw) Ht).
  cbv zeta in Heq. rewrite Hsid, bool_decide_true in Heq by done.
  rewrite (wt_pending _ _ _ _ Hw), (wt_heap _ _ _ _ Hw) in Heq.
  eexists. split; [by eapply (op_step w t s (OpVote k ser))|].
  by eapply after_vote_stage.
Qed.

(** A vote in the body of a request of a peer. *)
Lemma relayed_vote w t s id l b k v :
  at_server w t s → awaiting s id l b → honest_vote id k v →
  (∃ from votes, sent w t (RelayVoteRequest from votes) ∧ to_bytes v ∈ votes) →
  ∃ s', wstep cfs w (<[t := MkNode true s']> w) ∧ voted s' id l (add_vote k v b) ∧
        dead_block s' = dead_block s.
Proof.
  intros Hi Hw (Hvw & Hvk & Hvb) Hsent.
  assert (RelayVote_item (cfs t) (to_bytes v) s =
          (Ret tt, after_vote (cfs t) id l (add_vote k v b) s)) as Heq.
  { unfold RelayVote_item, mbind, lift, gets. rewrite (from_to v Hvw). cbn.
    rewrite Hvb, bool_decide_false by apply Hw.
    rewrite RelayVote_local_eq, VoteBlocks_local_eq.
    by rewrite (wt_pending _ _ _ _ Hw), (wt_heap _ _ _ _ Hw), Hvk. }
  eexists. split; [by eapply (op_step w t s (OpRelayVote (to_bytes v)))|].
  by eapply after_vote_stage.
Qed.

#[local] Instance RelayVote_dead t : Keeps dead_block (RelayVote t).
Proof. unfold RelayVote. keeps_tac. Qed.

(** The queue of votes for a peer, sent. *)
Lemma votes_sent w i s t q v :
  reachable cfs n w → at_server w i s → 1 ≤ t ≤ n → t ≠ i →
  relay_votes s !! t = Some q → v ∈ q →
  ∃ s' from votes, wstep cfs w (<[i := MkNode true s']> w) ∧ dead_block s' = dead_block s ∧
    (t, RelayVoteRequest from votes) ∈ outbox s' ∧ to_bytes v ∈ votes.
Proof.
  intros Hr Hi Ht Hne Hq Hv.
  destruct (reachable_inv cfs n c Hsys w Hr _ _ Hi) as (_ & Hsid & Hn). simpl in Hsid.
  assert (is_peer (cfs i) s t) as Hp.
  { split; [by rewrite (so_servers _ _ _ Hsys)|by rewrite Hsid]. }
  pose proof (RelayVote_spec (cfs i) s t q (ni_wf _ _ _ Hn) Hp Hq) as Hspec.
  pose proof (RelayVote_dead t s) as Hd. unfold wp in Hspec.
  destruct (RelayVote t s) as [r s'] eqn:Er. simpl in *.
  destruct Hspec as (_ & _ & Ho & ok & ->).
  exists s', (sender_id s), (to_bytes <$> q). split_and!; [|done| |].
  - eapply (op_step w i s (OpVotesTo t)); [done|exact Hp|]. simpl. unfold discard, mbind.
    by rewrite Er.
  - rewrite Ho. apply elem_of_app. right. unfold vote_request. case_decide as Hq0.
    + subst. by apply not_elem_of_nil in Hv.
    + by left.
  - by apply list_elem_of_fmap_2.
Qed.

(** ** A vote from anywhere *)

(** Servers stay up, and no block is declared dead. *)
Definition calm (w w' : world) : Prop :=
  ∀ j s, at_server w j s → ∃ s', at_server w' j s' ∧ dead_block s' = dead_block s.

Lemma calm_refl w : calm w w.
Proof. intros j s Hj. by exists s. Qed.

Lemma calm_trans w1 w2 w3 : calm w1 w2 → calm w2 w3 → calm w1 w3.
Proof.
  intros H1 H2 j s (s' & Hj' & Hd')%H1. destruct (H2 _ _ Hj') as (s'' & ? & ?).
  exists s''. split; [done|congruence].
Qed.

Lemma calm_insert w i s s' :
  at_server w i s → dead_block s' = dead_block s → calm w (<[i := MkNode true s']> w).
Proof.
  intros Hi Hd j s0 Hj. destruct (decide (i = j)) as [<-|Hne].
  - exists s'. rewrite lookup_insert_eq. split; [done|]. congruence.
  - exists s0. by rewrite lookup_insert_ne.
Qed.

Lemma assigned_range t id : t ∈ assigned n id → 1 ≤ t ≤ n.
Proof.
  intros Ht. pose proof (Z.mod_pos_bound id n). pose proof (so_range _ _ _ Hsys).
  unfold assigned, next_server in Ht. destruct (Z.eqb_spec (id mod n + 1) n); set_solver by lia.
Qed.

(** A vote of a client given to the server [i] reaches the server [t]. *)
Lemma vote_delivered w i si t s id l b k ser v :
  reachable cfs n w → at_server w i si → at_server w t s → awaiting s id l b →
  id ∉ dead_block si → t ∈ assigned n id → carries ser id k v → honest_vote id k v → u64 k →
  ∃ w' s', rtc (wstep cfs) w w' ∧ at_server w' t s' ∧ voted s' id l (add_vote k v b) ∧
           calm w w'.
Proof.
  intros Hr Hi Ht Hw Hd Hta Hc Hv Hk. destruct (decide (i = t)) as [->|Hne].
  { assert (si = s) as -> by congruence.
    destruct (direct_vote w t s id l b k ser v) as (s' & Hs & Hvo & Hd'); [done..|].
    eexists _, s'. split_and!; [by apply rtc_once|by rewrite lookup_insert_eq|done|].
    by eapply calm_insert. }
  destruct (reachable_inv cfs n c Hsys w Hr _ _ Hi) as (_ & Hsid & Hn). simpl in Hsid.
  pose proof (assigned_range t id Hta) as Htr.
  assert (is_peer (cfs i) si t) as Hp.
  { split; [by rewrite (so_servers _ _ _ Hsys)|by rewrite Hsid; intros <-]. }
  destruct (wf_peers _ _ (ni_wf _ _ _ Hn) _ Hp) as ([q Hq] & _). simpl in Hq.
  destruct (vote_handled w i si k id ser v Hr Hi Hd Hc) as (s1 & H1 & Hd1 & Hq1).
  specialize (Hq1 t Hta ltac:(congruence)). rewrite Hq in Hq1. simpl in Hq1.
  set (w1 := <[i := MkNode true s1]> w).
  assert (wstep cfs w w1) as W1 by (by eapply (op_step w i si (OpVote k ser))).
  assert (at_server w1 i s1) as Hi1 by apply lookup_insert_eq.
  destruct (votes_sent w1 i s1 t (q ++ [v]) v) as (s2 & from & votes & W2 & Hd2 & Ho2 & Hv2);
    [by eapply reachable_step|done|done|congruence|done|apply elem_of_app; right; by left|].
  set (w2 := <[i := MkNode true s2]> w1) in *.
  assert (at_server w2 t s) as Ht2.
  { unfold w2, w1. by rewrite !lookup_insert_ne. }
  destruct (relayed_vote w2 t s id l b k v Ht2 Hw Hv) as (s3 & W3 & Hvo & Hd3).
  { exists from, votes. split; [|done]. exists i, (MkNode true s2).
    split; [apply lookup_insert_eq|done]. }
  exists (<[t := MkNode true s3]> w2), s3. split_and!; [|apply lookup_insert_eq|done|].
  - eapply rtc_l; [exact W1|]. eapply rtc_l; [exact W2|]. by apply rtc_once.
  - apply (calm_trans w w1); [by eapply calm_insert|].
    apply (calm_trans w1 w2); by eapply calm_insert.
Qed.

(** ** All the votes *)

(** A ballot that can be cast in [w]. *)
Definition castable (w : world) (id : Z) (d : ballot) : Prop :=
  u64 (by_client d) ∧ honest_vote id (by_client d) (vote_of d) ∧
  carries (vote_ser d) id (by_client d) (vote_of d) ∧
  ∃ s, at_server w (at_node d) s ∧ id ∉ dead_block s.

Lemma castable_calm w w' id d : calm w w' → castable w id d → castable w' id d.
Proof.
  intros Hc (? & ? & ? & s & Hs & Hd). destruct (Hc _ _ Hs) as (s' & Hs' & Hd').
  split_and!; [done..|]. exists s'. by rewrite Hd'.
Qed.

Lemma add_new_vote k v b : votes_ b !! k = None →
  votes_ (add_vote k v b) = <[k := v]> (votes_ b).
Proof. intros Hk. simpl. unfold map_insert_new. by rewrite Hk. Qed.

Lemma all_votes ds w t s id l b :
  reachable cfs n w → at_server w t s → awaiting s id l b → t ∈ assigned n id → ds ≠ [] →
  NoDup (by_client <$> ds) → Forall (castable w id) ds →
  (∀ d, d ∈ ds → votes_ b !! by_client d = None) →
  Z.of_nat (size (votes_ b)) + Z.of_nat (length ds) = c →
  ∃ w' s' b', rtc (wstep cfs) w w' ∧ at_server w' t s' ∧ to_merge s' l b' ∧ calm w w' ∧
    b' = upd_votes (λ _, cast ds ∪ votes_ b) b.
Proof.
  revert w s b. induction ds as [|d ds IH]; intros w s b Hr Ht Hw Hta Hne Hnd Hcast Hnew Hsize;
    [done|].
  apply NoDup_cons in Hnd as [Hkn Hnd]. apply Forall_cons in Hcast as [Hd Hcast].
  pose proof Hd as (Hk & Hhon & Hcar & si & Hi & Hdead).
  destruct (vote_delivered w (at_node d) si t s id l b (by_client d) (vote_ser d) (vote_of d))
    as (w1 & s1 & W1 & Ht1 & Hvo & Hcalm); [done..|].
  assert (votes_ b !! by_client d = None) as Hb by (apply Hnew; by left).
  pose proof (add_new_vote _ (vote_of d) _ Hb) as Hvs.
  set (b1 := add_vote (by_client d) (vote_of d) b) in *.
  assert (Z.of_nat (size (votes_ b1)) = Z.of_nat (size (votes_ b)) + 1) as Hsz.
  { rewrite Hvs, map_size_insert_None by done. lia. }
  assert (∀ d', d' ∈ ds → by_client d ≠ by_client d') as Hother.
  { intros d' Hin He. apply Hkn. rewrite He. by apply list_elem_of_fmap_2. }
  assert (cast ds !! by_client d = None) as Hcn.
  { apply not_elem_of_list_to_map_1. by rewrite <- list_fmap_compose. }
  unfold voted in Hvo. destruct ds as [|d2 ds].
  - rewrite (proj2 (is_vote_enough_spec b1 c)) in Hvo by (simpl in Hsize; lia).
    exists w1, s1, b1. split_and!; try done. unfold b1, add_vote, upd_votes. f_equal.
    change (votes_ b1 = cast [d] ∪ votes_ b). rewrite Hvs. unfold cast. simpl.
    by rewrite insert_union_singleton_l.
  - replace (is_vote_enough b1 c) with false in Hvo.
    2: { symmetry. apply not_true_iff_false. rewrite is_vote_enough_spec.
         simpl in Hsize. lia. }
    destruct (IH w1 s1 b1) as (w2 & s2 & b2 & W2 & Ht2 & Hm & Hc2 & ->); try done.
    + by eapply reachable_steps.
    + eapply Forall_impl; [exact Hcast|]. intros d'. by apply castable_calm.
    + intros d' Hin. rewrite Hvs, lookup_insert_ne; [apply Hnew; by right|].
      by apply Hother.
    + simpl in *. lia.
    + exists w2, s2, (upd_votes (λ _, cast (d2 :: ds) ∪ votes_ b1) b1).
      split_and!; try done; [by etrans|by eapply calm_trans|].
      unfold b1 at 2, add_vote, upd_votes. f_equal. rewrite Hvs.
      change (cast (d :: d2 :: ds)) with (<[by_client d := vote_of d]> (cast (d2 :: ds))).
      by rewrite <- insert_union_l, insert_union_r.
Qed.

(** ** Committing *)

#[local] Instance SPBcastCommit_dead t : Keeps dead_block (SPBcastCommit t).
Proof. unfold SPBcastCommit, SPBcastCommit_pop. keeps_tac. Qed.

(** The server merges the block and commits it; every peer's queue has it. *)
Lemma merge_step w t s id l b m :
  at_server w t s → to_merge s l b → id_ (header_ b) = id →
  Block_merge_votes b c = Ret m →
  ∃ s' b', wstep cfs w (<[t := MkNode true s']> w) ∧ dead_block s' = dead_block s ∧
    committed_blks s' !! id = Some l ∧ heap s' !! l = Some b' ∧
    votes_ b' = votes_ b ∧ tx_vec_ b' = tx_vec_ b ∧ tss_sig_ b' = tss_sig_ m ∧
    id_ (header_ b') = id ∧ bcast_commit_blocks s' = push_each l (bcast_commit_blocks s).
Proof.
  intros Ht [Hh Hq] Hid Hm.
  set (s1 := upd_pb_merge_queue (λ _, []) s).
  pose proof (wp_merge_one (cfs t) l b
    (λ r s', r = Ret tt ∧ s' = after_merge l (sealed m (clock (server_id s1) (tick s1)) b) s1) s1 Hh) as Hwp.
  rewrite (so_clients _ _ _ Hsys), Hm in Hwp. destruct Hwp as [_ Hwp].
  specialize (Hwp (conj eq_refl eq_refl)). unfold wp in Hwp.
  exists (after_merge l (sealed m (clock (server_id s1) (tick s1)) b) s1), (sealed m (clock (server_id s1) (tick s1)) b).
  split_and!; try done.
  - eapply (op_step w t s OpMergeOne); [done|done|]. simpl. unfold merge_next, mbind, pop_merge, pop_front.
    rewrite Hq. fold s1. destruct (merge_one (cfs t) l s1) as [r s']. simpl in Hwp.
    by destruct Hwp as [-> ->].
  - simpl. rewrite Hid. by rewrite lookup_insert_eq.
  - simpl. by rewrite lookup_insert_eq.
Qed.

(** The handler of a commit commits, whatever the configuration says of the database. *)
Lemma commit_item_commits j b s id :
  block_wf b → keys_small (votes_ b) → id_ (header_ b) = id → is_Some (pending_blks s !! id) →
  survives (OpCommit (to_bytes b)) (SPBcastCommit_item (cfs j) (to_bytes b) s).1 = true ∧
  is_Some (committed_blks (SPBcastCommit_item (cfs j) (to_bytes b) s).2 !! id).
Proof.
  intros Hb Hks Hid [l Hl].
  unfold SPBcastCommit_item, mbind, lift, now_ms, pending_find, gets, new_block,
    committed_insert, db_put_block, pending_erase, modify.
  rewrite (Block_from_to b Hb), bool_decide_true by done. cbn -[to_string].
  rewrite Hid, Hl. destruct (use_rocksdb (cfs j)) as [[]|]; cbn -[to_string];
    by rewrite lookup_insert_eq.
Qed.

(** What the round of commits does to the sender. *)
Lemma commits_sent w t s j q l b :
  reachable cfs n w → at_server w t s → 1 ≤ j ≤ n → j ≠ t →
  bcast_commit_blocks s !! j = Some q → l ∈ q → heap s !! l = Some b →
  ∃ s', wstep cfs w (<[t := MkNode true s']> w) ∧ heap s' = heap s ∧
    bcast_commit_blocks s' = <[j := []]> (bcast_commit_blocks s) ∧
    dom (committed_blks s) ⊆ dom (committed_blks s') ∧
    ∃ from blocks ts, (j, SPBcastCommitRequest from blocks ts) ∈ outbox s' ∧
                      to_bytes b ∈ blocks.
Proof.
  intros Hr Ht Hj Hne Hq Hl Hb.
  destruct (reachable_inv cfs n c Hsys w Hr _ _ Ht) as (_ & Hsid & Hn). simpl in Hsid.
  assert (is_peer (cfs t) s j) as Hp.
  { split; [by rewrite (so_servers _ _ _ Hsys)|by rewrite Hsid]. }
  pose proof (SPBcastCommit_spec (cfs t) s j q (ni_wf _ _ _ Hn) Hp Hq) as Hspec.
  unfold wp in Hspec. destruct (SPBcastCommit j s) as [r s1] eqn:Er. simpl in Hspec.
  destruct Hspec as ([_ Hev] & Hbc & Ho & Hh & ok & ->). exists s1. split_and!; [|done..| |].
  - eapply (op_step w t s (OpCommitsTo j)); [done|exact Hp|]. simpl. unfold discard, mbind.
    by rewrite Er.
  - by apply ev_committed.
  - eexists _, _, _. split.
    + rewrite Ho. apply elem_of_app. right. unfold commit_request.
      rewrite decide_False by (intros ->; by apply not_elem_of_nil in Hl). by left.
    + apply list_elem_of_fmap_2. unfold read_all. apply list_elem_of_omap. by exists l.
Qed.

(** A commit in the queue for a peer that has the block pending reaches it. *)
Lemma commit_delivered w t s j sj q l b id :
  reachable cfs n w → at_server w t s → at_server w j sj → j ≠ t →
  bcast_commit_blocks s !! j = Some q → l ∈ q → heap s !! l = Some b →
  id_ (header_ b) = id → keys_small (votes_ b) → is_Some (pending_blks sj !! id) →
  ∃ s' sj', rtc (wstep cfs) w (<[j := MkNode true sj']> (<[t := MkNode true s']> w)) ∧
    is_Some (committed_blks sj' !! id) ∧ heap s' = heap s ∧
    dom (committed_blks s) ⊆ dom (committed_blks s') ∧
    bcast_commit_blocks s' = <[j := []]> (bcast_commit_blocks s).
Proof.
  intros Hr Ht Hj Hne Hq Hl Hb Hid Hks Hp.
  destruct (reachable_inv cfs n c Hsys w Hr _ _ Ht) as (_ & _ & Hn). simpl in Hn.
  destruct (reachable_inv cfs n c Hsys w Hr _ _ Hj) as (Hjr & _).
  pose proof (proj2 (wf_heap _ _ (ni_wf _ _ _ Hn) _ _ Hb)) as Hbw.
  destruct (commits_sent w t s j q l b Hr Ht Hjr Hne Hq Hl Hb)
    as (s1 & W1 & Hh & Hbc & Hco & from & blocks & ts & Hout & Hin).
  set (w1 := <[t := MkNode true s1]> w) in *.
  assert (at_server w1 j sj) as Hj1 by (unfold w1; by rewrite lookup_insert_ne).
  assert (allowed (cfs j) w1 j sj (OpCommit (to_bytes b))) as Ha.
  { exists from, blocks, ts. split; [|done]. exists t, (MkNode true s1).
    split; [apply lookup_insert_eq|done]. }
  destruct (commit_item_commits j b sj id Hbw Hks Hid Hp) as [Hup Hcom].
  pose proof (WStep cfs w1 j sj _ Hj1 Ha) as W2. unfold after_op in W2. simpl run_op in W2.
  destruct (SPBcastCommit_item (cfs j) (to_bytes b) sj) as [r sj'] eqn:Er. simpl in Hcom, Hup.
  simpl survives in W2. rewrite Hup in W2. exists s1, sj'. split_and!; [|done..].
  eapply rtc_l; [exact W1|]. by apply rtc_once.
Qed.

(** The commits the server [t] has queued for the servers [js]. *)
Definition committable (w : world) (t : Z) (l : loc) (b : Block) (id : Z) (js : list Z) : Prop :=
  ∃ s, at_server w t s ∧ heap s !! l = Some b ∧ is_Some (committed_blks s !! id) ∧
  ∀ j, j ∈ js → j ≠ t ∧ (∃ q, bcast_commit_blocks s !! j = Some q ∧ l ∈ q) ∧
    ∃ sj, at_server w j sj ∧ is_Some (pending_blks sj !! id).

(** The server [j] is up and has the block [id] pending. *)
Definition pending_at (w : world) (id j : Z) : bool :=
  match w !! j with
  | Some (MkNode true s) => bool_decide (is_Some (pending_blks s !! id))
  | _ => false
  end.

(** The server [j] has committed the block [id]. *)
Definition has_committed (w : world) (id j : Z) : Prop :=
  ∃ s, at_server w j s ∧ is_Some (committed_blks s !! id).

Lemma commits_delivered w t l b id js :
  reachable cfs n w → id_ (header_ b) = id → keys_small (votes_ b) → NoDup js →
  committable w t l b id js →
  ∃ w', rtc (wstep cfs) w w' ∧
    (∀ j, j ∈ js → has_committed w' id j) ∧ has_committed w' id t ∧
    (∀ j, j ∉ t :: js → w' !! j = w !! j).
Proof.
  intros Hr Hid Hks. revert w Hr. induction js as [|j js IH]; intros w Hr Hnd (s & Ht & Hl & Hc & Hq).
  { exists w. split_and!; [done|by intros j Hj%not_elem_of_nil|by exists s|done]. }
  apply NoDup_cons in Hnd as [Hnj Hnd].
  destruct (Hq j ltac:(by left)) as (Hne & (q & Hjq & Hlq) & sj & Hj & Hpj).
  destruct (commit_delivered w t s j sj q l b id Hr Ht Hj Hne Hjq Hlq Hl Hid Hks Hpj)
    as (s1 & sj1 & W1 & Hcj & Hh & Hco & Hbc).
  set (w1 := <[j := MkNode true sj1]> (<[t := MkNode true s1]> w)) in *.
  destruct (IH w1) as (w2 & W2 & Hjs & Ht2 & Hsame); [by eapply reachable_steps|done| |].
  { exists s1. split_and!.
    - unfold w1. by rewrite lookup_insert_ne, lookup_insert_eq.
    - by rewrite Hh.
    - apply elem_of_dom, Hco, elem_of_dom. exact Hc.
    - intros j' Hin. destruct (Hq j' ltac:(by right)) as (Hne' & (q' & Hq' & Hl') & sj' & Hj' & Hp').
      assert (j ≠ j') by (by intros ->). split; [done|]. split.
      + exists q'. by rewrite Hbc, lookup_insert_ne.
      + exists sj'. split; [|done]. unfold w1. by rewrite !lookup_insert_ne. }
  exists w2. split_and!; [by etrans| |done|].
  - intros j' [->|Hin]%elem_of_cons; [|by apply Hjs]. exists sj1. split; [|done].
    rewrite Hsame; [unfold w1; by rewrite lookup_insert_eq|].
    apply not_elem_of_cons. done.
  - intros j' [Hjt [Hjj Hjn]%not_elem_of_cons]%not_elem_of_cons. rewrite Hsame by (by apply not_elem_of_cons).
    unfold w1. by rewrite !lookup_insert_ne.
Qed.

(** ** From votes to commits *)

(** A waiting block gets all its votes, is merged and is committed. *)
Lemma block_committed ds w t s id l b m :
  reachable cfs n w → at_server w t s → awaiting s id l b → t ∈ assigned n id → ds ≠ [] →
  NoDup (by_client <$> ds) → Forall (castable w id) ds →
  (∀ d, d ∈ ds → votes_ b !! by_client d = None) →
  Z.of_nat (size (votes_ b)) + Z.of_nat (length ds) = c →
  Block_merge_votes (upd_votes (λ _, cast ds ∪ votes_ b) b) c = Ret m →
  ∃ w' s' b', rtc (wstep cfs) w w' ∧ at_server w' t s' ∧ calm w w' ∧
    committed_blks s' !! id = Some l ∧ heap s' !! l = Some b' ∧ id_ (header_ b') = id ∧
    votes_ b' = cast ds ∪ votes_ b ∧ tx_vec_ b' = tx_vec_ b ∧ tss_sig_ b' = tss_sig_ m ∧
    ∀ j, 1 ≤ j ≤ n → j ≠ t → ∃ q, bcast_commit_blocks s' !! j = Some q ∧ l ∈ q.
Proof.
  intros Hr Ht Hw Hta Hne Hnd Hcast Hnew Hsize Hm.
  assert (id_ (header_ b) = id) as Hid.
  { destruct (reachable_inv cfs n c Hsys w Hr _ _ Ht) as (_ & _ & Hn). simpl in Hn.
    destruct (wf_pending _ _ (ni_wf _ _ _ Hn) _ _ (wt_pending _ _ _ _ Hw)) as (b0 & Hb0 & He).
    pose proof (wt_heap _ _ _ _ Hw). congruence. }
  destruct (all_votes ds w t s id l b) as (w1 & s1 & b1 & W1 & Ht1 & Hmg & Hc1 & ->); [done..|].
  destruct (merge_step w1 t s1 id l _ m Ht1 Hmg Hid Hm)
    as (s2 & b2 & W2 & Hd2 & Hco & Hh2 & Hv2 & Htx2 & Hsg & Hid2 & Hbc).
  assert (reachable cfs n w1) as Hr1 by (by eapply reachable_steps).
  destruct (reachable_inv cfs n c Hsys w1 Hr1 _ _ Ht1) as (_ & Hsid & Hn). simpl in Hsid.
  exists (<[t := MkNode true s2]> w1), s2, b2. split_and!; try done.
  - by eapply rtc_r.
  - apply lookup_insert_eq.
  - eapply calm_trans; [exact Hc1|]. by eapply calm_insert.
  - intros j Hj Hjt. assert (is_peer (cfs t) s1 j) as Hp.
    { split; [by rewrite (so_servers _ _ _ Hsys)|by rewrite Hsid]. }
    destruct (wf_peers _ _ (ni_wf _ _ _ Hn) _ Hp) as (_ & _ & [q Hq] & _). simpl in Hq.
    exists (q ++ [l]). rewrite Hbc. unfold push_each. rewrite lookup_fmap, Hq.
    split; [done|]. apply elem_of_app. right. by left.
Qed.

End liveness.
