(* ===== verification/VoteArrival.v ===== *)
(** From the queue of a client to a block at a server: what one round of a voting thread
    does to the servers it calls. *)
From Stdlib Require Import ZArith Lia Ascii String.
From stdpp Require Import base tactics list gmap strings sorting relations.
From S2P Require Import Prelude Decimal Entity FlexCodec Msgpack ServerState ServerInv.
From S2P Require Import Client ClientService PeerService ServerCore ClientProofs HandlersProofs.
From S2P Require Import System Network SystemProofs WorldProofs Liveness.

(** ** The message *)

Section message.
Context {C : Crypto} {CL : CryptoLaws C} {F : FlexBuffers} {L : FlexBuffersLaws F}.

Definition vote_in (cid : Z) (share : BLSSigShare) (b : Block) : BlockVote :=
  MkBlockVote (id_ (header_ b)) cid (Some share).

Lemma with_vote_votes cid share b :
  votes_ b !! cid = None →
  votes_ (with_vote cid share b) = <[cid := vote_in cid share b]> (votes_ b).
Proof. intros Hn. simpl. unfold map_insert_new. by rewrite Hn. Qed.

(** Who reads the message finds the block and the vote. *)
Lemma with_vote_carries cid share b :
  u64 cid → cid < 2 ^ 31 → block_wf b → keys_small (votes_ b) → votes_ b !! cid = None →
  carries (to_bytes (with_vote cid share b)) (id_ (header_ b)) cid (vote_in cid share b).
Proof.
  intros Hid Hsm Hb Hks Hn. pose proof (with_vote_wf cid share b Hid Hb) as Hbw.
  pose proof (with_vote_votes cid share b Hn) as Hvs.
  exists (set_tss_sig None (with_vote cid share b)). split_and!; [|done|].
  - rewrite (Block_from_to _ Hbw), bool_decide_true; [done|]. rewrite Hvs. unfold keys_small.
    by apply map_Forall_insert_2.
  - change (votes_ (with_vote cid share b) !! cid = Some (vote_in cid share b)).
    by rewrite Hvs, lookup_insert_eq.
Qed.

Lemma vote_in_honest cid share b :
  u64 cid → block_wf b → honest_vote (id_ (header_ b)) cid (vote_in cid share b).
Proof. intros Hid Hb. split_and!; [|done..]. split; [apply Hb|done]. Qed.

End message.

(** ** The call *)

Section arrival.
Context {C : Crypto} {CL : CryptoLaws C} {F : FlexBuffers} {L : FlexBuffersLaws F} {K : Msgpack}.
Context {E : Env} {EL : EnvLaws E} {CE : ClientEnv} {NE : NetEnv}.
Context (cfs : Z → conf) (n c : Z) (Hsys : sys_ok cfs n c).
#[local] Hint Extern 0 (ConsensusStub _) => exact (world_stub cfs) : typeclass_instances.

(** A vote that is delivered to a server that has the block pending is counted there. *)
Lemma vote_call_counts w k a i s cid ser v id l blk :
  reachable cfs n w → w !! i = Some (MkNode true s) → listen a = Some i →
  call_fate k = Delivered → i ∈ assigned n id → id ∉ dead_block s →
  carries ser id cid v → pending_blks s !! id = Some l → heap s !! l = Some blk →
  ∃ s1, pending_blks s1 = pending_blks s ∧ pb_merge_queue s1 = pb_merge_queue s ∧
    call_VoteBlocks a cid [ser] (MkNetwork w k) =
    ((true, tt),
     MkNetwork (<[i := MkNode true (after_vote (cfs i) id l (add_vote cid v blk) s1)]> w) (S k)).
Proof.
  intros Hr Hi Ha Hf Hin Hd (rb & Hser & Hid & Hv) Hp Hh.
  destruct (reachable_inv cfs n c Hsys w Hr _ _ Hi) as (_ & Hsid & Hn). simpl in Hsid.
  pose proof (ni_wf _ _ _ Hn) as Hwf. simpl in Hwf.
  assert (u64 (id_ (header_ rb))) as Hid64 by (apply Block_from_wf in Hser as [Hh' _]; apply Hh').
  pose proof (target_set cfs n c Hsys rb Hid64) as Ht.
  rewrite <- (so_servers _ _ _ Hsys i) in Ht at 1. rewrite Hid in Ht.
  pose proof (VoteBlocks_item_eq (cfs i) (sys_conf_ok cfs n c Hsys i) s cid ser rb v
                (assigned n id) Hwf Hser Hv) as Heq.
  rewrite Hid in Heq. specialize (Heq Hd Ht). cbv zeta in Heq.
  rewrite Hsid, bool_decide_true, Hp, Hh in Heq by done.
  eexists. split_and!; [..|].
  3: { simpl. unfold serve. simpl. rewrite Hf, Ha, Hi. unfold handle, discard, VoteBlocks.
       cbn [mfor]. unfold mbind, mret. rewrite Heq. reflexivity. }
  - done.
  - done.
Qed.

(** A call of another server leaves this one alone. *)
Lemma vote_call_other w k a i cid sers :
  listen a ≠ Some i →
  servers (call_VoteBlocks a cid sers (MkNetwork w k)).2 !! i = w !! i.
Proof.
  intros Ha. simpl. unfold serve. simpl.
  destruct (call_fate k), (listen a) as [j|]; try done;
    destruct (w !! j) as [[[] s]|] eqn:Hj; try done;
    destruct (handle _ s) as [o nd]; simpl; apply lookup_insert_ne; congruence.
Qed.

(** What [after_vote] leaves in the state. *)
Lemma after_vote_state cf id l b s1 :
  heap (after_vote cf id l b s1) !! l = Some b ∧
  if is_vote_enough b (client_count cf)
  then pending_blks (after_vote cf id l b s1) = delete id (pending_blks s1) ∧
       pb_merge_queue (after_vote cf id l b s1) = pb_merge_queue s1 ++ [l]
  else pending_blks (after_vote cf id l b s1) = pending_blks s1 ∧
       pb_merge_queue (after_vote cf id l b s1) = pb_merge_queue s1.
Proof.
  unfold after_vote. destruct (is_vote_enough _ _); simpl; by rewrite lookup_insert_eq.
Qed.

(** The whole round. *)
Lemma vote_round_counts w k (cl : client network) b a0 a1 sk pk h share i s l blk :
  let id := id_ (header_ b) in
  let cid := client_id cl in
  reachable cfs n w → client_wf cl → queued_blks cl = [b] → block_wf b → keys_small (votes_ b) →
  cid < 2 ^ 31 → votes_ b !! cid = None → stubs cl = [a0; a1] →
  client_tss_key cl = Some (sk, pk) → (length (tx_vec_ b) ≤ 2000)%nat →
  get_sha256 b = Ret h → sign sk h cid = Ret share →
  listen a0 = Some i → listen a1 ≠ Some i → call_fate k = Delivered →
  w !! i = Some (MkNode true s) → i ∈ assigned n id → id ∉ dead_block s →
  pending_blks s !! id = Some l → heap s !! l = Some blk →
  ∃ cl' net' s', client_round cfs VoteThread cl (MkNetwork w k) = (Some cl', net') ∧
    servers net' !! i = Some (MkNode true s') ∧
    let blk' := add_vote cid (vote_in cid share b) blk in
    heap s' !! l = Some blk' ∧
    if is_vote_enough blk' c
    then pending_blks s' = delete id (pending_blks s) ∧
         pb_merge_queue s' = pb_merge_queue s ++ [l]
    else pending_blks s' = pending_blks s ∧ pb_merge_queue s' = pb_merge_queue s.
Proof.
  intros id cid Hr Hc Hq Hb Hks Hsm Hn Hst Hk Hlen Hh Hs Ha0 Ha1 Hf Hi Hin Hd Hp Hl.
  destruct (vote_round_single (set_net (MkNetwork w k) cl) b a0 a1 sk pk h share
              (cwf_pool _ Hc) Hq Hst Hk Hlen Hh Hs) as (cl' & Hround & Hnet).
  pose proof (cwf_id _ Hc) as Hcid. fold cid in Hcid.
  assert (request_id (set_net (MkNetwork w k) cl) = cid) as Hreq.
  { unfold request_id, wrap32. simpl. apply Z.mod_small. unfold u64 in Hcid. unfold cid in *. lia. }
  rewrite Hreq in Hnet. simpl client_id in Hnet. fold cid in Hnet.
  pose proof (with_vote_carries cid share b Hcid Hsm Hb Hks Hn) as Hcar.
  destruct (vote_call_counts w k a0 i s cid _ _ _ l blk Hr Hi Ha0 Hf Hin Hd Hcar Hp Hl)
    as (s1 & Hp1 & Hm1 & Hcall).
  unfold send_both in Hnet. simpl net in Hnet. rewrite Hcall in Hnet. simpl snd in Hnet.
  set (blk' := add_vote cid (vote_in cid share b) blk) in *.
  exists cl', (net cl'), (after_vote (cfs i) id l blk' s1). split_and!.
  - unfold client_round. by rewrite Hround.
  - rewrite Hnet. etrans; [by apply (vote_call_other _ (S k) a1 i cid)|]. apply lookup_insert_eq.
  - destruct (after_vote_state (cfs i) id l blk' s1) as [H1 H2].
    rewrite (so_clients _ _ _ Hsys), Hp1, Hm1 in H2. by split.
Qed.

End arrival.
