(* ===== verification/Scenario.v ===== *)
(** A run of two servers and two clients on the libraries of [Instances.v]: a block is
    packed, relayed, voted for by both clients, committed where the votes meet and
    committed at the other server by the broadcast. The theorems' witnesses evaluate it. *)
From Stdlib Require Import ZArith Lia.
From stdpp Require Import base tactics list gmap strings sorting relations.
From S2P Require Import Prelude Decimal Entity FlexCodec ServerState ServerInv ClientService.
From S2P Require Import PeerService ServerCore SendersProofs CoreProofs MergeProofs Instances System.

(** ** Executing steps *)

Section exec.
Context {C : Crypto} {F : FlexBuffers} {E : Env} (cfs : Z → conf).

Definition sentb (w : world) (i : Z) (p : PeerRequest → bool) : bool :=
  existsb (λ kv, existsb (λ m, (m.1 =? i) && p m.2) (outbox (state kv.2))) (map_to_list w).

Definition is_peerb (cf : conf) (s : server) (t : Z) : bool :=
  bool_decide (1 ≤ t ≤ server_count cf ∧ t ≠ server_id s).

Definition allowedb (cf : conf) (w : world) (i : Z) (s : server) (o : op) : bool :=
  match o with
  | OpRelayVote ser =>
      sentb w i (λ r, match r with RelayVoteRequest _ l => bool_decide (ser ∈ l) | _ => false end)
  | OpRelayBlock ser =>
      sentb w i (λ r, match r with RelayBlockRequest _ l => bool_decide (ser ∈ l) | _ => false end)
  | OpCommit ser =>
      sentb w i (λ r, match r with SPBcastCommitRequest _ l _ => bool_decide (ser ∈ l)
                                 | _ => false end)
  | OpSync id =>
      sentb w i (λ r, match r with RelayBlockSyncRequest _ id' => id =? id' | _ => false end)
  | OpVote cid _ => bool_decide (u64 cid)
  | OpBeatTo t | OpVotesTo t | OpBlocksTo t | OpCommitsTo t | OpSignalTo _ t => is_peerb cf s t
  | _ => true
  end.

Lemma sentb_sent w i p : sentb w i p = true → ∃ r, sent w i r ∧ p r = true.
Proof.
  unfold sentb. rewrite existsb_exists. intros ([j nd] & Hj & Hm).
  apply existsb_exists in Hm as ([t r] & Hr & Hp). simpl in *.
  apply andb_true_iff in Hp as [Ht%Z.eqb_eq Hp]. subst t. exists r. split; [|done].
  exists j, nd. split; [by apply elem_of_map_to_list, list_elem_of_In|by apply list_elem_of_In].
Qed.

Lemma allowedb_ok cf w i s o : allowedb cf w i s o = true → allowed cf w i s o.
Proof.
  destruct o; simpl; try done; try (by intros ?%bool_decide_eq_true);
    intros ([| | | |] & Hs & Hp)%sentb_sent; try done;
    try apply bool_decide_eq_true in Hp; try apply Z.eqb_eq in Hp; subst; eauto.
Qed.

(** One step chosen by looking at the world; [None] when it is not allowed. *)
Definition exec_step (w : world) (choose : world → Z * op) : option world :=
  let '(i, o) := choose w in
  match w !! i with
  | Some (MkNode true s) =>
      let nd := after_op (cfs i) o s in
      if allowedb (cfs i) w i s o &&
         (blk_seq_generator s <=? blk_seq_generator (state nd))
      then Some (<[i := nd]> w) else None
  | _ => None
  end.

Fixpoint exec (w : world) (run : list (world → Z * op)) : option world :=
  match run with
  | [] => Some w
  | ch :: run' => match exec_step w ch with Some w' => exec w' run' | None => None end
  end.

Lemma exec_step_ok w ch w' : exec_step w ch = Some w' → wstep_nowrap cfs w w'.
Proof.
  unfold exec_step. destruct (ch w) as [i o]. destruct (w !! i) as [[[] s]|] eqn:Hi; try done.
  destruct (_ && _) eqn:Ha; [|done]. intros [= <-].
  apply andb_true_iff in Ha as [Ha%allowedb_ok Hle%Z.leb_le]. split; [by constructor|].
  intros j nd nd' Hj [[<- <-]|[_ Hj']]%lookup_insert_Some; simplify_eq; [done|lia].
Qed.

Lemma exec_ok w run w' : exec w run = Some w' → rtc (wstep_nowrap cfs) w w'.
Proof.
  revert w. induction run as [|ch run IH]; intros w; simpl; [by intros [= <-]|].
  destruct (exec_step w ch) as [w1|] eqn:E1; [|done]. intros H.
  eapply rtc_l; [by eapply exec_step_ok|by apply IH].
Qed.

Definition ran (o : option world) : bool := match o with Some _ => true | None => false end.

Lemma exec_app w r1 r2 :
  exec w (r1 ++ r2) = match exec w r1 with Some w1 => exec w1 r2 | None => None end.
Proof.
  revert w. induction r1 as [|ch r1 IH]; intros w; simpl; [done|].
  destruct (exec_step w ch); [apply IH|done].
Qed.

(** A run and a longer one. *)
Lemma exec_extend w r1 r2 :
  ran (exec w (r1 ++ r2)) = true →
  rtc (wstep cfs) (default ∅ (exec w r1)) (default ∅ (exec w (r1 ++ r2))).
Proof.
  rewrite exec_app. destruct (exec w r1) as [w1|]; [|done].
  destruct (exec w1 r2) as [w2|] eqn:E2; [|done]. intros _. simpl.
  apply exec_ok in E2. induction E2 as [|w3 w4 w5 [Hs _]]; [done|by eapply rtc_l].
Qed.

(** The servers [1 .. n], started. *)
Definition start_all (n : nat) : world :=
  list_to_map ((λ i, (i, MkNode true (snd (start (cfs i) TcServer_new)))) <$> ids_upto n).

Lemma start_all_initial n : initial cfs (Z.of_nat n) (start_all n).
Proof.
  intros i. unfold start_all.
  assert (∀ j, j ∈ ids_upto n ↔ 1 ≤ j ≤ Z.of_nat n) as Hids.
  { intros j. unfold ids_upto. rewrite list_elem_of_fmap. split.
    - intros (k & -> & Hk%elem_of_seq). lia.
    - intros Hj. exists (Z.to_nat (j - 1)). rewrite elem_of_seq. lia. }
  case_decide as Hi.
  - apply elem_of_list_to_map_1'.
    + intros nd (j & Heq & _)%list_elem_of_fmap. by simplify_eq.
    + apply list_elem_of_fmap. exists i. split; [done|by apply Hids].
  - apply not_elem_of_list_to_map_1. intros (p & -> & (j & -> & Hj)%list_elem_of_fmap)%list_elem_of_fmap.
    by apply Hi, Hids.
Qed.

End exec.

(** ** The run *)

#[local] Existing Instances toy_crypto toy_flex toy_env.

Definition toy_conf (i : Z) : conf := MkConf i 2 2 ["a"; "b"]%string 3 2 5 10 1000 (Some true).

Lemma toy_conf_ok i : conf_ok (toy_conf i).
Proof. unfold conf_ok. simpl. lia. Qed.

Lemma toy_sys_ok : sys_ok toy_conf 2 2.
Proof.
  split; try done; try (intros; simpl; lia).
  intros i. split; [|done]. unfold dkg_ok. simpl. repeat constructor; by eexists.
Qed.

(** The first payload sent to [i] by [j], of the kind [p] selects. *)
Definition first_payload (w : world) (j i : Z) (p : PeerRequest → list bytes) : bytes :=
  match w !! j with
  | Some nd =>
      default [] (head (concat ((λ m, if m.1 =? i then p m.2 else []) <$> outbox (state nd))))
  | None => []
  end.

Definition toy_id : Z := 2000000.

(** The block a client sends back with its vote. *)
Definition toy_vote (cid : Z) : BlockVote :=
  MkBlockVote toy_id cid
    (match toy_sign Byte.x05 [] cid with Ret sh => Some sh | _ => None end).
Definition voted_block (cid : Z) : Block :=
  MkBlock (BlockHeader_new toy_id 0xDEADBEEF 1000) [] {[ cid := toy_vote cid ]} None.

Definition toy_start : world := start_all toy_conf 2.

(** Packing and relaying; then the votes; then the commits. *)
Definition run_relay : list (world → Z * op) :=
  [ λ _, (2, OpTask PackRound); λ _, (2, OpTask RelayBlockTimer);
    λ w, (1, OpRelayBlock (first_payload w 2 1 block_payloads));
    λ _, (1, OpSync toy_id) ].
Definition run_votes : list (world → Z * op) :=
  [ λ _, (1, OpPull 1); λ _, (1, OpVote 1 (to_bytes (voted_block 1)));
    λ _, (1, OpVote 2 (to_bytes (voted_block 2))) ].
Definition run_commit : list (world → Z * op) :=
  [ λ _, (1, OpMergeOne); λ _, (1, OpTask BcastCommitTimer);
    λ w, (2, OpCommit (first_payload w 1 2 commit_payloads)) ].

Definition world_after (run : list (world → Z * op)) : world :=
  default ∅ (exec toy_conf toy_start run).

Definition relayed_world : world := world_after run_relay.
Definition voted_world : world := world_after (run_relay ++ run_votes).
Definition committed_world : world := world_after ((run_relay ++ run_votes) ++ run_commit).

Definition node_at (w : world) (i : Z) : server := default TcServer_new (state <$> w !! i).

(** Tests that evaluate to a boolean. *)
Definition runs (run : list (world → Z * op)) : bool := ran (exec toy_conf toy_start run).

Definition is_up (w : world) (i : Z) : bool :=
  match w !! i with Some nd => up nd | None => false end.

Lemma run_reached run : runs run = true → reachable_nowrap toy_conf 2 (world_after run).
Proof.
  intros H. exists toy_start. split; [apply (start_all_initial toy_conf 2)|].
  unfold runs, world_after in *. generalize (exec_ok toy_conf toy_start run).
  destruct (exec toy_conf toy_start run) as [w|]; [|done]. intros He. by apply He.
Qed.

Lemma node_at_up w i : is_up w i = true → w !! i = Some (MkNode true (node_at w i)).
Proof.
  unfold is_up, node_at. destruct (w !! i) as [[u s]|]; [|done]. simpl. by intros ->.
Qed.

Lemma voted_to_committed : rtc (wstep toy_conf) voted_world committed_world.
Proof. apply exec_extend. vm_compute. reflexivity. Qed.

(** A value that is there, without evaluating it. *)
Definition there {A} (o : option A) : bool := match o with Some _ => true | None => false end.

Lemma there_default {A} (o : option A) d : there o = true → o = Some (default d o).
Proof. by destruct o. Qed.

Lemma there_none {A} (o : option A) : there o = false → o = None.
Proof. by destruct o. Qed.

(** The block at a pointer. *)
Definition block_at (s : server) (l : loc) : Block := default Block_default (heap s !! l).

(** After the first of the two votes. *)
Definition half_voted_world : world := world_after (run_relay ++ take 2 run_votes).

Lemma toy_vote_wf k : u64 k → vote_wf (toy_vote k).
Proof. intros H. split; [unfold u64, toy_id; simpl; unfold toy_id; lia|done]. Qed.

Lemma voted_block_wf k : u64 k → block_wf (voted_block k).
Proof.
  intros H. split; [|split].
  - split_and!; simpl; unfold u64, toy_id; lia.
  - constructor.
  - apply map_Forall_singleton. split; [done|by apply toy_vote_wf].
Qed.

Lemma voted_block_small k : k < 2 ^ 31 → keys_small (votes_ (voted_block k)).
Proof. intros H. by apply map_Forall_singleton. Qed.

Lemma voted_block_read k : 0 ≤ k < 2 ^ 31 →
  from_bytes (to_bytes (voted_block k)) = Ret (voted_block k).
Proof.
  intros H. rewrite (Block_from_to (voted_block k)) by (apply voted_block_wf; unfold u64; lia).
  rewrite bool_decide_true; [done|]. apply voted_block_small. lia.
Qed.

Example run_works :
  ((λ i, (map_to_list (pending_blks (node_at committed_world i)),
          map_to_list (committed_blks (node_at committed_world i)))) <$> [1; 2])
  = [([], [(toy_id, 0%nat)]); ([], [(toy_id, 1%nat)])].
Proof. vm_compute. reflexivity. Qed.
