(* ===== verification/EntityProps.v ===== *)
(** Properties of the entities and of their serializer. *)
From Stdlib Require Import ZArith Lia.
From stdpp Require Import base tactics list gmap strings sorting.
From S2P Require Import Prelude Decimal Entity FlexCodec ServerState ServerInv PeerService.
From S2P Require Import ServerCore Instances.

Section properties.
Context {C : Crypto} {CL : CryptoLaws C} {F : FlexBuffers} {L : FlexBuffersLaws F}.

(** C11: Reading the bytes of a block whose voter ids all fit an [int] gives the block
    back, header, transactions and votes, all but the merged signature, which is not
    written; with one voter id of [2^31] or more the bytes cannot be read, as [std::stoi]
    throws [std::out_of_range]. *)
Theorem Block_encode_decode b :
  block_wf b →
  (keys_small (votes_ b) → from_bytes (to_bytes b) = Ret (set_tss_sig None b)) ∧
  (∀ k v, votes_ b !! k = Some v → 2 ^ 31 ≤ k →
     from_bytes (T := Block) (to_bytes b) = Throw OutOfRange).
Proof.
  intros Hb. rewrite Block_from_to by done. split.
  - intros Hk. by rewrite bool_decide_true.
  - intros k v Hk Hbig. rewrite bool_decide_false; [done|].
    intros Hsmall. specialize (Hsmall k v Hk). simpl in Hsmall. lia.
Qed.

(** The bytes of a block with a voter id of [2^31] or more cannot be read: the key is
    parsed with [std::stoi], which throws [std::out_of_range]. *)
Theorem Block_large_voter_unreadable b k v :
  block_wf b → votes_ b !! k = Some v → 2 ^ 31 ≤ k →
  from_bytes (T := Block) (to_bytes b) = Throw OutOfRange.
Proof.
  intros Hb Hk Hbig. rewrite Block_from_to by done. rewrite bool_decide_false; [done|].
  intros Hsmall. specialize (Hsmall k v Hk). simpl in Hsmall. lia.
Qed.

(** C12: Votes, with or without a signature share, block headers and transactions are
    read back as they were written. *)
Theorem vote_header_tx_encode_decode (v : BlockVote) (h : BlockHeader) (tx : Transaction) :
  vote_wf v → header_wf h → tx_wf tx →
  from_bytes (to_bytes v) = Ret v ∧ from_bytes (to_bytes h) = Ret h ∧
  from_bytes (to_bytes tx) = Ret tx.
Proof.
  intros Hv Hh Ht. rewrite (from_to v Hv), (from_to h Hh), (from_to tx Ht). done.
Qed.

(** Two readable blocks with the same bytes differ at most in their merged
    signature: the bytes that are stored, sent and signed determine the block. *)
Theorem Block_bytes_inj b1 b2 :
  block_wf b1 → block_wf b2 → keys_small (votes_ b1) → keys_small (votes_ b2) →
  to_bytes b1 = to_bytes b2 → set_tss_sig None b1 = set_tss_sig None b2.
Proof.
  intros H1 H2 K1 K2 Heq. pose proof (Block_from_to b1 H1) as E1.
  rewrite Heq, Block_from_to, !bool_decide_true in E1 by done. congruence.
Qed.

(** [std::stoi] reads what [std::to_string] prints exactly up to [2^31 - 1], and
    throws [std::out_of_range] on every larger [uint64_t]. *)
Theorem stoi_reads_to_string n :
  u64 n →
  stoi (to_string n) = if bool_decide (n < 2 ^ 31) then Ret n else Throw OutOfRange.
Proof. apply stoi_to_string. Qed.

(** C13: [Block::get_server_id] names the primary server [id mod n + 1] and the server
    after it on the ring of [n] servers: ids of the configuration, two different ones when
    there are two servers. *)
Theorem get_server_id_targets b n :
  0 < n < 2 ^ 64 - 1 → u64 (id_ (header_ b)) →
  let primary := id_ (header_ b) mod n + 1 in
  ∃ S, get_server_id b n = Ret S ∧ S = {[ primary; next_server n primary ]} ∧
    (∀ x, x ∈ S → 1 ≤ x ≤ n) ∧ Z.of_nat (size S) = Z.min 2 n.
Proof.
  intros Hn Hid primary. exists {[ primary; next_server n primary ]}.
  assert (get_server_id b n = Ret {[ primary; next_server n primary ]}) as Heq
    by (by apply get_server_id_unfold).
  split; [done|]. split; [done|].
  pose proof (Z.mod_pos_bound (id_ (header_ b)) n ltac:(lia)) as Hm.
  assert (1 ≤ primary ≤ n) as Hp1 by (unfold primary; lia). clearbody primary. split.
  - intros x Hx. by eapply get_server_id_mem.
  - unfold next_server. destruct (Z.eqb_spec primary n) as [Hp|Hp].
    + destruct (decide (n = 1)) as [->|Hn1].
      * replace primary with 1 by lia. done.
      * rewrite size_union, !size_singleton by set_solver. lia.
    + rewrite size_union, !size_singleton by (rewrite disjoint_singleton_l, elem_of_singleton; lia).
      lia.
Qed.

(** The two places that know the shadow of a server agree: for a block whose primary
    is server [s], [Block::get_server_id] names [s] and what
    [TcServer::get_shadow_peer_server_id] returns on [s]. *)
Theorem shadow_agrees (cf : conf) (s : server) b :
  conf_ok cf → u64 (id_ (header_ b)) →
  server_id s = id_ (header_ b) mod server_count cf + 1 →
  get_server_id b (server_count cf) =
    Ret {[ server_id s; get_shadow_peer_server_id cf s ]}.
Proof.
  intros Hcf Hid Hs. rewrite get_server_id_unfold by done. rewrite <- Hs.
  unfold get_shadow_peer_server_id, next_server. by destruct (_ =? _).
Qed.

(** C14: [Block::merge_votes] hands the share of every vote of the block, in the order of
    the map and each one once, to an empty set of shares. When the library has accepted them
    all and they are enough, the signature merged from them is attached; when they are not
    enough, the block is left as it was. A share the library refuses, and a merge that
    fails, end the call with the library's exception. Nothing else of the block changes. *)
Theorem Block_merge_votes_result b target :
  let empty := newBLSSigShareSet target target in
  match Block_merge_votes b target with
  | Ret b' => ∃ set, collects empty (shares_of b) set ∧
      if isEnough set then ∃ sg, merge set 16 = Ret sg ∧ b' = set_tss_sig (Some sg) b
      else b' = b
  | Throw e =>
      (∃ pre share rest set, shares_of b = pre ++ share :: rest ∧
         collects empty pre set ∧ addSigShare set share = Throw e) ∨
      ∃ set, collects empty (shares_of b) set ∧ isEnough set = true ∧ merge set 16 = Throw e
  | Crash _ => False
  end.
Proof.
  intros empty. pose proof (add_sig_shares_collects (map_iter (votes_ b)) empty) as Hc.
  unfold Block_merge_votes. fold empty.
  destruct (add_sig_shares _ _) as [set|e|f]; [|by left|done]. simpl.
  destruct (isEnough set) eqn:Hen; [|by exists set; rewrite Hen].
  pose proof (merge_no_crash set 16) as Hm.
  destruct (merge set 16) as [sg|e|f] eqn:Em; simpl; [|by right; exists set|by destruct Hm].
  exists set. rewrite Hen. split; [done|]. by exists sg.
Qed.

End properties.

(** ** Concrete inputs *)

#[local] Existing Instances toy_crypto toy_flex toy_env.

Definition ex_vote (k : Z) : BlockVote :=
  MkBlockVote 7 k (match toy_sign Byte.x05 [] 1 with Ret sh => Some sh | _ => None end).
Definition ex_tx : Transaction := MkTransaction 1 2 3 0 5.
Definition ex_block (k : Z) : Block :=
  MkBlock (MkBlockHeader 7 0xDEADBEEF 1000 1001 0 0) [ex_tx] {[ k := ex_vote k ]} None.

Lemma ex_vote_wf k : u64 k → vote_wf (ex_vote k).
Proof. intros H. split; [unfold u64; simpl; lia|done]. Qed.

Lemma ex_block_wf k : u64 k → block_wf (ex_block k).
Proof.
  intros H. split; [|split].
  - split_and!; simpl; unfold u64; lia.
  - repeat constructor; simpl; unfold u64; lia.
  - apply map_Forall_singleton. split; [done|by apply ex_vote_wf].
Qed.

Lemma ex_keys_small k : k < 2 ^ 31 → keys_small (votes_ (ex_block k)).
Proof. intros H. by apply map_Forall_singleton. Qed.

Lemma Block_encode_decode_witness :
  from_bytes (to_bytes (ex_block 3)) = Ret (set_tss_sig None (ex_block 3)) ∧
  from_bytes (T := Block) (to_bytes (ex_block (2 ^ 31))) = Throw OutOfRange.
Proof.
  split.
  - apply (Block_encode_decode (ex_block 3)).
    + apply ex_block_wf. unfold u64. lia.
    + apply ex_keys_small. lia.
  - apply (Block_encode_decode (ex_block (2 ^ 31))) with (2 ^ 31) (ex_vote (2 ^ 31)).
    + apply ex_block_wf. unfold u64. lia.
    + apply lookup_singleton_eq.
    + lia.
Defined.

Lemma Block_large_voter_unreadable_witness :
  from_bytes (T := Block) (to_bytes (ex_block (2 ^ 31))) = Throw OutOfRange.
Proof.
  apply (Block_large_voter_unreadable (ex_block (2 ^ 31)) (2 ^ 31) (ex_vote (2 ^ 31))).
  - apply ex_block_wf. unfold u64. lia.
  - apply lookup_singleton_eq.
  - lia.
Defined.

Lemma vote_header_tx_encode_decode_witness :
  from_bytes (to_bytes (ex_vote 3)) = Ret (ex_vote 3) ∧
  from_bytes (to_bytes (header_ (ex_block 3))) = Ret (header_ (ex_block 3)) ∧
  from_bytes (to_bytes ex_tx) = Ret ex_tx.
Proof.
  apply (vote_header_tx_encode_decode (ex_vote 3) (header_ (ex_block 3)) ex_tx).
  - apply ex_vote_wf. unfold u64. lia.
  - apply ex_block_wf. unfold u64. lia.
  - split_and!; simpl; unfold u64; lia.
Defined.

(** Two copies of a block that differ in the signature. *)
Lemma Block_bytes_inj_witness :
  set_tss_sig None (ex_block 3) = set_tss_sig None (set_tss_sig None (ex_block 3)).
Proof.
  apply (Block_bytes_inj (ex_block 3) (set_tss_sig None (ex_block 3))).
  - apply ex_block_wf. unfold u64. lia.
  - apply (ex_block_wf 3). unfold u64. lia.
  - apply ex_keys_small. lia.
  - apply (ex_keys_small 3). lia.
  - reflexivity.
Defined.

Lemma stoi_reads_to_string_witness : stoi "2147483648" = Throw OutOfRange.
Proof. apply (stoi_reads_to_string 2147483648). unfold u64. lia. Defined.

Lemma get_server_id_targets_witness :
  ∃ S, get_server_id (ex_block 3) 4 = Ret S ∧ S = {[ 4; 1 ]} ∧
    (∀ x, x ∈ S → 1 ≤ x ≤ 4) ∧ Z.of_nat (size S) = 2.
Proof. apply (get_server_id_targets (ex_block 3) 4); [lia|unfold u64; simpl; lia]. Defined.

Definition ex_conf : conf := MkConf 4 4 2 ["a"; "b"; "c"; "d"]%string 3 2 5 10 1000 (Some true).
Definition ex_server : server := upd_server_id (λ _, 4) TcServer_new.

Lemma shadow_agrees_witness :
  get_server_id (ex_block 3) 4 = Ret {[ 4; get_shadow_peer_server_id ex_conf ex_server ]}.
Proof.
  apply (shadow_agrees ex_conf ex_server (ex_block 3)).
  - unfold conf_ok. simpl. lia.
  - unfold u64. simpl. lia.
  - reflexivity.
Defined.

(** One share reaches a target of one: the block comes back signed, otherwise untouched. *)
Definition signed (r : outcome Block) : bool :=
  match r with Ret b => bool_decide (is_Some (tss_sig_ b)) | _ => false end.

Lemma Block_merge_votes_result_witness :
  ∃ sg, Block_merge_votes (ex_block 3) 1 = Ret (set_tss_sig (Some sg) (ex_block 3)).
Proof.
  pose proof (Block_merge_votes_result (ex_block 3) 1) as H.
  assert (Hs : signed (Block_merge_votes (ex_block 3) 1) = true) by (vm_compute; reflexivity).
  destruct (Block_merge_votes (ex_block 3) 1) as [b'| |]; [|discriminate Hs|discriminate Hs].
  destruct H as (set & _ & H). destruct (isEnough set).
  - destruct H as (sg & _ & ->). by exists sg.
  - exfalso. rewrite H in Hs. discriminate Hs.
Defined.
