(* ===== verification/HashProps.v ===== *)
(** What the MessagePack adapters and the hash of a block promise. *)
From Stdlib Require Import ZArith Lia Ascii String.
From stdpp Require Import base tactics list gmap strings sorting.
From S2P Require Import Prelude Entity Msgpack MsgpackProofs Client ClientProofs Instances.

Section properties.
Context {C : Crypto} {CL : CryptoLaws C} {K : Msgpack} {KL : MsgpackLaws K}.

(** C15: A block that is packed with MessagePack, turned into a string and back, and
    unpacked has the header, the transactions and the votes it had, and a signature with
    the same string and numbers. *)
Theorem Block_msgpack_roundtrip (d : Transaction) (b : Block) :
  block_fits b →
  ∃ pre o rb, hash_preimage b = Ret pre ∧ stringToSbuffer pre = Ret pre ∧
    mp_unpack pre = Ret o ∧ Block_as d o = Ret rb ∧
    rb_header rb = header_ b ∧ rb_tx_vec rb = Some <$> tx_vec_ b ∧
    rb_votes rb = Some <$> votes_ b ∧
    sig_toString <$> rb_tss_sig rb = sig_toString <$> tss_sig_ b.
Proof.
  intros Hb. destruct (preimage_read d b Hb) as (pre & o & rb & ? & ? & ? & ? & (?&?&?&Hs)).
  exists pre, o, rb. split_and!; try done. destruct Hs as [s s' [Hs _]|]; [|done]. simpl.
  by rewrite Hs.
Qed.

(** The adapters of an address, a vote and a signature share read back what they
    packed; an address must have its twenty bytes. *)
Theorem msgpack_parts_roundtrip (a : bytes) (v : BlockVote) (s : BLSSigShare) :
  length a = 20%nat → vote_wf v → sig_share_ v = Some s → len_ok (String.length (getHint s)) →
  obind (mp_unpack (mp_pack (address_pack a))) address_as = Ret a ∧
  obind (mp_unpack (mp_pack (BlockVote_pack v))) BlockVote_as = Ret v ∧
  obind (mp_unpack (mp_pack (BLSSigShare_pack s))) BLSSigShare_as = Ret s.
Proof.
  intros Ha Hv Hs Hh.
  assert (mp_wf (address_pack a)) as Wa.
  { apply mp_wf_map. split; [done|]. repeat apply Forall_cons_2; try done.
    split; [done|]. simpl. by rewrite length_string_of_bytes, Ha. }
  assert (mp_wf (BlockVote_pack v)) as Wv.
  { apply BlockVote_pack_wf; [done|]. intros s' Hs'. by simplify_eq. }
  destruct (unpack_pack _ Wa) as (oa & -> & Ra & _).
  destruct (unpack_pack _ Wv) as (ov & -> & Rv & _).
  destruct (unpack_pack _ (BLSSigShare_pack_wf s Hh)) as (os & -> & Rs & _).
  split_and!; simpl; [by apply address_as_pack|by apply BlockVote_as_pack|].
  by apply BLSSigShare_as_pack.
Qed.

(** C16: Clients whose copies of a block differ in the distribution time or in the votes
    sign different messages, up to a collision of the hash: what [sign] is given, with the
    key share and the number of the client, is the hash of the packed copy, and the packed
    copies are different byte strings. *)
Theorem signed_message_changes {W} (b b' : Block) (c c' : client W) sk pk sk' pk' :
  block_fits b → block_fits b' →
  dist_ts_ (header_ b) ≠ dist_ts_ (header_ b') ∨ votes_ b ≠ votes_ b' →
  client_tss_key c = Some (sk, pk) → client_tss_key c' = Some (sk', pk') →
  ∃ p p', p ≠ p' ∧
    hash_preimage b = Ret p ∧ get_sha256 b = Ret (hash256 p) ∧
    hash_preimage b' = Ret p' ∧ get_sha256 b' = Ret (hash256 p') ∧
    (sign_block b c).1 = obind (sign sk (hash256 p) (client_id c))
                           (λ share, Ret (with_vote (client_id c) share b)) ∧
    (sign_block b' c').1 = obind (sign sk' (hash256 p') (client_id c'))
                             (λ share, Ret (with_vote (client_id c') share b')).
Proof.
  intros Hb Hb' Hne Hk Hk'. set (d := MkTransaction 0 0 0 0 0).
  destruct (preimage_read d b Hb) as (p & _ & _ & Hp & _).
  destruct (preimage_read d b' Hb') as (p' & _ & _ & Hp' & _).
  assert (get_sha256 b = Ret (hash256 p)) as Hh by (unfold get_sha256; by rewrite Hp).
  assert (get_sha256 b' = Ret (hash256 p')) as Hh' by (unfold get_sha256; by rewrite Hp').
  exists p, p'. split_and!; try done; [|by eapply sign_block_result..].
  intros ->. destruct (preimage_determines b b' Hb Hb') as (Hh2 & _ & Hv & _); [congruence|].
  rewrite Hh2, Hv in Hne. by destruct Hne.
Qed.

End properties.

(** ** Concrete inputs *)

#[local] Existing Instances toy_crypto toy_msgpack.

(** A block with a transaction, a vote and no merged signature. *)
Definition hashed_vote : BlockVote :=
  MkBlockVote 7 3 (Some (ret_of (ToyShare Byte.x05 "hint" 1 2 2 eq_refl) (toy_sign Byte.x05 [] 1))).
Definition hashed_block : Block :=
  MkBlock (MkBlockHeader 7 0xDEADBEEF 1000 1001 0 0) [MkTransaction 1 2 3 0 5]
    {[ 3 := hashed_vote ]} None.

Lemma hashed_vote_wf : vote_wf hashed_vote.
Proof. split; unfold u64; simpl; lia. Qed.

(** It fits whatever its distribution time, and with one vote more. *)
Lemma hashed_block_fits t (vs : gmap Z BlockVote) :
  u64 t → vs = {[ 3 := hashed_vote ]} ∨ vs = <[4 := hashed_vote]> {[ 3 := hashed_vote ]} →
  block_fits (upd_votes (λ _, vs) (upd_header (set_dist_ts t) hashed_block)).
Proof.
  intros Ht Hvs.
  assert (map_Forall (λ k v, u64 k ∧ v = hashed_vote) vs) as Hall.
  { assert (map_Forall (λ k v, u64 k ∧ v = hashed_vote) {[ 3 := hashed_vote ]}) as H3
      by (apply map_Forall_singleton; by unfold u64).
    destruct Hvs as [->| ->]; [done|]. apply map_Forall_insert_2; [by unfold u64|done]. }
  split; simpl.
  - split; [|split].
    + split_and!; simpl; try done; unfold u64; lia.
    + repeat constructor; simpl; unfold u64; lia.
    + intros k v Hk. destruct (Hall k v Hk) as [? ->]. split; [done|apply hashed_vote_wf].
  - done.
  - destruct Hvs as [->| ->]; unfold len_ok; [by rewrite map_size_singleton|].
    rewrite map_size_insert_None, map_size_singleton; done.
  - intros k v s Hk. destruct (Hall k v Hk) as [_ ->]. intros [= <-]. done.
  - done.
Qed.

Lemma Block_msgpack_roundtrip_witness :
  ∃ pre o rb, hash_preimage hashed_block = Ret pre ∧ stringToSbuffer pre = Ret pre ∧
    mp_unpack pre = Ret o ∧ Block_as (MkTransaction 0 0 0 0 0) o = Ret rb ∧
    rb_header rb = header_ hashed_block ∧ rb_tx_vec rb = Some <$> tx_vec_ hashed_block ∧
    rb_votes rb = Some <$> votes_ hashed_block ∧
    sig_toString <$> rb_tss_sig rb = sig_toString <$> tss_sig_ hashed_block.
Proof.
  apply (Block_msgpack_roundtrip (MkTransaction 0 0 0 0 0) hashed_block).
  apply (hashed_block_fits 1001); [unfold u64; lia|by left].
Defined.

Lemma msgpack_parts_roundtrip_witness :
  obind (mp_unpack (mp_pack (address_pack (replicate 20 Byte.x01)))) address_as =
    Ret (replicate 20 Byte.x01).
Proof.
  apply (msgpack_parts_roundtrip (replicate 20 Byte.x01) hashed_vote
           (ToyShare Byte.x05 "hint" 1 2 2 eq_refl)).
  - reflexivity.
  - apply hashed_vote_wf.
  - reflexivity.
  - reflexivity.
Defined.

(** Client 4, which has the key share [k]. *)
Definition signing_client (k : Byte.byte) : client unit :=
  set_tss_key (k, k) (MkClient None None 4 [] ∅ None ∅ (MkMempool [] [] [] []) [] [] tt 0).

(** Copies with two distribution times, and with one vote and two. *)
Lemma signed_message_changes_witness :
  (∃ p p', p ≠ p' ∧ hash_preimage hashed_block = Ret p ∧
     hash_preimage (upd_header (set_dist_ts 2000) hashed_block) = Ret p') ∧
  (∃ p p', p ≠ p' ∧ hash_preimage hashed_block = Ret p ∧
     hash_preimage (upd_votes (<[4 := hashed_vote]>) hashed_block) = Ret p').
Proof.
  assert (block_fits hashed_block) as Hb
    by (apply (hashed_block_fits 1001); [unfold u64; lia|by left]).
  split.
  - destruct (signed_message_changes hashed_block (upd_header (set_dist_ts 2000) hashed_block)
                (signing_client Byte.x05) (signing_client Byte.x06)
                Byte.x05 Byte.x05 Byte.x06 Byte.x06) as (p & p' & Hne & Hp & _ & Hp' & _).
    + exact Hb.
    + apply (hashed_block_fits 2000); [unfold u64; lia|by left].
    + left. discriminate.
    + reflexivity.
    + reflexivity.
    + exists p, p'. split; [exact Hne|]. split; [exact Hp|exact Hp'].
  - destruct (signed_message_changes hashed_block (upd_votes (<[4 := hashed_vote]>) hashed_block)
                (signing_client Byte.x05) (signing_client Byte.x06)
                Byte.x05 Byte.x05 Byte.x06 Byte.x06) as (p & p' & Hne & Hp & _ & Hp' & _).
    + exact Hb.
    + apply (hashed_block_fits 1001 (<[4 := hashed_vote]> {[ 3 := hashed_vote ]}));
        [unfold u64; lia|by right].
    + right. intros Heq. by apply (f_equal (λ m : gmap Z BlockVote, m !! 4)) in Heq.
    + reflexivity.
    + reflexivity.
    + exists p, p'. split; [exact Hne|]. split; [exact Hp|exact Hp'].
Defined.
