(* ===== verification/ServiceProps.v ===== *)
(** Properties of the two services of a server: what a handler answers and how it changes
    the state, on every branch. *)
From Stdlib Require Import ZArith Lia.
From stdpp Require Import base tactics list gmap strings sorting.
From S2P Require Import Prelude Decimal Entity FlexCodec ServerState ServerInv ClientService.
From S2P Require Import PeerService ServerCore HandlersProofs CoreProofs MergeProofs Instances EntityProps.
From S2P Require Import System WorldProofs Scenario.

Section properties.
Context {C : Crypto} {CL : CryptoLaws C} {F : FlexBuffers} {L : FlexBuffersLaws F}.
Context {E : Env} {EL : EnvLaws E}.
Context (cf : conf).

(** ** Voting *)

(** C17: A vote that can be read, for a block that is not dead, is pushed into the relay
    queue of every server the block is assigned to other than this one; when the block is
    assigned to this server and pending, the vote is inserted under the client's id, and
    the block moves to the merge queue exactly when its votes are enough. The handler's
    step returns in every case. *)
Theorem VoteBlocks_item_result s k ser blk v targets :
  conf_ok cf → server_wf cf s → from_bytes ser = Ret blk → votes_ blk !! k = Some v →
  id_ (header_ blk) ∉ dead_block s → get_server_id blk (server_count cf) = Ret targets →
  let id := id_ (header_ blk) in
  let s1 := upd_relay_votes (push_in (relay_targets s targets) v) s in
  VoteBlocks_item cf k ser s =
    (Ret tt,
     if bool_decide (server_id s ∈ targets)
     then match pending_blks s !! id with
          | Some l => match heap s !! l with
                      | Some b => after_vote cf id l (add_vote k v b) s1
                      | None => s1
                      end
          | None => s1
          end
     else s1).
Proof. intros Hcf. by apply VoteBlocks_item_eq. Qed.

(** C18: A vote for a block that is dead, or by a client that is not among the voters of
    the block it sends, is dropped: the step returns and nothing changes. *)
Theorem VoteBlocks_item_dropped s k ser blk :
  from_bytes ser = Ret blk →
  votes_ blk !! k = None ∨ id_ (header_ blk) ∈ dead_block s →
  VoteBlocks_item cf k ser s = (Ret tt, s).
Proof.
  intros Hser Hor. unfold VoteBlocks_item, mbind at 1, lift. rewrite Hser.
  destruct (votes_ blk !! k) as [v|]; [|done]. destruct Hor as [|Hdead]; [done|].
  unfold mbind, gets. by rewrite bool_decide_true.
Qed.

(** A client's second vote does not count: while the block is short of votes, a vote
    under a key that has one changes nothing. *)
Theorem repeated_vote_ignored s k id l b v0 v :
  pending_blks s !! id = Some l → heap s !! l = Some b → votes_ b !! k = Some v0 →
  Z.of_nat (size (votes_ b)) < client_count cf →
  VoteBlocks_local cf k id v s = (Ret tt, s).
Proof.
  intros Hp Hb Hk Hsize. rewrite VoteBlocks_local_eq, Hp, Hb.
  assert (add_vote k v b = b) as ->.
  { unfold add_vote, upd_votes, map_insert_new. rewrite Hk. by destruct b. }
  assert (is_vote_enough b (client_count cf) = false) as Hn
    by (apply not_true_iff_false; rewrite is_vote_enough_spec; lia).
  unfold after_vote. rewrite Hn. f_equal. unfold upd_heap. rewrite insert_id by done.
  by destruct s.
Qed.

(** C19: The vote that completes the number of clients takes the block out of the pending
    map and puts it, with the vote, at the end of the merge queue; one vote less leaves it
    pending. *)
Theorem completing_vote s k id l b v :
  pending_blks s !! id = Some l → heap s !! l = Some b → votes_ b !! k = None →
  Z.of_nat (size (votes_ b)) < client_count cf →
  let s' := snd (VoteBlocks_local cf k id v s) in
  heap s' !! l = Some (upd_votes <[k := v]> b) ∧
  if bool_decide (Z.of_nat (size (votes_ b)) + 1 = client_count cf)
  then pending_blks s' = delete id (pending_blks s) ∧
       pb_merge_queue s' = pb_merge_queue s ++ [l]
  else pending_blks s' = pending_blks s ∧ pb_merge_queue s' = pb_merge_queue s.
Proof.
  intros Hp Hb Hk Hsize s'. unfold s'. rewrite VoteBlocks_local_eq, Hp, Hb. simpl snd.
  assert (add_vote k v b = upd_votes <[k := v]> b) as ->
    by (unfold add_vote, upd_votes, map_insert_new; by rewrite Hk).
  assert (is_vote_enough (upd_votes <[k := v]> b) (client_count cf) =
          bool_decide (Z.of_nat (size (votes_ b)) + 1 = client_count cf)) as Hen.
  { apply eq_true_iff_eq. rewrite is_vote_enough_spec, bool_decide_eq_true. simpl.
    rewrite map_size_insert_None by done. lia. }
  unfold after_vote. rewrite Hen.
  case_bool_decide; simpl; rewrite lookup_insert_eq; done.
Qed.

(** C20: A vote relayed by another server has the effect it has at a server it reaches
    directly: reading the relayed bytes and handling them is the local part of
    [VoteBlocks] under the vote's own voter id, unless the block is dead. *)
Theorem relayed_vote_is_local s v :
  vote_wf v →
  RelayVote_item cf (to_bytes v) s =
    if bool_decide (block_id_ v ∈ dead_block s) then (Ret tt, s)
    else VoteBlocks_local cf (voter_id_ v) (block_id_ v) v s.
Proof.
  intros Hv. unfold RelayVote_item, mbind, lift, gets. rewrite (from_to v Hv).
  cbn [id]. case_bool_decide; [done|]. by rewrite <- RelayVote_local_eq.
Qed.

(** ** Headers and blocks *)

(** C21: [PullPendingBlocks] answers with the headers of the pending blocks that have been
    signalled and that the client has not been sent before, one each, and records exactly
    those as sent. *)
Theorem PullPendingBlocks_answer s cid p :
  server_wf cf s → clients s !! cid = Some p →
  let bs := offered s p (chm_iter (pending_blks s)) in
  let '(r, s') := PullPendingBlocks cid s in
  r = Ret (to_bytes ∘ header_ <$> bs) ∧
  (∀ b, b ∈ bs ↔ ∃ id l, pending_blks s !! id = Some l ∧ heap s !! l = Some b ∧
     id ∈ pb_sync_labels s ∧ seen_blocks p !! id = None) ∧
  ∃ p', clients s' = <[cid := p']> (clients s) ∧
    dom (seen_blocks p') = dom (seen_blocks p) ∪ list_to_set (block_ids bs).
Proof.
  intros H Hp bs. pose proof (PullPendingBlocks_spec cf s cid p H Hp) as Hpull.
  unfold wp in Hpull. destruct (PullPendingBlocks cid s) as [r s']. simpl in Hpull.
  destruct Hpull as (_ & _ & -> & p' & Hc & _ & Hdom). split_and!; [done| |by exists p'].
  intros b. unfold bs, offered. rewrite list_elem_of_omap. split.
  - intros ([id l] & Hin & Hb). simpl in Hb.
    rewrite (chm_iter_perm _ _), elem_of_map_to_list in Hin.
    case_bool_decide as Hd; [|done]. exists id, l. tauto.
  - intros (id & l & Hpl & Hb & Hd). exists (id, l).
    rewrite (chm_iter_perm _ _), elem_of_map_to_list. split; [done|]. simpl.
    by rewrite bool_decide_true.
Qed.

(** Pulling twice without anything in between gives an empty second answer: no
    header is sent to a client twice. *)
Theorem second_pull_empty s cid p :
  server_wf cf s → clients s !! cid = Some p →
  fst (PullPendingBlocks cid (snd (PullPendingBlocks cid s))) = Ret [].
Proof.
  intros H Hp. pose proof (PullPendingBlocks_spec cf s cid p H Hp) as Hpull.
  unfold wp in Hpull. destruct (PullPendingBlocks cid s) as [r s']. simpl in *.
  destruct Hpull as ([Hwf He] & Hf & _ & p' & Hc & _ & Hdom).
  assert (clients s' !! cid = Some p') as Hp' by (by rewrite Hc, lookup_insert_eq).
  destruct (PullPendingBlocks_spec cf s' cid p' Hwf Hp') as (_ & _ & -> & _).
  assert (offered s' p' (chm_iter (pending_blks s')) = []) as ->; [|done].
  apply omap_nil. intros [id l] Hin. rewrite (pf_pending _ _ Hf) in Hin.
  rewrite (chm_iter_perm _ _), elem_of_map_to_list in Hin. simpl.
  case_bool_decide as Hd; [|done]. destruct Hd as [Hlab Hnone].
  rewrite (pf_labels _ _ Hf) in Hlab. exfalso.
  destruct (wf_pending _ _ H _ _ Hin) as (b & Hb & Hid).
  apply not_elem_of_dom in Hnone. rewrite Hdom, not_elem_of_union in Hnone.
  destruct Hnone as [Hnone Hids]. apply Hids. rewrite elem_of_list_to_set. unfold block_ids.
  apply list_elem_of_fmap. exists b. split; [done|]. apply list_elem_of_omap.
  exists (id, l). rewrite (chm_iter_perm _ _), elem_of_map_to_list. split; [done|]. simpl.
  apply not_elem_of_dom in Hnone. by rewrite bool_decide_true.
Qed.

Lemma header_ids hdrs : Forall header_wf hdrs → header_id <$> (to_bytes <$> hdrs) = id_ <$> hdrs.
Proof.
  induction 1 as [|h hdrs Hh _ IH]; [done|]. cbn [fmap list_fmap]. f_equal; [|exact IH].
  assert (∃ h', from_bytes (to_bytes h) = Ret h' ∧ id_ h' = header_id (to_bytes h))
    as (h' & Hh' & <-) by (by eexists).
  rewrite (from_to h Hh) in Hh'. by injection Hh' as <-.
Qed.

(** C22: [GetBlocks] answers with the bytes of the pending blocks the headers name, in the
    order of the request, leaving out the headers of blocks that are not pending, and
    changes nothing. *)
Theorem GetBlocks_answer s hdrs :
  server_wf cf s → Forall header_wf hdrs →
  GetBlocks (to_bytes <$> hdrs) s = (Ret (to_bytes <$> blocks_at s (id_ <$> hdrs)), s).
Proof.
  intros H Hh. destruct (GetBlocks_spec cf s (to_bytes <$> hdrs) H) as [Hs Hr].
  rewrite (surjective_pairing (GetBlocks _ s)), Hs, Hr. do 4 f_equal.
  by apply header_ids.
Qed.

(** ** Registration *)

(** C23: After [start] every client of the configuration can register once its public key
    can be read, and is given its threshold key share; a request with any other client id
    dereferences an empty accessor. [start] itself ends the process when the database does
    not open, and only then. *)
Theorem Register_after_start id pkey pk :
  dkg_ok cf → mkPubKey pkey = Ret pk →
  let s := snd (start cf TcServer_new) in
  if db_opens (conf_server_id cf) then
    fst (start cf TcServer_new) = Ret tt ∧
    if bool_decide (1 ≤ id ≤ client_count cf)
    then ∃ p sk pks, clients s !! id = Some p ∧ tss_key p = Some (sk, pks) ∧
      Register id pkey s =
        (Ret (MkRegisterResponse 0 id (skey_to_string sk)),
         upd_clients <[id := set_ecc_pkey (Some pk) p]> s)
    else Register id pkey s = (Crash NullDeref, s)
  else fst (start cf TcServer_new) = Crash AssertFail.
Proof.
  intros Hd Hpk s. destruct (db_opens _) eqn:Hdb; cycle 1.
  { apply start_no_db. unfold db_ok. by rewrite Hdb. }
  destruct (start_eq cf Hdb Hd) as (Hr & m & Hs & Hm). fold s in Hs. split; [exact Hr|].
  specialize (Hm id). assert (clients s = m) as <- by (by rewrite Hs).
  unfold Register, mbind, lift, gets, modify. rewrite Hpk. case_bool_decide.
  - destruct Hm as (p & Hp & _ & _ & [[sk pks] Hk] & _). exists p, sk, pks.
    rewrite Hp, Hk. done.
  - by rewrite Hm.
Qed.

(** ** Blocks from other servers *)

Lemma RelayBlock_loop bs s :
  Forall (λ b, block_wf b ∧ keys_small (votes_ b)) bs → NoDup (block_ids bs) →
  wp (mfor (to_bytes <$> bs) RelayBlock_item) (λ r s', r = Ret tt ∧
    (∀ b, b ∈ bs → ∃ l, pending_blks s' !! id_ (header_ b) = Some l ∧
       heap s' !! l = Some (set_tss_sig None b)) ∧
    (∀ id, id ∉ block_ids bs → pending_blks s' !! id = pending_blks s !! id) ∧
    (∀ l, (l < next_loc s)%nat → heap s' !! l = heap s !! l)) s.
Proof.
  intros Hbs. revert s. induction Hbs as [|b bs [Hwf Hk] Hbs IH]; intros s Hnd.
  { wp_simpl. split_and!; try done. intros b Hb. by apply not_elem_of_nil in Hb. }
  unfold block_ids in Hnd. rewrite fmap_cons in Hnd. apply NoDup_cons in Hnd as [Hnin Hnd].
  cbn [fmap list_fmap mfor]. unfold RelayBlock_item at 1, pending_insert. wp_simpl.
  rewrite (Block_from_to b Hwf), bool_decide_true by done. wp_simpl.
  eapply wp_mono; [by apply IH|]. intros r s' (-> & Hin & Hout & Hheap). simpl in *.
  split_and!; [done| | |].
  - intros b' [->|Hb']%elem_of_cons; [|by apply Hin].
    exists (next_loc s). rewrite Hout by done. rewrite lookup_insert_eq. split; [done|].
    rewrite Hheap by lia. by rewrite lookup_insert_eq.
  - intros id. rewrite not_elem_of_cons. intros [Hne Hn].
    rewrite Hout by done. by rewrite lookup_insert_ne.
  - intros l Hl. rewrite Hheap by lia. rewrite lookup_insert_ne by lia. done.
Qed.

(** C24: [RelayBlock] makes every block of the request pending under its id, as it was
    sent but for the merged signature, and touches no other pending entry. *)
Theorem RelayBlock_handler_result bs s :
  Forall (λ b, block_wf b ∧ keys_small (votes_ b)) bs → NoDup (block_ids bs) →
  wp (RelayBlock_handler (to_bytes <$> bs)) (λ r s', r = Ret 0 ∧
    (∀ b, b ∈ bs → ∃ l, pending_blks s' !! id_ (header_ b) = Some l ∧
       heap s' !! l = Some (set_tss_sig None b)) ∧
    (∀ id, id ∉ block_ids bs → pending_blks s' !! id = pending_blks s !! id)) s.
Proof.
  intros Hbs Hnd. unfold RelayBlock_handler. wp_simpl.
  eapply wp_mono; [by apply RelayBlock_loop|]. intros r s' (-> & Hin & Hout & _). done.
Qed.

(** C25: A broadcast commit of a block that is pending replaces the pending entry by a
    committed copy with this server's receive time, written to the database when it is
    used; a commit of a block that is not pending is ignored. *)
Theorem SPBcastCommit_item_result s b use_db :
  block_wf b → keys_small (votes_ b) → use_rocksdb cf = Some use_db →
  let id := id_ (header_ b) in
  let b' := upd_header (set_recv_ts (clock (server_id s) (tick s))) (set_tss_sig None b) in
  let '(r, s') := SPBcastCommit_item cf (to_bytes b) s in
  r = Ret tt ∧
  match pending_blks s !! id with
  | Some _ =>
      pending_blks s' = delete id (pending_blks s) ∧
      committed_blks s' = <[id := next_loc s]> (committed_blks s) ∧
      heap s' = <[next_loc s := b']> (heap s) ∧
      db s' = db s ++ (if use_db then [db_entry b'] else [])
  | None => s' = upd_tick S s
  end.
Proof.
  intros Hwf Hk Hdb id b'.
  unfold SPBcastCommit_item, mbind, lift, now_ms, pending_find, gets, new_block,
    committed_insert, db_put_block, pending_erase, modify.
  rewrite (Block_from_to b Hwf), bool_decide_true by done. cbn. rewrite Hdb. fold id.
  destruct (pending_blks s !! id); [|done].
  destruct use_db; cbn; split_and!; try done. by rewrite app_nil_r.
Qed.

(** With a configuration that does not say whether the database is used, the same
    request fails in the middle: it throws with the block in the committed map and still
    in the pending one. *)
Theorem SPBcastCommit_item_unconfigured s b l :
  block_wf b → keys_small (votes_ b) → use_rocksdb cf = None →
  pending_blks s !! id_ (header_ b) = Some l →
  let '(r, s') := SPBcastCommit_item cf (to_bytes b) s in
  r = Throw TypeError ∧
  pending_blks s' !! id_ (header_ b) = Some l ∧
  committed_blks s' !! id_ (header_ b) = Some (next_loc s).
Proof.
  intros Hwf Hk Hdb Hp.
  unfold SPBcastCommit_item, mbind, lift, now_ms, pending_find, gets, new_block,
    committed_insert, db_put_block, pending_erase, modify, mthrow.
  rewrite (Block_from_to b Hwf), bool_decide_true by done. cbn. rewrite Hdb, Hp. cbn.
  split_and!; [done..|apply lookup_insert_eq].
Qed.

End properties.

(** ** The theorems at the states of the run of [Scenario.v] *)

#[local] Existing Instances toy_crypto toy_flex toy_env.

Lemma relayed_wf : server_wf (toy_conf 1) (node_at relayed_world 1).
Proof.
  apply (reachable_wf toy_conf 2 2 toy_sys_ok relayed_world 1
           (MkNode true (node_at relayed_world 1))).
  - apply reachable_nowrap_reachable, run_reached. vm_compute. reflexivity.
  - apply node_at_up. vm_compute. reflexivity.
Qed.

(** The states of the run are evaluated by [vm_compute] only. *)
#[local] Opaque relayed_world half_voted_world.

(** Client 1 votes at server 1, for a block of both servers. *)
Lemma VoteBlocks_item_result_witness :
  let s := node_at relayed_world 1 in
  let s' := snd (VoteBlocks_item (toy_conf 1) 1 (to_bytes (voted_block 1)) s) in
  fst (VoteBlocks_item (toy_conf 1) 1 (to_bytes (voted_block 1)) s) = Ret tt ∧
  length (default [] (relay_votes s' !! 2)) = 1%nat.
Proof.
  cbv zeta.
  rewrite (VoteBlocks_item_result (toy_conf 1) (node_at relayed_world 1) 1
             (to_bytes (voted_block 1)) (voted_block 1) (toy_vote 1) {[ 1; 2 ]}).
  - split; vm_compute; reflexivity.
  - apply toy_conf_ok.
  - apply relayed_wf.
  - apply voted_block_read. lia.
  - apply lookup_singleton_eq.
  - apply (bool_decide_eq_false_1 (id_ (header_ (voted_block 1)) ∈ dead_block _)).
    vm_compute. reflexivity.
  - vm_compute. reflexivity.
Defined.

(** Client 9 sends the vote of client 1. *)
Lemma VoteBlocks_item_dropped_witness :
  VoteBlocks_item (toy_conf 1) 9 (to_bytes (voted_block 1)) (node_at relayed_world 1) =
  (Ret tt, node_at relayed_world 1).
Proof.
  apply (VoteBlocks_item_dropped (toy_conf 1) _ 9 (to_bytes (voted_block 1)) (voted_block 1)).
  - apply voted_block_read. lia.
  - left. apply there_none. vm_compute. reflexivity.
Defined.

(** Client 1 votes again. *)
Lemma repeated_vote_ignored_witness :
  VoteBlocks_local (toy_conf 1) 1 toy_id (toy_vote 1) (node_at half_voted_world 1) =
  (Ret tt, node_at half_voted_world 1).
Proof.
  apply (repeated_vote_ignored (toy_conf 1) (node_at half_voted_world 1) 1 toy_id 0%nat
           (block_at (node_at half_voted_world 1) 0)
           (default (toy_vote 1) (votes_ (block_at (node_at half_voted_world 1) 0) !! 1))).
  - vm_compute. reflexivity.
  - apply there_default. vm_compute. reflexivity.
  - apply there_default. vm_compute. reflexivity.
  - vm_compute. reflexivity.
Defined.

(** Client 2 completes the votes. *)
Lemma completing_vote_witness :
  let s := node_at half_voted_world 1 in
  let s' := snd (VoteBlocks_local (toy_conf 1) 2 toy_id (toy_vote 2) s) in
  heap s' !! 0%nat = Some (upd_votes <[2 := toy_vote 2]> (block_at s 0)) ∧
  pending_blks s' = delete toy_id (pending_blks s) ∧
  pb_merge_queue s' = pb_merge_queue s ++ [0%nat].
Proof.
  apply (completing_vote (toy_conf 1) (node_at half_voted_world 1) 2 toy_id 0%nat
           (block_at (node_at half_voted_world 1) 0) (toy_vote 2)).
  - vm_compute. reflexivity.
  - apply there_default. vm_compute. reflexivity.
  - apply there_none. vm_compute. reflexivity.
  - vm_compute. reflexivity.
Defined.

Lemma relayed_vote_is_local_witness :
  fst (RelayVote_item (toy_conf 1) (to_bytes (toy_vote 2)) (node_at half_voted_world 1)) = Ret tt.
Proof.
  rewrite (relayed_vote_is_local (toy_conf 1) (node_at half_voted_world 1) (toy_vote 2)).
  - vm_compute. reflexivity.
  - apply toy_vote_wf. unfold u64. lia.
Defined.

Definition toy_profile (s : server) (cid : Z) : ClientProfile :=
  default (MkClientProfile 0 None None ∅) (clients s !! cid).

(** Client 1 pulls the block that has been signalled at server 1. *)
Lemma PullPendingBlocks_answer_witness :
  length (offered (node_at relayed_world 1) (toy_profile (node_at relayed_world 1) 1)
            (chm_iter (pending_blks (node_at relayed_world 1)))) = 1%nat ∧
  fst (PullPendingBlocks 1 (node_at relayed_world 1)) =
  Ret (to_bytes ∘ header_ <$>
       offered (node_at relayed_world 1) (toy_profile (node_at relayed_world 1) 1)
         (chm_iter (pending_blks (node_at relayed_world 1)))).
Proof.
  split; [vm_compute; reflexivity|].
  pose proof (PullPendingBlocks_answer (toy_conf 1) (node_at relayed_world 1) 1
                (toy_profile (node_at relayed_world 1) 1) relayed_wf) as H.
  cbv zeta in H. destruct (PullPendingBlocks 1 (node_at relayed_world 1)) as [r s'].
  apply H. apply there_default. vm_compute. reflexivity.
Defined.

Lemma second_pull_empty_witness :
  fst (PullPendingBlocks 1 (snd (PullPendingBlocks 1 (node_at relayed_world 1)))) = Ret [].
Proof.
  apply (second_pull_empty (toy_conf 1) (node_at relayed_world 1) 1
           (toy_profile (node_at relayed_world 1) 1)).
  - apply relayed_wf.
  - apply there_default. vm_compute. reflexivity.
Defined.

(** A header of the pending block, and one of a block that is not there. *)
Lemma GetBlocks_answer_witness :
  length (blocks_at (node_at relayed_world 1) [toy_id; 5]) = 1%nat ∧
  GetBlocks (to_bytes <$> [BlockHeader_new toy_id 0 0; BlockHeader_new 5 0 0])
    (node_at relayed_world 1) =
  (Ret (to_bytes <$> blocks_at (node_at relayed_world 1) [toy_id; 5]), node_at relayed_world 1).
Proof.
  split; [vm_compute; reflexivity|].
  apply (GetBlocks_answer (toy_conf 1) (node_at relayed_world 1)
           [BlockHeader_new toy_id 0 0; BlockHeader_new 5 0 0]).
  - apply relayed_wf.
  - repeat constructor; simpl; unfold u64, toy_id; lia.
Defined.

Definition toy_key : @PubKey toy_crypto := [Byte.x09].

Lemma Register_after_start_witness :
  let s := snd (start (toy_conf 1) TcServer_new) in
  (∃ p sk pks, clients s !! 2 = Some p ∧ tss_key p = Some (sk, pks) ∧
     Register 2 [Byte.x09] s =
       (Ret (MkRegisterResponse 0 2 (skey_to_string sk)),
        upd_clients <[2 := set_ecc_pkey (Some toy_key) p]> s)) ∧
  Register 3 [Byte.x09] s = (Crash NullDeref, s).
Proof.
  split.
  - refine (proj2 (Register_after_start (toy_conf 1) 2 [Byte.x09] toy_key _ _));
      [apply toy_sys_ok|reflexivity].
  - refine (proj2 (Register_after_start (toy_conf 1) 3 [Byte.x09] toy_key _ _));
      [apply toy_sys_ok|reflexivity].
Defined.

Lemma RelayBlock_handler_result_witness :
  fst (RelayBlock_handler (to_bytes <$> [voted_block 1]) TcServer_new) = Ret 0.
Proof.
  apply (RelayBlock_handler_result [voted_block 1] TcServer_new).
  - constructor; [|done]. split; [apply voted_block_wf; unfold u64; lia|].
    apply voted_block_small. lia.
  - apply NoDup_singleton.
Defined.

Lemma SPBcastCommit_item_result_witness :
  let s := node_at relayed_world 1 in
  pending_blks s !! toy_id = Some 0%nat ∧
  let '(r, s') := SPBcastCommit_item (toy_conf 1) (to_bytes (voted_block 1)) s in
  r = Ret tt ∧
  match pending_blks s !! id_ (header_ (voted_block 1)) with
  | Some _ =>
      pending_blks s' = delete toy_id (pending_blks s) ∧
      committed_blks s' = <[toy_id := next_loc s]> (committed_blks s) ∧
      heap s' = <[next_loc s := upd_header (set_recv_ts (clock (server_id s) (tick s)))
                                   (set_tss_sig None (voted_block 1))]> (heap s) ∧
      db s' = db s ++ [db_entry (upd_header (set_recv_ts (clock (server_id s) (tick s)))
                                   (set_tss_sig None (voted_block 1)))]
  | None => s' = upd_tick S s
  end.
Proof.
  split; [vm_compute; reflexivity|].
  pose proof (SPBcastCommit_item_result (toy_conf 1) (node_at relayed_world 1) (voted_block 1)
                true (voted_block_wf 1 ltac:(unfold u64; lia)) (voted_block_small 1 ltac:(lia))
                eq_refl) as H.
  cbv zeta in *. destruct (SPBcastCommit_item _ _ _) as [r s']. exact H.
Defined.

(** The configuration of server 1 without ["use-rocksdb"]. *)
Definition toy_conf_nodb : conf :=
  MkConf 1 2 2 ["a"; "b"]%string 3 2 5 10 1000 None.

Lemma SPBcastCommit_item_unconfigured_witness :
  fst (SPBcastCommit_item toy_conf_nodb (to_bytes (voted_block 1)) (node_at relayed_world 1)) =
  Throw TypeError.
Proof.
  pose proof (SPBcastCommit_item_unconfigured toy_conf_nodb (node_at relayed_world 1)
                (voted_block 1) 0%nat) as H.
  destruct (SPBcastCommit_item _ _ _) as [r s']. apply H.
  - apply voted_block_wf. unfold u64. lia.
  - apply voted_block_small. lia.
  - reflexivity.
  - vm_compute. reflexivity.
Defined.
