(* ===== verification/ClientProps.v ===== *)
(** What a client does, whatever the servers answer. *)
From Stdlib Require Import ZArith Lia Ascii String.
From stdpp Require Import base tactics list gmap strings sorting.
From S2P Require Import Prelude Decimal Entity FlexCodec Msgpack MsgpackProofs ServerState ServerInv.
From S2P Require Import Client ClientProofs Liveness VoteArrival Instances.

(** ** Lookups after the loops over a response *)

(** The first header of [hs] with the id [k]. *)
Definition first_header (k : Z) (hs : list BlockHeader) : option BlockHeader :=
  snd <$> list_find (λ h, id_ h = k) hs.

Lemma recorded_lookup m hs k :
  foldl (λ m h, map_insert_new (id_ h) h m) m hs !! k =
  match m !! k with Some h => Some h | None => first_header k hs end.
Proof.
  revert m. induction hs as [|h hs IH]; intros m; simpl; [by destruct (m !! k)|].
  rewrite IH. unfold map_insert_new, first_header. simpl.
  destruct (decide (id_ h = k)) as [<-|Hne].
  - destruct (m !! id_ h) eqn:Hm; [by rewrite Hm|by rewrite lookup_insert_eq].
  - destruct (m !! id_ h) eqn:Hm; [|rewrite lookup_insert_ne by done];
      (destruct (m !! k); [done|]); by destruct (list_find _ hs) as [[]|].
Qed.

Lemma fetched_lookup {C : Crypto} (m : gmap Z BlockHeader) (bs : list Block) k :
  foldl (λ m b, delete (id_ (header_ b)) m) m bs !! k =
  if decide (k ∈ block_ids bs) then None else m !! k.
Proof.
  revert m. induction bs as [|b bs IH]; intros m.
  { case_decide as H; [by apply not_elem_of_nil in H|done]. }
  cbn [foldl block_ids fmap list_fmap]. fold (block_ids bs). rewrite IH.
  destruct (decide (k ∈ block_ids bs)) as [Hin|Hn].
  - by rewrite decide_True by (by right).
  - destruct (decide (id_ (header_ b) = k)) as [<-|Hne].
    + by rewrite lookup_delete_eq, decide_True by (by left).
    + rewrite lookup_delete_ne by done. rewrite decide_False; [done|].
      intros [Heq|Hin]%elem_of_cons; [by apply Hne|done].
Qed.

Section properties.
Context {C : Crypto} {CL : CryptoLaws C} {F : FlexBuffers} {L : FlexBuffersLaws F} {K : Msgpack}.
Context {E : Env} {EL : EnvLaws E} {CE : ClientEnv} {W : Type} {N : ConsensusStub W}.
Context (cc : client_conf).

(** C26: The vote of a client: for a block of at most two thousand transactions it has
    not voted for, both servers get, in order, one and the same message under the client's
    id, and the message reads as a block under that id with the client's vote in it. *)
Theorem vote_reaches_both (c : client W) b a0 a1 sk pk h share :
  client_wf c → block_wf b → keys_small (votes_ b) → client_id c < 2 ^ 31 →
  votes_ b !! client_id c = None → stubs c = [a0; a1] → client_tss_key c = Some (sk, pk) →
  (length (tx_vec_ b) ≤ 2000)%nat → get_sha256 b = Ret h → sign sk h (client_id c) = Ret share →
  let id := id_ (header_ b) in
  let v := MkBlockVote id (client_id c) (Some share) in
  ∃ ser ok c', vote_block b c = (Ret ok, c') ∧
    net c' = (call_VoteBlocks a1 (client_id c) [ser]
               (call_VoteBlocks a0 (client_id c) [ser] (net c)).2).2 ∧
    carries ser id (client_id c) v ∧ honest_vote id (client_id c) v.
Proof.
  intros Hc Hb Hks Hsm Hn Hst Hk Hlen Hh Hs id v.
  destruct (vote_block_sent c b a0 a1 sk pk h share (cwf_pool _ Hc) Hst Hk Hlen Hh Hs)
    as (c' & _ & Hv).
  pose proof (cwf_id _ Hc) as Hid. unfold u64 in Hid.
  assert (request_id c = client_id c) as Hreq
    by (unfold request_id, wrap32; apply Z.mod_small; lia).
  rewrite Hreq in Hv. eexists _, _, _. split_and!; [exact Hv|reflexivity| |].
  - by apply with_vote_carries.
  - by apply vote_in_honest.
Qed.

(** C27: The check of a block's transactions never names an account: the numbers are
    printed into strings of size zero, so after it the buffers of the account numbers are
    still empty and the database is unchanged but for the entry of the empty key. Only the
    length of the block matters: more than two thousand transactions throw, which ends the
    thread that votes; the block has left the queue by then, nothing has been sent for it,
    and the blocks after it stay. *)
Theorem check_transactions_result (c : client W) b :
  client_wf c →
  if bool_decide (length (tx_vec_ b) ≤ 2000)%nat
  then ∃ c', check_transactions b c = (Ret tt, c') ∧
    sender_strvec (pool c') = empty_strings ∧ receiver_strvec (pool c') = empty_strings ∧
    (∀ k, k ≠ EmptyString → accounts_db c' !! k = accounts_db c !! k) ∧
    queued_blks c' = queued_blks c ∧ net c' = net c
  else check_transactions b c = (Throw OutOfRange, c) ∧
    ∀ q, queued_blks c = b :: q →
         thread_round VoteThread c = (Throw OutOfRange, upd_queued (λ _, q) c).
Proof.
  intros Hc. pose proof (check_transactions_spec c b (cwf_pool _ Hc)) as H.
  case_bool_decide as Hlen.
  - destruct H as (c' & Heq & p & d & -> & [] & Hd).
    exists (upd_accounts_db (λ _, d) (upd_pool (λ _, p) c)). by split_and!.
  - split; [done|]. intros q Hq.
    pose proof (check_transactions_spec (upd_queued (λ _, q) c) b (cwf_pool _ Hc)) as Hch.
    rewrite bool_decide_false in Hch by done.
    unfold thread_round, vote_round, unit_of, TcClient_VoteBlocks, mbind, gets. rewrite Hq.
    cbn [length]. unfold while_pop at 1, mbind, pop_queued at 1. rewrite Hq.
    unfold vote_block, mbind, gets. by rewrite Hch.
Qed.

(** C28: A pull whose headers can be read records each under its id, the first of an id
    first and never over one that is recorded; the blocks a fetch returns are queued in
    order and their headers forgotten. *)
Theorem pull_and_fetch (c : client W) i a hs bs :
  stubs c !! i = Some a →
  let pull := call_PullPendingBlocks a (request_id c) (net c) in
  let fetch := call_GetBlocks a ((λ kv, to_bytes (kv.2 : BlockHeader)) <$> chm_iter (pending_blkhdr c))
                 (net c) in
  (mapM (λ x, match from_bytes (T := BlockHeader) x with Ret h => Some h | _ => None end)
     pull.1.2 = Some hs →
   ∃ c', TcClient_PullPendingBlocks i c = (Ret pull.1.1, c') ∧ net c' = pull.2 ∧
     queued_blks c' = queued_blks c ∧
     ∀ k, pending_blkhdr c' !! k =
       match pending_blkhdr c !! k with Some h => Some h | None => first_header k hs end) ∧
  (mapM (λ x, match from_bytes (T := Block) x with Ret b => Some b | _ => None end)
     fetch.1.2 = Some bs →
   ∃ c', TcClient_GetBlocks i c = (Ret fetch.1.1, c') ∧ net c' = fetch.2 ∧
     queued_blks c' = queued_blks c ++ bs ∧
     ∀ k, pending_blkhdr c' !! k =
       if decide (k ∈ block_ids bs) then None else pending_blkhdr c !! k).
Proof.
  intros Ha pull fetch. split; intros Hm.
  - unfold TcClient_PullPendingBlocks, rpc, mbind, gets. rewrite Ha. fold pull.
    pose proof (record_headers_ret (set_net pull.2 c) _ _ Hm) as Hw. unfold wp in Hw.
    destruct pull as [[ok hdrs] w]. simpl in *. destruct (mfor _ _ _) as [r c']. simpl in Hw.
    destruct Hw as [-> ->]. eexists. split_and!; [reflexivity|done..|].
    intros k. apply recorded_lookup.
  - unfold TcClient_GetBlocks, rpc, mbind, gets. rewrite Ha. fold fetch.
    pose proof (queue_blocks_ret (set_net fetch.2 c) _ _ Hm) as Hw. unfold wp in Hw.
    destruct fetch as [[ok sers] w]. simpl in *. destruct (mfor _ _ _) as [r c']. simpl in Hw.
    destruct Hw as [-> ->]. eexists. split_and!; [reflexivity|done..|].
    intros k. apply fetched_lookup.
Qed.

(** C29: What the construction of a client ends with: a failed assertion when the
    database does not open, an exception when the configuration has no ["clear-rocksdb"],
    the end of the process, the database filled with every account, when it is ["true"],
    and otherwise a client that satisfies the invariant. *)
Theorem init_result a b d (w : W) :
  u64 (conf_client_id cc) → u64 (conf_account_count cc) →
  let '(r, c') := init cc (TcClient_members a b d w) in
  if negb (db_open_ok (conf_client_id cc)) then r = Crash AssertFail
  else match clear_rocksdb cc with
       | None => r = Throw TypeError
       | Some flag =>
           if String.eqb flag "true"
           then r = Crash (ProcessExit 0) ∧
                ∀ k, 0 ≤ k < conf_account_count cc →
                     accounts_db c' !! to_string k = Some (to_string k)
           else r = Ret tt ∧ client_wf c' ∧ accounts_db c' = d
       end.
Proof.
  intros Hid Hn. rewrite init_eq. destruct (negb (db_open_ok (conf_client_id cc))); [done|].
  destruct (clear_rocksdb cc) as [flag|]; [|done]. destruct (String.eqb flag "true").
  - unfold mbind. rewrite put_accounts_eq. split; [done|]. intros k Hk.
    replace k with (Z.of_nat (Z.to_nat k)) by lia. simpl.
    apply fill_accounts_lookup; [lia|]. unfold u64 in *. lia.
  - split_and!; [done|by apply initialised_wf|done].
Qed.

(** C30: A client talks to the server of the configuration its id selects, and to the next
    one around the ring as the shadow; without servers the remainder is a division by
    zero. *)
Theorem server_selection :
  u64 (conf_client_id cc) → 0 ≤ grpc_server_count cc < 2 ^ 32 - 1 →
  if grpc_server_count cc =? 0
  then server_select cc = Crash DivByZero ∧ shadow_server_select cc = Crash DivByZero
  else ∃ i, server_select cc = Ret i ∧ 1 ≤ i ≤ grpc_server_count cc ∧
    shadow_server_select cc = Ret (next_server (grpc_server_count cc) i) ∧
    (1 ≤ conf_client_id cc < 2 ^ 32 → i = (conf_client_id cc - 1) mod grpc_server_count cc + 1).
Proof.
  intros Hid Hn. unfold server_select, shadow_server_select, index_mod, client_index.
  assert (wrap32 (grpc_server_count cc) = grpc_server_count cc) as ->
    by (apply Z.mod_small; lia).
  destruct (Z.eqb_spec (grpc_server_count cc) 0) as [Hz|Hz]; [done|]. simpl.
  set (m := wrap32 _ mod _). pose proof (Z.mod_pos_bound (wrap32 (wrap32 (conf_client_id cc) - 1))
    (grpc_server_count cc) ltac:(lia)) as Hm. fold m in Hm.
  assert (∀ z, 0 ≤ z < 2 ^ 32 → wrap32 z = z) as Hw by (intros; by apply Z.mod_small).
  rewrite !Hw by lia. exists (m + 1). split_and!; [done|lia..| |].
  - f_equal. unfold next_server. destruct (Z.ltb_spec (grpc_server_count cc) (m + 2)),
      (Z.eqb_spec (m + 1) (grpc_server_count cc)); lia.
  - intros Hc. unfold m. rewrite (Hw (conf_client_id cc)), Hw by lia. done.
Qed.

End properties.

(** ** Concrete inputs *)

#[local] Existing Instances toy_crypto toy_flex toy_env toy_msgpack toy_client_env.

(** Servers that hand out one header and one block and keep a log of the votes. *)
Definition vote_log : Type := list (string * Z * list bytes).

Definition fetched_block : Block := Block_new 7 0xDEADBEEF 1000.

#[local] Instance toy_stub : ConsensusStub vote_log := {|
  call_Register _ _ _ w := ((true, [Byte.x05]), w);
  call_Heartbeat _ _ w := ((true, tt), w);
  call_PullPendingBlocks _ _ w := ((true, [to_bytes (header_ fetched_block)]), w);
  call_GetBlocks _ _ w := ((true, [to_bytes fetched_block]), w);
  call_VoteBlocks a id blocks w := ((true, tt), w ++ [(a, id, blocks)]);
|}.

Definition toy_client_conf : client_conf :=
  MkClientConf 2 2 3 (Some "false"%string) "127.0.0.1"%string 2510 2.

(** A client that has been constructed and has its key. *)
Definition toy_client : client vote_log :=
  set_tss_key (Byte.x05, Byte.x05)
    (initialised toy_client_conf (TcClient_members "s2"%string "s1"%string ∅ [])).

Lemma toy_client_wf : client_wf toy_client.
Proof.
  assert (u64 (conf_client_id toy_client_conf)) as H by (unfold u64; simpl; lia).
  by destruct (initialised_wf (W := vote_log) toy_client_conf "s2"%string "s1"%string ∅ [] H).
Qed.

Lemma fetched_block_wf : block_wf fetched_block.
Proof. split; [|split]; [split_and!; simpl; unfold u64; lia|constructor|apply map_Forall_empty]. Qed.

(** The block's hash and the client's share of a signature of it. *)
Definition fetched_hash : bytes := ret_of [] (get_sha256 fetched_block).
Definition fetched_share : toy_share :=
  ret_of (ToyShare Byte.x05 "hint" 2 2 2 eq_refl) (toy_sign Byte.x05 fetched_hash 2).

Lemma vote_reaches_both_witness :
  ∃ ser ok c', vote_block fetched_block toy_client = (Ret ok, c') ∧
    net c' = [("s2"%string, 2, [ser]); ("s1"%string, 2, [ser])] ∧
    carries ser 7 2 (MkBlockVote 7 2 (Some fetched_share)) ∧
    honest_vote 7 2 (MkBlockVote 7 2 (Some fetched_share)).
Proof.
  destruct (vote_reaches_both toy_client fetched_block "s2"%string "s1"%string Byte.x05 Byte.x05
              fetched_hash fetched_share) as (ser & ok & c' & Hv & Hn & Hc & Hh).
  - apply toy_client_wf.
  - apply fetched_block_wf.
  - apply map_Forall_empty.
  - reflexivity.
  - reflexivity.
  - reflexivity.
  - reflexivity.
  - simpl. lia.
  - apply ret_of_eq. vm_compute. reflexivity.
  - apply (ret_of_eq (ToyShare Byte.x05 "hint" 2 2 2 eq_refl)). vm_compute. reflexivity.
  - exists ser, ok, c'. split_and!; [exact Hv|exact Hn|exact Hc|exact Hh].
Defined.

Definition oversized_block : Block :=
  set_tx_vec (replicate 2001 (MkTransaction 1 2 3 0 5)) fetched_block.

(** A client that has been given it, and another block. *)
Definition burdened_client : client vote_log :=
  upd_queued (λ _, [oversized_block; fetched_block]) toy_client.

Lemma burdened_client_wf : client_wf burdened_client.
Proof.
  apply upd_queued_wf; [|apply toy_client_wf].
  repeat apply Forall_cons_2; [|apply fetched_block_wf|done].
  split; [apply fetched_block_wf|split; [|apply map_Forall_empty]].
  apply Forall_replicate. split_and!; simpl; unfold u64; lia.
Qed.

Lemma check_transactions_result_witness :
  thread_round VoteThread burdened_client =
  (Throw OutOfRange, upd_queued (λ _, [fetched_block]) burdened_client).
Proof.
  pose proof (check_transactions_result burdened_client oversized_block burdened_client_wf) as H.
  rewrite bool_decide_false in H.
  - destruct H as [_ H]. apply H. reflexivity.
  - unfold oversized_block, set_tx_vec, tx_vec_. rewrite length_replicate. lia.
Defined.

(** A response of one element that can be read. *)
Lemma read_one {T} `{FlexAdapter T} (x : T) :
  from_bytes (to_bytes x) = Ret x →
  mapM (λ b, match from_bytes (T := T) b with Ret h => Some h | _ => None end) [to_bytes x]
    = Some [x].
Proof. intros Hx. cbn [mapM]. by rewrite Hx. Qed.

Lemma pull_and_fetch_witness :
  (∃ c', TcClient_PullPendingBlocks 0 toy_client = (Ret true, c') ∧ net c' = [] ∧
     queued_blks c' = [] ∧
     ∀ k, pending_blkhdr c' !! k = first_header k [header_ fetched_block]) ∧
  (∃ c', TcClient_GetBlocks 0 toy_client = (Ret true, c') ∧ net c' = [] ∧
     queued_blks c' = [fetched_block] ∧ ∀ k, pending_blkhdr c' !! k = None).
Proof.
  destruct (pull_and_fetch toy_client 0 "s2"%string [header_ fetched_block] [fetched_block])
    as [H1 H2]; [reflexivity|]. split.
  - destruct H1 as (c' & Hr & Hn & Hq & Hk).
    { apply (read_one (header_ fetched_block)). rewrite (from_to (header_ fetched_block)); [done|].
      apply fetched_block_wf. }
    exists c'. split_and!; [exact Hr|exact Hn|exact Hq|]. exact Hk.
  - destruct H2 as (c' & Hr & Hn & Hq & Hk).
    { apply (read_one fetched_block). by rewrite (Block_from_to fetched_block fetched_block_wf). }
    exists c'. split_and!; [exact Hr|exact Hn|exact Hq|].
    intros k. rewrite Hk. by destruct (decide _).
Defined.

Lemma toy_id_u64 : u64 (conf_client_id toy_client_conf).
Proof. unfold u64. simpl. lia. Qed.

Lemma toy_accounts_u64 : u64 (conf_account_count toy_client_conf).
Proof. unfold u64. simpl. lia. Qed.

Lemma init_result_witness :
  let '(r, c') := init (toy_client_conf) (TcClient_members "s2"%string "s1"%string ∅ ([] : vote_log)) in
  r = Ret tt ∧ client_wf c' ∧ accounts_db c' = ∅.
Proof.
  exact (init_result toy_client_conf "s2"%string "s1"%string ∅ ([] : vote_log)
           toy_id_u64 toy_accounts_u64).
Defined.

(** The second of two clients uses the second server, and the first as the shadow. *)
Lemma server_selection_witness :
  ∃ i, server_select toy_client_conf = Ret i ∧ 1 ≤ i ≤ 2 ∧
    shadow_server_select toy_client_conf = Ret (next_server 2 i) ∧
    (1 ≤ 2 < 2 ^ 32 → i = (2 - 1) mod 2 + 1).
Proof. apply (server_selection toy_client_conf); unfold u64; simpl; lia. Defined.
