(* ===== verification/CoreProps.v ===== *)
(** Properties of a server's own operations: what they send, generate, pack, commit and
    remove, and that they end. *)
From Stdlib Require Import ZArith Lia.
From stdpp Require Import base tactics list gmap strings sorting.
From S2P Require Import Prelude Decimal Entity FlexCodec ServerState ServerInv ClientService.
From S2P Require Import PeerService ServerCore HandlersProofs SendersProofs CoreProofs MergeProofs Instances.
From S2P Require Import System WorldProofs Scenario.

Section properties.
Context {C : Crypto} {CL : CryptoLaws C} {F : FlexBuffers} {L : FlexBuffersLaws F}.
Context {E : Env} {EL : EnvLaws E}.
Context (cf : conf).

(** ** Sending *)

(** C31: A round of relaying sends every vote queued for a peer to that peer, in the order
    of the queue, and leaves the queue empty. *)
Theorem send_relay_votes_delivers s t :
  conf_ok cf → server_wf cf s → is_peer cf s t →
  wp (send_relay_votes cf) (λ r s', r = Ret tt ∧ relay_votes s' !! t = Some [] ∧
    payloads_to vote_payloads t (outbox s') =
      payloads_to vote_payloads t (outbox s) ++ (to_bytes <$> queue_of (relay_votes s) t)) s.
Proof.
  intros Hcf H Ht. eapply wp_mono; [by apply send_relay_votes_spec|].
  intros r s' ((_ & Hd & Ho) & ->). apply elem_of_peers in Ht. split; [done|]. split.
  - by rewrite Hd, decide_True.
  - rewrite Ho, payloads_to_app. f_equal. unfold round_of.
    rewrite payloads_to_round, decide_True; [|done|apply NoDup_peers|].
    + unfold vote_request. case_decide as Hq; [by rewrite Hq|].
      unfold payloads_to. simpl. by rewrite Z.eqb_refl, app_nil_r.
    + intros u m. unfold vote_request. case_decide; [intros Hm; by apply not_elem_of_nil in Hm|].
      by intros ->%list_elem_of_singleton.
Qed.

(** C32: A round of relaying blocks sends every block queued for a peer to that peer, in
    order, empties the queues, and then signals the ids that were left in the signal queue
    and, after them, those of the blocks it has sent: it tells each of them to every peer,
    in order, and makes exactly these available to its own clients. Every block request
    leaves before every signal, so an id is signalled only after the block has been sent to
    every peer it was queued for. *)
Theorem send_relay_blocks_delivers s t :
  conf_ok cf → server_wf cf s → is_peer cf s t →
  wp (send_relay_blocks cf) (λ r s', r = Ret tt ∧ relay_blocks s' !! t = Some [] ∧
    payloads_to block_payloads t (outbox s') =
      payloads_to block_payloads t (outbox s) ++
      (to_bytes <$> read_all s (queue_of (relay_blocks s) t)) ∧
    payloads_to signal_ids t (outbox s') =
      payloads_to signal_ids t (outbox s) ++ pb_sync_queue s ++ relayed_ids cf s ∧
    (∃ blocks signals, outbox s' = outbox s ++ blocks ++ signals ∧
       Forall (λ m, signal_ids m.2 = []) blocks ∧
       Forall (λ m, block_payloads m.2 = []) signals) ∧
    pb_sync_queue s' = [] ∧
    (∀ id, id ∈ pb_sync_labels s' ↔ id ∈ pb_sync_labels s ∨ id ∈ pb_sync_queue s ∨
       ∃ u, is_peer cf s u ∧ id ∈ block_ids (read_all s (queue_of (relay_blocks s) u)))) s.
Proof.
  intros Hcf H Ht. eapply wp_mono; [by apply send_relay_blocks_spec|].
  intros r s' ((_ & Hd & Hq & Hl & Ho) & ->). set (ids := pb_sync_queue s ++ _) in *.
  rewrite <- (assoc_L (++)) in Ho.
  pose proof (block_round_forall cf (λ m, signal_ids m.2 = []) s (queue_of (relay_blocks s))
                (λ _ _, eq_refl)) as Hbr.
  pose proof (sync_rounds_forall cf (λ m, block_payloads m.2 = []) s ids (λ _ _, eq_refl)) as Hsr.
  pose proof (proj2 (elem_of_peers cf s t) Ht) as Hin. split_and!; [done| | | | |done|].
  - by rewrite Hd, decide_True.
  - rewrite Ho, !payloads_to_app. f_equal. rewrite (payloads_to_none _ _ _ Hsr), app_nil_r.
    unfold round_of. rewrite payloads_to_round, decide_True; [|done|apply NoDup_peers|].
    + unfold block_request. case_decide as Hq'; [by rewrite Hq'|].
      unfold payloads_to. simpl. by rewrite Z.eqb_refl, app_nil_r.
    + intros u m. unfold block_request. case_decide; [intros Hm; by apply not_elem_of_nil in Hm|].
      by intros ->%list_elem_of_singleton.
  - rewrite Ho, !payloads_to_app, (payloads_to_none _ _ _ Hbr). simpl.
    by rewrite signals_to_round.
  - by eexists _, _.
  - intros id. rewrite Hl, elem_of_union, elem_of_list_to_set. unfold ids, relayed_ids.
    rewrite elem_of_app, elem_of_concat. split.
    + intros [[?|(js & Hid & (u & -> & Hu)%list_elem_of_fmap)]|?]; [tauto| |tauto].
      right. right. exists u. split; [by apply elem_of_peers|done].
    + intros [?|[?|(u & Hu & Hid)]]; [tauto..|]. left. right. eexists. split; [exact Hid|].
      apply list_elem_of_fmap. exists u. split; [done|by apply elem_of_peers].
Qed.

(** C33: A round of broadcasting sends every committed block queued for a peer to that
    peer, in order and with the votes it has, and leaves the queue empty. *)
Theorem bcast_commits_delivers s t :
  conf_ok cf → server_wf cf s → is_peer cf s t →
  wp (bcast_commits cf) (λ r s', r = Ret tt ∧ bcast_commit_blocks s' !! t = Some [] ∧
    payloads_to commit_payloads t (outbox s') =
      payloads_to commit_payloads t (outbox s) ++
      (to_bytes <$> read_all s (queue_of (bcast_commit_blocks s) t))) s.
Proof.
  intros Hcf H Ht. eapply wp_mono; [by apply bcast_commits_spec|].
  intros r s' ((_ & Hd & now & Ho) & ->). apply elem_of_peers in Ht. split; [done|]. split.
  - by rewrite Hd, decide_True.
  - rewrite Ho, payloads_to_app. f_equal. unfold round_of.
    rewrite payloads_to_round, decide_True; [|done|apply NoDup_peers|].
    + unfold commit_request. case_decide as Hq; [by rewrite Hq|].
      unfold payloads_to. simpl. by rewrite Z.eqb_refl, app_nil_r.
    + intros u m. unfold commit_request. case_decide; [intros Hm; by apply not_elem_of_nil in Hm|].
      by intros ->%list_elem_of_singleton.
Qed.

(** A heartbeat records the status of the call in the peer's own slot and in no
    other one. *)
Theorem SPHeartbeat_status s t :
  conf_ok cf → server_wf cf s → is_peer cf s t →
  wp (SPHeartbeat t) (λ r s', ∃ ok, r = Ret ok ∧
    peer_status s' !! Z.to_nat (t - 1) = Some ok ∧
    (∀ i, i ≠ Z.to_nat (t - 1) → peer_status s' !! i = peer_status s !! i) ∧
    outbox s' = outbox s ++ [(t, SPHeartbeatRequest (sender_id s))]) s.
Proof.
  intros Hcf H Ht. eapply wp_mono; [by apply SPHeartbeat_spec|].
  intros r s' (_ & -> & Hst & Ho). eexists. split; [done|]. rewrite Hst. split_and!; [| |done].
  - apply list_lookup_insert_eq. pose proof (wf_status cf s H). destruct Ht as [Ht _]. lia.
  - intros i Hi. by apply list_lookup_insert_ne.
Qed.

(** ** Initialization *)

(** C34: When the keys can be generated and every server has an address, [start] returns
    and the server satisfies the invariant, with an empty queue and a stub for every other
    server of the configuration and a profile for every client, if its database opens; if
    it does not, the assertion on its status ends the process. *)
Theorem start_establishes :
  conf_ok cf → addrs_ok cf → dkg_ok cf →
  wp (start cf) (λ r s,
    if db_opens (conf_server_id cf)
    then r = Ret tt ∧ server_wf cf s ∧ server_id s = conf_server_id cf ∧
      (∀ t, is_peer cf s t → relay_votes s !! t = Some [] ∧ relay_blocks s !! t = Some [] ∧
         bcast_commit_blocks s !! t = Some [] ∧ t ∈ peer_stubs s) ∧
      (∀ i, is_Some (clients s !! i) ↔ 1 ≤ i ≤ client_count cf)
    else r = Crash AssertFail) TcServer_new.
Proof.
  intros Hcf Ha Hd. destruct (db_opens _) eqn:Hdb; cycle 1.
  { apply start_no_db. unfold db_ok. by rewrite Hdb. }
  eapply wp_mono; [by apply start_eq|].
  intros r s (-> & m & -> & Hm). pose proof (started_wf cf Hcf m Ha) as Hwf.
  split_and!; [done..| |].
  - intros t Ht. split_and!; [| | |by apply (wf_peers _ _ Hwf t Ht)];
      simpl; rewrite lookup_empty_queues, decide_True; try done; by apply (elem_of_peers cf (started cf m)).
  - intros i. specialize (Hm i). simpl. case_bool_decide as Hi.
    + destruct Hm as (p & Hp & _). rewrite Hp. split; [done|by eexists].
    + rewrite Hm. split; [by intros [? ?]|done].
Qed.

(** ** Transactions and packing *)

(** Generating [n] transactions only adds to the pool, at most [n], each under an id,
    with a sender, a receiver and a fee between one and the number of accounts. *)
Theorem generate_tx_result s n :
  server_wf cf s → accounts_ok cf →
  wp (generate_tx cf n) (λ r s', r = Ret tt ∧ pending_txs s ⊆ pending_txs s' ∧
    (size (pending_txs s') ≤ size (pending_txs s) + Z.to_nat n)%nat ∧
    (∀ k tx, pending_txs s' !! k = Some tx → pending_txs s !! k = Some tx ∨ generated cf k tx) ∧
    pending_blks s' = pending_blks s ∧ heap s' = heap s) s.
Proof.
  intros H Hac. eapply wp_mono; [by apply generate_tx_spec|].
  intros r s' (-> & _ & m & t & -> & [h1 h2 h3]). done.
Qed.

(** C35: Packing with [num_tx > 0] transactions a block takes as many full blocks from the
    pool as it holds, and no more than [num_block]. The pool and the blocks together hold
    exactly the transactions the pool had; each block has [num_tx] of them and the next
    id of the counter; it is pending under its id and at the end of every peer's queue. *)
Theorem pack_block_result s num_tx num_block :
  server_wf cf s → 0 < num_tx → 0 ≤ num_block →
  wp (pack_block num_tx num_block) (λ r s', r = Ret tt ∧ ∃ bs,
    Z.of_nat (length bs) = Z.min num_block (Z.of_nat (size (pending_txs s)) / num_tx) ∧
    pool_txs s ≡ₚ concat (tx_vec_ <$> bs) ++ pool_txs s' ∧
    (∀ i b, bs !! i = Some b →
       Z.of_nat (length (tx_vec_ b)) = num_tx ∧
       id_ (header_ b) = wrap64 (blk_seq_generator s + Z.of_nat i) ∧
       heap s' !! (next_loc s + i)%nat = Some b) ∧
    (∀ t, relay_blocks s' !! t =
       (λ q, q ++ seq (next_loc s) (length bs)) <$> relay_blocks s !! t) ∧
    (num_block ≤ 2 ^ 64 → ∀ i b, bs !! i = Some b →
       pending_blks s' !! id_ (header_ b) = Some (next_loc s + i)%nat)) s.
Proof.
  intros H Hn Hb. eapply wp_mono; [apply (pack_block_spec cf); [done|lia]|].
  intros r s' (-> & _ & bs & Hp & Hlen & Hall). split; [done|]. exists bs.
  specialize (Hall Hn). rewrite Forall_lookup in Hall.
  assert (Z.of_nat (length bs) = Z.min num_block (Z.of_nat (size (pending_txs s)) / num_tx)) as Hl.
  { rewrite Hlen. unfold pack_rounds. destruct (Z.eqb_spec num_tx 0); [lia|].
    pose proof (Z.div_pos (Z.of_nat (size (pending_txs s))) num_tx). lia. }
  split_and!; [done|apply Hp| |apply Hp|].
  - intros i b Hi. split; [by eapply Hall|]. by destruct (pk_ids _ _ _ Hp _ _ Hi) as (? & _ & _ & ?).
  - intros Hbig. apply (pk_pending _ _ _ Hp). apply NoDup_alt. intros i j id.
    unfold block_ids. rewrite !list_lookup_fmap.
    intros (b1 & Hb1 & ->)%fmap_Some_1 (b2 & Hb2 & Heq)%fmap_Some_1.
    destruct (pk_ids _ _ _ Hp _ _ Hb1) as (H1 & _). destruct (pk_ids _ _ _ Hp _ _ Hb2) as (H2 & _).
    rewrite H1, H2 in Heq. apply lookup_lt_Some in Hb1, Hb2.
    apply wrap64_shift_inj in Heq; lia.
Qed.

(** ** Committing *)

Definition mergeable (s : server) (l : loc) : Prop :=
  ∃ b m, heap s !! l = Some b ∧ Block_merge_votes b (client_count cf) = Ret m.

(** C36: When the signature library accepts the shares of every block in the merge queue,
    [merge_votes] empties the queue: each block is sealed with its commit and receive time
    and its merged signature, committed under its id, written to the database and put at
    the end of every peer's broadcast queue, in the order of the queue. *)
Theorem merge_votes_commits s :
  server_wf cf s → (∀ l, l ∈ pb_merge_queue s → mergeable s l) →
  wp (merge_votes cf) (λ r s', r = Ret tt ∧ pb_merge_queue s' = [] ∧
    (∀ l, l ∈ pb_merge_queue s → ∃ b m t l',
       heap s !! l = Some b ∧ Block_merge_votes b (client_count cf) = Ret m ∧
       heap s' !! l = Some (sealed m t b) ∧
       committed_blks s' !! id_ (header_ b) = Some l' ∧ l' ∈ pb_merge_queue s) ∧
    db s' = db s ++ (db_entry <$> read_all s' (pb_merge_queue s)) ∧
    (∀ t, bcast_commit_blocks s' !! t =
       (λ q, q ++ pb_merge_queue s) <$> bcast_commit_blocks s !! t)) s.
Proof.
  intros H Hok. eapply wp_mono; [by apply merge_votes_spec|].
  intros r s' (_ & pre & rest & Hm & Hr & [(-> & -> & ->)|(e & l & b & _ & Hq & Hb & He)]).
  - destruct Hm. split_and!; done.
  - destruct (Hok l) as (b' & m & Hb' & Hm'); [|congruence].
    rewrite Hq. apply elem_of_app. right. by left.
Qed.

(** C37: When the library throws on a block, [merge_votes] has committed the blocks before
    it, each sealed with its merged signature, under its id, in the database and at the end
    of every broadcast queue, in their order. It leaves those after it in the queue, and
    loses that block: it is in no queue, not pending, and its id is not committed unless it
    was or a block before it has the same id. *)
Theorem merge_votes_stops s pre l rest b e :
  server_wf cf s → pb_merge_queue s = pre ++ l :: rest → (∀ l', l' ∈ pre → mergeable s l') →
  heap s !! l = Some b → Block_merge_votes b (client_count cf) = Throw e →
  wp (merge_votes cf) (λ r s', r = Throw e ∧
    (∀ l1, l1 ∈ pre → ∃ b1 m t l', heap s !! l1 = Some b1 ∧
       Block_merge_votes b1 (client_count cf) = Ret m ∧ heap s' !! l1 = Some (sealed m t b1) ∧
       committed_blks s' !! id_ (header_ b1) = Some l' ∧ l' ∈ pre) ∧
    db s' = db s ++ (db_entry <$> read_all s' pre) ∧
    (∀ t, bcast_commit_blocks s' !! t = (λ q, q ++ pre) <$> bcast_commit_blocks s !! t) ∧
    pb_merge_queue s' = rest ∧ (l ∉ rest) ∧
    (∀ id, pending_blks s' !! id ≠ Some l) ∧
    (id_ (header_ b) ∉ block_ids (read_all s pre) →
       committed_blks s' !! id_ (header_ b) = committed_blks s !! id_ (header_ b))) s.
Proof.
  intros H Hq Hpre Hb He. eapply wp_mono; [by apply merge_votes_spec|].
  pose proof (wf_merge_nodup _ _ H) as Hnd. rewrite Hq in Hnd.
  apply NoDup_app in Hnd as (_ & _ & Hnd). apply NoDup_cons in Hnd as [Hl _].
  set (bad x := ∃ b' e', heap s !! x = Some b' ∧ Block_merge_votes b' (client_count cf) = Throw e').
  intros r s' (_ & pre' & rest' & Hm & Hr & Hcase).
  assert (∀ x, x ∈ pre → ¬ bad x) as Hno.
  { intros x Hx (b' & e' & Hb' & He'). destruct (Hpre x Hx) as (b0 & m & Hb0 & Hm0). congruence. }
  assert (∀ x, x ∈ pre' → ¬ bad x) as Hno'.
  { intros x Hx (b' & e' & Hb' & He').
    destruct (mg_done _ _ _ _ Hm _ Hx) as (b0 & m & _ & _ & Hb0 & Hm0 & _). congruence. }
  assert (bad l) as Hbad by (by exists b, e).
  destruct Hcase as [(_ & _ & Hall)|(e' & l' & b' & -> & Hq' & Hb' & He')].
  { destruct (Hno' l); [|done]. rewrite <- Hall, Hq. apply elem_of_app. right. by left. }
  rewrite Hq in Hq'.
  destruct (first_split bad _ _ _ _ _ _ Hq' Hno Hno' Hbad) as (-> & -> & ->);
    [by exists b', e'|].
  assert (b' = b) as -> by congruence.
  split_and!; [congruence|apply Hm|apply Hm|apply Hm|done|done| |].
  - intros id. rewrite (mg_pending _ _ _ _ Hm). intros Hp.
    apply (wf_merge_pending _ _ H _ _ Hp). rewrite Hq. apply elem_of_app. right. by left.
  - intros Hid. by apply (mg_committed _ _ _ _ Hm).
Qed.

(** C38: The result of merging is not checked: a block whose shares are not enough for a
    signature is committed, stored and put at the end of every broadcast queue all the
    same, without one. *)
Theorem commit_without_signature s l b set :
  heap s !! l = Some b → tss_sig_ b = None →
  add_sig_shares (newBLSSigShareSet (client_count cf) (client_count cf)) (map_iter (votes_ b)) =
    Ret set → isEnough set = false →
  wp (merge_one cf l) (λ r s', r = Ret tt ∧ committed_blks s' !! id_ (header_ b) = Some l ∧
    (∃ b', heap s' !! l = Some b' ∧ tss_sig_ b' = None ∧ votes_ b' = votes_ b ∧
       db s' = db s ++ [db_entry b']) ∧
    (∀ t, bcast_commit_blocks s' !! t = (λ q, q ++ [l]) <$> bcast_commit_blocks s !! t)) s.
Proof.
  intros Hb Hsig Hset Hen. rewrite (wp_merge_one cf l b) by done.
  assert (Block_merge_votes b (client_count cf) = Ret b) as ->.
  { unfold Block_merge_votes. rewrite Hset. simpl. by rewrite Hen. }
  split_and!; [done|simpl; apply lookup_insert_eq| |intros t; apply lookup_fmap].
  eexists. split; [apply lookup_insert_eq|]. by split_and!.
Qed.

(** ** Dead blocks and the scheduler *)

(** C39: [remove_dead_blocks] returns, and moves to the set of dead blocks exactly the
    pending blocks whose age is over the threshold, and not over 100000 ms. The ages are
    taken one after the other in the order in which the pending map is traversed, each with
    a fresh reading of this server's clock: the [i]-th block is judged by the [i]-th reading
    from now on. It touches neither the blocks, nor the committed ones, nor the merge
    queue. *)
Theorem remove_dead_blocks_result s :
  server_wf cf s →
  wp (remove_dead_blocks cf) (λ r s', r = Ret tt ∧ ∃ X : gset Z,
    dead_block s' = X ∪ dead_block s ∧
    (∀ id, pending_blks s' !! id = if decide (id ∈ X) then None else pending_blks s !! id) ∧
    (∀ i id, (chm_iter (pending_blks s)).*1 !! i = Some id → ∃ l b,
       pending_blks s !! id = Some l ∧ heap s !! l = Some b ∧
       (id ∈ X ↔ block_die_threshold cf <
                   sub64 (clock (server_id s) (tick s + i)) (proposal_ts_ (header_ b))
                 ≤ 100000)) ∧
    (∀ id, id ∈ X → is_Some (pending_blks s !! id)) ∧
    tick s' = (tick s + size (pending_blks s))%nat ∧
    heap s' = heap s ∧ committed_blks s' = committed_blks s ∧
    pb_merge_queue s' = pb_merge_queue s) s.
Proof.
  intros H. eapply wp_mono; [by apply remove_dead_blocks_spec|].
  intros r s' (-> & _ & X & [r1 r2 r3 r4 r5 r6 r7 r8]). split; [done|]. exists X.
  split_and!; try done.
  - intros id (i & Hi)%r4%list_elem_of_lookup_1. destruct (r3 i id Hi) as (l & _ & Hl & _). eauto.
  - rewrite r8, length_fmap, (chm_iter_perm _ _). by rewrite length_map_to_list.
Qed.


End properties.

(** ** The theorems at the states of the run of [Scenario.v] *)

#[local] Existing Instances toy_crypto toy_flex toy_env.

Lemma world_wf run i :
  runs run = true → is_up (world_after run) i = true →
  server_wf (toy_conf i) (node_at (world_after run) i).
Proof.
  intros Hr Hi. apply (reachable_wf toy_conf 2 2 toy_sys_ok (world_after run) i
                        (MkNode true (node_at (world_after run) i))).
  - by apply reachable_nowrap_reachable, run_reached.
  - by apply node_at_up.
Qed.

(** After the first vote, which is to be relayed to server 2. *)
Definition voting : server := node_at (world_after (run_relay ++ take 2 run_votes)) 1.
Lemma voting_wf : server_wf (toy_conf 1) voting.
Proof. apply world_wf; vm_compute; reflexivity. Qed.

(** The packing server before and after its first round. *)
Definition fresh : server := node_at toy_start 2.
Lemma fresh_wf : server_wf (toy_conf 2) fresh.
Proof. apply (world_wf [] 2); vm_compute; reflexivity. Qed.

Definition packed_state : server := node_at (world_after (take 1 run_relay)) 2.
Lemma packed_state_wf : server_wf (toy_conf 2) packed_state.
Proof. apply world_wf; vm_compute; reflexivity. Qed.

(** The server with a block to merge, and with one to broadcast. *)
Definition merging : server := node_at (world_after (run_relay ++ run_votes)) 1.
Lemma merging_wf : server_wf (toy_conf 1) merging.
Proof. apply world_wf; vm_compute; reflexivity. Qed.

Definition committing : server :=
  node_at (world_after ((run_relay ++ run_votes) ++ take 1 run_commit)) 1.
Lemma committing_wf : server_wf (toy_conf 1) committing.
Proof. apply world_wf; vm_compute; reflexivity. Qed.

#[local] Opaque voting fresh packed_state merging committing.

Lemma peer_test i s t :
  (server_id s =? i) = true → ((1 <=? t) && (t <=? 2) && negb (t =? i)) = true →
  is_peer (toy_conf i) s t.
Proof.
  intros Hs Ht. apply Z.eqb_eq in Hs. unfold is_peer. simpl. rewrite Hs.
  destruct (Z.eqb_spec t i); [by rewrite andb_false_r in Ht|]. simpl in Ht.
  apply andb_true_iff in Ht as [Ht _]. apply andb_true_iff in Ht as [?%Z.leb_le ?%Z.leb_le]. lia.
Qed.

Ltac toy_peer := apply peer_test; [vm_compute; reflexivity|reflexivity].

Lemma send_relay_votes_delivers_witness :
  length (queue_of (relay_votes voting) 2) = 1%nat ∧
  wp (send_relay_votes (toy_conf 1)) (λ r s', r = Ret tt ∧ relay_votes s' !! 2 = Some [] ∧
    payloads_to vote_payloads 2 (outbox s') =
      payloads_to vote_payloads 2 (outbox voting) ++
      (to_bytes <$> queue_of (relay_votes voting) 2)) voting.
Proof.
  split; [vm_compute; reflexivity|].
  apply (send_relay_votes_delivers (toy_conf 1) voting 2);
    [apply toy_conf_ok|apply voting_wf|toy_peer].
Defined.

Lemma send_relay_blocks_delivers_witness :
  queue_of (relay_blocks packed_state) 1 = [0%nat] ∧
  wp (send_relay_blocks (toy_conf 2)) (λ r s', r = Ret tt ∧ relay_blocks s' !! 1 = Some [] ∧
    payloads_to block_payloads 1 (outbox s') =
      payloads_to block_payloads 1 (outbox packed_state) ++
      (to_bytes <$> read_all packed_state (queue_of (relay_blocks packed_state) 1)) ∧
    payloads_to signal_ids 1 (outbox s') =
      payloads_to signal_ids 1 (outbox packed_state) ++
      pb_sync_queue packed_state ++ relayed_ids (toy_conf 2) packed_state ∧
    (∃ blocks signals, outbox s' = outbox packed_state ++ blocks ++ signals ∧
       Forall (λ m, signal_ids m.2 = []) blocks ∧
       Forall (λ m, block_payloads m.2 = []) signals) ∧
    pb_sync_queue s' = [] ∧
    (∀ id, id ∈ pb_sync_labels s' ↔ id ∈ pb_sync_labels packed_state ∨
       id ∈ pb_sync_queue packed_state ∨
       ∃ u, is_peer (toy_conf 2) packed_state u ∧
         id ∈ block_ids (read_all packed_state (queue_of (relay_blocks packed_state) u))))
    packed_state.
Proof.
  split; [vm_compute; reflexivity|].
  apply (send_relay_blocks_delivers (toy_conf 2) packed_state 1);
    [apply toy_conf_ok|apply packed_state_wf|toy_peer].
Defined.

Lemma bcast_commits_delivers_witness :
  queue_of (bcast_commit_blocks committing) 2 = [0%nat] ∧
  wp (bcast_commits (toy_conf 1)) (λ r s', r = Ret tt ∧ bcast_commit_blocks s' !! 2 = Some [] ∧
    payloads_to commit_payloads 2 (outbox s') =
      payloads_to commit_payloads 2 (outbox committing) ++
      (to_bytes <$> read_all committing (queue_of (bcast_commit_blocks committing) 2)))
    committing.
Proof.
  split; [vm_compute; reflexivity|].
  apply (bcast_commits_delivers (toy_conf 1) committing 2);
    [apply toy_conf_ok|apply committing_wf|toy_peer].
Defined.

Lemma SPHeartbeat_status_witness :
  wp (SPHeartbeat 1) (λ r s', ∃ ok, r = Ret ok ∧ peer_status s' !! 0%nat = Some ok ∧
    (∀ i, i ≠ 0%nat → peer_status s' !! i = peer_status fresh !! i) ∧
    outbox s' = outbox fresh ++ [(1, SPHeartbeatRequest (sender_id fresh))]) fresh.
Proof.
  apply (SPHeartbeat_status (toy_conf 2) fresh 1);
    [apply toy_conf_ok|apply fresh_wf|toy_peer].
Defined.

Lemma start_establishes_witness :
  wp (start (toy_conf 2)) (λ r s, r = Ret tt ∧ server_wf (toy_conf 2) s ∧ server_id s = 2 ∧
    (∀ t, is_peer (toy_conf 2) s t → relay_votes s !! t = Some [] ∧
       relay_blocks s !! t = Some [] ∧ bcast_commit_blocks s !! t = Some [] ∧
       t ∈ peer_stubs s) ∧
    (∀ i, is_Some (clients s !! i) ↔ 1 ≤ i ≤ 2)) TcServer_new.
Proof.
  refine (start_establishes (toy_conf 2) _ _ _).
  - apply toy_conf_ok.
  - apply (so_addrs _ _ _ toy_sys_ok).
  - apply (so_dkg _ _ _ toy_sys_ok).
Defined.

Lemma generate_tx_result_witness :
  wp (generate_tx (toy_conf 2) 3) (λ r s', r = Ret tt ∧ pending_txs fresh ⊆ pending_txs s' ∧
    (size (pending_txs s') ≤ size (pending_txs fresh) + 3)%nat ∧
    (∀ k tx, pending_txs s' !! k = Some tx →
       pending_txs fresh !! k = Some tx ∨ generated (toy_conf 2) k tx) ∧
    pending_blks s' = pending_blks fresh ∧ heap s' = heap fresh) fresh.
Proof.
  apply (generate_tx_result (toy_conf 2) fresh 3); [apply fresh_wf|].
  unfold accounts_ok. simpl. lia.
Defined.

(** Five transactions of which two go into each block. *)
Definition stocked : server := snd (generate_tx (toy_conf 2) 5 fresh).
Lemma stocked_wf : server_wf (toy_conf 2) stocked.
Proof.
  assert (accounts_ok (toy_conf 2)) as Hac by (unfold accounts_ok; simpl; lia).
  apply (generate_tx_spec (toy_conf 2) fresh 5 fresh_wf Hac).
Qed.
#[local] Opaque stocked.

Lemma pack_block_result_witness :
  size (pending_txs stocked) = 5%nat ∧
  wp (pack_block 2 INT_MAX) (λ r s', r = Ret tt ∧ ∃ bs,
    Z.of_nat (length bs) = Z.min INT_MAX (Z.of_nat (size (pending_txs stocked)) / 2) ∧
    pool_txs stocked ≡ₚ concat (tx_vec_ <$> bs) ++ pool_txs s' ∧
    (∀ i b, bs !! i = Some b → Z.of_nat (length (tx_vec_ b)) = 2 ∧
       id_ (header_ b) = wrap64 (blk_seq_generator stocked + Z.of_nat i) ∧
       heap s' !! (next_loc stocked + i)%nat = Some b) ∧
    (∀ t, relay_blocks s' !! t =
       (λ q, q ++ seq (next_loc stocked) (length bs)) <$> relay_blocks stocked !! t) ∧
    (INT_MAX ≤ 2 ^ 64 → ∀ i b, bs !! i = Some b →
       pending_blks s' !! id_ (header_ b) = Some (next_loc stocked + i)%nat)) stocked.
Proof.
  split; [vm_compute; reflexivity|].
  apply (pack_block_result (toy_conf 2) stocked 2 INT_MAX); [apply stocked_wf|lia|].
  unfold INT_MAX. lia.
Defined.

Definition merged_ok (b : Block) : bool :=
  match Block_merge_votes b 2 with Ret _ => true | _ => false end.

Lemma mergeable_test i s l :
  (there (heap s !! l) && merged_ok (block_at s l)) = true → mergeable (toy_conf i) s l.
Proof.
  unfold there, block_at, mergeable, merged_ok. destruct (heap s !! l) as [b|]; [|done]. simpl.
  destruct (Block_merge_votes b 2) as [m| |] eqn:Em; [|done..]. intros _. by exists b, m.
Qed.

Lemma merge_votes_commits_witness :
  pb_merge_queue merging = [0%nat] ∧
  fst (merge_votes (toy_conf 1) merging) = Ret tt ∧
  pb_merge_queue (snd (merge_votes (toy_conf 1) merging)) = [].
Proof.
  assert (pb_merge_queue merging = [0%nat]) as Hq by (vm_compute; reflexivity).
  split; [exact Hq|].
  destruct (merge_votes_commits (toy_conf 1) merging) as (Hr & Hm & _).
  - apply merging_wf.
  - intros l. rewrite Hq. intros ->%list_elem_of_singleton. apply mergeable_test.
    vm_compute. reflexivity.
  - split; [exact Hr|exact Hm].
Defined.

(** Server 1 with two votes for its block, the second of them [v] by client 2. *)
Definition second_vote (v : BlockVote) : list (world → Z * op) :=
  run_relay ++ take 2 run_votes ++
  [λ _, (1, OpVote 2 (to_bytes (MkBlock (BlockHeader_new toy_id 0xDEADBEEF 1000) []
                                  {[ 2 := v ]} None)))].

(** A vote without a signature share, which the signature library refuses. *)
Definition refusing : server :=
  node_at (world_after (second_vote (MkBlockVote toy_id 2 None))) 1.
Lemma refusing_wf : server_wf (toy_conf 1) refusing.
Proof. apply world_wf; vm_compute; reflexivity. Qed.

(** A vote that repeats the share of client 1. *)
Definition repeating : server :=
  node_at (world_after (second_vote (MkBlockVote toy_id 2 (sig_share_ (toy_vote 1))))) 1.
#[local] Opaque refusing repeating.

Definition throws (e : exn) (b : Block) : bool :=
  match Block_merge_votes b 2, e with
  | Throw InvalidArgument, InvalidArgument => true
  | _, _ => false
  end.

Lemma throws_ok b : throws InvalidArgument b = true → Block_merge_votes b 2 = Throw InvalidArgument.
Proof. unfold throws. by destruct (Block_merge_votes b 2) as [|[]|]. Qed.

(** Three blocks at the server that packs; both clients have voted for each of them, with a
    share every time but once, for the second block. *)
Definition cast_vote (id cid : Z) (share : option BLSSigShare) : world → Z * op :=
  λ _, (2, OpVote cid (to_bytes (MkBlock (BlockHeader_new id 0xDEADBEEF 1000) []
                                   {[ cid := MkBlockVote id cid share ]} None))).
Definition ballots (id : Z) (share : option BLSSigShare) : list (world → Z * op) :=
  [cast_vote id 1 (sig_share_ (toy_vote 1)); cast_vote id 2 share].
Definition run_ballots : list (world → Z * op) :=
  replicate 3 (λ _, (2, OpTask PackRound)) ++
  ballots toy_id (sig_share_ (toy_vote 2)) ++ ballots (toy_id + 1) None ++
  ballots (toy_id + 2) (sig_share_ (toy_vote 2)).

Definition ballot_box : server := node_at (world_after run_ballots) 2.
Lemma ballot_box_wf : server_wf (toy_conf 2) ballot_box.
Proof. apply world_wf; vm_compute; reflexivity. Qed.
#[local] Opaque ballot_box.

(** The first block is committed, the third one waits, the second one is lost. *)
Lemma merge_votes_stops_witness :
  pb_merge_queue ballot_box = [0%nat; 1%nat; 2%nat] ∧
  wp (merge_votes (toy_conf 2)) (λ r s', r = Throw InvalidArgument ∧
    (∃ b m t, heap ballot_box !! 0%nat = Some b ∧ Block_merge_votes b 2 = Ret m ∧
       heap s' !! 0%nat = Some (sealed m t b) ∧
       is_Some (committed_blks s' !! id_ (header_ b))) ∧
    db s' = db ballot_box ++ (db_entry <$> read_all s' [0%nat]) ∧
    pb_merge_queue s' = [2%nat]) ballot_box.
Proof.
  assert (pb_merge_queue ballot_box = [0%nat; 1%nat; 2%nat]) as Hq by (vm_compute; reflexivity).
  split; [exact Hq|].
  destruct (merge_votes_stops (toy_conf 2) ballot_box [0%nat] 1%nat [2%nat]
              (block_at ballot_box 1) InvalidArgument) as (Hr & Hd & Hdb & _ & Hm & _).
  - apply ballot_box_wf.
  - exact Hq.
  - intros l ->%list_elem_of_singleton. apply mergeable_test. vm_compute. reflexivity.
  - apply there_default. vm_compute. reflexivity.
  - apply throws_ok. vm_compute. reflexivity.
  - destruct (Hd 0%nat) as (b & m & t & l & Hb & Hmg & Hs & Hc & _); [by left|].
    split; [exact Hr|]. split; [|split; [exact Hdb|exact Hm]].
    exists b, m, t. split; [exact Hb|]. split; [exact Hmg|]. split; [exact Hs|]. by exists l.
Defined.

Definition repeated_shares : outcome BLSSigShareSet :=
  add_sig_shares (newBLSSigShareSet 2 2) (map_iter (votes_ (block_at repeating 0))).

Lemma commit_without_signature_witness :
  wp (merge_one (toy_conf 1) 0) (λ r s', r = Ret tt ∧
    committed_blks s' !! id_ (header_ (block_at repeating 0)) = Some 0%nat ∧
    (∃ b', heap s' !! 0%nat = Some b' ∧ tss_sig_ b' = None ∧
       votes_ b' = votes_ (block_at repeating 0) ∧ db s' = db repeating ++ [db_entry b']) ∧
    (∀ t, bcast_commit_blocks s' !! t =
       (λ q, q ++ [0%nat]) <$> bcast_commit_blocks repeating !! t)) repeating.
Proof.
  apply (commit_without_signature (toy_conf 1) repeating 0%nat (block_at repeating 0)
           (ret_of (newBLSSigShareSet 2 2) repeated_shares)).
  - apply there_default. vm_compute. reflexivity.
  - apply there_none. vm_compute. reflexivity.
  - apply (ret_of_eq (newBLSSigShareSet 2 2) repeated_shares). vm_compute. reflexivity.
  - vm_compute. reflexivity.
Defined.

(** Server 2 with the block it has packed and relayed, and a threshold of zero. *)
Definition waiting : server := node_at (world_after run_relay) 2.
Lemma waiting_wf : server_wf (toy_conf 2) waiting.
Proof. apply world_wf; vm_compute; reflexivity. Qed.
#[local] Opaque waiting.

Definition toy_conf_die : conf := MkConf 2 2 2 ["a"; "b"]%string 3 2 5 10 0 (Some true).

Lemma waiting_wf_die : server_wf toy_conf_die waiting.
Proof. pose proof waiting_wf as H. destruct H. split; assumption. Qed.

Lemma remove_dead_blocks_result_witness :
  bool_decide (toy_id ∈ dead_block (snd (remove_dead_blocks toy_conf_die waiting))) = true ∧
  fst (remove_dead_blocks toy_conf_die waiting) = Ret tt.
Proof.
  split; [vm_compute; reflexivity|].
  apply (remove_dead_blocks_result toy_conf_die waiting waiting_wf_die).
Defined.

