(* ===== verification/SystemProps.v ===== *)
(** What holds in every reachable state of the system. *)
From Stdlib Require Import ZArith Lia.
From stdpp Require Import base tactics list gmap strings sorting relations.
From S2P Require Import Prelude Decimal Entity FlexCodec ServerState ServerInv ClientService.
From S2P Require Import PeerService ServerCore HandlersProofs SendersProofs CoreProofs MergeProofs Frames.
From S2P Require Import Instances System Holding SystemProofs WorldProofs Scenario.

Section properties.
Context {C : Crypto} {CL : CryptoLaws C} {F : FlexBuffers} {L : FlexBuffersLaws F}.
Context {E : Env} {EL : EnvLaws E}.
Context (cfs : Z → conf) (n c : Z).

(** C1: In every reachable state every block a server has committed is under its own id
    and carries the votes of at least as many distinct clients as the configuration has,
    whatever bytes clients send and however the handlers and timers interleave. *)
Theorem committed_quorum w i nd id l :
  sys_ok cfs n c → reachable cfs n w → w !! i = Some nd →
  committed_blks (state nd) !! id = Some l →
  ∃ b, heap (state nd) !! l = Some b ∧ id_ (header_ b) = id ∧
       c ≤ Z.of_nat (size (votes_ b)).
Proof.
  intros Hsys Hr Hi Hc.
  destruct (reachable_inv cfs n c Hsys w Hr _ _ Hi) as (_ & _ & Hn).
  destruct (wf_committed _ _ (ni_wf _ _ _ Hn) _ _ Hc) as (b & Hb & Hid & Hq).
  exists b. split_and!; try done. unfold quorum in Hq. by rewrite (so_clients _ _ _ Hsys) in Hq.
Qed.

(** C2: Agreement: two servers that have committed blocks under one id have committed the
    same base, proposal time and transactions, in every state reached without a block
    counter wrapping around. *)
Theorem agreement w i j ndi ndj id li lj :
  sys_ok cfs n c → reachable_nowrap cfs n w →
  w !! i = Some ndi → w !! j = Some ndj →
  committed_blks (state ndi) !! id = Some li → committed_blks (state ndj) !! id = Some lj →
  ∃ bi bj, heap (state ndi) !! li = Some bi ∧ heap (state ndj) !! lj = Some bj ∧
    base_id_ (header_ bi) = base_id_ (header_ bj) ∧
    proposal_ts_ (header_ bi) = proposal_ts_ (header_ bj) ∧ tx_vec_ bi = tx_vec_ bj.
Proof.
  intros Hsys Hr Hi Hj Hci Hcj.
  destruct (reachable_agreed cfs n c Hsys w Hr) as [G HG].
  destruct (ag_inv _ _ _ _ HG _ _ Hi) as (_ & _ & Hni).
  destruct (ag_inv _ _ _ _ HG _ _ Hj) as (_ & _ & Hnj).
  destruct (wf_committed _ _ (ni_wf _ _ _ Hni) _ _ Hci) as (bi & Hbi & Hidi & _).
  destruct (wf_committed _ _ (ni_wf _ _ _ Hnj) _ _ Hcj) as (bj & Hbj & Hidj & _).
  exists bi, bj. pose proof (ni_heap _ _ _ Hni _ _ Hbi) as Hli.
  pose proof (ni_heap _ _ _ Hnj _ _ Hbj) as Hlj. unfold listed in *.
  rewrite Hidi in Hli. rewrite Hidj, Hli in Hlj. unfold content in Hlj.
  split_and!; [done..|congruence|congruence|congruence].
Qed.

(** C3: Validity: what any server has committed is a block the last server of the
    configuration has packed: it has made a block with the same id, base, proposal time and
    transactions, under an id its counter has passed. *)
Theorem committed_was_packed w i nd id l :
  sys_ok cfs n c → reachable_nowrap cfs n w → w !! i = Some nd →
  committed_blks (state nd) !! id = Some l →
  ∃ b packer l0 b0, heap (state nd) !! l = Some b ∧
    w !! n = Some packer ∧ heap (state packer) !! l0 = Some b0 ∧
    id_ (header_ b0) = id ∧ content b0 = content b ∧ id < blk_seq_generator (state packer).
Proof.
  intros Hsys Hr Hi Hc. destruct (reachable_agreed cfs n c Hsys w Hr) as [G HG].
  destruct (ag_inv _ _ _ _ HG _ _ Hi) as (_ & _ & Hn).
  destruct (wf_committed _ _ (ni_wf _ _ _ Hn) _ _ Hc) as (b & Hb & Hid & _).
  pose proof (ni_heap _ _ _ Hn _ _ Hb) as Hl. unfold listed in Hl. rewrite Hid in Hl.
  destruct (ag_packed _ _ _ _ HG _ _ Hl) as (pk & l0 & b0 & ? & ? & ? & ? & ?).
  by exists b, pk, l0, b0.
Qed.

(** C8: Along every run a committed block stays committed, a dead block dead and a
    signalled block signalled. A block that a map or a queue of a server points to is there,
    and for as long as it is held its votes only grow and its transactions and its id do not
    change. What a server comes to hold is new: a block it has let go of, which the code
    frees, is never held again. *)
Theorem runs_only_grow w w' i nd :
  sys_ok cfs n c → reachable cfs n w → rtc (wstep cfs) w w' → w !! i = Some nd →
  ∃ nd', w' !! i = Some nd' ∧
    dom (committed_blks (state nd)) ⊆ dom (committed_blks (state nd')) ∧
    dead_block (state nd) ⊆ dead_block (state nd') ∧
    pb_sync_labels (state nd) ⊆ pb_sync_labels (state nd') ∧
    (∀ l, held (state nd') l → ∃ b', heap (state nd') !! l = Some b' ∧
       (held (state nd) l ∧ (∃ b, heap (state nd) !! l = Some b ∧
          votes_ b ⊆ votes_ b' ∧ tx_vec_ b' = tx_vec_ b ∧
          id_ (header_ b') = id_ (header_ b)) ∨
        ¬ held (state nd) l ∧ (next_loc (state nd) ≤ l)%nat)).
Proof.
  intros Hsys Hr Hrun Hi. pose proof (reachable_inv cfs n c Hsys w Hr) as Hinv.
  destruct (steps_evolve cfs n c Hsys w w' i nd Hinv Hrun Hi) as (nd' & Hi' & He).
  exists nd'. split_and!; try apply He; [done|]. intros l Hl.
  assert (reachable cfs n w') as Hr'.
  { destruct Hr as (w0 & H0 & Hw). exists w0. split; [done|by etrans]. }
  destruct (reachable_inv cfs n c Hsys w' Hr' _ _ Hi') as (_ & _ & Hn').
  destruct (Hinv _ _ Hi) as (_ & _ & Hn).
  destruct (held_valid _ _ _ (ni_wf _ _ _ Hn') Hl) as [b' Hb']. exists b'. split; [done|].
  destruct (steps_handed cfs w w' i nd nd' Hrun Hi Hi') as [_ Hh].
  assert (held (state nd) l → ∃ b, heap (state nd) !! l = Some b ∧ block_le b b') as Hold.
  { intros Hl0. destruct (held_valid _ _ _ (ni_wf _ _ _ Hn) Hl0) as [b Hb]. exists b.
    split; [done|]. destruct (ev_heap _ _ He _ _ Hb) as (b1 & Hb1 & Hle). congruence. }
  destruct (Hh l Hl) as [Hl0|[Hl0|Hnew]]; [left|by apply not_elem_of_nil in Hl0|].
  - split; [done|]. destruct (Hold Hl0) as (b & Hb & Hle). exists b.
    split_and!; [done|apply Hle..].
  - right. split; [|done]. intros (b & Hb & _)%Hold.
    apply (wf_heap _ _ (ni_wf _ _ _ Hn)) in Hb as [? _]. lia.
Qed.


(** C10: At every server a block is at one stage at a time: no pending block is waiting to
    be merged, so no block is handed to the merge queue twice, and the queue holds only
    blocks with enough votes. *)
Theorem merged_at_most_once w i nd :
  sys_ok cfs n c → reachable cfs n w → w !! i = Some nd →
  NoDup (pb_merge_queue (state nd)) ∧
  (∀ id l, pending_blks (state nd) !! id = Some l → l ∉ pb_merge_queue (state nd)) ∧
  (∀ l, l ∈ pb_merge_queue (state nd) → ∃ b, heap (state nd) !! l = Some b ∧
     is_vote_enough b (client_count (cfs i)) = true).
Proof.
  intros Hsys Hr Hi. destruct (reachable_inv cfs n c Hsys w Hr _ _ Hi) as (_ & _ & Hn).
  apply ni_wf in Hn. split_and!.
  - apply (wf_merge_nodup _ _ Hn).
  - apply (wf_merge_pending _ _ Hn).
  - intros l Hl. destruct (wf_merge _ _ Hn l Hl) as (b & Hb & Hq). exists b. split; [done|].
    by apply is_vote_enough_spec.
Qed.

End properties.

(** ** The theorems at the run of [Scenario.v] *)

#[local] Existing Instances toy_crypto toy_flex toy_env.

Lemma committed_reached : reachable_nowrap toy_conf 2 committed_world.
Proof. apply run_reached. vm_compute. reflexivity. Qed.

Lemma voted_reached : reachable toy_conf 2 voted_world.
Proof. eapply reachable_nowrap_reachable, run_reached. vm_compute. reflexivity. Qed.

(** Server [1] has committed the block, with a vote of each client. *)
Lemma committed_quorum_witness :
  committed_blks (node_at committed_world 1) !! toy_id = Some 0%nat ∧
  ∃ b, heap (node_at committed_world 1) !! 0%nat = Some b ∧ id_ (header_ b) = toy_id ∧
       2 ≤ Z.of_nat (size (votes_ b)).
Proof.
  split; [vm_compute; reflexivity|].
  apply (committed_quorum toy_conf 2 2 committed_world 1
           (MkNode true (node_at committed_world 1)) toy_id 0%nat).
  - apply toy_sys_ok.
  - apply reachable_nowrap_reachable, committed_reached.
  - apply node_at_up. vm_compute. reflexivity.
  - vm_compute. reflexivity.
Defined.

(** Both servers have committed it. *)
Lemma agreement_witness :
  committed_blks (node_at committed_world 1) !! toy_id = Some 0%nat ∧
  committed_blks (node_at committed_world 2) !! toy_id = Some 1%nat ∧
  ∃ b1 b2, heap (node_at committed_world 1) !! 0%nat = Some b1 ∧
    heap (node_at committed_world 2) !! 1%nat = Some b2 ∧
    base_id_ (header_ b1) = base_id_ (header_ b2) ∧
    proposal_ts_ (header_ b1) = proposal_ts_ (header_ b2) ∧ tx_vec_ b1 = tx_vec_ b2.
Proof.
  split; [vm_compute; reflexivity|]. split; [vm_compute; reflexivity|].
  apply (agreement toy_conf 2 2 committed_world 1 2
           (MkNode true (node_at committed_world 1)) (MkNode true (node_at committed_world 2))
           toy_id 0%nat 1%nat).
  - apply toy_sys_ok.
  - apply committed_reached.
  - apply node_at_up. vm_compute. reflexivity.
  - apply node_at_up. vm_compute. reflexivity.
  - vm_compute. reflexivity.
  - vm_compute. reflexivity.
Defined.

Lemma committed_was_packed_witness :
  ∃ b packer l0 b0, heap (node_at committed_world 1) !! 0%nat = Some b ∧
    committed_world !! 2 = Some packer ∧ heap (state packer) !! l0 = Some b0 ∧
    id_ (header_ b0) = toy_id ∧ content b0 = content b ∧
    toy_id < blk_seq_generator (state packer).
Proof.
  apply (committed_was_packed toy_conf 2 2 committed_world 1
           (MkNode true (node_at committed_world 1)) toy_id 0%nat).
  - apply toy_sys_ok.
  - apply committed_reached.
  - apply node_at_up. vm_compute. reflexivity.
  - vm_compute. reflexivity.
Defined.

(** From the votes to the commits. *)
Lemma runs_only_grow_witness :
  ∃ nd', committed_world !! 1 = Some nd' ∧
    dom (committed_blks (node_at voted_world 1)) ⊆ dom (committed_blks (state nd')) ∧
    dead_block (node_at voted_world 1) ⊆ dead_block (state nd') ∧
    pb_sync_labels (node_at voted_world 1) ⊆ pb_sync_labels (state nd') ∧
    (∀ l, held (state nd') l → ∃ b', heap (state nd') !! l = Some b' ∧
       (held (node_at voted_world 1) l ∧ (∃ b, heap (node_at voted_world 1) !! l = Some b ∧
          votes_ b ⊆ votes_ b' ∧ tx_vec_ b' = tx_vec_ b ∧
          id_ (header_ b') = id_ (header_ b)) ∨
        ¬ held (node_at voted_world 1) l ∧ (next_loc (node_at voted_world 1) ≤ l)%nat)).
Proof.
  apply (runs_only_grow toy_conf 2 2 voted_world committed_world 1
           (MkNode true (node_at voted_world 1))).
  - apply toy_sys_ok.
  - apply voted_reached.
  - apply voted_to_committed.
  - apply node_at_up. vm_compute. reflexivity.
Defined.


Lemma merged_at_most_once_witness :
  pb_merge_queue (node_at voted_world 1) = [0%nat] ∧
  NoDup (pb_merge_queue (node_at voted_world 1)) ∧
  (∀ id l, pending_blks (node_at voted_world 1) !! id = Some l →
     l ∉ pb_merge_queue (node_at voted_world 1)) ∧
  (∀ l, l ∈ pb_merge_queue (node_at voted_world 1) →
     ∃ b, heap (node_at voted_world 1) !! l = Some b ∧ is_vote_enough b 2 = true).
Proof.
  split; [vm_compute; reflexivity|].
  apply (merged_at_most_once toy_conf 2 2 voted_world 1
           (MkNode true (node_at voted_world 1))).
  - apply toy_sys_ok.
  - apply voted_reached.
  - apply node_at_up. vm_compute. reflexivity.
Defined.
