(* ===== verification/ProgressProps.v ===== *)
(** What the system promises as a whole: it refines the abstract chain, clients and servers
    together keep both invariants, and a block that is voted for can be committed. *)
From Stdlib Require Import ZArith Lia Ascii String.
From stdpp Require Import base tactics list gmap strings sorting relations.
From S2P Require Import Prelude Decimal Entity FlexCodec Msgpack ServerState ServerInv.
From S2P Require Import Client ClientService PeerService ServerCore ClientProofs HandlersProofs.
From S2P Require Import SendersProofs CoreProofs MergeProofs Instances System Network NetworkProofs.
From S2P Require Import SystemProofs WorldProofs Ledger Liveness VoteArrival Scenario.

Section properties.
Context {C : Crypto} {CL : CryptoLaws C} {F : FlexBuffers} {L : FlexBuffersLaws F}.
Context {E : Env} {EL : EnvLaws E}.
Context (cfs : Z → conf) (n c : Z).

(** C4: The servers implement the abstract chain: the started system stands for the empty
    chain, and whatever a server does is a sequence of its two steps, entering the content
    of a block under an id that has none and letting one server commit an id that has been
    entered. *)
Theorem servers_refine_chain :
  sys_ok cfs n c →
  (∀ w, initial cfs n w → refines cfs n w (empty_chain n)) ∧
  (∀ w w' σ, wstep_nowrap cfs w w' → refines cfs n w σ →
     ∃ σ', rtc chain_step σ σ' ∧ refines cfs n w' σ') ∧
  (∀ w i nd σ id l, refines cfs n w σ → w !! i = Some nd →
     committed_blks (state nd) !! id = Some l →
     ∃ b X, heap (state nd) !! l = Some b ∧ packed σ !! id = Some (content b) ∧
            committed_by σ !! i = Some X ∧ id ∈ X).
Proof.
  intros Hsys. split_and!.
  - by apply (refines_initial cfs n c).
  - by apply (refines_step cfs n c).
  - intros w i nd σ id l [HG HK] Hi Hl.
    destruct (ag_inv _ _ _ _ HG _ _ Hi) as (_ & _ & Hn).
    destruct (wf_committed _ _ (ni_wf _ _ _ Hn) _ _ Hl) as (b & Hb & <- & _).
    exists b, (committed_ids nd). split_and!; [done| | |].
    + exact (ni_heap _ _ _ Hn _ _ Hb).
    + by rewrite HK, lookup_fmap, Hi.
    + unfold committed_ids. apply elem_of_dom. by exists l.
Qed.

(** C5: Progress. A live block that is pending at one of its servers, with no other block
    waiting to be merged there, is committed there in some run, as soon as every client
    that has not voted yet has a vote to give to any server that has not declared the block
    dead and the library accepts the shares; it is then committed with exactly those votes,
    and from there some run commits it at every server that still has it pending. *)
Theorem votes_commit_block (w : world) t s id l b (ds : list ballot) m :
  sys_ok cfs n c → reachable cfs n w → w !! t = Some (MkNode true s) →
  awaiting s id l b → t ∈ assigned n id → ds ≠ [] →
  NoDup (by_client <$> ds) → Forall (castable w id) ds →
  (∀ d, d ∈ ds → votes_ b !! by_client d = None) →
  Z.of_nat (size (votes_ b)) + Z.of_nat (length ds) = c →
  keys_small (cast ds ∪ votes_ b) →
  Block_merge_votes (upd_votes (λ _, cast ds ∪ votes_ b) b) c = Ret m →
  ∃ w1 s1 b1, rtc (wstep cfs) w w1 ∧ w1 !! t = Some (MkNode true s1) ∧
    committed_blks s1 !! id = Some l ∧ heap s1 !! l = Some b1 ∧
    id_ (header_ b1) = id ∧ votes_ b1 = cast ds ∪ votes_ b ∧ tx_vec_ b1 = tx_vec_ b ∧
    tss_sig_ b1 = tss_sig_ m ∧
    ∃ w2, rtc (wstep cfs) w1 w2 ∧ has_committed w2 id t ∧
      ∀ j sj, w1 !! j = Some (MkNode true sj) → is_Some (pending_blks sj !! id) →
              has_committed w2 id j.
Proof.
  intros Hsys Hr Ht Hw Hta Hne Hnd Hcast Hnew Hsize Hks Hm.
  destruct (block_committed cfs n c Hsys ds w t s id l b m)
    as (w1 & s1 & b1 & W1 & Ht1 & _ & Hc1 & Hh1 & Hid1 & Hv1 & Htx1 & Hs1 & Hq); [done..|].
  assert (reachable cfs n w1) as Hr1 by (by eapply reachable_steps).
  exists w1, s1, b1. split_and!; try done.
  set (js := filter (λ j, j ≠ t ∧ pending_at w1 id j = true) (elements (dom w1))).
  destruct (commits_delivered cfs n c Hsys w1 t l b1 id js)
    as (w2 & W2 & Hjs & Hct & Hsame); [done|done|by rewrite Hv1|apply NoDup_filter, NoDup_elements| |].
  - exists s1. split_and!; [done|done|by exists l|].
    intros j [[Hjt Hp] _]%list_elem_of_filter. split; [done|].
    unfold pending_at in Hp. destruct (w1 !! j) as [[[] sj]|] eqn:Hj; [|done..].
    destruct (reachable_inv cfs n c Hsys w1 Hr1 _ _ Hj) as (Hjr & _).
    split; [by apply Hq|]. exists sj. split; [done|]. by apply bool_decide_eq_true in Hp.
  - exists w2. split_and!; [done|done|]. intros j sj Hj Hp.
    destruct (decide (j = t)) as [->|Hjt]; [done|]. apply Hjs, list_elem_of_filter. split.
    + split; [done|]. unfold pending_at. rewrite Hj. by apply bool_decide_eq_true.
    + apply elem_of_elements, elem_of_dom. by eexists.
Qed.

End properties.

Section clients.
Context {C : Crypto} {CL : CryptoLaws C} {F : FlexBuffers} {L : FlexBuffersLaws F}.
Context {E : Env} {EL : EnvLaws E} {K : Msgpack} {CE : ClientEnv} {NE : NetEnv}.
Context (cfs : Z → conf) (n c : Z).

(** C7: Clients that come up, run their threads and stop, on servers that take their own
    steps, keep every client in its invariant and the servers in a state that the servers
    can reach by themselves, so that all that holds of those states holds here. *)
Theorem clients_keep_invariants (w : world) (k : nat) (s : system) :
  sys_ok cfs n c → reachable cfs n w →
  rtc (sstep cfs) (MkSystem ∅ (MkNetwork w k)) s →
  clients_wf s ∧ reachable cfs n (servers (net_of s)) ∧
  rtc (wstep cfs) w (servers (net_of s)).
Proof.
  intros Hsys Hr Hs. pose proof (ssteps_move cfs _ _ Hs) as Hm. split_and!.
  - exact (ssteps_clients_wf cfs _ _ Hs (map_Forall_empty _)).
  - by eapply reachable_steps.
  - done.
Qed.

(** C6: The vote of an honest client counts: a round of its voting thread, when the call
    to the server of its choice is delivered, adds the client's signed vote to the block
    that server has pending, and hands the block to the merge queue there exactly when the
    vote completes the count. *)
Theorem client_vote_counts (w : world) k (cl : client network) b a0 a1 sk pk h share i s l blk :
  let id := id_ (header_ b) in
  let cid := client_id cl in
  sys_ok cfs n c → reachable cfs n w → client_wf cl → queued_blks cl = [b] → block_wf b →
  keys_small (votes_ b) → cid < 2 ^ 31 → votes_ b !! cid = None → stubs cl = [a0; a1] →
  client_tss_key cl = Some (sk, pk) → (length (tx_vec_ b) ≤ 2000)%nat →
  get_sha256 b = Ret h → sign sk h cid = Ret share →
  listen a0 = Some i → listen a1 ≠ Some i → call_fate k = Delivered →
  w !! i = Some (MkNode true s) → i ∈ assigned n id → id ∉ dead_block s →
  pending_blks s !! id = Some l → heap s !! l = Some blk → votes_ blk !! cid = None →
  ∃ cl' net' s' blk', client_round cfs VoteThread cl (MkNetwork w k) = (Some cl', net') ∧
    servers net' !! i = Some (MkNode true s') ∧ heap s' !! l = Some blk' ∧
    votes_ blk' = <[cid := MkBlockVote id cid (Some share)]> (votes_ blk) ∧
    if Z.of_nat (size (votes_ blk)) + 1 <? c
    then pending_blks s' !! id = Some l ∧ pb_merge_queue s' = pb_merge_queue s
    else pending_blks s' !! id = None ∧ pb_merge_queue s' = pb_merge_queue s ++ [l].
Proof.
  intros id cid Hsys Hr Hc Hq Hb Hks Hsm Hn Hst Hk Hlen Hh Hs Ha0 Ha1 Hf Hi Hin Hd Hp Hl Hnew.
  destruct (vote_round_counts cfs n c Hsys w k cl b a0 a1 sk pk h share i s l blk)
    as (cl' & net' & s' & Hround & Hi' & Hl' & Hst'); [done..|].
  assert (votes_ (add_vote cid (vote_in cid share b) blk) =
          <[cid := vote_in cid share b]> (votes_ blk)) as Hvs.
  { simpl. unfold map_insert_new. by rewrite Hnew. }
  exists cl', net', s', (add_vote cid (vote_in cid share b) blk). split_and!; try done.
  unfold is_vote_enough in Hst'. fold cid in Hst'. rewrite Hvs, map_size_insert_None in Hst' by done.
  destruct (Z.ltb_spec (Z.of_nat (size (votes_ blk)) + 1) c),
    (Z.leb_spec c (Z.of_nat (S (size (votes_ blk))))); try lia;
    destruct Hst' as [-> ->]; split; try done. apply lookup_delete_eq.
Qed.

End clients.

(** ** Concrete runs *)

#[local] Existing Instances toy_crypto toy_flex toy_env toy_msgpack toy_client_env.

Lemma relayed_reached : reachable_nowrap toy_conf 2 relayed_world.
Proof. apply run_reached. vm_compute. reflexivity. Qed.

Lemma toy_started : initial toy_conf 2 toy_start.
Proof. apply (start_all_initial toy_conf 2). Qed.

#[local] Opaque toy_start relayed_world.

(** Two servers on one machine; no call is lost. *)
#[local] Instance toy_net : NetEnv := {|
  listen a := if String.eqb a "127.0.0.1:2511" then Some 1
              else if String.eqb a "127.0.0.1:2512" then Some 2 else None;
  call_fate _ := Delivered;
|}.

Definition network_conf : client_conf :=
  MkClientConf 2 2 3 (Some "false"%string) "127.0.0.1"%string 2510 2.

(** A client that comes up on the relayed block, and what is left of it after a round. *)
Definition came_up : outcome unit * option (client network) :=
  client_main (N := world_stub toy_conf) 0 network_conf ∅ (MkNetwork relayed_world 0).

Definition is_client (r : outcome unit * option (client network)) : bool :=
  match r with (Ret _, Some _) => true | _ => false end.

Definition the_client : client network :=
  default (TcClient_members EmptyString EmptyString ∅ (MkNetwork ∅ 0)) came_up.2.

Lemma came_up_eq : came_up = (Ret tt, Some the_client).
Proof.
  assert (H : is_client came_up = true) by (vm_compute; reflexivity).
  unfold the_client. destruct came_up as [[[]| |] [cl|]]; done.
Qed.

Definition after_pull : option (client network) * network :=
  client_round toy_conf PullThread the_client (net the_client).

Lemma clients_keep_invariants_witness :
  clients_wf (MkSystem (partial_alter (λ _, after_pull.1) 1 {[ 1 := the_client ]}) after_pull.2) ∧
  reachable toy_conf 2 (servers after_pull.2).
Proof.
  destruct (clients_keep_invariants toy_conf 2 2 relayed_world 0
              (MkSystem (partial_alter (λ _, after_pull.1) 1 {[ 1 := the_client ]}) after_pull.2))
    as (H1 & H2 & _); [| | |split; [exact H1|exact H2]].
  - apply toy_sys_ok.
  - apply reachable_nowrap_reachable, relayed_reached.
  - eapply rtc_l; [|apply rtc_once].
    + apply (SStart toy_conf ∅ (MkNetwork relayed_world 0) 1 0 network_conf ∅ (Ret tt) the_client);
        [unfold u64; simpl; lia..|reflexivity|exact came_up_eq|reflexivity].
    + apply (SRound toy_conf _ _ 1 the_client PullThread after_pull.1 after_pull.2).
      * apply lookup_insert_eq.
      * apply surjective_pairing.
Defined.

(** The started servers stand for the empty chain. *)
Lemma servers_refine_chain_witness : refines toy_conf 2 toy_start (empty_chain 2).
Proof. apply (servers_refine_chain toy_conf 2 2 toy_sys_ok), toy_started. Defined.

(** The votes of the two clients, each given to a server of its own. *)
Definition toy_ballots : list ballot :=
  [ MkBallot 1 2 (to_bytes (voted_block 1)) (toy_vote 1);
    MkBallot 2 1 (to_bytes (voted_block 2)) (toy_vote 2) ].

Lemma toy_castable w k i s :
  0 ≤ k < 2 ^ 31 → w !! i = Some (MkNode true s) → bool_decide (toy_id ∈ dead_block s) = false →
  castable w toy_id (MkBallot k i (to_bytes (voted_block k)) (toy_vote k)).
Proof.
  intros Hk Hi Hd. split_and!; simpl.
  - unfold u64. lia.
  - split_and!; [apply toy_vote_wf; unfold u64; lia|done..].
  - exists (voted_block k). split_and!; [by apply voted_block_read|done|]. apply lookup_singleton_eq.
  - exists s. split; [done|]. exact (proj1 (bool_decide_eq_false _) Hd).
Qed.

(** The block server 1 has pending in the relayed world. *)
Definition relayed_block : Block := block_at (node_at relayed_world 1) 0.
Definition fully_voted : Block :=
  upd_votes (λ _, cast toy_ballots ∪ votes_ relayed_block) relayed_block.

Lemma relayed_block_unvoted : votes_ relayed_block = ∅.
Proof.
  assert (H : (size (votes_ relayed_block) =? 0)%nat = true) by (vm_compute; reflexivity).
  by apply map_size_empty_iff, Nat.eqb_eq.
Qed.

Lemma relayed_waiting : awaiting (node_at relayed_world 1) toy_id 0%nat relayed_block.
Proof.
  split.
  - vm_compute. reflexivity.
  - apply there_default. vm_compute. reflexivity.
  - apply (proj1 (bool_decide_eq_false _)). vm_compute. reflexivity.
  - vm_compute. reflexivity.
Qed.

Lemma votes_commit_block_witness :
  ∃ w1 s1 b1, rtc (wstep toy_conf) relayed_world w1 ∧ w1 !! 1 = Some (MkNode true s1) ∧
    committed_blks s1 !! toy_id = Some 0%nat ∧ heap s1 !! 0%nat = Some b1 ∧
    id_ (header_ b1) = toy_id ∧ votes_ b1 = cast toy_ballots ∪ votes_ relayed_block ∧
    tx_vec_ b1 = tx_vec_ relayed_block ∧
    tss_sig_ b1 = tss_sig_ (ret_of Block_default (Block_merge_votes fully_voted 2)) ∧
    ∃ w2, rtc (wstep toy_conf) w1 w2 ∧ has_committed w2 toy_id 1 ∧
      ∀ j sj, w1 !! j = Some (MkNode true sj) → is_Some (pending_blks sj !! toy_id) →
              has_committed w2 toy_id j.
Proof.
  apply (votes_commit_block toy_conf 2 2 relayed_world 1 (node_at relayed_world 1) toy_id 0%nat
           relayed_block toy_ballots (ret_of Block_default (Block_merge_votes fully_voted 2))).
  - apply toy_sys_ok.
  - apply reachable_nowrap_reachable, relayed_reached.
  - apply node_at_up. vm_compute. reflexivity.
  - apply relayed_waiting.
  - apply (bool_decide_eq_true_1 _). vm_compute. reflexivity.
  - discriminate.
  - apply (bool_decide_eq_true_1 _). vm_compute. reflexivity.
  - repeat apply Forall_cons_2; [| |done]; 
      (eapply toy_castable; [lia|apply node_at_up; vm_compute; reflexivity|vm_compute; reflexivity]).
  - intros d _. rewrite relayed_block_unvoted. apply lookup_empty.
  - rewrite relayed_block_unvoted. reflexivity.
  - rewrite relayed_block_unvoted, (right_id_L ∅ (∪)). unfold keys_small.
    repeat (apply map_Forall_insert_2; [simpl; lia|]). apply map_Forall_empty.
  - apply ret_of_eq. vm_compute. reflexivity.
Defined.

(** A client that has fetched the block and has its key, and its vote at server 2. *)
Definition pulled_block : Block := Block_new toy_id 0xDEADBEEF 1000.

Definition voting_client : client network :=
  upd_queued (λ _, [pulled_block])
    (set_tss_key (Byte.x05, Byte.x05)
       (initialised network_conf
          (TcClient_members "127.0.0.1:2512"%string "127.0.0.1:2511"%string ∅
             (MkNetwork ∅ 0)))).

Lemma pulled_block_wf : block_wf pulled_block.
Proof.
  split; [|split]; [split_and!; simpl; unfold u64, toy_id; lia|constructor|apply map_Forall_empty].
Qed.

Lemma voting_client_wf : client_wf voting_client.
Proof.
  assert (u64 (conf_client_id network_conf)) as H by (unfold u64; simpl; lia).
  apply upd_queued_wf; [apply Forall_singleton, pulled_block_wf|].
  by destruct (initialised_wf (W := network) network_conf "127.0.0.1:2512"%string
                 "127.0.0.1:2511"%string ∅ (MkNetwork ∅ 0) H).
Qed.

Definition pulled_hash : bytes := ret_of [] (get_sha256 pulled_block).
Definition pulled_share : toy_share :=
  ret_of (ToyShare Byte.x05 "hint" 2 2 2 eq_refl) (toy_sign Byte.x05 pulled_hash 2).

(** The block server 2 has packed. *)
Definition packed_block : Block := block_at (node_at relayed_world 2) 0.

Lemma packed_block_unvoted : votes_ packed_block = ∅.
Proof.
  assert (H : (size (votes_ packed_block) =? 0)%nat = true) by (vm_compute; reflexivity).
  by apply map_size_empty_iff, Nat.eqb_eq.
Qed.

Lemma client_vote_counts_witness :
  ∃ cl' net' s' blk',
    client_round toy_conf VoteThread voting_client (MkNetwork relayed_world 0) =
      (Some cl', net') ∧
    servers net' !! 2 = Some (MkNode true s') ∧ heap s' !! 0%nat = Some blk' ∧
    votes_ blk' = <[2 := MkBlockVote toy_id 2 (Some pulled_share)]> (votes_ packed_block) ∧
    if Z.of_nat (size (votes_ packed_block)) + 1 <? 2
    then pending_blks s' !! toy_id = Some 0%nat ∧
         pb_merge_queue s' = pb_merge_queue (node_at relayed_world 2)
    else pending_blks s' !! toy_id = None ∧
         pb_merge_queue s' = pb_merge_queue (node_at relayed_world 2) ++ [0%nat].
Proof.
  apply (client_vote_counts toy_conf 2 2 relayed_world 0 voting_client pulled_block
           "127.0.0.1:2512"%string "127.0.0.1:2511"%string Byte.x05 Byte.x05 pulled_hash
           pulled_share 2 (node_at relayed_world 2) 0%nat packed_block).
  - apply toy_sys_ok.
  - apply reachable_nowrap_reachable, relayed_reached.
  - apply voting_client_wf.
  - reflexivity.
  - apply pulled_block_wf.
  - apply map_Forall_empty.
  - reflexivity.
  - reflexivity.
  - reflexivity.
  - reflexivity.
  - simpl. lia.
  - apply ret_of_eq. vm_compute. reflexivity.
  - apply (ret_of_eq (ToyShare Byte.x05 "hint" 2 2 2 eq_refl)). vm_compute. reflexivity.
  - reflexivity.
  - discriminate.
  - reflexivity.
  - apply node_at_up. vm_compute. reflexivity.
  - apply (bool_decide_eq_true_1 _). vm_compute. reflexivity.
  - apply (proj1 (bool_decide_eq_false _)). vm_compute. reflexivity.
  - vm_compute. reflexivity.
  - apply there_default. vm_compute. reflexivity.
  - rewrite packed_block_unvoted. reflexivity.
Defined.
